(** * Upload orchestration of the MinIO upload manager

    A shallow embedding of the two [UploadManager] implementations of the
    repository (the gap-scanning one with per-part retry and an abort flag,
    and the cursor-only one), together with the properties of the upload
    specification that concern them.

    Modelling conventions.
    - Every [await] of the source is a suspension point.  The outside world
      is an explicit oracle [Env]: it answers the operations the manager
      issues (file system, S3 commands, timers), it chooses which pending
      part promise settles next, and it may call [pauseUpload] and
      [abortUpload] while the manager is suspended.  The oracles read the
      whole history, so every deterministic environment is an [Env].
    - The history [log] records issued operations, their settlements, the
      progress callbacks and the external calls, newest first; [trace]
      gives it in chronological order.
    - [UploadState] objects live in a heap and the registry
      [uploadStates] maps a state key to a heap location, as the JS [Map]
      holds references: a transfer keeps mutating its object after the
      entry was deleted or replaced.
    - A run is followed from the call to the settlement of its promise.
      The progress callback and [console.log] do not throw.  File sizes are
      non-negative integers below 2^53, so that [Math.ceil(a / b)] is the
      integer ceiling; percentages are exact rationals in lowest terms.
    - The two loops, the transfer loop and the event loop behind
      [Promise.all], are recursive on a bound on their passes.  The bound
      is never reached: see [Gap_uploadFile_terminates],
      [Gap_resumeUpload_terminates] and their counterparts for the
      cursor-only manager. *)

From stdpp Require Import gmap strings list sorting.
From Stdlib Require Import ZArith QArith Qminmax Lia Sorted.

Open Scope Z_scope.
Open Scope nat_scope.

(** ** Constants *)

Definition MULTIPART_THRESHOLD : Z := 5 * 1024 * 1024.
Definition PART_SIZE : Z := 5 * 1024 * 1024.
Definition MAX_CONCURRENT_UPLOADS : nat := 3.

(** ** Data *)

Inductive Status := uploading | paused | completed | failed.

Record ProgressInfo := mkProgress {
  fileName : string;
  uploadedBytes : Z;
  totalBytes : Z;
  percentage : Q;
  currentPart : option nat;
  totalParts : option nat;
  status : Status }.

Record Part := mkPart { PartNumber : nat; ETag : string }.

(** Operations the manager awaits. *)
Inductive Op :=
| DenoStat (path : string)
| DenoReadFile (path : string)
| DenoOpen (path : string)
| FileSeek (path : string) (offset : Z)
| FileRead (path : string) (len : Z)
| PutObject (bucket key : string)
| CreateMultipartUpload (bucket key : string)
| ListParts (bucket key uploadId : string)
| UploadPart (bucket key uploadId : string) (partNumber : nat)
| CompleteMultipartUpload (bucket key uploadId : string) (parts : list Part)
| AbortMultipartUpload (bucket key uploadId : string)
| SetTimeout (ms : Z).

(** What an awaited operation settles with.  [WithId] carries the
    [UploadId] or the [ETag] of a response, [Fulfilled] is a response
    without the field the caller looks for. *)
Inductive Reply :=
| Failure
| Fulfilled
| WithSize (size : Z)
| WithId (id : string)
| WithParts (parts : list Part).

(** Calls made from outside while a transfer is suspended. *)
Inductive Call :=
| CallPause (bucket key : string)
| CallAbort (bucket key : string).

Inductive Entry :=
| Issue (o : Op)
| Settle (o : Op) (r : Reply)
| Emit (p : ProgressInfo)
| FileClose (path : string)
| Extern (c : Call).

Inductive Error :=
| OpFailed (o : Op)
| InitiateFailed
| NoUploadId
| PartFailed (partNumber : nat)
| UploadIncomplete (have total : nat)
| NoPausedUpload (key : string)
| OutOfFuel.

Inductive Outcome (A : Type) :=
| Return (a : A)
| Throw (e : Error).
Arguments Return {A} a.
Arguments Throw {A} e.

(** How a call to [multipartUpload] left: the four [return] points. *)
Inductive Exit := Completed | Paused | Aborted.

#[global] Instance Status_eq_dec : EqDecision Status.
Proof. solve_decision. Defined.
#[global] Instance Part_eq_dec : EqDecision Part.
Proof. solve_decision. Defined.
#[global] Instance Op_eq_dec : EqDecision Op.
Proof. solve_decision. Defined.

(** A call of [uploadPart] between two of its awaits: the operation it
    awaits, or how its promise settled. *)
Inductive Stage := Seeking | Reading | Sending | Backoff.

Inductive Promise :=
| Pending (s : Stage) (o : Op)
| Resolved
| Rejected (e : Error).

Record PartTask := mkTask {
  partNumber : nat;
  retryCount : nat;
  promise : Promise }.

Record Env := mkEnv {
  reply : list Entry -> Op -> Reply;
  pick : list Entry -> nat;
  intrude : list Entry -> list Call }.

Record World (St : Type) := mkWorld {
  heap : gmap nat St;
  uploadStates : gmap string nat;
  log : list Entry }.
Arguments mkWorld {St} heap uploadStates log.
Arguments heap {St} w.
Arguments uploadStates {St} w.
Arguments log {St} w.

Definition trace {St} (w : World St) : list Entry := rev (log w).

(** ** Pure helpers *)

Definition stateKey (bucket key : string) : string :=
  String.append bucket (String.append "/" key).

(** [Math.ceil(fileSize / PART_SIZE)] *)
Definition totalPartsFor (fileSize : Z) : nat :=
  Z.to_nat ((fileSize + PART_SIZE - 1) / PART_SIZE).

Definition partOffset (partNumber : nat) : Z :=
  (Z.of_nat partNumber - 1) * PART_SIZE.

Definition partLength (partNumber : nat) (fileSize : Z) : Z :=
  Z.min PART_SIZE (fileSize - partOffset partNumber).

(** JS truthiness of a string that may be undefined. *)
Definition truthy (s : option string) : bool :=
  match s with
  | Some id => negb (String.eqb id "")
  | None => false
  end.

(** [xs.sort((a, b) => a.PartNumber - b.PartNumber)]: a stable sort. *)
Fixpoint insertPart (p : Part) (l : list Part) : list Part :=
  match l with
  | [] => [p]
  | q :: l' =>
      if PartNumber p <=? PartNumber q then p :: q :: l'
      else q :: insertPart p l'
  end.

Definition sortParts (l : list Part) : list Part := foldr insertPart [] l.

Definition pct (q : Q) : Q := Qred q.

Definition ZtoQ (z : Z) : Q := inject_Z z.

(** ** The monad of suspended computations *)

Section Monad.
Context {St : Type}.

Definition M (A : Type) : Type := World St -> Outcome A * World St.

Definition ret {A} (a : A) : M A := fun w => (Return a, w).

Definition throw {A} (e : Error) : M A := fun w => (Throw e, w).

Definition bind {A B} (m : M A) (k : A -> M B) : M B := fun w =>
  match m w with
  | (Return a, w1) => k a w1
  | (Throw e, w1) => (Throw e, w1)
  end.

Definition tryCatch {A} (m : M A) (handler : Error -> M A) : M A := fun w =>
  match m w with
  | (Return a, w1) => (Return a, w1)
  | (Throw e, w1) => handler e w1
  end.

(** Runs [m] and hands its outcome to the code after the [try]. *)
Definition attempt {A} (m : M A) : M (Outcome A) := fun w =>
  let '(r, w1) := m w in (Return r, w1).

Definition tryFinally {A} (m : M A) (cleanup : World St -> World St) : M A :=
  fun w => let '(r, w1) := m w in (r, cleanup w1).

Definition logEntry (e : Entry) (w : World St) : World St :=
  mkWorld (heap w) (uploadStates w) (e :: log w).

Definition record (e : Entry) : M unit := fun w => (Return tt, logEntry e w).

Definition issue (o : Op) : M unit := record (Issue o).

Definition onProgress (p : ProgressInfo) : M unit := record (Emit p).

Definition getWorld : M (World St) := fun w => (Return w, w).

Definition update (f : World St -> World St) : M unit := fun w => (Return tt, f w).

(** *** The heap of state objects and the registry *)

Definition alloc (st : St) : M nat := fun w =>
  let l := fresh (dom (heap w)) in
  (Return l, mkWorld (<[l := st]> (heap w)) (uploadStates w) (log w)).

Definition read `{Inhabited St} (l : nat) : M St := fun w =>
  (Return (heap w !!! l), w).

Definition modify (l : nat) (f : St -> St) : M unit :=
  update (fun w => mkWorld (alter f l (heap w)) (uploadStates w) (log w)).

Definition write (l : nat) (st : St) : M unit := modify l (fun _ => st).

Definition registrySet (k : string) (l : nat) : M unit :=
  update (fun w => mkWorld (heap w) (<[k := l]> (uploadStates w)) (log w)).

Definition registryDelete (k : string) : M unit :=
  update (fun w => mkWorld (heap w) (delete k (uploadStates w)) (log w)).

(** [this.uploadStates.get(stateKey)] *)
Definition getUploadState (bucket key : string) (w : World St) : option St :=
  match uploadStates w !! stateKey bucket key with
  | Some l => heap w !! l
  | None => None
  end.
End Monad.
Arguments M St A : clear implicits.

Declare Scope upload_scope.
Delimit Scope upload_scope with upload.
Notation "'let*' x ':=' c1 'in' c2" := (bind c1 (fun x => c2))
  (at level 10, x name, c1 at level 100, c2 at level 200) : upload_scope.
Notation "'exec' c1 'in' c2" := (bind c1 (fun _ => c2))
  (at level 10, c1 at level 100, c2 at level 200) : upload_scope.
Open Scope upload_scope.

(** ** Awaiting, and the code shared by both managers *)

Section Awaiting.
Context {St : Type} (env : Env).

Definition settle (o : Op) : M St Reply := fun w =>
  let r := reply env (log w) o in (Return r, logEntry (Settle o r) w).

(** An await during which nobody else runs: the awaits of the external
    calls themselves. *)
Definition awaitAlone (o : Op) : M St Reply :=
  exec issue o in settle o.

Variable runCall : Call -> World St -> World St.

Definition intrusions : M St unit := fun w =>
  (Return tt,
   foldl (fun w' c => runCall c (logEntry (Extern c) w')) w
         (intrude env (log w))).

Definition await (o : Op) : M St Reply :=
  exec issue o in
  exec intrusions in
  settle o.

(** [await op] where a rejection is thrown. *)
Definition awaitOk (o : Op) : M St Reply :=
  let* r := await o in
  match r with
  | Failure => throw (OpFailed o)
  | _ => ret r
  end.

(** [simpleUpload], identical in both files. *)
Definition simpleUpload (bucket key filePath : string) (fileSize : Z)
  : M St unit :=
  tryCatch
    (exec onProgress (mkProgress filePath 0 fileSize 0 None None uploading) in
     exec awaitOk (DenoReadFile filePath) in
     exec awaitOk (PutObject bucket key) in
     onProgress (mkProgress filePath fileSize fileSize 100 None None completed))
    (fun error =>
       exec onProgress (mkProgress filePath 0 fileSize 0 None None failed) in
       throw error).

(** [const fileInfo = await Deno.stat(filePath); fileInfo.size] *)
Definition statSize (filePath : string) : M St Z :=
  let* r := await (DenoStat filePath) in
  match r with
  | WithSize size => ret size
  | _ => throw (OpFailed (DenoStat filePath))
  end.

(** ** Promise.all over the part promises of one batch *)

Fixpoint rejection (tasks : list PartTask) : option Error :=
  match tasks with
  | [] => None
  | t :: ts =>
      match promise t with
      | Rejected e => Some e
      | _ => rejection ts
      end
  end.

Fixpoint pendingFrom (i : nat) (tasks : list PartTask)
  : list (nat * PartTask * Stage * Op) :=
  match tasks with
  | [] => []
  | t :: ts =>
      match promise t with
      | Pending s o => (i, t, s, o) :: pendingFrom (S i) ts
      | _ => pendingFrom (S i) ts
      end
  end.

(** How [uploadPart] continues when the operation it awaits settles. *)
Variable uploadPartResume : PartTask -> Stage -> Op -> Reply -> M St PartTask.

(** The event loop while [await Promise.all(uploadPromises)] is pending:
    external calls may run, then one awaited operation settles and its
    [uploadPart] continues to its next await.  The first rejection
    rejects the whole. *)
Fixpoint promiseAll (fuel : nat) (tasks : list PartTask) : M St unit :=
  match rejection tasks with
  | Some error => throw error
  | None =>
      match pendingFrom 0 tasks with
      | [] => ret tt
      | first :: others =>
          match fuel with
          | 0 => throw OutOfFuel
          | S fuel' =>
              exec intrusions in
              let* w := getWorld in
              let '(i, t, s, o) :=
                nth (pick env (log w) mod S (List.length others))
                    (first :: others) first in
              let* r := settle o in
              let* t' := uploadPartResume t s o r in
              promiseAll fuel' (<[i := t']> tasks)
          end
      end
  end.
End Awaiting.

(** * The gap-scanning manager (retry, abort flag) *)

Module Gap.

Record UploadState := mkState {
  uploadId : string;
  bucket : string;
  key : string;
  filePath : string;
  fileSize : Z;
  uploadedParts : list Part;
  nextPartNumber : nat;
  isPaused : bool;
  isAborted : bool }.

#[global] Instance UploadState_inhabited : Inhabited UploadState :=
  populate (mkState "" "" "" "" 0 [] 0 false false).

Definition setUploadedParts (parts : list Part) (st : UploadState) :=
  mkState (uploadId st) (bucket st) (key st) (filePath st) (fileSize st)
          parts (nextPartNumber st) (isPaused st) (isAborted st).

Definition setNextPartNumber (n : nat) (st : UploadState) :=
  mkState (uploadId st) (bucket st) (key st) (filePath st) (fileSize st)
          (uploadedParts st) n (isPaused st) (isAborted st).

Definition setPaused (b : bool) (st : UploadState) :=
  mkState (uploadId st) (bucket st) (key st) (filePath st) (fileSize st)
          (uploadedParts st) (nextPartNumber st) b (isAborted st).

Definition setAborted (b : bool) (st : UploadState) :=
  mkState (uploadId st) (bucket st) (key st) (filePath st) (fileSize st)
          (uploadedParts st) (nextPartNumber st) (isPaused st) b.

Abbreviation W := (World UploadState).
Abbreviation M := (M UploadState).

(** ** Calls that may arrive while a transfer is suspended *)

Definition pauseUpload (bucket key : string) : M unit :=
  let* w := getWorld in
  match uploadStates w !! stateKey bucket key with
  | Some l => modify l (setPaused true)
  | None => ret tt
  end.

Definition abortUploadWith (awaiting : Op -> M Reply) (bucket key : string)
  : M unit :=
  let* w := getWorld in
  match uploadStates w !! stateKey bucket key with
  | Some l =>
      exec modify l (setAborted true) in
      let* st := read l in
      let command :=
        AbortMultipartUpload (Gap.bucket st) (Gap.key st) (uploadId st) in
      let* r := awaiting command in
      match r with
      | Failure => throw (OpFailed command)
      | _ => registryDelete (stateKey bucket key)
      end
  | None => ret tt
  end.

Definition runCall (env : Env) (c : Call) (w : W) : W :=
  match c with
  | CallPause b k => snd (pauseUpload b k w)
  | CallAbort b k => snd (abortUploadWith (awaitAlone env) b k w)
  end.

Section Manager.
Variable env : Env.

Definition await := await env (runCall env).
Definition awaitOk := awaitOk env (runCall env).

Definition abortUpload := abortUploadWith await.

(** ** initiateMultipartUpload, resumeMultipartUpload *)

Definition initiateMultipartUpload (bucket key filePath : string)
    (fileSize : Z) : M nat :=
  let* response := awaitOk (CreateMultipartUpload bucket key) in
  match response with
  | WithId id =>
      if String.eqb id "" then throw InitiateFailed
      else alloc (mkState id bucket key filePath fileSize [] 1 false false)
  | _ => throw InitiateFailed
  end.

Definition resumeMultipartUpload (bucket key filePath : string)
    (fileSize : Z) (uploadId : option string) : M nat :=
  let* w := getWorld in
  let existingState := getUploadState bucket key w in
  let finalUploadId :=
    if truthy uploadId then uploadId else Gap.uploadId <$> existingState in
  if negb (truthy finalUploadId) then throw NoUploadId
  else
    let id := default "" finalUploadId in
    let* response := awaitOk (ListParts bucket key id) in
    let uploadedParts :=
      match response with
      | WithParts parts => parts
      | _ => []
      end in
    alloc (mkState id bucket key filePath fileSize uploadedParts 1 false false).

(** ** uploadPart *)

(** The [catch] block of [uploadPart]. *)
Definition uploadPartCatch (l : nat) (partNumber retryCount : nat)
    (error : Error) : M PartTask :=
  let* state := read l in
  if (retryCount <? 3) && negb (isAborted state) then
    let timer := SetTimeout (1000 * (Z.of_nat retryCount + 1)) in
    exec issue timer in
    ret (mkTask partNumber retryCount (Pending Backoff timer))
  else ret (mkTask partNumber retryCount (Rejected error)).

(** [uploadPart] from its call to its first await. *)
Definition uploadPart (file : string) (l : nat) (partNumber : nat)
    (fileSize : Z) (retryCount : nat) : M PartTask :=
  let* state := read l in
  if isAborted state then ret (mkTask partNumber retryCount Resolved)
  else
    let seek := FileSeek file (partOffset partNumber) in
    exec issue seek in
    ret (mkTask partNumber retryCount (Pending Seeking seek)).

(** [uploadPart] from the settlement of the awaited operation to the next
    await or to the end. *)
Definition uploadPartResume (file : string) (l : nat) (fileSize : Z)
    (t : PartTask) (s : Stage) (o : Op) (r : Reply) : M PartTask :=
  let partNumber := partNumber t in
  let retryCount := retryCount t in
  match s, r with
  | Backoff, _ => uploadPart file l partNumber fileSize (retryCount + 1)
  | _, Failure => uploadPartCatch l partNumber retryCount (OpFailed o)
  | Seeking, _ =>
      let rd := FileRead file (partLength partNumber fileSize) in
      exec issue rd in
      ret (mkTask partNumber retryCount (Pending Reading rd))
  | Reading, _ =>
      let* state := read l in
      let command :=
        UploadPart (bucket state) (key state) (uploadId state) partNumber in
      exec issue command in
      ret (mkTask partNumber retryCount (Pending Sending command))
  | Sending, WithId etag =>
      if String.eqb etag "" then
        uploadPartCatch l partNumber retryCount (PartFailed partNumber)
      else
        let* state0 := read l in
        let state :=
          setUploadedParts
            (sortParts (uploadedParts state0 ++ [mkPart partNumber etag]))
            state0 in
        exec write l state in
        let uploadedBytes :=
          (Z.of_nat (List.length (uploadedParts state)) * PART_SIZE)%Z in
        exec onProgress
          (mkProgress (filePath state)
             (Z.min uploadedBytes fileSize)
             fileSize
             (pct (Qmin (ZtoQ uploadedBytes / ZtoQ fileSize * 100) 100))
             (Some (List.length (uploadedParts state)))
             (Some (totalPartsFor fileSize))
             uploading) in
        ret (mkTask partNumber retryCount Resolved)
  | Sending, _ =>
      uploadPartCatch l partNumber retryCount (PartFailed partNumber)
  end.

(** ** The transfer loop *)

(** [uploadedPartNumbers.has(i)] *)
Definition has (uploadedPartNumbers : list nat) (i : nat) : bool :=
  bool_decide (i ∈ uploadedPartNumbers).

(** The [for] scan for the next missing part; [None] is [-1]. *)
Definition findNextPart (uploadedPartNumbers : list nat)
    (nextPartNumber totalParts : nat) : option nat :=
  List.find (fun i => negb (has uploadedPartNumbers i) && (nextPartNumber <=? i))
            (seq 1 totalParts).

(** The inner [while] that fills [partsToUpload] up to the concurrency
    bound, [tempNext] running from [nextPartToUpload + 1] to
    [totalParts]. *)
Definition collectParts (uploadedPartNumbers : list nat)
    (totalParts nextPartToUpload : nat) : list nat :=
  foldl (fun partsToUpload tempNext =>
           if List.length partsToUpload <? MAX_CONCURRENT_UPLOADS then
             if has uploadedPartNumbers tempNext then partsToUpload
             else partsToUpload ++ [tempNext]
           else partsToUpload)
        [nextPartToUpload]
        (seq (nextPartToUpload + 1) (totalParts - nextPartToUpload)).

(** The [for (const partNumber of partsToUpload)] loop. *)
Fixpoint startBatch (file : string) (l : nat) (fileSize : Z)
    (partsToUpload : list nat) : M (list PartTask) :=
  match partsToUpload with
  | [] => ret []
  | partNumber :: rest =>
      let* state := read l in
      if isPaused state || isAborted state then ret []
      else
        let* promise := uploadPart file l partNumber fileSize 0 in
        let* uploadPromises := startBatch file l fileSize rest in
        ret (promise :: uploadPromises)
  end.

Fixpoint transferLoop (fuel : nat) (file : string) (l : nat)
    (totalParts : nat) (fileSize : Z) : M unit :=
  let* state := read l in
  if isPaused state || isAborted state then ret tt
  else
    let uploadedPartNumbers := PartNumber <$> uploadedParts state in
    match findNextPart uploadedPartNumbers (nextPartNumber state) totalParts with
    | None => ret tt
    | Some nextPartToUpload =>
        exec modify l (setNextPartNumber (nextPartToUpload + 1)) in
        let partsToUpload :=
          collectParts uploadedPartNumbers totalParts nextPartToUpload in
        exec modify l
          (setNextPartNumber (List.last partsToUpload nextPartToUpload + 1)) in
        let* uploadPromises := startBatch file l fileSize partsToUpload in
        exec promiseAll env (runCall env) (uploadPartResume file l fileSize)
               (16 * List.length uploadPromises) uploadPromises in
        let* state' := read l in
        if List.length (uploadedParts state') =? totalParts then ret tt
        else
          match fuel with
          | 0 => throw OutOfFuel
          | S fuel' => transferLoop fuel' file l totalParts fileSize
          end
    end.

(** ** multipartUpload *)

Definition completeMultipartUpload (l : nat) : M unit :=
  let* state := read l in
  exec awaitOk (CompleteMultipartUpload (bucket state) (key state)
                  (uploadId state) (uploadedParts state)) in
  ret tt.

(** The outer [catch]; [state] is [None] while the variable is still
    unassigned. *)
Definition multipartCatch (state : option nat) (filePath : string)
    (fileSize : Z) (error : Error) : M Exit :=
  let* aborted :=
    match state with
    | Some l => let* st := read l in ret (isAborted st)
    | None => ret false
    end in
  if aborted then ret Aborted
  else
    exec onProgress (mkProgress filePath 0 fileSize 0 None None failed) in
    throw error.

(** The statements after the transfer loop, inside the inner [try]. *)
Definition finishUpload (stateKey filePath : string) (l : nat)
    (totalParts : nat) (fileSize : Z) : M Exit :=
  let* state := read l in
  if isAborted state then ret Aborted
  else if isPaused state then
    let n := List.length (uploadedParts state) in
    exec onProgress
      (mkProgress filePath (Z.of_nat n * PART_SIZE) fileSize
         (pct (ZtoQ (Z.of_nat n) / ZtoQ (Z.of_nat totalParts) * 100))
         (Some n) (Some totalParts) paused) in
    ret Paused
  else if negb (List.length (uploadedParts state) =? totalParts) then
    throw (UploadIncomplete (List.length (uploadedParts state)) totalParts)
  else
    exec completeMultipartUpload l in
    exec onProgress
      (mkProgress filePath fileSize fileSize 100
         (Some totalParts) (Some totalParts) completed) in
    exec registryDelete stateKey in
    ret Completed.

Definition multipartUpload (bucket key filePath : string) (fileSize : Z)
    (resumeUploadId : option string) : M Exit :=
  let stateKey := stateKey bucket key in
  let* started :=
    attempt
      (let* w := getWorld in
       if truthy resumeUploadId
          || bool_decide (is_Some (uploadStates w !! stateKey))
       then resumeMultipartUpload bucket key filePath fileSize resumeUploadId
       else initiateMultipartUpload bucket key filePath fileSize) in
  match started with
  | Throw error => multipartCatch None filePath fileSize error
  | Return l =>
      tryCatch
        (exec registrySet stateKey l in
         let totalParts := totalPartsFor fileSize in
         exec awaitOk (DenoOpen filePath) in
         tryFinally
           (exec transferLoop (S totalParts) filePath l totalParts fileSize in
            finishUpload stateKey filePath l totalParts fileSize)
           (logEntry (FileClose filePath)))
        (multipartCatch (Some l) filePath fileSize)
  end.

(** ** The public entry points *)

Definition uploadFile (bucket key filePath : string) : M Exit :=
  let* fileSize := statSize env (runCall env) filePath in
  if (fileSize <? MULTIPART_THRESHOLD)%Z then
    exec simpleUpload env (runCall env) bucket key filePath fileSize in
    ret Completed
  else multipartUpload bucket key filePath fileSize None.

Definition resumeUpload (bucket key : string) : M Exit :=
  let* w := getWorld in
  match uploadStates w !! stateKey bucket key with
  | None => throw (NoPausedUpload key)
  | Some l =>
      exec modify l (setPaused false) in
      let* state := read l in
      multipartUpload (Gap.bucket state) (Gap.key state) (filePath state)
        (fileSize state) (Some (uploadId state))
  end.
End Manager.

End Gap.

(** * The cursor-only manager (no retry, no abort flag) *)

Module Cursor.

Record UploadState := mkState {
  uploadId : string;
  bucket : string;
  key : string;
  filePath : string;
  fileSize : Z;
  uploadedParts : list Part;
  nextPartNumber : nat;
  isPaused : bool }.

#[global] Instance UploadState_inhabited : Inhabited UploadState :=
  populate (mkState "" "" "" "" 0 [] 0 false).

Definition setUploadedParts (parts : list Part) (st : UploadState) :=
  mkState (uploadId st) (bucket st) (key st) (filePath st) (fileSize st)
          parts (nextPartNumber st) (isPaused st).

Definition setNextPartNumber (n : nat) (st : UploadState) :=
  mkState (uploadId st) (bucket st) (key st) (filePath st) (fileSize st)
          (uploadedParts st) n (isPaused st).

Definition setPaused (b : bool) (st : UploadState) :=
  mkState (uploadId st) (bucket st) (key st) (filePath st) (fileSize st)
          (uploadedParts st) (nextPartNumber st) b.

Abbreviation W := (World UploadState).
Abbreviation M := (M UploadState).

(** ** Calls that may arrive while a transfer is suspended *)

Definition pauseUpload (bucket key : string) : M unit :=
  let* w := getWorld in
  match uploadStates w !! stateKey bucket key with
  | Some l => modify l (setPaused true)
  | None => ret tt
  end.

Definition abortUploadWith (awaiting : Op -> M Reply) (bucket key : string)
  : M unit :=
  let* w := getWorld in
  match uploadStates w !! stateKey bucket key with
  | Some l =>
      let* st := read l in
      let command :=
        AbortMultipartUpload (Cursor.bucket st) (Cursor.key st) (uploadId st) in
      let* r := awaiting command in
      match r with
      | Failure => throw (OpFailed command)
      | _ => registryDelete (stateKey bucket key)
      end
  | None => ret tt
  end.

Definition runCall (env : Env) (c : Call) (w : W) : W :=
  match c with
  | CallPause b k => snd (pauseUpload b k w)
  | CallAbort b k => snd (abortUploadWith (awaitAlone env) b k w)
  end.

Section Manager.
Variable env : Env.

Definition await := await env (runCall env).
Definition awaitOk := awaitOk env (runCall env).

Definition abortUpload := abortUploadWith await.

(** ** initiateMultipartUpload, resumeMultipartUpload *)

Definition initiateMultipartUpload (bucket key filePath : string)
    (fileSize : Z) : M nat :=
  let* response := awaitOk (CreateMultipartUpload bucket key) in
  match response with
  | WithId id =>
      if String.eqb id "" then throw InitiateFailed
      else alloc (mkState id bucket key filePath fileSize [] 1 false)
  | _ => throw InitiateFailed
  end.

Definition resumeMultipartUpload (bucket key filePath : string)
    (fileSize : Z) (uploadId : option string) : M nat :=
  let* w := getWorld in
  let existingState := getUploadState bucket key w in
  let finalUploadId :=
    if truthy uploadId then uploadId else Cursor.uploadId <$> existingState in
  if negb (truthy finalUploadId) then throw NoUploadId
  else
    let id := default "" finalUploadId in
    let* response := awaitOk (ListParts bucket key id) in
    let uploadedParts :=
      match response with
      | WithParts parts => parts
      | _ => []
      end in
    let nextPartNumber := List.length uploadedParts + 1 in
    alloc (mkState id bucket key filePath fileSize uploadedParts
             nextPartNumber false).

(** ** uploadPart *)

(** [uploadPart] from its call to its first await. *)
Definition uploadPart (file : string) (l : nat) (partNumber : nat)
    (fileSize : Z) : M PartTask :=
  let seek := FileSeek file (partOffset partNumber) in
  exec issue seek in
  ret (mkTask partNumber 0 (Pending Seeking seek)).

(** [uploadPart] from the settlement of the awaited operation to the next
    await or to the end; there is no [catch], a failure rejects. *)
Definition uploadPartResume (file : string) (l : nat) (fileSize : Z)
    (t : PartTask) (s : Stage) (o : Op) (r : Reply) : M PartTask :=
  let partNumber := partNumber t in
  match s, r with
  | Backoff, _ => ret t
  | _, Failure => ret (mkTask partNumber 0 (Rejected (OpFailed o)))
  | Seeking, _ =>
      let rd := FileRead file (partLength partNumber fileSize) in
      exec issue rd in
      ret (mkTask partNumber 0 (Pending Reading rd))
  | Reading, _ =>
      let* state := read l in
      let command :=
        UploadPart (bucket state) (key state) (uploadId state) partNumber in
      exec issue command in
      ret (mkTask partNumber 0 (Pending Sending command))
  | Sending, WithId etag =>
      if String.eqb etag "" then
        ret (mkTask partNumber 0 (Rejected (PartFailed partNumber)))
      else
        let* state0 := read l in
        let state :=
          setUploadedParts
            (sortParts (uploadedParts state0 ++ [mkPart partNumber etag]))
            state0 in
        exec write l state in
        let uploadedBytes :=
          (Z.of_nat (List.length (uploadedParts state)) * PART_SIZE)%Z in
        exec onProgress
          (mkProgress (filePath state)
             (Z.min uploadedBytes fileSize)
             fileSize
             (pct (Qmin (ZtoQ uploadedBytes / ZtoQ fileSize * 100) 100))
             (Some (List.length (uploadedParts state)))
             (Some (totalPartsFor fileSize))
             uploading) in
        ret (mkTask partNumber 0 Resolved)
  | Sending, _ =>
      ret (mkTask partNumber 0 (Rejected (PartFailed partNumber)))
  end.

(** ** The transfer loop *)

(** The inner [for (let i = 0; i < MAX_CONCURRENT_UPLOADS && ...; i++)];
    [n] counts the iterations left. *)
Fixpoint startBatch (n : nat) (file : string) (l : nat) (totalParts : nat)
    (fileSize : Z) : M (list PartTask) :=
  match n with
  | 0 => ret []
  | S n' =>
      let* state := read l in
      if nextPartNumber state <=? totalParts then
        let partNumber := nextPartNumber state in
        exec modify l (setNextPartNumber (partNumber + 1)) in
        let* promise := uploadPart file l partNumber fileSize in
        let* uploadPromises := startBatch n' file l totalParts fileSize in
        ret (promise :: uploadPromises)
      else ret []
  end.

Fixpoint transferLoop (fuel : nat) (file : string) (l : nat)
    (totalParts : nat) (fileSize : Z) : M unit :=
  let* state := read l in
  if (nextPartNumber state <=? totalParts) && negb (isPaused state) then
    let* uploadPromises :=
      startBatch MAX_CONCURRENT_UPLOADS file l totalParts fileSize in
    exec promiseAll env (runCall env) (uploadPartResume file l fileSize)
           (3 * List.length uploadPromises) uploadPromises in
    match fuel with
    | 0 => throw OutOfFuel
    | S fuel' => transferLoop fuel' file l totalParts fileSize
    end
  else ret tt.

(** ** multipartUpload *)

Definition completeMultipartUpload (l : nat) : M unit :=
  let* state := read l in
  exec awaitOk (CompleteMultipartUpload (bucket state) (key state)
                  (uploadId state) (uploadedParts state)) in
  ret tt.

(** The outer [catch]. *)
Definition multipartCatch (filePath : string) (fileSize : Z)
    (error : Error) : M Exit :=
  exec onProgress (mkProgress filePath 0 fileSize 0 None None failed) in
  throw error.

(** The statements after the transfer loop, inside the inner [try]. *)
Definition finishUpload (stateKey filePath : string) (l : nat)
    (totalParts : nat) (fileSize : Z) : M Exit :=
  let* state := read l in
  if isPaused state then
    let n := List.length (uploadedParts state) in
    exec onProgress
      (mkProgress filePath (Z.of_nat n * PART_SIZE) fileSize
         (pct (ZtoQ (Z.of_nat n) / ZtoQ (Z.of_nat totalParts) * 100))
         (Some n) (Some totalParts) paused) in
    ret Paused
  else
    exec completeMultipartUpload l in
    exec onProgress
      (mkProgress filePath fileSize fileSize 100
         (Some totalParts) (Some totalParts) completed) in
    exec registryDelete stateKey in
    ret Completed.

Definition multipartUpload (bucket key filePath : string) (fileSize : Z)
    (resumeUploadId : option string) : M Exit :=
  let stateKey := stateKey bucket key in
  tryCatch
    (let* w := getWorld in
     let* l :=
       if truthy resumeUploadId
          || bool_decide (is_Some (uploadStates w !! stateKey))
       then resumeMultipartUpload bucket key filePath fileSize resumeUploadId
       else initiateMultipartUpload bucket key filePath fileSize in
     exec registrySet stateKey l in
     let totalParts := totalPartsFor fileSize in
     exec awaitOk (DenoOpen filePath) in
     tryFinally
       (exec transferLoop (S totalParts) filePath l totalParts fileSize in
        finishUpload stateKey filePath l totalParts fileSize)
       (logEntry (FileClose filePath)))
    (multipartCatch filePath fileSize).

(** ** The public entry points *)

Definition uploadFile (bucket key filePath : string) : M Exit :=
  let* fileSize := statSize env (runCall env) filePath in
  if (fileSize <? MULTIPART_THRESHOLD)%Z then
    exec simpleUpload env (runCall env) bucket key filePath fileSize in
    ret Completed
  else multipartUpload bucket key filePath fileSize None.

Definition resumeUpload (bucket key : string) : M Exit :=
  let* w := getWorld in
  match uploadStates w !! stateKey bucket key with
  | None => throw (NoPausedUpload key)
  | Some l =>
      exec modify l (setPaused false) in
      let* state := read l in
      multipartUpload (Cursor.bucket state) (Cursor.key state)
        (filePath state) (fileSize state) (Some (uploadId state))
  end.
End Manager.

End Cursor.

(** * Predicates on runs *)

(** Entries that an external call can add to the history. *)
Definition callEntry (e : Entry) : Prop :=
  match e with
  | Extern _ => True
  | Issue (AbortMultipartUpload _ _ _) => True
  | Settle (AbortMultipartUpload _ _ _) _ => True
  | _ => False
  end.

(** [w1] continues the history of [w] with entries that satisfy [P]. *)
Definition logged {St} (P : Entry -> Prop) (w w1 : World St) : Prop :=
  exists new, log w1 = new ++ log w /\ Forall P new.

(** No key becomes registered. *)
Definition noNewKey {St} (w w1 : World St) : Prop :=
  forall k, uploadStates w !! k = None -> uploadStates w1 !! k = None.

(** [m] relates the world it starts in to the world it ends in. *)
Definition preserves {St A} (R : relation (World St)) (m : M St A) : Prop :=
  forall w, R w (m w).2.

Definition isPut (e : Entry) : bool :=
  match e with
  | Issue (PutObject _ _) => true
  | _ => false
  end.

Definition countPuts (lg : list Entry) : nat :=
  List.length (List.filter isPut lg).

(** * Concrete scenarios *)

Definition MiB : Z := 1024 * 1024.

(** A backend on which everything succeeds: the file has [size] bytes,
    [ListParts] answers [parts]; nobody calls in. *)
Definition calmEnv (size : Z) (parts : list Part) : Env :=
  mkEnv (fun _ o =>
           match o with
           | DenoStat _ => WithSize size
           | CreateMultipartUpload _ _ => WithId "upload-1"
           | ListParts _ _ _ => WithParts parts
           | UploadPart _ _ _ n => WithId "etag"
           | _ => Fulfilled
           end)
        (fun _ => 0)
        (fun _ => []).

Definition emptyWorld {St} : World St := mkWorld ∅ ∅ [].

(** The operations issued, the progress events emitted, oldest first. *)
Definition issued {St} (w : World St) : list Op :=
  omap (fun e => match e with Issue o => Some o | _ => None end) (trace w).

Definition emitted {St} (w : World St) : list ProgressInfo :=
  omap (fun e => match e with Emit p => Some p | _ => None end) (trace w).

(** The part numbers for which an upload was issued, oldest first. *)
Definition uploadsIssued (lg : list Entry) : list nat :=
  omap (fun e => match e with
                 | Issue (UploadPart _ _ _ n) => Some n
                 | _ => None
                 end) (rev lg).

(** A registry with one transfer of a 25 MiB file of which parts 2 and 4 are
    stored, paused. *)
Definition gapState24 : Gap.UploadState :=
  Gap.mkState "upload-1" "b" "k" "f" (25 * MiB)
    [mkPart 2 "e2"; mkPart 4 "e4"] 6 true false.

Definition gapWorld24 : Gap.W :=
  mkWorld {[ 0 := gapState24 ]} {[ stateKey "b" "k" := 0 ]} [].

Definition cursorState24 : Cursor.UploadState :=
  Cursor.mkState "upload-1" "b" "k" "f" (25 * MiB)
    [mkPart 2 "e2"; mkPart 4 "e4"] 6 true.

Definition cursorWorld24 : Cursor.W :=
  mkWorld {[ 0 := cursorState24 ]} {[ stateKey "b" "k" := 0 ]} [].

(** Operations that a part upload issues. *)
Definition partOp (o : Op) : Prop :=
  match o with
  | FileSeek _ _ | FileRead _ _ | UploadPart _ _ _ _ | SetTimeout _ => True
  | _ => False
  end.

(** Operations that [multipartUpload] itself awaits. *)
Definition setupOp (o : Op) : Prop :=
  match o with
  | CreateMultipartUpload _ _ | ListParts _ _ _ | DenoOpen _
  | CompleteMultipartUpload _ _ _ _ => True
  | _ => False
  end.

(** The event after a part was stored: the count of stored parts is at
    least one. *)
Definition partEvent (fileSize : Z) (p : ProgressInfo) : Prop :=
  exists fp n,
    p = mkProgress fp
          (Z.min (Z.of_nat (S n) * PART_SIZE) fileSize)
          fileSize
          (pct (Qmin (ZtoQ (Z.of_nat (S n) * PART_SIZE) / ZtoQ fileSize * 100)
                     100))
          (Some (S n)) (Some (totalPartsFor fileSize)) uploading.

(** The failure event: no bytes, zero percent. *)
Definition failedEvent (p : ProgressInfo) : Prop :=
  status p = failed /\ uploadedBytes p = 0%Z /\ percentage p = 0%Q.

(** The events with which a call to [multipartUpload] can end. *)
Definition closingEvent (p : ProgressInfo) : Prop :=
  status p = paused \/ status p = completed \/ failedEvent p.

(** On a progress entry: a [failed] event reports nothing transferred. *)
Definition failedReportsZero (e : Entry) : Prop :=
  match e with
  | Emit p => status p = failed -> uploadedBytes p = 0%Z /\ percentage p = 0%Q
  | _ => True
  end.

(** The newest entry of the history is a failure event. *)
Definition endsWithFailedEvent (lg : list Entry) : Prop :=
  exists p rest, lg = Emit p :: rest /\ failedEvent p.

(** A 12 MiB file whose third part the backend refuses every time. *)
Definition refusingEnv : Env :=
  mkEnv (fun _ o =>
           match o with
           | DenoStat _ => WithSize (12 * MiB)
           | CreateMultipartUpload _ _ => WithId "upload-1"
           | UploadPart _ _ _ 3 => Failure
           | UploadPart _ _ _ _ => WithId "etag"
           | _ => Fulfilled
           end)
        (fun _ => 0)
        (fun _ => []).

(** ** Progress events of a history *)

Definition getEmit (e : Entry) : option ProgressInfo :=
  match e with
  | Emit p => Some p
  | _ => None
  end.

(** The events of a history, oldest first. *)
Definition eventsOf (lg : list Entry) : list ProgressInfo :=
  omap getEmit (rev lg).

(** The newest event of a history. *)
Definition lastEvent (lg : list Entry) : option ProgressInfo :=
  head (omap getEmit lg).

Definition isStartEvent (p : ProgressInfo) : bool :=
  bool_decide (status p = uploading) && Qeq_bool (percentage p) 0.

Definition isTerminalEvent (p : ProgressInfo) : bool :=
  bool_decide (status p = completed) || bool_decide (status p = failed).

(** A start event (0 percent, uploading) and a terminal event (completed
    or failed) were emitted. *)
Definition announcesStartAndEnd (events : list ProgressInfo) : bool :=
  existsb isStartEvent events && existsb isTerminalEvent events.

(** The two events of the simple path. *)
Definition simpleEvents (filePath : string) (size : Z) (r : Outcome Exit)
  : list ProgressInfo :=
  [ mkProgress filePath 0 size 0 None None uploading;
    match r with
    | Return _ => mkProgress filePath size size 100 None None completed
    | Throw _ => mkProgress filePath 0 size 0 None None failed
    end ].

(** How the history of a chunked call ends, by the way the call left. *)
Definition chunkedClosing (filePath : string) (size : Z) (r : Outcome Exit)
    (lg : list Entry) : Prop :=
  match r with
  | Return Completed =>
      lastEvent lg
      = Some (mkProgress filePath size size 100
                (Some (totalPartsFor size)) (Some (totalPartsFor size))
                completed)
  | Return Paused => exists p, lastEvent lg = Some p /\ status p = paused
  | Return Aborted => True
  | Throw _ => lastEvent lg = Some (mkProgress filePath 0 size 0 None None failed)
  end.

(** Entries that are no closing event: a progress event among them is an
    [uploading] one. *)
Definition noClosingEvent (e : Entry) : Prop :=
  match e with
  | Emit p => status p = uploading
  | _ => True
  end.

(** A chunked call that left on an abort has added no event of its own to
    the history: no completed, failed or paused event. *)
Definition abortedQuietly (r : Outcome Exit) (new : list Entry) : Prop :=
  r = Return Aborted -> Forall noClosingEvent new.

(** On a progress entry: an [uploading] event is past zero percent. *)
Definition uploadingPastZero (e : Entry) : Prop :=
  match e with
  | Emit p => status p = uploading -> (0 < percentage p)%Q
  | _ => True
  end.

(** A backend on which everything succeeds, for a file of exactly one part. *)
Definition onePartEnv : Env := calmEnv (5 * MiB) [].

(** On an issued operation: a [CompleteMultipartUpload] carries exactly
    [total] parts. *)
Definition completesAll (total : nat) (e : Entry) : Prop :=
  match e with
  | Issue (CompleteMultipartUpload _ _ _ parts) => List.length parts = total
  | _ => True
  end.

(** A one-part file (5 MiB) under an upload id for which the backend lists
    two stored parts. *)
Definition surplusEnv : Env :=
  calmEnv (5 * MiB) [mkPart 1 "e1"; mkPart 2 "e2"].

Definition gapSurplusWorld : Gap.W :=
  mkWorld {[ 0 := Gap.mkState "upload-1" "b" "k" "f" (5 * MiB) [] 1 true false ]}
          {[ stateKey "b" "k" := 0 ]} [].

Definition cursorSurplusWorld : Cursor.W :=
  mkWorld {[ 0 := Cursor.mkState "upload-1" "b" "k" "f" (5 * MiB) [] 1 true ]}
          {[ stateKey "b" "k" := 0 ]} [].

(** The operations issued in a stretch of history, oldest first. *)
Definition issuedIn (lg : list Entry) : list Op :=
  omap (fun e => match e with Issue o => Some o | _ => None end) (rev lg).

(** Nobody calls in while the manager is suspended. *)
Definition undisturbed (env : Env) : Prop :=
  forall lg, intrude env lg = [].

(** The stored parts are exactly the planned ones, [1 .. total]. *)
Definition allPartsStored (parts : list Part) (total : nat) : Prop :=
  PartNumber <$> parts ≡ₚ seq 1 total.

(** A 25 MiB transfer (five parts) all of whose parts are stored. *)
Definition fiveParts : list Part :=
  [mkPart 1 "e1"; mkPart 2 "e2"; mkPart 3 "e3"; mkPart 4 "e4"; mkPart 5 "e5"].

Definition gapFullState : Gap.UploadState :=
  Gap.mkState "upload-1" "b" "k" "f" (25 * MiB) fiveParts 6 true false.

Definition gapFullWorld : Gap.W :=
  mkWorld {[ 0 := gapFullState ]} {[ stateKey "b" "k" := 0 ]} [].

Definition cursorFullState : Cursor.UploadState :=
  Cursor.mkState "upload-1" "b" "k" "f" (25 * MiB) fiveParts 6 true.

Definition cursorFullWorld : Cursor.W :=
  mkWorld {[ 0 := cursorFullState ]} {[ stateKey "b" "k" := 0 ]} [].

(** ** Abort *)

(** The state object at [l] has its abort flag set. *)
Definition abortedAt (l : nat) (w : Gap.W) : Prop :=
  exists st, heap w !! l = Some st /\ Gap.isAborted st = true.

(** A part task that has not yet issued the upload of its attempt: it is
    seeking or reading its byte range. *)
Definition reading (t : PartTask) : bool :=
  match promise t with
  | Pending Seeking _ | Pending Reading _ => true
  | _ => false
  end.

Definition inFlight (tasks : list PartTask) : nat :=
  List.length (List.filter reading tasks).

(** On an issued operation: it does not start an attempt of a part upload
    (no seek) and schedules no retry (no backoff timer). *)
Definition startsNoAttempt (e : Entry) : Prop :=
  match e with
  | Issue (FileSeek _ _) | Issue (SetTimeout _) => False
  | _ => True
  end.

(** In a history read oldest first: an [UploadPart] for (bucket, key) is
    issued after [abortUpload] was called for it. *)
Fixpoint uploadAfterAbort (bucket key : string) (aborted : bool)
    (tr : list Entry) : bool :=
  match tr with
  | [] => false
  | Extern (CallAbort b k) :: tr' =>
      uploadAfterAbort bucket key
        (aborted || (String.eqb b bucket && String.eqb k key)) tr'
  | Issue (UploadPart b k _ _) :: tr' =>
      (aborted && String.eqb b bucket && String.eqb k key)
      || uploadAfterAbort bucket key aborted tr'
  | _ :: tr' => uploadAfterAbort bucket key aborted tr'
  end.

(** A one-part upload during which [abortUpload] is called while the part
    task awaits its seek. *)
Definition abortingEnv : Env :=
  mkEnv (fun _ o =>
           match o with
           | DenoStat _ => WithSize (5 * MiB)
           | CreateMultipartUpload _ _ => WithId "upload-1"
           | UploadPart _ _ _ _ => WithId "etag"
           | _ => Fulfilled
           end)
        (fun _ => 0)
        (fun lg =>
           match lg with
           | Issue (FileSeek _ _) :: _ => [CallAbort "b" "k"]
           | _ => []
           end).

(** A 12 MiB upload (three parts) during which [abortUpload] is called
    while the three part tasks of the batch await their seeks. *)
Definition abortingEnv3 : Env :=
  mkEnv (fun _ o =>
           match o with
           | DenoStat _ => WithSize (12 * MiB)
           | CreateMultipartUpload _ _ => WithId "upload-1"
           | UploadPart _ _ _ _ => WithId "etag"
           | _ => Fulfilled
           end)
        (fun _ => 0)
        (fun lg =>
           match lg with
           | Issue (FileSeek _ _) :: Issue (FileSeek _ _)
             :: Issue (FileSeek _ _) :: _ => [CallAbort "b" "k"]
           | _ => []
           end).

(** The abort flag of the object at [l], once set, is still set. *)
Definition staysAborted (l : nat) (w w1 : Gap.W) : Prop :=
  abortedAt l w -> abortedAt l w1.

(** A world in which the transfer of a 12 MiB file was aborted while its
    three part tasks were at different points: seeking, reading, and waiting
    for the answer to an upload already issued. *)
Definition abortedWorld : Gap.W :=
  mkWorld {[ 0 := Gap.mkState "upload-1" "b" "k" "f" (12 * MiB) [] 4 false true ]}
          ∅ [].

Definition abortedTasks : list PartTask :=
  [ mkTask 1 0 (Pending Seeking (FileSeek "f" 0));
    mkTask 2 0 (Pending Reading (FileRead "f" (5 * MiB)));
    mkTask 3 0 (Pending Sending (UploadPart "b" "k" "upload-1" 3)) ].

(** ** Retry *)

(** How often the upload of part [n] was issued in a history. *)
Definition attemptsOf (n : nat) (lg : list Entry) : nat :=
  List.length (List.filter (Nat.eqb n) (uploadsIssued lg)).

(** The backoff timers issued in a history, oldest first. *)
Definition timersIssued (lg : list Entry) : list Z :=
  omap (fun e => match e with Issue (SetTimeout ms) => Some ms | _ => None end)
       (rev lg).

(** A 12 MiB file whose second part the backend refuses twice and then
    accepts. *)
Definition flakyEnv : Env :=
  mkEnv (fun lg o =>
           match o with
           | DenoStat _ => WithSize (12 * MiB)
           | CreateMultipartUpload _ _ => WithId "upload-1"
           | UploadPart _ _ _ 2 =>
               if attemptsOf 2 lg <=? 2 then Failure else WithId "etag"
           | UploadPart _ _ _ _ => WithId "etag"
           | _ => Fulfilled
           end)
        (fun _ => 0)
        (fun _ => []).

(** The parts with which the transfer was finalized, if it was. *)
Definition finalizedWith (lg : list Entry) : option (list Part) :=
  head (omap (fun e => match e with
                       | Issue (CompleteMultipartUpload _ _ _ parts) => Some parts
                       | _ => None
                       end) lg).

(** ** Termination *)

(** The promise of a task was not rejected for want of fuel. *)
Definition sane (t : PartTask) : Prop := promise t <> Rejected OutOfFuel.

(** An upper bound on the settlements a part task of the gap-scanning
    manager still awaits: three per attempt, one per backoff. *)
Definition gapSteps (t : PartTask) : nat :=
  match promise t with
  | Pending Seeking _ => 3 + 4 * (3 - retryCount t)
  | Pending Reading _ => 2 + 4 * (3 - retryCount t)
  | Pending Sending _ => 1 + 4 * (3 - retryCount t)
  | Pending Backoff _ => 4 + 4 * (3 - (retryCount t + 1))
  | _ => 0
  end.

(** The same for the cursor-only manager, which has one attempt. *)
Definition cursorSteps (t : PartTask) : nat :=
  match promise t with
  | Pending Seeking _ => 3
  | Pending Reading _ => 2
  | Pending Sending _ => 1
  | Pending Backoff _ => 1
  | _ => 0
  end.

Definition totalSteps (steps : PartTask -> nat) (tasks : list PartTask) : nat :=
  list_sum (map steps tasks).

(** The cursor [next] of the object at [l] never moves back. *)
Definition advances {St} (next : St -> nat) (l : nat) (w w1 : World St)
  : Prop :=
  forall st, heap w !! l = Some st ->
    exists st1, heap w1 !! l = Some st1 /\ next st <= next st1.

(** A part task of the cursor-only manager: it is never found waiting for a
    timer, since that manager sets none. *)
Definition neverBacksOff (t : PartTask) : Prop :=
  match promise t with
  | Pending Backoff _ | Rejected OutOfFuel => False
  | _ => True
  end.

(** The object at [l] exists. *)
Definition allocated {St} (l : nat) (w : World St) : Prop :=
  is_Some (heap w !! l).

(** From a world that satisfies [pre], [m] returns a value and a world that
    satisfy [post], or throws an error of the program's own: it never gives
    up for lack of fuel. *)
Definition finishes {St A} (pre : World St -> Prop) (m : M St A)
    (post : A -> World St -> Prop) : Prop :=
  forall w, pre w ->
    match m w with
    | (Return a, w1) => post a w1
    | (Throw e, _) => e <> OutOfFuel
    end.

(** What [attempt] hands on. *)
Definition attempted {St A} (post : A -> World St -> Prop)
    (r : Outcome A) (w : World St) : Prop :=
  match r with
  | Return a => post a w
  | Throw e => e <> OutOfFuel
  end.

(** * Further properties of the managers *)

(** ** The plan of parts *)

(** The planned part numbers, [1] to [totalParts]. *)
Definition plannedParts (fileSize : Z) : list nat :=
  seq 1 (totalPartsFor fileSize).

(** The bytes that the planned parts cover together. *)
Definition plannedBytes (fileSize : Z) : Z :=
  foldr Z.add 0%Z ((fun n => partLength n fileSize) <$> plannedParts fileSize).

(** ** Planning a batch *)

(** Part [i] is planned, not stored, and not before the cursor. *)
Definition missingFrom (numbers : list nat) (next total i : nat) : Prop :=
  1 <= i <= total /\ next <= i /\ i ∉ numbers.

(** The missing part numbers among [from], [from + 1], ..., [total]. *)
Definition missingAfter (numbers : list nat) (total from : nat) : list nat :=
  List.filter (fun i => negb (Gap.has numbers i)) (seq from (total + 1 - from)).

(** ** The stored parts *)

(** In ascending order of part number. *)
Definition ascending (parts : list Part) : Prop :=
  StronglySorted (fun a b => PartNumber a <= PartNumber b) parts.

(** The fields of a state other than the stored parts. *)
Definition gapFrame (st : Gap.UploadState) :=
  (Gap.uploadId st, Gap.bucket st, Gap.key st, Gap.filePath st,
   Gap.fileSize st, Gap.nextPartNumber st, Gap.isPaused st, Gap.isAborted st).

Definition cursorFrame (st : Cursor.UploadState) :=
  (Cursor.uploadId st, Cursor.bucket st, Cursor.key st, Cursor.filePath st,
   Cursor.fileSize st, Cursor.nextPartNumber st, Cursor.isPaused st).

(** The seeks with which the tasks for [numbers] start, newest first. *)
Definition seeksFor (file : string) (numbers : list nat) : list Entry :=
  rev ((fun n => Issue (FileSeek file (partOffset n))) <$> numbers).

(** A task that has just started on part [n]. *)
Definition startedOn (file : string) (n : nat) : PartTask :=
  mkTask n 0 (Pending Seeking (FileSeek file (partOffset n))).

(** ** Specifications of runs *)

(** From a world that satisfies [pre], [m] returns a value and a world that
    satisfy [post], or throws an error that, with the world, satisfies
    [fail]. *)
Definition hoare {St A} (pre : World St -> Prop) (m : M St A)
    (post : A -> World St -> Prop) (fail : Error -> World St -> Prop) : Prop :=
  forall w, pre w ->
    match m w with
    | (Return a, w1) => post a w1
    | (Throw e, w1) => fail e w1
    end.

(** What [attempt] hands on. *)
Definition outcomeOf {St A} (post : A -> World St -> Prop)
    (fail : Error -> World St -> Prop) (r : Outcome A) (w : World St) : Prop :=
  match r with
  | Return a => post a w
  | Throw e => fail e w
  end.

(** How [Promise.all] settled, by the state of its promises. *)
Definition settledAs (r : Outcome unit) (tasks : list PartTask) : Prop :=
  match r with
  | Return _ => Forall (fun t => promise t = Resolved) tasks
  | Throw e => e = OutOfFuel \/ rejection tasks = Some e
  end.

(** ** What a transfer issues and stores *)

(** The part number of a task that is still pending. *)
Definition pendingNumber (t : PartTask) : option nat :=
  match promise t with
  | Pending _ _ => Some (partNumber t)
  | _ => None
  end.

Definition pendingNumbers (tasks : list PartTask) : list nat :=
  omap pendingNumber tasks.

(** The task awaits the answer to its upload. *)
Definition sending (t : PartTask) : bool :=
  match promise t with
  | Pending Sending _ => true
  | _ => false
  end.

Definition sendingCount (tasks : list PartTask) : nat :=
  List.length (List.filter sending tasks).

(** The part uploads issued and not yet settled, in a history (newest
    entry first). *)
Fixpoint outstanding (lg : list Entry) : nat :=
  match lg with
  | [] => 0
  | Issue (UploadPart _ _ _ _) :: lg' => S (outstanding lg')
  | Settle (UploadPart _ _ _ _) _ :: lg' => Nat.pred (outstanding lg')
  | _ :: lg' => outstanding lg'
  end.

(** The most part uploads that were outstanding at one time. *)
Fixpoint peak (lg : list Entry) : nat :=
  match lg with
  | [] => 0
  | e :: lg' => Nat.max (outstanding (e :: lg')) (peak lg')
  end.

(** The identity of a transfer at the backend. *)
Definition Identity : Type := string * string * string.

(** A pending task awaits the operation of its stage, for its own part. *)
Definition awaitsItsOwn (file : string) (size : Z) (ident : Identity)
    (t : PartTask) : Prop :=
  match promise t with
  | Pending Seeking o => o = FileSeek file (partOffset (partNumber t))
  | Pending Reading o => o = FileRead file (partLength (partNumber t) size)
  | Pending Sending o =>
      o = UploadPart (fst (fst ident)) (snd (fst ident)) (snd ident)
            (partNumber t)
  | Pending Backoff o => exists ms, o = SetTimeout ms
  | _ => True
  end.

(** An entry of the history of a transfer: a seek, a read or an upload is
    for a planned part, with the byte range of that part and under the
    identity of the transfer, and no upload is for a part in [skip]. *)
Definition plannedEntry (file : string) (size : Z) (total : nat)
    (ident : Identity) (skip : list nat) (e : Entry) : Prop :=
  match e with
  | Issue (UploadPart b k id n) =>
      (b, k, id) = ident /\ 1 <= n <= total /\ n ∉ skip
  | Issue (FileSeek f offset) =>
      f = file /\ exists n, 1 <= n <= total /\ offset = partOffset n
  | Issue (FileRead f len) =>
      f = file /\ exists n, 1 <= n <= total /\ len = partLength n size
  | _ => True
  end.

(** A history in which every part operation is as planned and at most
    [MAX_CONCURRENT_UPLOADS] part uploads were outstanding at one time. *)
Definition orderly (file : string) (size : Z) (total : nat)
    (ident : Identity) (skip : list nat) (new : list Entry) : Prop :=
  Forall (plannedEntry file size total ident skip) new /\
  peak new <= MAX_CONCURRENT_UPLOADS.

(** The bookkeeping of a transfer while a batch is pending: the stored
    parts are the listed ones and those stored since ([done]); a part is
    pending or done at most once, is planned, is not in [skip] and lies
    before the cursor; the uploads outstanding are those of the tasks that
    await one. *)
Record transferring (file : string) (size : Z) (total : nat)
    (ident : Identity) (skip : list nat) (listed : list Part)
    (tasks : list PartTask) (parts : list Part) (next : nat)
    (done : list nat) (new : list Entry) : Prop := mkTransferring {
  stored_parts : PartNumber <$> parts ≡ₚ (PartNumber <$> listed) ++ done;
  stored_order : ascending listed -> ascending parts;
  parts_once : NoDup (pendingNumbers tasks ++ done);
  parts_planned :
    Forall (fun n => 1 <= n <= total /\ (n ∉ skip) /\ n < next)
           (pendingNumbers tasks ++ done);
  tasks_await : Forall (awaitsItsOwn file size ident) tasks;
  batch_width : List.length tasks <= MAX_CONCURRENT_UPLOADS;
  history_orderly : orderly file size total ident skip new;
  uploads_outstanding : outstanding new = sendingCount tasks }.

Definition gapIdentity (st : Gap.UploadState) : Identity :=
  (Gap.bucket st, Gap.key st, Gap.uploadId st).

Definition cursorIdentity (st : Cursor.UploadState) : Identity :=
  (Cursor.bucket st, Cursor.key st, Cursor.uploadId st).

(** What the calls from outside leave alone in a state object of the
    gap-scanning manager: everything but the two flags. *)
Definition gapCore (st : Gap.UploadState) :=
  (gapIdentity st, Gap.filePath st, Gap.fileSize st, Gap.uploadedParts st,
   Gap.nextPartNumber st).

Definition cursorCore (st : Cursor.UploadState) :=
  (cursorIdentity st, Cursor.filePath st, Cursor.fileSize st,
   Cursor.uploadedParts st, Cursor.nextPartNumber st).

(** The object at [l] stays, with the same [core]. *)
Definition keeps {St C} (core : St -> C) (l : nat) (w w1 : World St) : Prop :=
  forall st, heap w !! l = Some st ->
    exists st1, heap w1 !! l = Some st1 /\ core st1 = core st.

(** The parts stored in the state object at [l] only become more: a part
    that is stored stays stored, with its [ETag]. *)
Definition growing {St} (partsOf : St -> list Part) (l : nat)
    (w w1 : World St) : Prop :=
  forall st, heap w !! l = Some st ->
    exists st1, heap w1 !! l = Some st1 /\ partsOf st ⊆+ partsOf st1.

(** The world of a transfer of the gap-scanning manager while the batch
    [tasks] is pending: the state object is at [l], the history has grown by
    [new] since [lg0]. *)
Definition gapTransfer (file : string) (size : Z) (total : nat)
    (ident : Identity) (listed : list Part) (l : nat) (lg0 : list Entry)
    (tasks : list PartTask) (w : Gap.W) : Prop :=
  exists st done new,
    heap w !! l = Some st /\ log w = new ++ lg0 /\ gapIdentity st = ident /\
    transferring file size total ident (PartNumber <$> listed) listed tasks
      (Gap.uploadedParts st) (Gap.nextPartNumber st) done new.

(** Entries that are no part operation: the setup, the progress events,
    the calls from outside. *)
Definition quietEntry (e : Entry) : Prop :=
  match e with
  | Issue (UploadPart _ _ _ _) | Issue (FileSeek _ _) | Issue (FileRead _ _)
  | Settle (UploadPart _ _ _ _) _ => False
  | _ => True
  end.

(** Entries that neither are a part operation nor finalize a transfer. *)
Definition plainEntry (e : Entry) : Prop :=
  match e with
  | Issue (CompleteMultipartUpload _ _ _ _) => False
  | _ => quietEntry e
  end.

(** The world of a transfer of the gap-scanning manager that has issued
    its finalization: with all the stored parts, as many as planned. *)
Definition gapFinalized (file : string) (size : Z) (total : nat)
    (ident : Identity) (listed : list Part) (l : nat) (lg0 : list Entry)
    (w : Gap.W) : Prop :=
  exists st done new,
    heap w !! l = Some st /\ log w = new ++ lg0 /\ gapIdentity st = ident /\
    transferring file size total ident (PartNumber <$> listed) listed []
      (Gap.uploadedParts st) (Gap.nextPartNumber st) done new /\
    finalizedWith new = Some (Gap.uploadedParts st) /\
    List.length (Gap.uploadedParts st) = total.

(** How a chunked call of the gap-scanning manager leaves the history:
    the part operations in [new] are as planned, never for a part in
    [listed] and never more than [MAX_CONCURRENT_UPLOADS] uploads at a
    time, and a call that completes has finalized with as many parts as
    planned: the listed ones and those it stored itself, each of the
    latter once. *)
Definition gapOutcome (file : string) (size : Z) (ident : Identity)
    (listed : list Part) (new : list Entry) (r : Outcome Exit) : Prop :=
  let total := totalPartsFor size in
  let skip := PartNumber <$> listed in
  orderly file size total ident skip new /\
  (r = Return Completed ->
   exists parts done,
     finalizedWith new = Some parts /\
     List.length parts = total /\
     PartNumber <$> parts ≡ₚ skip ++ done /\
     NoDup done /\
     Forall (fun n => 1 <= n <= total /\ (n ∉ skip)) done /\
     (ascending listed -> ascending parts)).

(** The parts a chunked call starts from: none when it initiates a
    transfer, the answer of the backend when it resumes one. *)
Definition listedBy (env : Env) (bucket key : string) (resumes : bool)
    (listed : list Part) : Prop :=
  if resumes then
    listed = [] \/
    exists lg id, reply env lg (ListParts bucket key id) = WithParts listed
  else listed = [].

(** ** The parts the backend listed *)

(** The parts of an answer to [ListParts]: [response.Parts], none when
    the response has no such field. *)
Definition getListing (e : Entry) : option (list Part) :=
  match e with
  | Settle (ListParts _ _ _) r =>
      Some (match r with
            | WithParts parts => parts
            | _ => []
            end)
  | _ => None
  end.

(** The parts in the oldest answer to a [ListParts] in a history, none
    when the history has no such answer. *)
Definition listedIn (lg : list Entry) : list Part :=
  default [] (last (omap getListing lg)).

(** The parts a chunked call with the history [new] starts from: none
    when it initiates a transfer; when it resumes one, those in the answer
    to the [ListParts] that it starts with. *)
Definition startsFrom (resumes : bool) (new : list Entry) : list Part :=
  if resumes then listedIn new else [].

(** Entries that are no answer to a [ListParts]. *)
Definition noListing (e : Entry) : Prop := getListing e = None.

(** A task of a batch awaits an operation on its part, if any. *)
Definition awaitsPartOp (t : PartTask) : Prop :=
  match promise t with
  | Pending _ o => partOp o
  | _ => True
  end.

(** What a call has got for an answer to [ListParts]: nothing when it
    initiates a transfer, one answer at most when it resumes one. *)
Definition answered (resumes : bool) (new : list Entry) : Prop :=
  List.length (omap getListing new) <= 1 /\
  (resumes = false -> omap getListing new = []).

(** The world of a transfer of the cursor-only manager while the batch
    [tasks] is pending.  The cursor started after as many parts as were
    listed and stops after the last planned part; unless a task was
    rejected, the parts pending or stored since are those that the cursor
    has passed. *)
Definition cursorTransfer (file : string) (size : Z) (total : nat)
    (ident : Identity) (listed : list Part) (l : nat) (lg0 : list Entry)
    (tasks : list PartTask) (w : Cursor.W) : Prop :=
  exists st done new,
    heap w !! l = Some st /\ log w = new ++ lg0 /\
    cursorIdentity st = ident /\
    transferring file size total ident [] listed tasks
      (Cursor.uploadedParts st) (Cursor.nextPartNumber st) done new /\
    List.length listed + 1 <= Cursor.nextPartNumber st /\
    (Cursor.nextPartNumber st <= total + 1 \/
     Cursor.nextPartNumber st = List.length listed + 1) /\
    (rejection tasks = None ->
     pendingNumbers tasks ++ done
     ≡ₚ seq (List.length listed + 1)
          (Cursor.nextPartNumber st - (List.length listed + 1))).

(** The world of a transfer of the cursor-only manager that has issued
    its finalization, with all the stored parts: the cursor is past the
    plan. *)
Definition cursorFinalized (file : string) (size : Z) (total : nat)
    (ident : Identity) (listed : list Part) (l : nat) (lg0 : list Entry)
    (w : Cursor.W) : Prop :=
  exists st done new,
    heap w !! l = Some st /\ log w = new ++ lg0 /\
    transferring file size total ident [] listed []
      (Cursor.uploadedParts st) (Cursor.nextPartNumber st) done new /\
    finalizedWith new = Some (Cursor.uploadedParts st) /\
    done ≡ₚ seq (List.length listed + 1) (total - List.length listed).

(** How a chunked call of the cursor-only manager leaves the history: the
    part operations in [new] are as planned and never more than
    [MAX_CONCURRENT_UPLOADS] uploads at a time, and a call that completes
    has finalized with the listed parts and the parts from the one after
    as many as were listed to the last planned one. *)
Definition cursorOutcome (file : string) (size : Z) (ident : Identity)
    (listed : list Part) (new : list Entry) (r : Outcome Exit) : Prop :=
  let total := totalPartsFor size in
  orderly file size total ident [] new /\
  (r = Return Completed ->
   exists parts,
     finalizedWith new = Some parts /\
     PartNumber <$> parts
     ≡ₚ (PartNumber <$> listed)
        ++ seq (List.length listed + 1) (total - List.length listed) /\
     (ascending listed -> ascending parts)).

(** A listing as the backend gives it: in ascending order, no part twice,
    every part a planned one. *)
Definition properListing (total : nat) (parts : list Part) : Prop :=
  ascending parts /\
  NoDup (PartNumber <$> parts) /\
  Forall (fun n => 1 <= n <= total) (PartNumber <$> parts).

(** ** Progress reports *)

(** A report within its file: the bytes between nothing and the total, the
    percentage between 0 and 100. *)
Definition withinTotal (p : ProgressInfo) : Prop :=
  (0 <= uploadedBytes p <= totalBytes p)%Z /\
  (0 <= percentage p)%Q /\ (percentage p <= 100)%Q.

(** On a progress entry for a file of [size] bytes: the total is the size of
    the file, and every report but the [paused] one, which counts whole
    parts, is within it. *)
Definition reportsWithin (size : Z) (e : Entry) : Prop :=
  match e with
  | Emit p => totalBytes p = size /\ (status p <> paused -> withinTotal p)
  | _ => True
  end.

(** The same for a file whose size the call finds out itself. *)
Definition reportsWithinTotal (e : Entry) : Prop :=
  match e with
  | Emit p => status p <> paused -> withinTotal p
  | _ => True
  end.

(** [Deno.stat] never answers a negative size. *)
Definition sizesAreNatural (env : Env) : Prop :=
  forall lg f s, reply env lg (DenoStat f) = WithSize s -> (0 <= s)%Z.

(** ** The file handle *)

(** Entries on the handle of the source file: [Deno.open] and
    [file.close()]. *)
Definition onHandle (e : Entry) : bool :=
  match e with
  | Issue (DenoOpen _) | FileClose _ => true
  | _ => false
  end.

Definition offHandle (e : Entry) : Prop := onHandle e = false.

(** What follows the answer [ropen] to [Deno.open], newest first: nothing on
    the handle when the open failed, one [file.close()] when it
    succeeded. *)
Definition closedOnce (filePath : string) (ropen : Reply)
    (after : list Entry) : Prop :=
  match ropen with
  | Failure => Forall offHandle after
  | _ =>
      exists last body,
        after = last ++ FileClose filePath :: body /\
        Forall offHandle last /\ Forall offHandle body
  end.

(** The history of one chunked call, newest first: either the handle is
    never touched, or the file is opened once and, when that succeeded,
    closed once afterwards. *)
Definition handleHistory (filePath : string) (new : list Entry) : Prop :=
  Forall offHandle new \/
  exists after mid before ropen,
    new = after ++ Settle (DenoOpen filePath) ropen
                :: mid ++ Issue (DenoOpen filePath) :: before /\
    Forall callEntry mid /\ Forall offHandle before /\
    closedOnce filePath ropen after.

(** ** The registry after a chunked call *)

(** The fields of a state object that say which transfer it is. *)
Definition gapTransferOf (st : Gap.UploadState) :=
  (Gap.bucket st, Gap.key st, Gap.filePath st, Gap.fileSize st,
   Gap.uploadId st).

(** The object at [l] is the transfer [c] and is registered under [k],
    unless it was aborted. *)
Definition registeredUnlessAborted (k : string) (l : nat)
    (c : string * string * string * Z * string) (w : Gap.W) : Prop :=
  (exists st,
     heap w !! l = Some st /\ gapTransferOf st = c /\
     uploadStates w !! k = Some l)
  \/ abortedAt l w.

Definition staysRegistered (k : string) (l : nat)
    (c : string * string * string * Z * string) (w w1 : Gap.W) : Prop :=
  registeredUnlessAborted k l c w -> registeredUnlessAborted k l c w1.

(** What [getUploadState] answers after a chunked call of the gap-scanning
    manager that returned [exit]: nothing after [Completed]; after [Paused]
    the transfer of the call, flagged as paused and not as aborted. *)
Definition gapRegistryAfter (bucket key filePath : string) (size : Z)
    (exit : Exit) (w : Gap.W) : Prop :=
  match exit with
  | Completed => getUploadState bucket key w = None
  | Paused =>
      exists st,
        getUploadState bucket key w = Some st /\
        Gap.isPaused st = true /\ Gap.isAborted st = false /\
        Gap.bucket st = bucket /\ Gap.key st = key /\
        Gap.filePath st = filePath /\ Gap.fileSize st = size
  | Aborted => True
  end.

(** The same for the cursor-only manager, where a call from outside can
    have removed the entry of a transfer that is then paused. *)
Definition cursorRegistryAfter (bucket key : string) (exit : Exit)
    (w : Cursor.W) : Prop :=
  match exit with
  | Completed => getUploadState bucket key w = None
  | _ => True
  end.


(** ** Retries *)

(** Entries that issue no upload of a part. *)
Definition notUpload (e : Entry) : Prop :=
  match e with
  | Issue (UploadPart _ _ _ _) => False
  | _ => True
  end.

(** The delays of the backoff timers of the gap-scanning manager:
    [1000 * (retryCount + 1)] for a [retryCount] below 3. *)
Definition backoffDelay (e : Entry) : Prop :=
  match e with
  | Issue (SetTimeout ms) => (ms = 1000 \/ ms = 2000 \/ ms = 3000)%Z
  | _ => True
  end.

(** No timer is set. *)
Definition noTimer (e : Entry) : Prop :=
  match e with
  | Issue (SetTimeout _) => False
  | _ => True
  end.

(** What the retry count of a pending task says about the uploads issued
    for its part in the history [new], in a manager that retries a part
    [retries] times: at most one for each attempt before the present one,
    and one more once the present attempt has issued its own. *)
Definition retryBound (retries : nat) (new : list Entry) (t : PartTask)
  : Prop :=
  match promise t with
  | Pending s _ =>
      retryCount t <= retries /\
      match s with
      | Seeking | Reading => attemptsOf (partNumber t) new <= retryCount t
      | Sending => attemptsOf (partNumber t) new <= retryCount t + 1
      | Backoff =>
          retryCount t < retries /\
          attemptsOf (partNumber t) new <= retryCount t + 1
      end
  | _ => True
  end.

(** The retries while the batch [tasks] is pending: no part has more than
    [retries + 1] uploads in [new]; unless the transfer was [halted] or a
    task was rejected, a part with an upload is pending or [known]; no part
    has two pending tasks; the entries are [allowed] ones. *)
Record retrying (retries : nat) (allowed : Entry -> Prop) (halted : bool)
    (known : nat -> Prop) (tasks : list PartTask) (new : list Entry)
  : Prop := mkRetrying {
  attempts_max : forall n, attemptsOf n new <= S retries;
  attempts_known :
    halted = false -> rejection tasks = None ->
    forall n, 0 < attemptsOf n new -> n ∈ pendingNumbers tasks \/ known n;
  pending_once : NoDup (pendingNumbers tasks);
  tasks_bounded : Forall (retryBound retries new) tasks;
  entries_allowed : Forall allowed new }.

(** The gap-scanning manager retries three times, stops when the transfer
    is aborted, and plans a part when it is not stored. *)
Definition gapRetrying (l : nat) (lg0 : list Entry) (tasks : list PartTask)
    (w : Gap.W) : Prop :=
  exists st new,
    heap w !! l = Some st /\ log w = new ++ lg0 /\
    retrying 3 backoffDelay (Gap.isAborted st)
      (fun n => n ∈ (PartNumber <$> Gap.uploadedParts st)) tasks new.

(** The cursor-only manager never retries and plans the part at the
    cursor. *)
Definition cursorRetrying (l : nat) (lg0 : list Entry)
    (tasks : list PartTask) (w : Cursor.W) : Prop :=
  exists st new,
    heap w !! l = Some st /\ log w = new ++ lg0 /\
    retrying 0 noTimer false (fun n => n < Cursor.nextPartNumber st)
      tasks new /\
    Forall (fun n => n < Cursor.nextPartNumber st) (pendingNumbers tasks).

(** The history has grown since [lg0] by [allowed] entries among which no
    part has more than [retries + 1] uploads. *)
Definition retriesBounded {St} (retries : nat) (allowed : Entry -> Prop)
    (lg0 : list Entry) (w : World St) : Prop :=
  exists new,
    log w = new ++ lg0 /\
    (forall n, attemptsOf n new <= S retries) /\ Forall allowed new.

(** Entries that neither issue an upload nor set a timer. *)
Definition quietRetry (e : Entry) : Prop := notUpload e /\ noTimer e.

(** ** Resuming under the same upload id *)

(** On an entry: no multipart upload is created, and the parts are listed,
    uploaded and completed under the identity [ident]. *)
Definition continues (ident : Identity) (e : Entry) : Prop :=
  match e with
  | Issue (CreateMultipartUpload _ _) => False
  | Issue (ListParts b k i) | Issue (UploadPart b k i _)
  | Issue (CompleteMultipartUpload b k i _) => (b, k, i) = ident
  | _ => True
  end.

(** The state object at [l] has the identity [ident], and the history has
    grown since [lg0] by entries that continue it. *)
Definition under {St} (identOf : St -> Identity) (l : nat)
    (lg0 : list Entry) (ident : Identity) (w : World St) : Prop :=
  exists st new,
    heap w !! l = Some st /\ log w = new ++ lg0 /\ identOf st = ident /\
    Forall (continues ident) new.

Definition staysUnder {St} (identOf : St -> Identity) (l : nat)
    (lg0 : list Entry) (ident : Identity) (w w1 : World St) : Prop :=
  under identOf l lg0 ident w -> under identOf l lg0 ident w1.

Definition continued {St} (lg0 : list Entry) (ident : Identity)
    (w : World St) : Prop :=
  exists new, log w = new ++ lg0 /\ Forall (continues ident) new.

(** ** Finalizing *)

Definition isComplete (e : Entry) : bool :=
  match e with
  | Issue (CompleteMultipartUpload _ _ _ _) => true
  | _ => false
  end.

(** How often [CompleteMultipartUpload] was issued in a history. *)
Definition completions (lg : list Entry) : nat :=
  List.length (List.filter isComplete lg).

Definition noComplete (e : Entry) : Prop := isComplete e = false.

(** The history has grown since [lg0] by entries whose number of
    completions satisfies [P]. *)
Definition completing {St} (P : nat -> Prop) (lg0 : list Entry)
    (w : World St) : Prop :=
  exists new, log w = new ++ lg0 /\ P (completions new).

(** The completions of a chunked call that ended with [r]: never more than
    one, one when the call completed, none when it ended paused. *)
Definition completionsFor (r : Outcome Exit) (n : nat) : Prop :=
  n <= 1 /\
  match r with
  | Return Completed => n = 1
  | Return Paused => n = 0
  | _ => True
  end.

(** ** Counting the parts in the progress reports *)

(** The [currentPart] of the [uploading] reports of a history, oldest
    first. *)
Definition partCounts (lg : list Entry) : list nat :=
  omap (fun e =>
          match e with
          | Emit p =>
              match status p with
              | uploading => currentPart p
              | _ => None
              end
          | _ => None
          end) (rev lg).

(** Entries that are no [uploading] report. *)
Definition noPartReport (e : Entry) : Prop :=
  match e with
  | Emit p =>
      match status p with
      | uploading => False
      | _ => True
      end
  | _ => True
  end.

(** The state object at [l] started with [k] parts, and the history has
    since [lg0] one [uploading] report for each part stored since, counting
    up from [k + 1]. *)
Definition counting {St} (partsOf : St -> list Part) (l : nat)
    (lg0 : list Entry) (k : nat) (w : World St) : Prop :=
  exists st new,
    heap w !! l = Some st /\ log w = new ++ lg0 /\
    k <= List.length (partsOf st) /\
    partCounts new = seq (k + 1) (List.length (partsOf st) - k).

Definition staysCounting {St} (partsOf : St -> list Part) (l : nat)
    (lg0 : list Entry) (k : nat) (w w1 : World St) : Prop :=
  counting partsOf l lg0 k w -> counting partsOf l lg0 k w1.

(** The history has grown since [lg0] by entries whose [uploading]
    reports count up from [k + 1]. *)
Definition counted {St} (lg0 : list Entry) (k : nat) (w : World St) : Prop :=
  exists new m, log w = new ++ lg0 /\ partCounts new = seq (k + 1) m.

(** * The helpers around the managers *)

(** ** main.ts: downloadFile puts the streamed chunks together *)

Module Download.

(** [result.set(chunk, offset)]: a [RangeError], here [None], when the
    chunk does not fit. *)
Definition set (result chunk : list Byte.byte) (offset : nat)
  : option (list Byte.byte) :=
  if offset + List.length chunk <=? List.length result then
    Some (take offset result ++ chunk
          ++ drop (offset + List.length chunk) result)
  else None.

(** [chunks.reduce((acc, chunk) => acc + chunk.length, 0)] *)
Definition totalLength (chunks : list (list Byte.byte)) : nat :=
  foldl (fun acc chunk => acc + List.length chunk) 0 chunks.

(** The [for (const chunk of chunks)] loop with its running [offset]. *)
Fixpoint fill (chunks : list (list Byte.byte)) (result : list Byte.byte)
    (offset : nat) : option (list Byte.byte) :=
  match chunks with
  | [] => Some result
  | chunk :: rest =>
      match set result chunk offset with
      | Some result' => fill rest result' (offset + List.length chunk)
      | None => None
      end
  end.

(** The bytes handed to [Deno.writeFile]: a zeroed array of the total
    length, filled chunk by chunk. *)
Definition concatenate (chunks : list (list Byte.byte))
  : option (list Byte.byte) :=
  fill chunks (repeat Byte.x00 (totalLength chunks)) 0.

End Download.

(** ** demo-upload.ts: createTestFile writes a file in chunks *)

Module Demo.

Definition chunkSize : Z := 64 * 1024.

(** The [while (written < totalSize)] loop; the result is the lengths of
    the chunks passed to [file.write], [None] when the passes that [fuel]
    allows are used up. *)
Fixpoint writeChunks (fuel : nat) (totalSize written : Z)
  : option (list Z) :=
  if (written <? totalSize)%Z then
    match fuel with
    | 0 => None
    | S fuel' =>
        let remaining := (totalSize - written)%Z in
        let currentChunkSize := Z.min chunkSize remaining in
        match writeChunks fuel' totalSize (written + currentChunkSize) with
        | Some chunks => Some (currentChunkSize :: chunks)
        | None => None
        end
    end
  else Some [].

(** [createTestFile(path, sizeMB)] for a whole number of MiB. *)
Definition createTestFile (fuel : nat) (sizeMB : Z) : option (list Z) :=
  writeChunks fuel (sizeMB * 1024 * 1024) 0.

End Demo.

(** * Reasoning about runs *)

Section Preserves.
Context {St : Type}.
Implicit Types w : World St.

#[global] Instance logged_preorder (P : Entry -> Prop) :
  PreOrder (@logged St P).
Proof.
  split.
  - intros w. exists []. split; [reflexivity | constructor].
  - intros w1 w2 w3 (n1 & E1 & F1) (n2 & E2 & F2).
    exists (n2 ++ n1). split.
    + rewrite E2, E1. apply app_assoc.
    + apply Forall_app; auto.
Qed.

#[global] Instance noNewKey_preorder : PreOrder (@noNewKey St).
Proof.
  split.
  - intros w k H. exact H.
  - intros w1 w2 w3 H1 H2 k H. apply H2, H1, H.
Qed.

Lemma logged_mono (P Q : Entry -> Prop) w w1 :
  (forall e, P e -> Q e) -> logged P w w1 -> logged Q w w1.
Proof.
  intros HPQ (new & E & F). exists new. split; [exact E |].
  eapply Forall_impl; eauto.
Qed.

Lemma logged_entry (P : Entry -> Prop) e w :
  P e -> logged P w (logEntry e w).
Proof.
  intros HP. exists [e]. split; [reflexivity | repeat constructor; exact HP].
Qed.

Lemma logged_same_log (P : Entry -> Prop) w w1 :
  log w1 = log w -> logged P w w1.
Proof. intros E. exists []. split; [exact E | constructor]. Qed.

Section Rules.
Context (R : relation (World St)) `{!PreOrder R}.

Lemma preserves_ret {A} (a : A) : preserves R (ret a).
Proof. intros w. reflexivity. Qed.

Lemma preserves_throw {A} e : preserves R (@throw St A e).
Proof. intros w. reflexivity. Qed.

Lemma preserves_getWorld : preserves R (@getWorld St).
Proof. intros w. reflexivity. Qed.

Lemma preserves_bind {A B} (m : M St A) (k : A -> M St B) :
  preserves R m -> (forall a, preserves R (k a)) -> preserves R (bind m k).
Proof.
  intros Hm Hk w. unfold bind. specialize (Hm w).
  destruct (m w) as [[a | e] w1]; simpl in *; [| exact Hm].
  etransitivity; [exact Hm | apply Hk].
Qed.

Lemma preserves_tryCatch {A} (m : M St A) (h : Error -> M St A) :
  preserves R m -> (forall e, preserves R (h e)) ->
  preserves R (tryCatch m h).
Proof.
  intros Hm Hh w. unfold tryCatch. specialize (Hm w).
  destruct (m w) as [[a | e] w1]; simpl in *; [exact Hm |].
  etransitivity; [exact Hm | apply Hh].
Qed.

Lemma preserves_tryFinally {A} (m : M St A) (f : World St -> World St) :
  preserves R m -> (forall w, R w (f w)) -> preserves R (tryFinally m f).
Proof.
  intros Hm Hf w. unfold tryFinally. specialize (Hm w).
  destruct (m w) as [r w1]; simpl in *.
  etransitivity; [exact Hm | apply Hf].
Qed.

Lemma preserves_attempt {A} (m : M St A) :
  preserves R m -> preserves R (attempt m).
Proof.
  intros Hm w. unfold attempt. specialize (Hm w).
  destruct (m w) as [r w1]; exact Hm.
Qed.

Lemma preserves_update (f : World St -> World St) :
  (forall w, R w (f w)) -> preserves R (update f).
Proof. intros Hf w. apply Hf. Qed.

Lemma preserves_record e :
  (forall w, R w (logEntry e w)) -> preserves R (@record St e).
Proof. intros Hf w. apply Hf. Qed.

Lemma preserves_foldl {C} (f : World St -> C -> World St) (cs : list C) :
  (forall w c, R w (f w c)) -> forall w, R w (foldl f w cs).
Proof.
  intros Hf. induction cs as [| c cs IH]; intros w; simpl.
  - reflexivity.
  - etransitivity; [apply Hf | apply IH].
Qed.
End Rules.
End Preserves.

(** ** The primitive steps *)

Section Primitives.
Context {St : Type} `{Inhabited St}.
Implicit Types w : World St.

Lemma logged_alloc P (st : St) : preserves (logged P) (alloc st).
Proof. intros w. apply logged_same_log. reflexivity. Qed.

Lemma logged_read P l : preserves (logged P) (@read St _ l).
Proof. intros w. apply logged_same_log. reflexivity. Qed.

Lemma logged_modify P l (f : St -> St) : preserves (logged P) (modify l f).
Proof. intros w. apply logged_same_log. reflexivity. Qed.

Lemma logged_write P l (st : St) : preserves (logged P) (write l st).
Proof. intros w. apply logged_same_log. reflexivity. Qed.

Lemma logged_registrySet P k l : preserves (logged P) (@registrySet St k l).
Proof. intros w. apply logged_same_log. reflexivity. Qed.

Lemma logged_registryDelete P k : preserves (logged P) (@registryDelete St k).
Proof. intros w. apply logged_same_log. reflexivity. Qed.

Lemma logged_record (P : Entry -> Prop) e :
  P e -> preserves (logged P) (@record St e).
Proof. intros HP w. apply logged_entry, HP. Qed.

Lemma logged_issue (P : Entry -> Prop) o :
  P (Issue o) -> preserves (logged P) (@issue St o).
Proof. apply logged_record. Qed.

Lemma logged_onProgress (P : Entry -> Prop) p :
  P (Emit p) -> preserves (logged P) (@onProgress St p).
Proof. apply logged_record. Qed.

Lemma logged_settle (P : Entry -> Prop) env o :
  (forall r, P (Settle o r)) -> preserves (logged P) (@settle St env o).
Proof. intros HP w. apply logged_entry, HP. Qed.

Lemma noNewKey_same w w1 :
  uploadStates w1 = uploadStates w -> noNewKey w w1.
Proof. intros E k Hk. rewrite E. exact Hk. Qed.

Lemma noNewKey_alloc (st : St) : preserves noNewKey (alloc st).
Proof. intros w. apply noNewKey_same. reflexivity. Qed.

Lemma noNewKey_read l : preserves noNewKey (@read St _ l).
Proof. intros w. apply noNewKey_same. reflexivity. Qed.

Lemma noNewKey_modify l (f : St -> St) : preserves noNewKey (modify l f).
Proof. intros w. apply noNewKey_same. reflexivity. Qed.

Lemma noNewKey_write l (st : St) : preserves noNewKey (write l st).
Proof. intros w. apply noNewKey_same. reflexivity. Qed.

Lemma noNewKey_registryDelete k : preserves noNewKey (@registryDelete St k).
Proof.
  intros w k' Hk. simpl.
  destruct (decide (k = k')) as [-> | Hne].
  - apply lookup_delete_eq.
  - rewrite lookup_delete_ne by exact Hne. exact Hk.
Qed.

Lemma noNewKey_record e : preserves noNewKey (@record St e).
Proof. intros w. apply noNewKey_same. reflexivity. Qed.

Lemma noNewKey_settle env o : preserves noNewKey (@settle St env o).
Proof. intros w. apply noNewKey_same. reflexivity. Qed.
End Primitives.

Create HintDb pres discriminated.
#[export] Hint Resolve logged_write noNewKey_write : pres.
#[export] Hint Resolve logged_alloc logged_read logged_modify logged_registrySet
  logged_registryDelete noNewKey_alloc noNewKey_read noNewKey_modify
  noNewKey_registryDelete noNewKey_record noNewKey_settle : pres.
#[export] Hint Extern 1 (preserves noNewKey (issue _)) =>
  apply noNewKey_record : pres.
#[export] Hint Extern 1 (preserves noNewKey (onProgress _)) =>
  apply noNewKey_record : pres.

(** One structural step on a goal [preserves R m]. *)
Ltac pres_step R :=
  lazymatch goal with
  | |- preserves _ (bind _ _) => apply (preserves_bind R); [| intros ?]
  | |- preserves _ (ret _) => apply (preserves_ret R)
  | |- preserves _ (throw _) => apply (preserves_throw R)
  | |- preserves _ getWorld => apply (preserves_getWorld R)
  | |- preserves _ (tryCatch _ _) => apply (preserves_tryCatch R); [| intros ?]
  | |- preserves _ (attempt _) => apply (preserves_attempt R)
  | |- preserves _ (match ?x with _ => _ end) => destruct x
  | |- preserves _ (let _ := _ in _) => cbv zeta
  | |- preserves (logged _) (record _) => apply logged_record
  | |- preserves (logged _) (issue _) => apply logged_issue
  | |- preserves (logged _) (onProgress _) => apply logged_onProgress
  | |- preserves (logged _) (settle _ _) => apply logged_settle; intros ?
  end.

Ltac pres R := repeat (pres_step R); eauto with pres; try exact I.

(** ** External calls *)

Lemma Gap_pauseUpload_logged P b k : preserves (logged P) (Gap.pauseUpload b k).
Proof. unfold Gap.pauseUpload. pres (@logged Gap.UploadState P). Qed.

Lemma Gap_runCall_logged env c w :
  logged callEntry w (Gap.runCall env c w).
Proof.
  destruct c as [b k | b k]; simpl.
  - apply Gap_pauseUpload_logged.
  - revert w. change (preserves (logged callEntry)
      (Gap.abortUploadWith (awaitAlone env) b k)).
    unfold Gap.abortUploadWith, awaitAlone.
    pres (@logged Gap.UploadState callEntry).
Qed.

Lemma Gap_runCall_noNewKey env c w : noNewKey w (Gap.runCall env c w).
Proof.
  destruct c as [b k | b k]; simpl.
  - revert w. change (preserves noNewKey (Gap.pauseUpload b k)).
    unfold Gap.pauseUpload. pres (@noNewKey Gap.UploadState).
  - revert w. change (preserves noNewKey
      (Gap.abortUploadWith (awaitAlone env) b k)).
    unfold Gap.abortUploadWith, awaitAlone.
    pres (@noNewKey Gap.UploadState).
Qed.

Lemma Cursor_runCall_logged env c w :
  logged callEntry w (Cursor.runCall env c w).
Proof.
  destruct c as [b k | b k]; simpl.
  - revert w. change (preserves (logged callEntry) (Cursor.pauseUpload b k)).
    unfold Cursor.pauseUpload. pres (@logged Cursor.UploadState callEntry).
  - revert w. change (preserves (logged callEntry)
      (Cursor.abortUploadWith (awaitAlone env) b k)).
    unfold Cursor.abortUploadWith, awaitAlone.
    pres (@logged Cursor.UploadState callEntry).
Qed.

Lemma Cursor_runCall_noNewKey env c w : noNewKey w (Cursor.runCall env c w).
Proof.
  destruct c as [b k | b k]; simpl.
  - revert w. change (preserves noNewKey (Cursor.pauseUpload b k)).
    unfold Cursor.pauseUpload. pres (@noNewKey Cursor.UploadState).
  - revert w. change (preserves noNewKey
      (Cursor.abortUploadWith (awaitAlone env) b k)).
    unfold Cursor.abortUploadWith, awaitAlone.
    pres (@noNewKey Cursor.UploadState).
Qed.

(** ** Awaiting *)

Section AwaitRules.
Context {St : Type} (env : Env) (runCall : Call -> World St -> World St).

Section Relation.
Context (R : relation (World St)) `{!PreOrder R}.
Hypothesis R_call : forall c w, R w (runCall c w).
Hypothesis R_extern : forall c w, R w (logEntry (Extern c) w).

Lemma preserves_intrusions : preserves R (intrusions env runCall).
Proof.
  intros w. unfold intrusions. simpl.
  apply (preserves_foldl R). intros w' c.
  etransitivity; [apply R_extern | apply R_call].
Qed.

Lemma preserves_await o :
  (forall w, R w (logEntry (Issue o) w)) ->
  (forall r w, R w (logEntry (Settle o r) w)) ->
  preserves R (await env runCall o).
Proof.
  intros Hi Hs. unfold await.
  apply (preserves_bind R); [intros w; apply Hi | intros _].
  apply (preserves_bind R); [apply preserves_intrusions | intros _].
  intros w. apply Hs.
Qed.

Lemma preserves_awaitOk o :
  (forall w, R w (logEntry (Issue o) w)) ->
  (forall r w, R w (logEntry (Settle o r) w)) ->
  preserves R (awaitOk env runCall o).
Proof.
  intros Hi Hs. unfold awaitOk.
  apply (preserves_bind R); [apply preserves_await; assumption |].
  intros r. destruct r; first [apply (preserves_throw R) | apply (preserves_ret R)].
Qed.

(** While [Promise.all] is pending. *)
Lemma preserves_promiseAll
    (resume : PartTask -> Stage -> Op -> Reply -> M St PartTask) :
  (forall t s o r, preserves R (resume t s o r)) ->
  (forall o r w, R w (logEntry (Settle o r) w)) ->
  forall fuel tasks, preserves R (promiseAll env runCall resume fuel tasks).
Proof.
  intros Hres Hs fuel.
  induction fuel as [| fuel IH]; intros tasks; cbn [promiseAll].
  - destruct (rejection tasks); [apply (preserves_throw R) |].
    destruct (pendingFrom 0 tasks);
      [apply (preserves_ret R) | apply (preserves_throw R)].
  - destruct (rejection tasks); [apply (preserves_throw R) |].
    destruct (pendingFrom 0 tasks) as [| first others];
      [apply (preserves_ret R) |].
    apply (preserves_bind R); [apply preserves_intrusions | intros _].
    apply (preserves_bind R); [apply (preserves_getWorld R) | intros w'].
    match goal with
    | |- context [nth ?a ?b ?c] => destruct (nth a b c) as [[[i t] s] o]
    end.
    apply (preserves_bind R); [intros w; apply Hs | intros r].
    apply (preserves_bind R); [apply Hres | intros t'].
    apply IH.
Qed.
End Relation.

Hypothesis call_logged : forall c w, logged callEntry w (runCall c w).
Hypothesis call_noNewKey : forall c w, noNewKey w (runCall c w).

Lemma logged_call (P : Entry -> Prop) :
  (forall e, callEntry e -> P e) -> forall c w, logged P w (runCall c w).
Proof. intros HP c w. eapply logged_mono; [exact HP | apply call_logged]. Qed.

Lemma logged_await (P : Entry -> Prop) o :
  (forall e, callEntry e -> P e) -> P (Issue o) ->
  (forall r, P (Settle o r)) ->
  preserves (logged P) (await env runCall o).
Proof.
  intros HP Hi Hs. apply (preserves_await (logged P)).
  - apply logged_call, HP.
  - intros c w. apply logged_entry, HP. exact I.
  - intros w. apply logged_entry, Hi.
  - intros r w. apply logged_entry, Hs.
Qed.

Lemma logged_awaitOk (P : Entry -> Prop) o :
  (forall e, callEntry e -> P e) -> P (Issue o) ->
  (forall r, P (Settle o r)) ->
  preserves (logged P) (awaitOk env runCall o).
Proof.
  intros HP Hi Hs. apply (preserves_awaitOk (logged P)).
  - apply logged_call, HP.
  - intros c w. apply logged_entry, HP. exact I.
  - intros w. apply logged_entry, Hi.
  - intros r w. apply logged_entry, Hs.
Qed.

Lemma noNewKey_intrusions : preserves noNewKey (intrusions env runCall).
Proof.
  apply (preserves_intrusions noNewKey); [exact call_noNewKey |].
  intros c w. apply noNewKey_same. reflexivity.
Qed.

(** What an await does to the history: the issue, the entries of the
    calls that came in between, the settlement. *)
Lemma await_spec o w :
  exists mid w1,
    Forall callEntry mid /\
    noNewKey w w1 /\
    log w1 = Settle o (reply env (mid ++ Issue o :: log w) o)
               :: mid ++ Issue o :: log w /\
    await env runCall o w
    = (Return (reply env (mid ++ Issue o :: log w) o), w1).
Proof.
  pose proof (preserves_intrusions (logged callEntry)
                (logged_call callEntry (fun e He => He))
                (fun c w' => logged_entry callEntry (Extern c) w' I)
                (logEntry (Issue o) w)) as (mid & Hmid & Fmid).
  pose proof (noNewKey_intrusions (logEntry (Issue o) w)) as Hk.
  unfold await, bind, issue, record, settle.
  unfold intrusions in *. simpl in *.
  match goal with
  | H : log ?x = _ |- _ => set (w2 := x) in *
  end.
  exists mid, (logEntry (Settle o (reply env (log w2) o)) w2).
  split; [exact Fmid |]. split; [| split].
  - intros k Hn. simpl. apply Hk. exact Hn.
  - simpl. rewrite Hmid. reflexivity.
  - rewrite Hmid. reflexivity.
Qed.

Lemma awaitOk_spec o w :
  exists mid w1 r,
    Forall callEntry mid /\
    noNewKey w w1 /\
    r = reply env (mid ++ Issue o :: log w) o /\
    log w1 = Settle o r :: mid ++ Issue o :: log w /\
    heap w1 = heap (foldl (fun w' c => runCall c (logEntry (Extern c) w'))
                      (logEntry (Issue o) w)
                      (intrude env (Issue o :: log w))) /\
    awaitOk env runCall o w
    = (match r with Failure => Throw (OpFailed o) | _ => Return r end, w1).
Proof.
  destruct (await_spec o w) as (mid & w1 & Fmid & Hk & Hlog & Haw).
  exists mid, w1, (reply env (mid ++ Issue o :: log w) o).
  repeat split; try assumption.
  - revert Haw. unfold await, bind, issue, record, intrusions, settle. simpl.
    intros Haw. inversion Haw. reflexivity.
  - unfold awaitOk, bind. rewrite Haw.
    destruct (reply env (mid ++ Issue o :: log w) o); reflexivity.
Qed.

Lemma filter_isPut_calls mid :
  Forall callEntry mid -> List.filter isPut mid = [].
Proof.
  induction 1 as [| e mid He _ IH]; [reflexivity |].
  simpl. rewrite IH.
  destruct e as [[]| [] | | |]; simpl in *; try contradiction; reflexivity.
Qed.


(** The simple path: one [PutObject], nothing registered. *)
Lemma simpleUpload_spec bucket key filePath size w :
  (forall lg, reply env lg (DenoReadFile filePath) <> Failure) ->
  exists r new w',
    simpleUpload env runCall bucket key filePath size w = (r, w') /\
    log w' = new ++ log w /\
    List.filter isPut new = [Issue (PutObject bucket key)] /\
    noNewKey w w'.
Proof.
  intros Hread.
  unfold simpleUpload, tryCatch.
  unfold bind at 1. unfold onProgress at 1, record at 1.
  unfold bind at 1.
  destruct (awaitOk_spec (DenoReadFile filePath)
              (logEntry (Emit (mkProgress filePath 0 size 0 None None uploading)) w))
    as (mid1 & w1 & r1 & F1 & K1 & Er1 & L1 & _ & A1).
  rewrite A1.
  assert (r1 <> Failure) as Hr1 by (rewrite Er1; apply Hread).
  assert (match r1 with
          | Failure => @Throw Reply (OpFailed (DenoReadFile filePath))
          | _ => Return r1
          end = Return r1) as -> by (destruct r1; congruence).
  unfold bind at 1.
  destruct (awaitOk_spec (PutObject bucket key) w1)
    as (mid2 & w2 & r2 & F2 & K2 & Er2 & L2 & _ & A2).
  rewrite A2.
  assert (noNewKey w w2) as K.
  { intros k Hk. apply K2, K1. exact Hk. }
  assert (List.filter isPut
            (Settle (PutObject bucket key) r2 :: mid2 ++
             Issue (PutObject bucket key) ::
             Settle (DenoReadFile filePath) r1 :: mid1 ++
             Issue (DenoReadFile filePath) ::
             [Emit (mkProgress filePath 0 size 0 None None uploading)])
          = [Issue (PutObject bucket key)]) as Hf.
  { simpl. rewrite !List.filter_app. simpl. rewrite !List.filter_app. simpl.
    rewrite !filter_isPut_calls by assumption. reflexivity. }
  assert (log w2 =
            (Settle (PutObject bucket key) r2 :: mid2 ++
             Issue (PutObject bucket key) ::
             Settle (DenoReadFile filePath) r1 :: mid1 ++
             Issue (DenoReadFile filePath) ::
             [Emit (mkProgress filePath 0 size 0 None None uploading)])
            ++ log w) as Hlog.
  { rewrite L2, L1. simpl. rewrite <- !app_assoc. simpl.
    rewrite <- !app_assoc. reflexivity. }
  destruct r2; cbn -[List.filter];
    (eexists _, (_ :: _), _; split; [reflexivity |];
     split; [unfold logEntry; cbn [log]; rewrite Hlog; reflexivity |];
     split; [exact Hf | exact K]).
Qed.

Lemma statSize_spec filePath size w :
  (forall lg, reply env lg (DenoStat filePath) = WithSize size) ->
  exists new w1,
    statSize env runCall filePath w = (Return size, w1) /\
    log w1 = new ++ log w /\
    List.filter isPut new = [] /\
    noNewKey w w1.
Proof.
  intros Hstat. unfold statSize, bind.
  destruct (await_spec (DenoStat filePath) w)
    as (mid & w1 & Fmid & Hk & Hlog & Haw).
  rewrite Haw, Hstat.
  exists (Settle (DenoStat filePath) (WithSize size) :: mid
          ++ [Issue (DenoStat filePath)]), w1.
  split; [reflexivity |]. split; [| split; [| exact Hk]].
  - rewrite Hlog, Hstat. simpl. rewrite <- app_assoc. reflexivity.
  - simpl. rewrite List.filter_app, filter_isPut_calls by assumption.
    reflexivity.
Qed.
End AwaitRules.

(** * The registry: pause, resume and abort *)

(** C8.  For a (bucket, key) with no registered state, in both managers,
    [pauseUpload] and [abortUpload] return normally and leave the world
    (registry, state objects and history) as it was, and [resumeUpload]
    throws "No paused upload found". *)
Theorem unregistered_pause_abort_resume env bucket key
    (w : Gap.W) (v : Cursor.W) :
  uploadStates w !! stateKey bucket key = None ->
  uploadStates v !! stateKey bucket key = None ->
  (Gap.pauseUpload bucket key w = (Return tt, w) /\
   Gap.abortUpload env bucket key w = (Return tt, w) /\
   Gap.resumeUpload env bucket key w = (Throw (NoPausedUpload key), w)) /\
  (Cursor.pauseUpload bucket key v = (Return tt, v) /\
   Cursor.abortUpload env bucket key v = (Return tt, v) /\
   Cursor.resumeUpload env bucket key v = (Throw (NoPausedUpload key), v)).
Proof.
  intros Hw Hv. split.
  - unfold Gap.pauseUpload, Gap.abortUpload, Gap.abortUploadWith,
      Gap.resumeUpload, bind, getWorld.
    rewrite Hw. auto.
  - unfold Cursor.pauseUpload, Cursor.abortUpload, Cursor.abortUploadWith,
      Cursor.resumeUpload, bind, getWorld.
    rewrite Hv. auto.
Qed.

Lemma unregistered_pause_abort_resume_witness :
  let env := calmEnv 0 [] in
  let w : Gap.W := emptyWorld in
  let v : Cursor.W := emptyWorld in
  (uploadStates w !! stateKey "b" "k" = None /\
   uploadStates v !! stateKey "b" "k" = None) /\
  (Gap.pauseUpload "b" "k" w = (Return tt, w) /\
   Gap.abortUpload env "b" "k" w = (Return tt, w) /\
   Gap.resumeUpload env "b" "k" w = (Throw (NoPausedUpload "k"), w)) /\
  (Cursor.pauseUpload "b" "k" v = (Return tt, v) /\
   Cursor.abortUpload env "b" "k" v = (Return tt, v) /\
   Cursor.resumeUpload env "b" "k" v = (Throw (NoPausedUpload "k"), v)).
Proof.
  intros env w v.
  split; [split; reflexivity |].
  apply (unregistered_pause_abort_resume env "b" "k" w v); reflexivity.
Defined.

Lemma alter_total_Some {A} `{Inhabited A} (f : A -> A) (m : gmap nat A) l x :
  m !! l = Some x -> alter f l m !!! l = f x.
Proof.
  intros Hm. apply lookup_total_correct.
  rewrite lookup_alter_eq, Hm. reflexivity.
Qed.

Lemma Gap_abort_registered env bucket key (w : Gap.W) l st :
  uploadStates w !! stateKey bucket key = Some l ->
  heap w !! l = Some st ->
  let command :=
    AbortMultipartUpload (Gap.bucket st) (Gap.key st) (Gap.uploadId st) in
  (forall lg, reply env lg command <> Failure) ->
  exists w1 new,
    Gap.abortUpload env bucket key w = (Return tt, w1) /\
    log w1 = new ++ Issue command :: log w /\
    getUploadState bucket key w1 = None /\
    Gap.abortUpload env bucket key w1 = (Return tt, w1).
Proof.
  intros Hreg Hheap command Hok.
  unfold Gap.abortUpload, Gap.abortUploadWith at 1.
  unfold bind at 1, getWorld at 1. rewrite Hreg.
  unfold bind at 1, modify at 1, update at 1.
  unfold bind at 1, read at 1. cbn [heap uploadStates log].
  rewrite (alter_total_Some _ _ _ _ Hheap).
  cbn [Gap.bucket Gap.key Gap.uploadId Gap.setAborted]. fold command.
  unfold bind at 1.
  match goal with
  | |- context [Gap.await env command ?w0] =>
      destruct (await_spec env (Gap.runCall env) (Gap_runCall_logged env)
                  (Gap_runCall_noNewKey env) command w0)
        as (mid & w1 & Fmid & Hk & Hlog & Haw)
  end.
  unfold Gap.await. rewrite Haw. cbn [log] in Hlog.
  set (r := reply env (mid ++ Issue command :: log w) command) in *.
  assert (forall (k1 k2 : Gap.M unit),
             match r with Failure => k1 | _ => k2 end = k2) as Hr.
  { intros k1 k2. specialize (Hok (mid ++ Issue command :: log w)).
    fold r in Hok. destruct r; congruence. }
  rewrite Hr. cbn.
  eexists _, (Settle command r :: mid). split; [reflexivity |].
  split; [cbn; rewrite Hlog; reflexivity |].
  split.
  - unfold getUploadState. cbn. rewrite lookup_delete_eq. reflexivity.
  - unfold Gap.abortUploadWith, bind, getWorld. cbn.
    rewrite lookup_delete_eq. reflexivity.
Qed.

Lemma Cursor_abort_registered env bucket key (w : Cursor.W) l st :
  uploadStates w !! stateKey bucket key = Some l ->
  heap w !! l = Some st ->
  let command :=
    AbortMultipartUpload (Cursor.bucket st) (Cursor.key st)
      (Cursor.uploadId st) in
  (forall lg, reply env lg command <> Failure) ->
  exists w1 new,
    Cursor.abortUpload env bucket key w = (Return tt, w1) /\
    log w1 = new ++ Issue command :: log w /\
    getUploadState bucket key w1 = None /\
    Cursor.abortUpload env bucket key w1 = (Return tt, w1).
Proof.
  intros Hreg Hheap command Hok.
  unfold Cursor.abortUpload, Cursor.abortUploadWith at 1.
  unfold bind at 1, getWorld at 1. rewrite Hreg.
  unfold bind at 1, read at 1.
  rewrite (lookup_total_correct _ _ _ Hheap). fold command.
  unfold bind at 1.
  destruct (await_spec env (Cursor.runCall env) (Cursor_runCall_logged env)
              (Cursor_runCall_noNewKey env) command w)
    as (mid & w1 & Fmid & Hk & Hlog & Haw).
  unfold Cursor.await. rewrite Haw.
  set (r := reply env (mid ++ Issue command :: log w) command) in *.
  assert (forall (k1 k2 : Cursor.M unit),
             match r with Failure => k1 | _ => k2 end = k2) as Hr.
  { intros k1 k2. specialize (Hok (mid ++ Issue command :: log w)).
    fold r in Hok. destruct r; congruence. }
  rewrite Hr. cbn.
  eexists _, (Settle command r :: mid). split; [reflexivity |].
  split; [cbn; rewrite Hlog; reflexivity |].
  split.
  - unfold getUploadState. cbn. rewrite lookup_delete_eq. reflexivity.
  - unfold Cursor.abortUploadWith, bind, getWorld. cbn.
    rewrite lookup_delete_eq. reflexivity.
Qed.

(** C9.  For a registered (bucket, key), in both managers, [abortUpload]
    issues [AbortMultipartUpload] for the bucket, key and upload id of the
    registered state and, the command succeeding, removes the entry:
    [getUploadState] then finds nothing and a second [abortUpload] returns
    without touching the world. *)
Theorem abort_releases_and_removes env bucket key
    (w : Gap.W) l st (v : Cursor.W) l' st' :
  uploadStates w !! stateKey bucket key = Some l ->
  heap w !! l = Some st ->
  uploadStates v !! stateKey bucket key = Some l' ->
  heap v !! l' = Some st' ->
  (forall lg b k id, reply env lg (AbortMultipartUpload b k id) <> Failure) ->
  (exists w1 new,
     Gap.abortUpload env bucket key w = (Return tt, w1) /\
     log w1 = new ++ Issue (AbortMultipartUpload (Gap.bucket st) (Gap.key st)
                              (Gap.uploadId st)) :: log w /\
     getUploadState bucket key w1 = None /\
     Gap.abortUpload env bucket key w1 = (Return tt, w1)) /\
  (exists v1 new,
     Cursor.abortUpload env bucket key v = (Return tt, v1) /\
     log v1 = new ++ Issue (AbortMultipartUpload (Cursor.bucket st')
                              (Cursor.key st') (Cursor.uploadId st')) :: log v /\
     getUploadState bucket key v1 = None /\
     Cursor.abortUpload env bucket key v1 = (Return tt, v1)).
Proof.
  intros Hw Hst Hv Hst' Hok. split.
  - apply (Gap_abort_registered env bucket key w l st Hw Hst).
    intros lg. apply Hok.
  - apply (Cursor_abort_registered env bucket key v l' st' Hv Hst').
    intros lg. apply Hok.
Qed.

Lemma abort_releases_and_removes_witness :
  let env := calmEnv (25 * MiB) [] in
  (uploadStates gapWorld24 !! stateKey "b" "k" = Some 0 /\
   heap gapWorld24 !! 0 = Some gapState24 /\
   uploadStates cursorWorld24 !! stateKey "b" "k" = Some 0 /\
   heap cursorWorld24 !! 0 = Some cursorState24 /\
   (forall lg b k id, reply env lg (AbortMultipartUpload b k id) <> Failure)) /\
  (exists w1 new,
     Gap.abortUpload env "b" "k" gapWorld24 = (Return tt, w1) /\
     log w1 = new ++ Issue (AbortMultipartUpload "b" "k" "upload-1")
                :: log gapWorld24 /\
     getUploadState "b" "k" w1 = None /\
     Gap.abortUpload env "b" "k" w1 = (Return tt, w1)) /\
  (exists v1 new,
     Cursor.abortUpload env "b" "k" cursorWorld24 = (Return tt, v1) /\
     log v1 = new ++ Issue (AbortMultipartUpload "b" "k" "upload-1")
                :: log cursorWorld24 /\
     getUploadState "b" "k" v1 = None /\
     Cursor.abortUpload env "b" "k" v1 = (Return tt, v1)).
Proof.
  intros env.
  assert (forall lg b k id,
             reply env lg (AbortMultipartUpload b k id) <> Failure) as Hok
    by (intros; discriminate).
  split.
  - repeat split; try reflexivity. exact Hok.
  - apply (abort_releases_and_removes env "b" "k"
             gapWorld24 0 gapState24 cursorWorld24 0 cursorState24);
      try reflexivity.
    exact Hok.
Defined.

(** * The simple path *)

Lemma Gap_small_file env bucket key filePath size (w : Gap.W) :
  (forall lg, reply env lg (DenoStat filePath) = WithSize size) ->
  (size < MULTIPART_THRESHOLD)%Z ->
  (forall lg, reply env lg (DenoReadFile filePath) <> Failure) ->
  exists r new w1,
    Gap.uploadFile env bucket key filePath w = (r, w1) /\
    log w1 = new ++ log w /\
    List.filter isPut new = [Issue (PutObject bucket key)] /\
    noNewKey w w1.
Proof.
  intros Hstat Hsmall Hread. unfold Gap.uploadFile. unfold bind at 1.
  destruct (statSize_spec env (Gap.runCall env) (Gap_runCall_logged env)
              (Gap_runCall_noNewKey env) filePath size w Hstat)
    as (new0 & w0 & E0 & L0 & F0 & K0).
  rewrite E0. apply Z.ltb_lt in Hsmall. rewrite Hsmall.
  destruct (simpleUpload_spec env (Gap.runCall env) (Gap_runCall_logged env)
              (Gap_runCall_noNewKey env) bucket key filePath size w0 Hread)
    as (r & new & w1 & E1 & L1 & F1 & K1).
  unfold bind. rewrite E1.
  exists (match r with Return _ => Return Completed | Throw e => Throw e end),
    (new ++ new0), w1.
  split; [destruct r; reflexivity |].
  split; [rewrite L1, L0; apply app_assoc |].
  split; [rewrite List.filter_app, F1, F0; reflexivity |].
  intros k Hk. apply K1, K0, Hk.
Qed.

Lemma Cursor_small_file env bucket key filePath size (w : Cursor.W) :
  (forall lg, reply env lg (DenoStat filePath) = WithSize size) ->
  (size < MULTIPART_THRESHOLD)%Z ->
  (forall lg, reply env lg (DenoReadFile filePath) <> Failure) ->
  exists r new w1,
    Cursor.uploadFile env bucket key filePath w = (r, w1) /\
    log w1 = new ++ log w /\
    List.filter isPut new = [Issue (PutObject bucket key)] /\
    noNewKey w w1.
Proof.
  intros Hstat Hsmall Hread. unfold Cursor.uploadFile. unfold bind at 1.
  destruct (statSize_spec env (Cursor.runCall env) (Cursor_runCall_logged env)
              (Cursor_runCall_noNewKey env) filePath size w Hstat)
    as (new0 & w0 & E0 & L0 & F0 & K0).
  rewrite E0. apply Z.ltb_lt in Hsmall. rewrite Hsmall.
  destruct (simpleUpload_spec env (Cursor.runCall env)
              (Cursor_runCall_logged env) (Cursor_runCall_noNewKey env)
              bucket key filePath size w0 Hread)
    as (r & new & w1 & E1 & L1 & F1 & K1).
  unfold bind. rewrite E1.
  exists (match r with Return _ => Return Completed | Throw e => Throw e end),
    (new ++ new0), w1.
  split; [destruct r; reflexivity |].
  split; [rewrite L1, L0; apply app_assoc |].
  split; [rewrite List.filter_app, F1, F0; reflexivity |].
  intros k Hk. apply K1, K0, Hk.
Qed.

(** C3.  In both managers, [uploadFile] of a readable file whose size is
    below [MULTIPART_THRESHOLD] issues exactly one [PutObject], the one for
    (bucket, key), and registers nothing: every key that was absent from
    the registry before the call is absent after it, so [getUploadState]
    for an unregistered (bucket, key) stays [None]. *)
Theorem small_file_one_put_no_state env bucket key filePath size
    (w : Gap.W) (v : Cursor.W) :
  (forall lg, reply env lg (DenoStat filePath) = WithSize size) ->
  (size < MULTIPART_THRESHOLD)%Z ->
  (forall lg, reply env lg (DenoReadFile filePath) <> Failure) ->
  (exists r new w1,
     Gap.uploadFile env bucket key filePath w = (r, w1) /\
     log w1 = new ++ log w /\
     List.filter isPut new = [Issue (PutObject bucket key)] /\
     noNewKey w w1 /\
     (uploadStates w !! stateKey bucket key = None ->
      getUploadState bucket key w1 = None)) /\
  (exists r new v1,
     Cursor.uploadFile env bucket key filePath v = (r, v1) /\
     log v1 = new ++ log v /\
     List.filter isPut new = [Issue (PutObject bucket key)] /\
     noNewKey v v1 /\
     (uploadStates v !! stateKey bucket key = None ->
      getUploadState bucket key v1 = None)).
Proof.
  intros Hstat Hsmall Hread. split.
  - destruct (Gap_small_file env bucket key filePath size w Hstat Hsmall Hread)
      as (r & new & w1 & E & L & F & K).
    exists r, new, w1. repeat split; try assumption.
    intros Hk. unfold getUploadState. rewrite (K _ Hk). reflexivity.
  - destruct (Cursor_small_file env bucket key filePath size v Hstat Hsmall Hread)
      as (r & new & v1 & E & L & F & K).
    exists r, new, v1. repeat split; try assumption.
    intros Hk. unfold getUploadState. rewrite (K _ Hk). reflexivity.
Qed.

Lemma small_file_one_put_no_state_witness :
  let env := calmEnv (3 * MiB) [] in
  ((forall lg, reply env lg (DenoStat "f") = WithSize (3 * MiB)) /\
   (3 * MiB < MULTIPART_THRESHOLD)%Z /\
   (forall lg, reply env lg (DenoReadFile "f") <> Failure)) /\
  (exists r new w1,
     Gap.uploadFile env "b" "k" "f" emptyWorld = (r, w1) /\
     log w1 = new ++ log (@emptyWorld Gap.UploadState) /\
     List.filter isPut new = [Issue (PutObject "b" "k")] /\
     noNewKey emptyWorld w1 /\
     (uploadStates (@emptyWorld Gap.UploadState) !! stateKey "b" "k" = None ->
      getUploadState "b" "k" w1 = None)) /\
  (exists r new v1,
     Cursor.uploadFile env "b" "k" "f" emptyWorld = (r, v1) /\
     log v1 = new ++ log (@emptyWorld Cursor.UploadState) /\
     List.filter isPut new = [Issue (PutObject "b" "k")] /\
     noNewKey emptyWorld v1 /\
     (uploadStates (@emptyWorld Cursor.UploadState) !! stateKey "b" "k" = None ->
      getUploadState "b" "k" v1 = None)).
Proof.
  intros env.
  assert ((forall lg, reply env lg (DenoStat "f") = WithSize (3 * MiB)) /\
          (3 * MiB < MULTIPART_THRESHOLD)%Z /\
          (forall lg, reply env lg (DenoReadFile "f") <> Failure))
    as (H1 & H2 & H3).
  { split; [reflexivity |]. split; [reflexivity | discriminate]. }
  split; [auto |].
  apply (small_file_one_put_no_state env "b" "k" "f" (3 * MiB)
           emptyWorld emptyWorld H1 H2 H3).
Defined.

(** * What a chunked transfer adds to the history *)

Lemma insertPart_length p l :
  List.length (insertPart p l) = S (List.length l).
Proof.
  induction l as [| q l IH]; simpl; [reflexivity |].
  destruct (PartNumber p <=? PartNumber q); simpl; [reflexivity |].
  rewrite IH. reflexivity.
Qed.

Lemma sortParts_length l : List.length (sortParts l) = List.length l.
Proof.
  induction l as [| p l IH]; simpl; [reflexivity |].
  rewrite insertPart_length, IH. reflexivity.
Qed.

#[export] Hint Resolve Gap_runCall_logged Cursor_runCall_logged : pres.

Ltac pres_await :=
  lazymatch goal with
  | |- preserves (logged _) (awaitOk _ _ _) =>
      apply logged_awaitOk; [solve [auto with pres] | | |]
  | |- preserves (logged _) (await _ _ _) =>
      apply logged_await; [solve [auto with pres] | | |]
  end.

Section GapLogged.
Variables (env : Env) (P : Entry -> Prop) (size : Z).
Hypothesis P_call : forall e, callEntry e -> P e.
Hypothesis P_settle : forall o r, P (Settle o r).
Hypothesis P_partOp : forall o, partOp o -> P (Issue o).
Hypothesis P_part : forall p, partEvent size p -> P (Emit p).

Local Abbreviation R := (@logged Gap.UploadState P).

Lemma Gap_uploadPartCatch_logged l n rc e :
  preserves R (Gap.uploadPartCatch l n rc e).
Proof.
  unfold Gap.uploadPartCatch. pres (@logged Gap.UploadState P). apply P_partOp. exact I.
Qed.

Lemma Gap_uploadPart_logged file l n rc :
  preserves R (Gap.uploadPart file l n size rc).
Proof.
  unfold Gap.uploadPart. pres (@logged Gap.UploadState P). apply P_partOp. exact I.
Qed.

Lemma Gap_uploadPartResume_logged file l t s o r :
  preserves R (Gap.uploadPartResume file l size t s o r).
Proof.
  unfold Gap.uploadPartResume.
  destruct s, r; pres (@logged Gap.UploadState P);
    first [ apply Gap_uploadPartCatch_logged
          | apply Gap_uploadPart_logged
          | apply P_partOp; exact I
          | cbn [Gap.uploadedParts Gap.setUploadedParts];
            rewrite sortParts_length, length_app, Nat.add_1_r;
            apply P_part; eexists _, _; reflexivity ].
Qed.

Lemma Gap_promiseAll_logged file l fuel tasks :
  preserves R (promiseAll env (Gap.runCall env)
                 (Gap.uploadPartResume file l size) fuel tasks).
Proof.
  apply (preserves_promiseAll env (Gap.runCall env) R).
  - intros c w. apply logged_call; auto with pres.
  - intros c w. apply logged_entry, P_call. exact I.
  - intros t s o r. apply Gap_uploadPartResume_logged.
  - intros o r w. apply logged_entry, P_settle.
Qed.

Lemma Gap_startBatch_logged file l parts :
  preserves R (Gap.startBatch file l size parts).
Proof.
  induction parts as [| n parts IH]; cbn [Gap.startBatch].
  - apply (preserves_ret R).
  - pres (@logged Gap.UploadState P). apply Gap_uploadPart_logged.
Qed.

Lemma Gap_transferLoop_logged fuel file l total :
  preserves R (Gap.transferLoop env fuel file l total size).
Proof.
  induction fuel as [| fuel IH]; cbn [Gap.transferLoop]; pres (@logged Gap.UploadState P);
    first [apply Gap_startBatch_logged | apply Gap_promiseAll_logged].
Qed.

Hypothesis P_setupOp : forall o, setupOp o -> P (Issue o).
Hypothesis P_closing : forall p, closingEvent p -> P (Emit p).
Hypothesis P_close : forall f, P (FileClose f).

Lemma Gap_multipartCatch_logged state filePath e :
  preserves R (Gap.multipartCatch state filePath size e).
Proof.
  unfold Gap.multipartCatch. pres (@logged Gap.UploadState P).
  apply P_closing. right. right. repeat split.
Qed.

Lemma Gap_finishUpload_logged k filePath l total :
  preserves R (Gap.finishUpload env k filePath l total size).
Proof.
  unfold Gap.finishUpload, Gap.completeMultipartUpload, Gap.awaitOk.
  pres (@logged Gap.UploadState P); try pres_await; auto.
  - apply P_closing. left. reflexivity.
  - apply P_setupOp. exact I.
  - apply P_closing. right. left. reflexivity.
Qed.

Lemma Gap_multipartUpload_logged bucket key filePath rid :
  preserves R (Gap.multipartUpload env bucket key filePath size rid).
Proof.
  unfold Gap.multipartUpload, Gap.resumeMultipartUpload,
    Gap.initiateMultipartUpload, Gap.awaitOk.
  pres (@logged Gap.UploadState P); try pres_await; auto;
    try (apply P_setupOp; exact I);
    try apply Gap_multipartCatch_logged.
  apply (preserves_tryFinally R).
  - pres (@logged Gap.UploadState P); [apply Gap_transferLoop_logged | apply Gap_finishUpload_logged].
  - intros w. apply logged_entry, P_close.
Qed.
End GapLogged.

Section CursorLogged.
Variables (env : Env) (P : Entry -> Prop) (size : Z).
Hypothesis P_call : forall e, callEntry e -> P e.
Hypothesis P_settle : forall o r, P (Settle o r).
Hypothesis P_partOp : forall o, partOp o -> P (Issue o).
Hypothesis P_part : forall p, partEvent size p -> P (Emit p).

Local Abbreviation R := (@logged Cursor.UploadState P).

Lemma Cursor_uploadPart_logged file l n :
  preserves R (Cursor.uploadPart file l n size).
Proof.
  unfold Cursor.uploadPart. pres (@logged Cursor.UploadState P).
  apply P_partOp. exact I.
Qed.

Lemma Cursor_uploadPartResume_logged file l t s o r :
  preserves R (Cursor.uploadPartResume file l size t s o r).
Proof.
  unfold Cursor.uploadPartResume.
  destruct s, r; pres (@logged Cursor.UploadState P);
    first [ apply P_partOp; exact I
          | cbn [Cursor.uploadedParts Cursor.setUploadedParts];
            rewrite sortParts_length, length_app, Nat.add_1_r;
            apply P_part; eexists _, _; reflexivity ].
Qed.

Lemma Cursor_promiseAll_logged file l fuel tasks :
  preserves R (promiseAll env (Cursor.runCall env)
                 (Cursor.uploadPartResume file l size) fuel tasks).
Proof.
  apply (preserves_promiseAll env (Cursor.runCall env) R).
  - intros c w. apply logged_call; auto with pres.
  - intros c w. apply logged_entry, P_call. exact I.
  - intros t s o r. apply Cursor_uploadPartResume_logged.
  - intros o r w. apply logged_entry, P_settle.
Qed.

Lemma Cursor_startBatch_logged n file l total :
  preserves R (Cursor.startBatch n file l total size).
Proof.
  induction n as [| n IH]; cbn [Cursor.startBatch].
  - apply (preserves_ret R).
  - pres (@logged Cursor.UploadState P). apply Cursor_uploadPart_logged.
Qed.

Lemma Cursor_transferLoop_logged fuel file l total :
  preserves R (Cursor.transferLoop env fuel file l total size).
Proof.
  induction fuel as [| fuel IH]; cbn [Cursor.transferLoop];
    pres (@logged Cursor.UploadState P);
    first [apply Cursor_startBatch_logged | apply Cursor_promiseAll_logged].
Qed.

Hypothesis P_setupOp : forall o, setupOp o -> P (Issue o).
Hypothesis P_closing : forall p, closingEvent p -> P (Emit p).
Hypothesis P_close : forall f, P (FileClose f).

Lemma Cursor_multipartCatch_logged filePath e :
  preserves R (Cursor.multipartCatch filePath size e).
Proof.
  unfold Cursor.multipartCatch. pres (@logged Cursor.UploadState P).
  apply P_closing. right. right. repeat split.
Qed.

Lemma Cursor_finishUpload_logged k filePath l total :
  preserves R (Cursor.finishUpload env k filePath l total size).
Proof.
  unfold Cursor.finishUpload, Cursor.completeMultipartUpload, Cursor.awaitOk.
  pres (@logged Cursor.UploadState P); try pres_await; auto.
  - apply P_closing. left. reflexivity.
  - apply P_setupOp. exact I.
  - apply P_closing. right. left. reflexivity.
Qed.

Lemma Cursor_multipartUpload_logged bucket key filePath rid :
  preserves R (Cursor.multipartUpload env bucket key filePath size rid).
Proof.
  unfold Cursor.multipartUpload, Cursor.resumeMultipartUpload,
    Cursor.initiateMultipartUpload, Cursor.awaitOk.
  pres (@logged Cursor.UploadState P); try pres_await; auto;
    try (apply P_setupOp; exact I);
    try apply Cursor_multipartCatch_logged;
    (apply (preserves_tryFinally R);
     [ pres (@logged Cursor.UploadState P);
       [apply Cursor_transferLoop_logged | apply Cursor_finishUpload_logged]
     | intros w; apply logged_entry, P_close ]).
Qed.
End CursorLogged.

(** * Failure events *)

(** Case analysis on the innermost run that the goal scrutinises. *)
Ltac case_run a e w :=
  match goal with
  | |- context [match ?x with pair _ _ => _ end] =>
      lazymatch x with
      | context [match _ with pair _ _ => _ end] => fail
      | _ => destruct x as [[a | e] w]
      end
  end.

Lemma failedReportsZero_call e : callEntry e -> failedReportsZero e.
Proof. destruct e; simpl; auto. contradiction. Qed.

Lemma failedReportsZero_part size p :
  partEvent size p -> failedReportsZero (Emit p).
Proof. intros (fp & n & ->). simpl. discriminate. Qed.

Lemma failedReportsZero_closing p :
  closingEvent p -> failedReportsZero (Emit p).
Proof.
  simpl. intros [Hs | [Hs | (_ & Hb & Hp)]] Hf; [congruence | congruence | auto].
Qed.

Lemma simpleUpload_failedReportsZero {St} env
    (runCall : Call -> World St -> World St) bucket key filePath size :
  (forall c w, logged callEntry w (runCall c w)) ->
  preserves (logged failedReportsZero)
    (simpleUpload env runCall bucket key filePath size).
Proof.
  intros Hcall. unfold simpleUpload.
  pres (@logged St failedReportsZero);
    try (apply logged_awaitOk;
         [exact Hcall | apply failedReportsZero_call | exact I | intros; exact I]);
    simpl; try discriminate; auto.
Qed.

Lemma simpleUpload_throw {St} env (runCall : Call -> World St -> World St)
    bucket key filePath size w e w1 :
  simpleUpload env runCall bucket key filePath size w = (Throw e, w1) ->
  endsWithFailedEvent (log w1).
Proof.
  unfold simpleUpload, tryCatch.
  case_run x e0 w0; [discriminate |].
  unfold bind, onProgress, record, throw. intros E. inversion E; subst.
  eexists _, _. split; [reflexivity |]. repeat split.
Qed.

Lemma statSize_failedReportsZero {St} env
    (runCall : Call -> World St -> World St) filePath :
  (forall c w, logged callEntry w (runCall c w)) ->
  preserves (logged failedReportsZero) (statSize env runCall filePath).
Proof.
  intros Hcall. unfold statSize.
  pres (@logged St failedReportsZero);
    apply logged_await;
    [exact Hcall | apply failedReportsZero_call | exact I | intros; exact I].
Qed.

Lemma statSize_throw {St} env (runCall : Call -> World St -> World St)
    filePath w e w1 :
  statSize env runCall filePath w = (Throw e, w1) ->
  e = OpFailed (DenoStat filePath).
Proof.
  unfold statSize, bind, await, issue, record, intrusions, settle. simpl.
  destruct (reply env _ _); unfold throw, ret; intros E; inversion E; reflexivity.
Qed.

Lemma Gap_multipartUpload_throw env bucket key filePath size rid w e w1 :
  Gap.multipartUpload env bucket key filePath size rid w = (Throw e, w1) ->
  endsWithFailedEvent (log w1).
Proof.
  unfold Gap.multipartUpload. unfold bind at 1, attempt.
  case_run l e0 w0.
  - unfold tryCatch. case_run x e1 w2; [discriminate |].
    unfold Gap.multipartCatch, bind, read, ret. simpl.
    destruct (Gap.isAborted _); [discriminate |].
    unfold onProgress, record, throw. intros E. inversion E; subst.
    eexists _, _. split; [reflexivity |]. repeat split.
  - unfold Gap.multipartCatch, bind, ret, onProgress, record, throw.
    intros E. inversion E; subst.
    eexists _, _. split; [reflexivity |]. repeat split.
Qed.

Lemma Cursor_multipartUpload_throw env bucket key filePath size rid w e w1 :
  Cursor.multipartUpload env bucket key filePath size rid w = (Throw e, w1) ->
  endsWithFailedEvent (log w1).
Proof.
  unfold Cursor.multipartUpload, tryCatch.
  case_run x e0 w0; [discriminate |].
  unfold Cursor.multipartCatch, bind, onProgress, record, throw.
  intros E. inversion E; subst.
  eexists _, _. split; [reflexivity |]. repeat split.
Qed.

Lemma Gap_multipartUpload_failedReportsZero env bucket key filePath size rid :
  preserves (logged failedReportsZero)
    (Gap.multipartUpload env bucket key filePath size rid).
Proof.
  apply Gap_multipartUpload_logged;
    eauto using failedReportsZero_call, failedReportsZero_part,
      failedReportsZero_closing;
    intros; exact I.
Qed.

Lemma Cursor_multipartUpload_failedReportsZero env bucket key filePath size rid :
  preserves (logged failedReportsZero)
    (Cursor.multipartUpload env bucket key filePath size rid).
Proof.
  apply Cursor_multipartUpload_logged;
    eauto using failedReportsZero_call, failedReportsZero_part,
      failedReportsZero_closing;
    intros; exact I.
Qed.

Lemma Gap_uploadFile_failedReportsZero env bucket key filePath :
  preserves (logged failedReportsZero) (Gap.uploadFile env bucket key filePath).
Proof.
  unfold Gap.uploadFile.
  pres (@logged Gap.UploadState failedReportsZero).
  - apply statSize_failedReportsZero, Gap_runCall_logged.
  - apply simpleUpload_failedReportsZero, Gap_runCall_logged.
  - apply Gap_multipartUpload_failedReportsZero.
Qed.

Lemma Cursor_uploadFile_failedReportsZero env bucket key filePath :
  preserves (logged failedReportsZero)
    (Cursor.uploadFile env bucket key filePath).
Proof.
  unfold Cursor.uploadFile.
  pres (@logged Cursor.UploadState failedReportsZero).
  - apply statSize_failedReportsZero, Cursor_runCall_logged.
  - apply simpleUpload_failedReportsZero, Cursor_runCall_logged.
  - apply Cursor_multipartUpload_failedReportsZero.
Qed.

Lemma Gap_resumeUpload_failedReportsZero env bucket key :
  preserves (logged failedReportsZero) (Gap.resumeUpload env bucket key).
Proof.
  unfold Gap.resumeUpload.
  pres (@logged Gap.UploadState failedReportsZero).
  apply Gap_multipartUpload_failedReportsZero.
Qed.

Lemma Cursor_resumeUpload_failedReportsZero env bucket key :
  preserves (logged failedReportsZero) (Cursor.resumeUpload env bucket key).
Proof.
  unfold Cursor.resumeUpload.
  pres (@logged Cursor.UploadState failedReportsZero).
  apply Cursor_multipartUpload_failedReportsZero.
Qed.

Lemma Gap_uploadFile_throw env bucket key filePath w e w1 :
  Gap.uploadFile env bucket key filePath w = (Throw e, w1) ->
  e = OpFailed (DenoStat filePath) \/ endsWithFailedEvent (log w1).
Proof.
  unfold Gap.uploadFile. unfold bind at 1.
  destruct (statSize _ _ _ w) as [[size | e0] w0] eqn:Es.
  - destruct (size <? MULTIPART_THRESHOLD)%Z.
    + unfold bind.
      destruct (simpleUpload _ _ _ _ _ _ w0) as [[[] | e1] w2] eqn:E1;
        [discriminate |].
      intros E. inversion E; subst. right.
      eapply simpleUpload_throw, E1.
    + intros E. right. eapply Gap_multipartUpload_throw, E.
  - intros E. inversion E; subst. left. eapply statSize_throw, Es.
Qed.

Lemma Cursor_uploadFile_throw env bucket key filePath w e w1 :
  Cursor.uploadFile env bucket key filePath w = (Throw e, w1) ->
  e = OpFailed (DenoStat filePath) \/ endsWithFailedEvent (log w1).
Proof.
  unfold Cursor.uploadFile. unfold bind at 1.
  destruct (statSize _ _ _ w) as [[size | e0] w0] eqn:Es.
  - destruct (size <? MULTIPART_THRESHOLD)%Z.
    + unfold bind.
      destruct (simpleUpload _ _ _ _ _ _ w0) as [[[] | e1] w2] eqn:E1;
        [discriminate |].
      intros E. inversion E; subst. right.
      eapply simpleUpload_throw, E1.
    + intros E. right. eapply Cursor_multipartUpload_throw, E.
  - intros E. inversion E; subst. left. eapply statSize_throw, Es.
Qed.

Lemma Gap_resumeUpload_throw env bucket key w e w1 :
  Gap.resumeUpload env bucket key w = (Throw e, w1) ->
  e = NoPausedUpload key \/ endsWithFailedEvent (log w1).
Proof.
  unfold Gap.resumeUpload. unfold bind at 1, getWorld.
  destruct (uploadStates w !! stateKey bucket key) as [l |].
  - unfold bind, modify, update, read. intros E. right.
    eapply Gap_multipartUpload_throw, E.
  - unfold throw. intros E. inversion E. left. reflexivity.
Qed.

Lemma Cursor_resumeUpload_throw env bucket key w e w1 :
  Cursor.resumeUpload env bucket key w = (Throw e, w1) ->
  e = NoPausedUpload key \/ endsWithFailedEvent (log w1).
Proof.
  unfold Cursor.resumeUpload. unfold bind at 1, getWorld.
  destruct (uploadStates w !! stateKey bucket key) as [l |].
  - unfold bind, modify, update, read. intros E. right.
    eapply Cursor_multipartUpload_throw, E.
  - unfold throw. intros E. inversion E. left. reflexivity.
Qed.

(** C10.  In both managers, for every environment: every [failed]
    progress event that [uploadFile] or [resumeUpload] emits reports
    [uploadedBytes = 0] and [percentage = 0], whatever was transferred
    before; and a call that throws ends with such an event as the newest
    entry of the history, unless it threw before a strategy ran ([Deno.stat]
    rejected, or no state was registered for the resume). *)
Theorem failed_event_reports_nothing env bucket key filePath
    (w : Gap.W) (v : Cursor.W) :
  (logged failedReportsZero w (Gap.uploadFile env bucket key filePath w).2 /\
   logged failedReportsZero w (Gap.resumeUpload env bucket key w).2 /\
   logged failedReportsZero v (Cursor.uploadFile env bucket key filePath v).2 /\
   logged failedReportsZero v (Cursor.resumeUpload env bucket key v).2) /\
  (forall e w1,
     Gap.uploadFile env bucket key filePath w = (Throw e, w1) ->
     e = OpFailed (DenoStat filePath) \/ endsWithFailedEvent (log w1)) /\
  (forall e w1,
     Gap.resumeUpload env bucket key w = (Throw e, w1) ->
     e = NoPausedUpload key \/ endsWithFailedEvent (log w1)) /\
  (forall e v1,
     Cursor.uploadFile env bucket key filePath v = (Throw e, v1) ->
     e = OpFailed (DenoStat filePath) \/ endsWithFailedEvent (log v1)) /\
  (forall e v1,
     Cursor.resumeUpload env bucket key v = (Throw e, v1) ->
     e = NoPausedUpload key \/ endsWithFailedEvent (log v1)).
Proof.
  split; [repeat split |].
  - apply Gap_uploadFile_failedReportsZero.
  - apply Gap_resumeUpload_failedReportsZero.
  - apply Cursor_uploadFile_failedReportsZero.
  - apply Cursor_resumeUpload_failedReportsZero.
  - split; [| split; [| split]]; intros e w1 E.
    + eapply Gap_uploadFile_throw, E.
    + eapply Gap_resumeUpload_throw, E.
    + eapply Cursor_uploadFile_throw, E.
    + eapply Cursor_resumeUpload_throw, E.
Qed.

(** A 12 MiB upload whose third part is refused four times: two parts were
    stored, the call throws, and its last event is the failure event. *)
Lemma failed_event_reports_nothing_witness :
  (Gap.uploadFile refusingEnv "b" "k" "f" emptyWorld).1
  = Throw (OpFailed (UploadPart "b" "k" "upload-1" 3)) /\
  endsWithFailedEvent (log (Gap.uploadFile refusingEnv "b" "k" "f" emptyWorld).2).
Proof.
  assert ((Gap.uploadFile refusingEnv "b" "k" "f" emptyWorld).1
          = Throw (OpFailed (UploadPart "b" "k" "upload-1" 3))) as E
    by (vm_compute; reflexivity).
  split; [exact E |].
  destruct (failed_event_reports_nothing refusingEnv "b" "k" "f"
              emptyWorld emptyWorld) as (_ & H & _).
  destruct (Gap.uploadFile refusingEnv "b" "k" "f" emptyWorld)
    as [r w1] eqn:Er.
  simpl in E. subst r.
  destruct (H _ _ eq_refl) as [Hd | Hf]; [discriminate | exact Hf].
Defined.

(** * Progress events at the start and at the end *)

Lemma eventsOf_app a b : eventsOf (a ++ b) = eventsOf b ++ eventsOf a.
Proof. unfold eventsOf. rewrite rev_app_distr, omap_app. reflexivity. Qed.

Lemma eventsOf_cons e a : eventsOf (e :: a) = eventsOf a ++ eventsOf [e].
Proof. apply (eventsOf_app [e] a). Qed.

Lemma omap_getEmit_calls mid : Forall callEntry mid -> omap getEmit mid = [].
Proof.
  induction 1 as [| e mid He _ IH]; [reflexivity |].
  destruct e; simpl in *; try contradiction; exact IH.
Qed.

Lemma eventsOf_calls mid : Forall callEntry mid -> eventsOf mid = [].
Proof.
  intros F. unfold eventsOf. apply omap_getEmit_calls.
  apply Forall_forall. intros e He. rewrite Forall_forall in F.
  apply F. apply list_elem_of_In, in_rev, list_elem_of_In, He.
Qed.

Lemma simpleUpload_events {St} env (runCall : Call -> World St -> World St)
    bucket key filePath size w :
  (forall c w, logged callEntry w (runCall c w)) ->
  (forall c w, noNewKey w (runCall c w)) ->
  exists r new w',
    simpleUpload env runCall bucket key filePath size w = (r, w') /\
    log w' = new ++ log w /\
    eventsOf new
    = simpleEvents filePath size
        (match r with Return _ => Return Completed | Throw e => Throw e end).
Proof.
  intros Hl Hk.
  unfold simpleUpload, tryCatch.
  unfold bind at 1. unfold onProgress at 1, record at 1.
  unfold bind at 1.
  destruct (awaitOk_spec env runCall Hl Hk (DenoReadFile filePath)
              (logEntry (Emit (mkProgress filePath 0 size 0 None None uploading)) w))
    as (mid1 & w1 & r1 & F1 & K1 & Er1 & L1 & _ & A1).
  rewrite A1.
  assert (exists new1, log w1 = new1 ++ log w /\
            eventsOf new1 = [mkProgress filePath 0 size 0 None None uploading])
    as (new1 & Ln1 & En1).
  { exists (Settle (DenoReadFile filePath) r1 :: mid1 ++
            [Issue (DenoReadFile filePath);
             Emit (mkProgress filePath 0 size 0 None None uploading)]).
    split.
    - rewrite L1. simpl. rewrite <- app_assoc. reflexivity.
    - rewrite eventsOf_cons, eventsOf_app, (eventsOf_calls mid1 F1).
      reflexivity. }
  destruct r1.
  1: { cbn. eexists _, (_ :: new1), _. split; [reflexivity |].
       split; [cbn; rewrite Ln1; reflexivity |].
       rewrite eventsOf_cons, En1. reflexivity. }
  all: unfold bind at 1;
    destruct (awaitOk_spec env runCall Hl Hk (PutObject bucket key) w1)
      as (mid2 & w2 & r2 & F2 & K2 & Er2 & L2 & _ & A2);
    rewrite A2;
    assert (exists new2, log w2 = new2 ++ log w /\
              eventsOf new2
              = [mkProgress filePath 0 size 0 None None uploading])
      as (new2 & Ln2 & En2)
      by (exists (Settle (PutObject bucket key) r2 :: mid2 ++
                  Issue (PutObject bucket key) :: new1);
          split;
          [ rewrite L2, Ln1; simpl; rewrite <- app_assoc; reflexivity
          | rewrite eventsOf_cons, eventsOf_app, eventsOf_cons, En1,
              (eventsOf_calls mid2 F2); reflexivity ]);
    destruct r2; cbn;
      (eexists _, (_ :: new2), _; split; [reflexivity |];
       split; [cbn; rewrite Ln2; reflexivity |];
       rewrite eventsOf_cons, En2; reflexivity).
Qed.

(** Case analysis on a run, keeping the equation. *)
Ltac case_run_eq a e w E :=
  match goal with
  | |- context [match ?x with pair _ _ => _ end] =>
      lazymatch x with
      | context [match _ with pair _ _ => _ end] => fail
      | _ => destruct x as [[a | e] w] eqn:E
      end
  end.

Lemma chunkedClosing_FileClose filePath size r f lg :
  chunkedClosing filePath size r lg ->
  chunkedClosing filePath size r (FileClose f :: lg).
Proof. destruct r as [[] |]; exact (fun H => H). Qed.

Lemma Gap_finishUpload_closing env k filePath l size w x w1 :
  Gap.finishUpload env k filePath l (totalPartsFor size) size w
  = (Return x, w1) ->
  chunkedClosing filePath size (Return x) (log w1).
Proof.
  unfold Gap.finishUpload. unfold bind at 1, read at 1.
  destruct (Gap.isAborted _); [intros E; inversion E; exact I |].
  destruct (Gap.isPaused _).
  { unfold bind, onProgress, record, ret. intros E. inversion E; subst.
    eexists. split; [reflexivity | reflexivity]. }
  destruct (negb _); [discriminate |].
  unfold bind at 1, Gap.completeMultipartUpload.
  unfold bind at 1, read at 1. unfold bind at 1.
  destruct (Gap.awaitOk _ _ _) as [[r' | e'] w']; [| discriminate].
  unfold ret at 1, bind, onProgress, record, registryDelete, update, ret.
  intros E. inversion E; subst. reflexivity.
Qed.

Lemma Gap_multipartUpload_closing env bucket key filePath size rid w r w1 :
  Gap.multipartUpload env bucket key filePath size rid w = (r, w1) ->
  chunkedClosing filePath size r (log w1).
Proof.
  unfold Gap.multipartUpload. unfold bind at 1, attempt.
  case_run l e0 w0.
  - unfold tryCatch.
    unfold bind at 1, registrySet at 1, update at 1.
    unfold bind at 1.
    destruct (Gap.awaitOk _ _ _) as [[r' | e'] w'].
    + unfold tryFinally.
      destruct ((exec Gap.transferLoop _ _ _ _ _ _ in _) w')
        as [[x | e1] w2] eqn:E.
      * intros H. inversion H; subst. apply chunkedClosing_FileClose.
        revert E. unfold bind.
        destruct (Gap.transferLoop _ _ _ _ _ _ w') as [[[] | e2] w3];
          [| discriminate].
        apply Gap_finishUpload_closing.
      * unfold Gap.multipartCatch, bind, read, ret. cbn [heap logEntry].
        destruct (Gap.isAborted _).
        -- intros H. inversion H. exact I.
        -- unfold onProgress, record, throw. intros H. inversion H; subst.
           reflexivity.
    + unfold Gap.multipartCatch, bind, read, ret.
      destruct (Gap.isAborted _).
      * intros H. inversion H. exact I.
      * unfold onProgress, record, throw. intros H. inversion H; subst.
        reflexivity.
  - unfold Gap.multipartCatch, bind, ret, onProgress, record, throw.
    intros H. inversion H; subst. reflexivity.
Qed.

Lemma Cursor_finishUpload_closing env k filePath l size w x w1 :
  Cursor.finishUpload env k filePath l (totalPartsFor size) size w
  = (Return x, w1) ->
  chunkedClosing filePath size (Return x) (log w1).
Proof.
  unfold Cursor.finishUpload. unfold bind at 1, read at 1.
  destruct (Cursor.isPaused _).
  { unfold bind, onProgress, record, ret. intros E. inversion E; subst.
    eexists. split; [reflexivity | reflexivity]. }
  unfold bind at 1, Cursor.completeMultipartUpload.
  unfold bind at 1, read at 1. unfold bind at 1.
  destruct (Cursor.awaitOk _ _ _) as [[r' | e'] w']; [| discriminate].
  unfold ret at 1, bind, onProgress, record, registryDelete, update, ret.
  intros E. inversion E; subst. reflexivity.
Qed.

Lemma Cursor_multipartUpload_closing env bucket key filePath size rid w r w1 :
  Cursor.multipartUpload env bucket key filePath size rid w = (r, w1) ->
  chunkedClosing filePath size r (log w1).
Proof.
  unfold Cursor.multipartUpload, tryCatch.
  case_run_eq x e0 w0 E.
  - intros H. inversion H; subst. revert E.
    unfold bind at 1, getWorld at 1. unfold bind at 1.
    case_run l e1 w2; [| discriminate].
    unfold bind at 1, registrySet at 1, update at 1.
    unfold bind at 1.
    destruct (Cursor.awaitOk _ _ _) as [[r' | e'] w']; [| discriminate].
    unfold tryFinally.
    destruct ((exec Cursor.transferLoop _ _ _ _ _ _ in _) w')
      as [[x' | e2] w3] eqn:E; [| discriminate].
    intros H'. inversion H'; subst. apply chunkedClosing_FileClose.
    revert E. unfold bind.
    destruct (Cursor.transferLoop _ _ _ _ _ _ w') as [[[] | e3] w4];
      [| discriminate].
    apply Cursor_finishUpload_closing.
  - unfold Cursor.multipartCatch, bind, onProgress, record, throw.
    intros H. inversion H; subst. reflexivity.
Qed.

Lemma pct_positive (bytes size : Z) :
  (0 < bytes)%Z -> (0 < size)%Z ->
  (0 < pct (Qmin (ZtoQ bytes / ZtoQ size * 100) 100))%Q.
Proof.
  intros Hb Hs. unfold pct, ZtoQ. rewrite Qred_correct.
  apply Q.min_glb_lt; [| reflexivity].
  apply Qmult_lt_0_compat; [| reflexivity].
  apply Qmult_lt_0_compat.
  - unfold Qlt, inject_Z. simpl. lia.
  - apply Qinv_lt_0_compat. unfold Qlt, inject_Z. simpl. lia.
Qed.

Lemma uploadingPastZero_part size p :
  (0 < size)%Z -> partEvent size p -> uploadingPastZero (Emit p).
Proof.
  intros Hs (fp & n & ->). simpl. intros _.
  apply pct_positive; [| exact Hs].
  unfold PART_SIZE. lia.
Qed.

Lemma uploadingPastZero_call e : callEntry e -> uploadingPastZero e.
Proof. destruct e; simpl; auto. contradiction. Qed.

Lemma uploadingPastZero_closing p :
  closingEvent p -> uploadingPastZero (Emit p).
Proof.
  simpl. intros [Hs | [Hs | (Hs & _)]] Hu; congruence.
Qed.

Lemma Gap_multipartUpload_pastZero env bucket key filePath size rid :
  (0 < size)%Z ->
  preserves (logged uploadingPastZero)
    (Gap.multipartUpload env bucket key filePath size rid).
Proof.
  intros Hs. apply Gap_multipartUpload_logged;
    eauto using uploadingPastZero_call, uploadingPastZero_part,
      uploadingPastZero_closing;
    intros; exact I.
Qed.

Lemma Cursor_multipartUpload_pastZero env bucket key filePath size rid :
  (0 < size)%Z ->
  preserves (logged uploadingPastZero)
    (Cursor.multipartUpload env bucket key filePath size rid).
Proof.
  intros Hs. apply Cursor_multipartUpload_logged;
    eauto using uploadingPastZero_call, uploadingPastZero_part,
      uploadingPastZero_closing;
    intros; exact I.
Qed.

Lemma statSize_shape {St} env (runCall : Call -> World St -> World St)
    filePath size w :
  (forall c w, logged callEntry w (runCall c w)) ->
  (forall c w, noNewKey w (runCall c w)) ->
  (forall lg, reply env lg (DenoStat filePath) = WithSize size) ->
  exists mid w1,
    statSize env runCall filePath w = (Return size, w1) /\
    Forall callEntry mid /\
    log w1 = (Settle (DenoStat filePath) (WithSize size) :: mid
              ++ [Issue (DenoStat filePath)]) ++ log w.
Proof.
  intros Hl Hk Hstat. unfold statSize, bind.
  destruct (await_spec env runCall Hl Hk (DenoStat filePath) w)
    as (mid & w1 & Fmid & _ & Hlog & Haw).
  rewrite Haw, Hstat. exists mid, w1.
  split; [reflexivity |]. split; [exact Fmid |].
  rewrite Hlog, Hstat. simpl. rewrite <- app_assoc. reflexivity.
Qed.

Lemma Forall_stat_entries (P : Entry -> Prop) filePath size mid :
  (forall e, callEntry e -> P e) ->
  P (Issue (DenoStat filePath)) ->
  P (Settle (DenoStat filePath) (WithSize size)) ->
  Forall callEntry mid ->
  Forall P (Settle (DenoStat filePath) (WithSize size) :: mid
            ++ [Issue (DenoStat filePath)]).
Proof.
  intros Hc Hi Hs F. constructor; [exact Hs |].
  apply Forall_app. split.
  - eapply Forall_impl; [exact F | exact Hc].
  - repeat constructor. exact Hi.
Qed.

Lemma Gap_uploadFile_events env bucket key filePath size (w : Gap.W) :
  (forall lg, reply env lg (DenoStat filePath) = WithSize size) ->
  exists r new w1,
    Gap.uploadFile env bucket key filePath w = (r, w1) /\
    log w1 = new ++ log w /\
    if (size <? MULTIPART_THRESHOLD)%Z
    then eventsOf new = simpleEvents filePath size r
    else Forall uploadingPastZero new /\
         chunkedClosing filePath size r (log w1).
Proof.
  intros Hstat. unfold Gap.uploadFile. unfold bind at 1.
  destruct (statSize_shape env (Gap.runCall env) filePath size w
              (Gap_runCall_logged env) (Gap_runCall_noNewKey env) Hstat)
    as (mid & w0 & E0 & F0 & L0).
  rewrite E0.
  destruct (size <? MULTIPART_THRESHOLD)%Z eqn:Hsize.
  - destruct (simpleUpload_events env (Gap.runCall env) bucket key filePath
                size w0 (Gap_runCall_logged env) (Gap_runCall_noNewKey env))
      as (r & new & w1 & E1 & L1 & Ev).
    unfold bind. rewrite E1.
    exists (match r with Return _ => Return Completed | Throw e => Throw e end),
      (new ++ (Settle (DenoStat filePath) (WithSize size) :: mid
               ++ [Issue (DenoStat filePath)])), w1.
    split; [destruct r; reflexivity |].
    split; [rewrite L1, L0; apply app_assoc |].
    rewrite eventsOf_app, Ev, eventsOf_cons, eventsOf_app,
      (eventsOf_calls mid F0).
    destruct r; reflexivity.
  - apply Z.ltb_ge in Hsize.
    assert (0 < size)%Z as Hpos by (unfold MULTIPART_THRESHOLD in Hsize; lia).
    destruct (Gap.multipartUpload env bucket key filePath size None w0)
      as [r w1] eqn:E1.
    pose proof (Gap_multipartUpload_pastZero env bucket key filePath size
                  None Hpos w0) as (new & L1 & F1).
    rewrite E1 in L1. simpl in L1.
    eexists r, (new ++ _), w1. split; [reflexivity |].
    split; [rewrite L1, L0; apply app_assoc |].
    split.
    + apply Forall_app. split; [exact F1 |].
      apply Forall_stat_entries; try exact I; [| exact F0].
      apply uploadingPastZero_call.
    + eapply Gap_multipartUpload_closing, E1.
Qed.

Lemma Cursor_uploadFile_events env bucket key filePath size (w : Cursor.W) :
  (forall lg, reply env lg (DenoStat filePath) = WithSize size) ->
  exists r new w1,
    Cursor.uploadFile env bucket key filePath w = (r, w1) /\
    log w1 = new ++ log w /\
    if (size <? MULTIPART_THRESHOLD)%Z
    then eventsOf new = simpleEvents filePath size r
    else Forall uploadingPastZero new /\
         chunkedClosing filePath size r (log w1).
Proof.
  intros Hstat. unfold Cursor.uploadFile. unfold bind at 1.
  destruct (statSize_shape env (Cursor.runCall env) filePath size w
              (Cursor_runCall_logged env) (Cursor_runCall_noNewKey env) Hstat)
    as (mid & w0 & E0 & F0 & L0).
  rewrite E0.
  destruct (size <? MULTIPART_THRESHOLD)%Z eqn:Hsize.
  - destruct (simpleUpload_events env (Cursor.runCall env) bucket key filePath
                size w0 (Cursor_runCall_logged env)
                (Cursor_runCall_noNewKey env))
      as (r & new & w1 & E1 & L1 & Ev).
    unfold bind. rewrite E1.
    exists (match r with Return _ => Return Completed | Throw e => Throw e end),
      (new ++ (Settle (DenoStat filePath) (WithSize size) :: mid
               ++ [Issue (DenoStat filePath)])), w1.
    split; [destruct r; reflexivity |].
    split; [rewrite L1, L0; apply app_assoc |].
    rewrite eventsOf_app, Ev, eventsOf_cons, eventsOf_app,
      (eventsOf_calls mid F0).
    destruct r; reflexivity.
  - apply Z.ltb_ge in Hsize.
    assert (0 < size)%Z as Hpos by (unfold MULTIPART_THRESHOLD in Hsize; lia).
    destruct (Cursor.multipartUpload env bucket key filePath size None w0)
      as [r w1] eqn:E1.
    pose proof (Cursor_multipartUpload_pastZero env bucket key filePath size
                  None Hpos w0) as (new & L1 & F1).
    rewrite E1 in L1. simpl in L1.
    eexists r, (new ++ _), w1. split; [reflexivity |].
    split; [rewrite L1, L0; apply app_assoc |].
    split.
    + apply Forall_app. split; [exact F1 |].
      apply Forall_stat_entries; try exact I; [| exact F0].
      apply uploadingPastZero_call.
    + eapply Cursor_multipartUpload_closing, E1.
Qed.

(** C4 as stated fails on the chunked path: for a file of exactly
    5 MiB, everything succeeding, both managers emit an [uploading] event at
    100 percent and the [completed] event, and no event at 0 percent. *)
Lemma chunked_upload_has_no_start_event :
  emitted (Gap.uploadFile onePartEnv "b" "k" "f" emptyWorld).2
  = [ mkProgress "f" (5 * MiB) (5 * MiB) 100 (Some 1) (Some 1) uploading;
      mkProgress "f" (5 * MiB) (5 * MiB) 100 (Some 1) (Some 1) completed ] /\
  announcesStartAndEnd
    (emitted (Gap.uploadFile onePartEnv "b" "k" "f" emptyWorld).2) = false /\
  announcesStartAndEnd
    (emitted (Cursor.uploadFile onePartEnv "b" "k" "f" emptyWorld).2) = false.
Proof. repeat split; vm_compute; reflexivity. Qed.

(** * Finalization *)

Lemma completesAll_other total e :
  (forall b k id parts, e <> Issue (CompleteMultipartUpload b k id parts)) ->
  completesAll total e.
Proof.
  intros Hne. destruct e as [[] | | | |]; simpl; auto.
  exfalso. eapply Hne. reflexivity.
Qed.

Lemma completesAll_call total e : callEntry e -> completesAll total e.
Proof.
  intros He. apply completesAll_other. intros b k id parts ->. exact He.
Qed.

(** The gap-scanning manager finalizes only a complete part list. *)
Lemma Gap_finishUpload_guarded env k filePath l size :
  preserves (logged (completesAll (totalPartsFor size)))
    (Gap.finishUpload env k filePath l (totalPartsFor size) size).
Proof.
  intros w. unfold Gap.finishUpload. unfold bind at 1, read at 1.
  destruct (Gap.isAborted _); [reflexivity |].
  destruct (Gap.isPaused _).
  { unfold bind, onProgress, record, ret. apply logged_entry. exact I. }
  destruct (List.length _ =? _) eqn:Hlen; cbn [negb]; [| reflexivity].
  apply Nat.eqb_eq in Hlen.
  revert w Hlen.
  change (forall w,
    List.length (Gap.uploadedParts (heap w !!! l)) = totalPartsFor size ->
    logged (completesAll (totalPartsFor size)) w
      ((exec Gap.completeMultipartUpload env l in
        exec onProgress
               (mkProgress filePath size size 100 (Some (totalPartsFor size))
                  (Some (totalPartsFor size)) completed) in
        exec registryDelete k in ret Completed) w).2).
  intros w Hlen.
  unfold Gap.completeMultipartUpload. unfold bind at 1. unfold bind at 1.
  unfold read at 1. unfold bind at 1.
  pose proof (logged_awaitOk env (Gap.runCall env) (Gap_runCall_logged env)
                (completesAll (totalPartsFor size))
                (CompleteMultipartUpload (Gap.bucket (heap w !!! l))
                   (Gap.key (heap w !!! l)) (Gap.uploadId (heap w !!! l))
                   (Gap.uploadedParts (heap w !!! l)))
                (completesAll_call _) Hlen (fun r => I) w) as Haw.
  unfold Gap.awaitOk.
  destruct (awaitOk _ _ _ w) as [[r' | e'] w']; [| exact Haw].
  simpl in Haw. cbn.
  etransitivity; [exact Haw |]. apply logged_entry. exact I.
Qed.

Lemma Gap_multipartUpload_guarded env bucket key filePath size rid :
  preserves (logged (completesAll (totalPartsFor size)))
    (Gap.multipartUpload env bucket key filePath size rid).
Proof.
  set (P := completesAll (totalPartsFor size)).
  assert (forall e, callEntry e -> P e) as P_call
    by apply completesAll_call.
  assert (forall o, partOp o -> P (Issue o)) as P_partOp
    by (intros [] Ho; try contradiction; exact I).
  assert (forall p, closingEvent p -> P (Emit p)) as P_closing
    by (intros; exact I).
  unfold Gap.multipartUpload, Gap.resumeMultipartUpload,
    Gap.initiateMultipartUpload, Gap.awaitOk.
  pres (@logged Gap.UploadState P); try pres_await; auto;
    try exact I; try (intros; exact I);
    try (apply Gap_multipartCatch_logged; exact P_closing).
  apply (preserves_tryFinally (logged P)).
  - pres (@logged Gap.UploadState P).
    + apply Gap_transferLoop_logged; auto; intros; exact I.
    + apply Gap_finishUpload_guarded.
  - intros w. apply logged_entry. exact I.
Qed.

Lemma Gap_finishUpload_incomplete env k filePath l total size w st :
  heap w !! l = Some st ->
  Gap.isAborted st = false ->
  Gap.isPaused st = false ->
  List.length (Gap.uploadedParts st) <> total ->
  Gap.finishUpload env k filePath l total size w
  = (Throw (UploadIncomplete (List.length (Gap.uploadedParts st)) total), w).
Proof.
  intros Hl Ha Hp Hn. unfold Gap.finishUpload, bind, read.
  rewrite (lookup_total_correct _ _ _ Hl), Ha, Hp.
  apply Nat.eqb_neq in Hn. rewrite Hn. reflexivity.
Qed.

(** C5.  The cursor-only manager finalizes whatever it has: resumed on a
    one-part file for whose upload id the backend lists two parts, it issues
    [CompleteMultipartUpload] with both and completes, while the
    gap-scanning manager throws "Upload incomplete: 2/1" there and issues no
    [CompleteMultipartUpload]. *)
Theorem cursor_finalizes_without_count_check :
  (Cursor.resumeUpload surplusEnv "b" "k" cursorSurplusWorld).1
  = Return Completed /\
  issued (Cursor.resumeUpload surplusEnv "b" "k" cursorSurplusWorld).2
  = [ ListParts "b" "k" "upload-1"; DenoOpen "f";
      CompleteMultipartUpload "b" "k" "upload-1"
        [mkPart 1 "e1"; mkPart 2 "e2"] ] /\
  totalPartsFor (5 * MiB) = 1 /\
  (Gap.resumeUpload surplusEnv "b" "k" gapSurplusWorld).1
  = Throw (UploadIncomplete 2 1) /\
  issued (Gap.resumeUpload surplusEnv "b" "k" gapSurplusWorld).2
  = [ ListParts "b" "k" "upload-1"; DenoOpen "f" ].
Proof. repeat split; vm_compute; reflexivity. Qed.

(** * Runs that nobody disturbs *)

Section Undisturbed.
Context {St : Type} (env : Env) (runCall : Call -> World St -> World St).
Hypothesis quiet : undisturbed env.

Lemma await_undisturbed o w :
  await env runCall o w
  = (Return (reply env (Issue o :: log w) o),
     logEntry (Settle o (reply env (Issue o :: log w) o))
       (logEntry (Issue o) w)).
Proof.
  unfold await, bind, issue, record, intrusions, settle. simpl.
  rewrite quiet. reflexivity.
Qed.

Lemma awaitOk_undisturbed o w :
  awaitOk env runCall o w
  = (match reply env (Issue o :: log w) o with
     | Failure => Throw (OpFailed o)
     | r => Return r
     end,
     logEntry (Settle o (reply env (Issue o :: log w) o))
       (logEntry (Issue o) w)).
Proof.
  unfold awaitOk, bind. rewrite await_undisturbed.
  destruct (reply env (Issue o :: log w) o); reflexivity.
Qed.
End Undisturbed.

Lemma allPartsStored_length parts total :
  allPartsStored parts total -> List.length parts = total.
Proof.
  intros H. apply Permutation_length in H.
  rewrite length_fmap, length_seq in H. exact H.
Qed.

Lemma allPartsStored_has parts total i :
  allPartsStored parts total -> 1 <= i <= total ->
  Gap.has (PartNumber <$> parts) i = true.
Proof.
  intros H Hi. unfold Gap.has. apply bool_decide_eq_true.
  rewrite H. apply list_elem_of_In, in_seq. lia.
Qed.

Lemma find_none_intro {A} (f : A -> bool) (l : list A) :
  (forall x, In x l -> f x = false) -> List.find f l = None.
Proof.
  induction l as [| a l IH]; intros H; simpl; [reflexivity |].
  rewrite (H a) by (left; reflexivity).
  apply IH. intros x Hx. apply H. right. exact Hx.
Qed.

Lemma findNextPart_all_stored parts next total :
  allPartsStored parts total ->
  Gap.findNextPart (PartNumber <$> parts) next total = None.
Proof.
  intros H. unfold Gap.findNextPart.
  apply find_none_intro. intros i Hi. apply in_seq in Hi.
  rewrite (allPartsStored_has parts total i H) by lia. reflexivity.
Qed.

Lemma bind_return {St A B} (m : M St A) (k : A -> M St B) w a w1 :
  m w = (Return a, w1) -> bind m k w = k a w1.
Proof. intros E. unfold bind. rewrite E. reflexivity. Qed.

Lemma bind_throw {St A B} (m : M St A) (k : A -> M St B) w e w1 :
  m w = (Throw e, w1) -> bind m k w = (Throw e, w1).
Proof. intros E. unfold bind. rewrite E. reflexivity. Qed.

Lemma awaitOk_undisturbed_ok {St} env (runCall : Call -> World St -> World St)
    o w :
  undisturbed env ->
  reply env (Issue o :: log w) o <> Failure ->
  awaitOk env runCall o w
  = (Return (reply env (Issue o :: log w) o),
     logEntry (Settle o (reply env (Issue o :: log w) o))
       (logEntry (Issue o) w)).
Proof.
  intros Hq Hr. rewrite (awaitOk_undisturbed env runCall Hq).
  destruct (reply env (Issue o :: log w) o); congruence.
Qed.

Lemma truthy_Some id : id <> "" -> truthy (Some id) = true.
Proof.
  intros Hid. simpl. destruct (String.eqb_spec id ""); [contradiction | reflexivity].
Qed.

Lemma Gap_resumeMultipartUpload_undisturbed env bucket key filePath size id w :
  undisturbed env -> id <> "" ->
  Gap.resumeMultipartUpload env bucket key filePath size (Some id) w
  = let w1 := logEntry (Settle (ListParts bucket key id)
                          (reply env (Issue (ListParts bucket key id) :: log w)
                                 (ListParts bucket key id)))
                (logEntry (Issue (ListParts bucket key id)) w) in
    match reply env (Issue (ListParts bucket key id) :: log w)
            (ListParts bucket key id) with
    | Failure => (Throw (OpFailed (ListParts bucket key id)), w1)
    | WithParts parts =>
        alloc (Gap.mkState id bucket key filePath size parts 1 false false) w1
    | _ => alloc (Gap.mkState id bucket key filePath size [] 1 false false) w1
    end.
Proof.
  intros Hq Hid. unfold Gap.resumeMultipartUpload.
  unfold bind at 1, getWorld at 1. rewrite (truthy_Some id Hid).
  cbn [negb default from_option]. rewrite (truthy_Some id Hid).
  cbn [negb]. unfold Datatypes.id, bind, Gap.awaitOk.
  rewrite (awaitOk_undisturbed env (Gap.runCall env) Hq).
  destruct (reply env _ _); reflexivity.
Qed.

Lemma Gap_transferLoop_all_stored env fuel file l total size w st :
  heap w !! l = Some st ->
  Gap.isPaused st = false -> Gap.isAborted st = false ->
  allPartsStored (Gap.uploadedParts st) total ->
  Gap.transferLoop env fuel file l total size w = (Return tt, w).
Proof.
  intros Hl Hp Ha Hall.
  destruct fuel; cbn [Gap.transferLoop]; unfold bind, read;
    rewrite (lookup_total_correct _ _ _ Hl), Hp, Ha; cbn [orb];
    rewrite (findNextPart_all_stored _ _ _ Hall); reflexivity.
Qed.

Lemma Gap_finishUpload_all_stored env k filePath l total size w st :
  undisturbed env ->
  heap w !! l = Some st ->
  Gap.isPaused st = false -> Gap.isAborted st = false ->
  allPartsStored (Gap.uploadedParts st) total ->
  let command :=
    CompleteMultipartUpload (Gap.bucket st) (Gap.key st) (Gap.uploadId st)
      (Gap.uploadedParts st) in
  let r := reply env (Issue command :: log w) command in
  let w1 := logEntry (Settle command r) (logEntry (Issue command) w) in
  Gap.finishUpload env k filePath l total size w
  = match r with
    | Failure => (Throw (OpFailed command), w1)
    | _ =>
        (Return Completed,
         mkWorld (heap w) (delete k (uploadStates w))
           (Emit (mkProgress filePath size size 100 (Some total) (Some total)
                    completed) :: log w1))
    end.
Proof.
  intros Hq Hl Hp Ha Hall command r w1.
  unfold Gap.finishUpload. unfold bind at 1, read at 1.
  rewrite (lookup_total_correct _ _ _ Hl), Hp, Ha.
  rewrite (allPartsStored_length _ _ Hall), Nat.eqb_refl. cbn [negb].
  unfold bind at 1, Gap.completeMultipartUpload.
  unfold bind at 1, read at 1. rewrite (lookup_total_correct _ _ _ Hl).
  fold command. unfold bind at 1, Gap.awaitOk.
  rewrite (awaitOk_undisturbed env (Gap.runCall env) Hq). fold r. fold w1.
  destruct r; reflexivity.
Qed.

Lemma Gap_multipartUpload_all_stored env bucket key filePath size id parts w :
  undisturbed env -> id <> "" ->
  allPartsStored parts (totalPartsFor size) ->
  (forall lg, reply env lg (ListParts bucket key id) = WithParts parts) ->
  (forall lg, reply env lg (DenoOpen filePath) <> Failure) ->
  exists r w1 new,
    Gap.multipartUpload env bucket key filePath size (Some id) w = (r, w1) /\
    log w1 = new ++ log w /\
    issuedIn new
    = [ ListParts bucket key id; DenoOpen filePath;
        CompleteMultipartUpload bucket key id parts ] /\
    ((forall lg, reply env lg (CompleteMultipartUpload bucket key id parts)
                 <> Failure) -> r = Return Completed).
Proof.
  intros Hq Hid Hall Hlist Hopen.
  unfold Gap.multipartUpload. unfold bind at 1, attempt.
  unfold bind at 1, getWorld at 1. rewrite (truthy_Some id Hid). cbn [orb].
  rewrite (Gap_resumeMultipartUpload_undisturbed env bucket key filePath size
             id w Hq Hid), Hlist.
  cbv zeta. unfold alloc. cbn [heap uploadStates log logEntry].
  set (l2 := fresh (dom (heap w))).
  set (st2 := Gap.mkState id bucket key filePath size parts 1 false false).
  unfold tryCatch.
  unfold bind at 1, registrySet at 1, update at 1.
  cbn [heap uploadStates log].
  unfold bind at 1, Gap.awaitOk.
  rewrite (awaitOk_undisturbed_ok env (Gap.runCall env) _ _ Hq (Hopen _)).
  cbn [heap uploadStates log logEntry].
  set (ropen := reply env _ (DenoOpen filePath)).
  unfold tryFinally.
  match goal with
  | |- context [Gap.transferLoop env ?fuel ?f ?l ?t ?s] =>
      set (loop := Gap.transferLoop env fuel f l t s)
  end.
  match goal with
  | |- context [bind loop ?k ?w0] => set (w3 := w0)
  end.
  assert (heap w3 !! l2 = Some st2) as Hl2 by apply lookup_insert_eq.
  rewrite (bind_return loop _ w3 tt w3)
    by (apply (Gap_transferLoop_all_stored env _ _ _ _ _ _ st2 Hl2);
        [reflexivity | reflexivity | exact Hall]).
  rewrite (Gap_finishUpload_all_stored env _ _ _ _ _ _ st2 Hq Hl2
             eq_refl eq_refl Hall).
  cbv zeta. cbn [Gap.bucket Gap.key Gap.uploadId Gap.uploadedParts st2].
  set (command := CompleteMultipartUpload bucket key id parts).
  set (rc := reply env _ command).
  destruct rc eqn:Hrc.
  1: { unfold Gap.multipartCatch, bind, read. cbn [heap logEntry].
       rewrite (lookup_total_correct _ _ _ Hl2). cbn [Gap.isAborted st2].
       unfold ret, onProgress, record, throw. cbn [log logEntry].
       eexists _, _,
         [_; _; _; _; _; _; _; _].
       split; [reflexivity |]. split; [reflexivity |].
       split; [reflexivity |].
       intros Hc. exfalso. eapply Hc. exact Hrc. }
  all: eexists _, _, [_; _; _; _; _; _; _; _];
    (split; [reflexivity |]); (split; [reflexivity |]);
    (split; [reflexivity | intros _; reflexivity]).
Qed.

Lemma Gap_resumeUpload_all_stored env bucket key (w : Gap.W) l st :
  undisturbed env ->
  uploadStates w !! stateKey bucket key = Some l ->
  heap w !! l = Some st ->
  Gap.uploadId st <> "" ->
  allPartsStored (Gap.uploadedParts st) (totalPartsFor (Gap.fileSize st)) ->
  (forall lg, reply env lg (ListParts (Gap.bucket st) (Gap.key st)
                              (Gap.uploadId st))
              = WithParts (Gap.uploadedParts st)) ->
  (forall lg, reply env lg (DenoOpen (Gap.filePath st)) <> Failure) ->
  exists r w1 new,
    Gap.resumeUpload env bucket key w = (r, w1) /\
    log w1 = new ++ log w /\
    issuedIn new
    = [ ListParts (Gap.bucket st) (Gap.key st) (Gap.uploadId st);
        DenoOpen (Gap.filePath st);
        CompleteMultipartUpload (Gap.bucket st) (Gap.key st)
          (Gap.uploadId st) (Gap.uploadedParts st) ] /\
    ((forall lg, reply env lg
                   (CompleteMultipartUpload (Gap.bucket st) (Gap.key st)
                      (Gap.uploadId st) (Gap.uploadedParts st)) <> Failure) ->
     r = Return Completed).
Proof.
  intros Hq Hreg Hheap Hid Hall Hlist Hopen.
  unfold Gap.resumeUpload. unfold bind at 1, getWorld at 1. rewrite Hreg.
  unfold bind at 1, modify at 1, update at 1.
  unfold bind at 1, read at 1. cbn [heap].
  rewrite (alter_total_Some _ _ _ _ Hheap).
  cbn [Gap.bucket Gap.key Gap.filePath Gap.fileSize Gap.uploadId Gap.setPaused].
  apply (Gap_multipartUpload_all_stored env _ _ _ _ _ _
           (mkWorld (alter (Gap.setPaused false) l (heap w)) (uploadStates w)
              (log w)) Hq Hid Hall Hlist Hopen).
Qed.

Lemma Cursor_resumeMultipartUpload_undisturbed env bucket key filePath size
    id w :
  undisturbed env -> id <> "" ->
  Cursor.resumeMultipartUpload env bucket key filePath size (Some id) w
  = let w1 := logEntry (Settle (ListParts bucket key id)
                          (reply env (Issue (ListParts bucket key id) :: log w)
                                 (ListParts bucket key id)))
                (logEntry (Issue (ListParts bucket key id)) w) in
    match reply env (Issue (ListParts bucket key id) :: log w)
            (ListParts bucket key id) with
    | Failure => (Throw (OpFailed (ListParts bucket key id)), w1)
    | WithParts parts =>
        alloc (Cursor.mkState id bucket key filePath size parts
                 (List.length parts + 1) false) w1
    | _ => alloc (Cursor.mkState id bucket key filePath size [] 1 false) w1
    end.
Proof.
  intros Hq Hid. unfold Cursor.resumeMultipartUpload.
  unfold bind at 1, getWorld at 1. rewrite (truthy_Some id Hid).
  cbn [negb default from_option]. rewrite (truthy_Some id Hid).
  cbn [negb]. unfold Datatypes.id, bind, Cursor.awaitOk.
  rewrite (awaitOk_undisturbed env (Cursor.runCall env) Hq).
  destruct (reply env _ _); reflexivity.
Qed.

Lemma Cursor_transferLoop_past_end env fuel file l total size w st :
  heap w !! l = Some st ->
  total < Cursor.nextPartNumber st ->
  Cursor.transferLoop env fuel file l total size w = (Return tt, w).
Proof.
  intros Hl Hn.
  assert ((Cursor.nextPartNumber st <=? total) = false) as Hb
    by (apply Nat.leb_gt; exact Hn).
  destruct fuel; cbn [Cursor.transferLoop]; unfold bind, read;
    rewrite (lookup_total_correct _ _ _ Hl), Hb; reflexivity.
Qed.

Lemma Cursor_finishUpload_unpaused env k filePath l total size w st :
  undisturbed env ->
  heap w !! l = Some st ->
  Cursor.isPaused st = false ->
  let command :=
    CompleteMultipartUpload (Cursor.bucket st) (Cursor.key st)
      (Cursor.uploadId st) (Cursor.uploadedParts st) in
  let r := reply env (Issue command :: log w) command in
  let w1 := logEntry (Settle command r) (logEntry (Issue command) w) in
  Cursor.finishUpload env k filePath l total size w
  = match r with
    | Failure => (Throw (OpFailed command), w1)
    | _ =>
        (Return Completed,
         mkWorld (heap w) (delete k (uploadStates w))
           (Emit (mkProgress filePath size size 100 (Some total) (Some total)
                    completed) :: log w1))
    end.
Proof.
  intros Hq Hl Hp command r w1.
  unfold Cursor.finishUpload. unfold bind at 1, read at 1.
  rewrite (lookup_total_correct _ _ _ Hl), Hp.
  unfold bind at 1, Cursor.completeMultipartUpload.
  unfold bind at 1, read at 1. rewrite (lookup_total_correct _ _ _ Hl).
  fold command. unfold bind at 1, Cursor.awaitOk.
  rewrite (awaitOk_undisturbed env (Cursor.runCall env) Hq). fold r. fold w1.
  destruct r; reflexivity.
Qed.

Lemma Cursor_multipartUpload_all_stored env bucket key filePath size id
    parts w :
  undisturbed env -> id <> "" ->
  allPartsStored parts (totalPartsFor size) ->
  (forall lg, reply env lg (ListParts bucket key id) = WithParts parts) ->
  (forall lg, reply env lg (DenoOpen filePath) <> Failure) ->
  exists r w1 new,
    Cursor.multipartUpload env bucket key filePath size (Some id) w = (r, w1) /\
    log w1 = new ++ log w /\
    issuedIn new
    = [ ListParts bucket key id; DenoOpen filePath;
        CompleteMultipartUpload bucket key id parts ] /\
    ((forall lg, reply env lg (CompleteMultipartUpload bucket key id parts)
                 <> Failure) -> r = Return Completed).
Proof.
  intros Hq Hid Hall Hlist Hopen.
  unfold Cursor.multipartUpload, tryCatch.
  unfold bind at 1, getWorld at 1. rewrite (truthy_Some id Hid). cbn [orb].
  unfold bind at 1.
  rewrite (Cursor_resumeMultipartUpload_undisturbed env bucket key filePath
             size id w Hq Hid), Hlist.
  cbv zeta. unfold alloc. cbn [heap uploadStates log logEntry].
  set (l2 := fresh (dom (heap w))).
  set (st2 := Cursor.mkState id bucket key filePath size parts
                (List.length parts + 1) false).
  unfold bind at 1, registrySet at 1, update at 1.
  cbn [heap uploadStates log].
  unfold bind at 1, Cursor.awaitOk.
  rewrite (awaitOk_undisturbed_ok env (Cursor.runCall env) _ _ Hq (Hopen _)).
  cbn [heap uploadStates log logEntry].
  set (ropen := reply env _ (DenoOpen filePath)).
  unfold tryFinally.
  match goal with
  | |- context [Cursor.transferLoop env ?fuel ?f ?l ?t ?s] =>
      set (loop := Cursor.transferLoop env fuel f l t s)
  end.
  match goal with
  | |- context [bind loop ?k ?w0] => set (w3 := w0)
  end.
  assert (heap w3 !! l2 = Some st2) as Hl2 by apply lookup_insert_eq.
  rewrite (bind_return loop _ w3 tt w3)
    by (apply (Cursor_transferLoop_past_end env _ _ _ _ _ _ st2 Hl2);
        cbn [Cursor.nextPartNumber st2];
        rewrite (allPartsStored_length _ _ Hall); lia).
  rewrite (Cursor_finishUpload_unpaused env _ _ _ _ _ _ st2 Hq Hl2 eq_refl).
  cbv zeta.
  cbn [Cursor.bucket Cursor.key Cursor.uploadId Cursor.uploadedParts st2].
  set (command := CompleteMultipartUpload bucket key id parts).
  set (rc := reply env _ command).
  destruct rc eqn:Hrc.
  1: { unfold Cursor.multipartCatch, bind, onProgress, record, throw.
       cbn [log logEntry].
       eexists _, _, [_; _; _; _; _; _; _; _].
       split; [reflexivity |]. split; [reflexivity |].
       split; [reflexivity |].
       intros Hc. exfalso. eapply Hc. exact Hrc. }
  all: eexists _, _, [_; _; _; _; _; _; _; _];
    (split; [reflexivity |]); (split; [reflexivity |]);
    (split; [reflexivity | intros _; reflexivity]).
Qed.

Lemma Cursor_resumeUpload_all_stored env bucket key (w : Cursor.W) l st :
  undisturbed env ->
  uploadStates w !! stateKey bucket key = Some l ->
  heap w !! l = Some st ->
  Cursor.uploadId st <> "" ->
  allPartsStored (Cursor.uploadedParts st)
    (totalPartsFor (Cursor.fileSize st)) ->
  (forall lg, reply env lg (ListParts (Cursor.bucket st) (Cursor.key st)
                              (Cursor.uploadId st))
              = WithParts (Cursor.uploadedParts st)) ->
  (forall lg, reply env lg (DenoOpen (Cursor.filePath st)) <> Failure) ->
  exists r w1 new,
    Cursor.resumeUpload env bucket key w = (r, w1) /\
    log w1 = new ++ log w /\
    issuedIn new
    = [ ListParts (Cursor.bucket st) (Cursor.key st) (Cursor.uploadId st);
        DenoOpen (Cursor.filePath st);
        CompleteMultipartUpload (Cursor.bucket st) (Cursor.key st)
          (Cursor.uploadId st) (Cursor.uploadedParts st) ] /\
    ((forall lg, reply env lg
                   (CompleteMultipartUpload (Cursor.bucket st) (Cursor.key st)
                      (Cursor.uploadId st) (Cursor.uploadedParts st))
                 <> Failure) ->
     r = Return Completed).
Proof.
  intros Hq Hreg Hheap Hid Hall Hlist Hopen.
  unfold Cursor.resumeUpload. unfold bind at 1, getWorld at 1. rewrite Hreg.
  unfold bind at 1, modify at 1, update at 1.
  unfold bind at 1, read at 1. cbn [heap].
  rewrite (alter_total_Some _ _ _ _ Hheap).
  cbn [Cursor.bucket Cursor.key Cursor.filePath Cursor.fileSize
       Cursor.uploadId Cursor.setPaused].
  apply (Cursor_multipartUpload_all_stored env _ _ _ _ _ _
           (mkWorld (alter (Cursor.setPaused false) l (heap w))
              (uploadStates w) (log w)) Hq Hid Hall Hlist Hopen).
Qed.

(** C7.  In both managers, nobody calling in: [resumeUpload] of a
    registered transfer whose stored parts are exactly the planned ones (as
    the backend lists them) issues [ListParts], opens the file and issues
    [CompleteMultipartUpload] with those parts, and nothing else: no
    [UploadPart]; it completes when the finalize call succeeds. *)
Theorem resume_of_complete_set_finalizes env bucket key
    (w : Gap.W) l st (v : Cursor.W) l' st' :
  undisturbed env ->
  uploadStates w !! stateKey bucket key = Some l ->
  heap w !! l = Some st ->
  Gap.uploadId st <> "" ->
  allPartsStored (Gap.uploadedParts st) (totalPartsFor (Gap.fileSize st)) ->
  (forall lg, reply env lg (ListParts (Gap.bucket st) (Gap.key st)
                              (Gap.uploadId st))
              = WithParts (Gap.uploadedParts st)) ->
  (forall lg, reply env lg (DenoOpen (Gap.filePath st)) <> Failure) ->
  uploadStates v !! stateKey bucket key = Some l' ->
  heap v !! l' = Some st' ->
  Cursor.uploadId st' <> "" ->
  allPartsStored (Cursor.uploadedParts st')
    (totalPartsFor (Cursor.fileSize st')) ->
  (forall lg, reply env lg (ListParts (Cursor.bucket st') (Cursor.key st')
                              (Cursor.uploadId st'))
              = WithParts (Cursor.uploadedParts st')) ->
  (forall lg, reply env lg (DenoOpen (Cursor.filePath st')) <> Failure) ->
  (exists r w1 new,
     Gap.resumeUpload env bucket key w = (r, w1) /\
     log w1 = new ++ log w /\
     issuedIn new
     = [ ListParts (Gap.bucket st) (Gap.key st) (Gap.uploadId st);
         DenoOpen (Gap.filePath st);
         CompleteMultipartUpload (Gap.bucket st) (Gap.key st)
           (Gap.uploadId st) (Gap.uploadedParts st) ] /\
     ((forall lg, reply env lg
                    (CompleteMultipartUpload (Gap.bucket st) (Gap.key st)
                       (Gap.uploadId st) (Gap.uploadedParts st)) <> Failure) ->
      r = Return Completed)) /\
  (exists r v1 new,
     Cursor.resumeUpload env bucket key v = (r, v1) /\
     log v1 = new ++ log v /\
     issuedIn new
     = [ ListParts (Cursor.bucket st') (Cursor.key st') (Cursor.uploadId st');
         DenoOpen (Cursor.filePath st');
         CompleteMultipartUpload (Cursor.bucket st') (Cursor.key st')
           (Cursor.uploadId st') (Cursor.uploadedParts st') ] /\
     ((forall lg, reply env lg
                    (CompleteMultipartUpload (Cursor.bucket st')
                       (Cursor.key st') (Cursor.uploadId st')
                       (Cursor.uploadedParts st')) <> Failure) ->
      r = Return Completed)).
Proof.
  intros Hq Hw Hst Hid Hall Hlist Hopen Hv Hst' Hid' Hall' Hlist' Hopen'.
  split.
  - apply (Gap_resumeUpload_all_stored env bucket key w l st); assumption.
  - apply (Cursor_resumeUpload_all_stored env bucket key v l' st'); assumption.
Qed.

Lemma resume_of_complete_set_finalizes_witness :
  let env := calmEnv (25 * MiB) fiveParts in
  (exists r w1 new,
     Gap.resumeUpload env "b" "k" gapFullWorld = (r, w1) /\
     log w1 = new ++ log gapFullWorld /\
     issuedIn new
     = [ ListParts "b" "k" "upload-1"; DenoOpen "f";
         CompleteMultipartUpload "b" "k" "upload-1" fiveParts ] /\
     ((forall lg, reply env lg
                    (CompleteMultipartUpload "b" "k" "upload-1" fiveParts)
                  <> Failure) ->
      r = Return Completed)) /\
  (exists r v1 new,
     Cursor.resumeUpload env "b" "k" cursorFullWorld = (r, v1) /\
     log v1 = new ++ log cursorFullWorld /\
     issuedIn new
     = [ ListParts "b" "k" "upload-1"; DenoOpen "f";
         CompleteMultipartUpload "b" "k" "upload-1" fiveParts ] /\
     ((forall lg, reply env lg
                    (CompleteMultipartUpload "b" "k" "upload-1" fiveParts)
                  <> Failure) ->
      r = Return Completed)).
Proof.
  intros env.
  apply (resume_of_complete_set_finalizes env "b" "k"
           gapFullWorld 0 gapFullState cursorFullWorld 0 cursorFullState);
    try reflexivity; try discriminate;
    try (intros lg; discriminate);
    try (unfold allPartsStored; vm_compute; reflexivity).
Defined.

(** * Abort *)

#[global] Instance staysAborted_preorder l : PreOrder (staysAborted l).
Proof.
  split.
  - intros w H. exact H.
  - intros w1 w2 w3 H1 H2 H. apply H2, H1, H.
Qed.

Lemma staysAborted_same_heap l (w w1 : Gap.W) :
  heap w1 = heap w -> staysAborted l w w1.
Proof. intros E (st & Hl & Ha). exists st. rewrite E. auto. Qed.

Lemma staysAborted_modify l l' (f : Gap.UploadState -> Gap.UploadState) :
  (forall st, Gap.isAborted st = true -> Gap.isAborted (f st) = true) ->
  preserves (staysAborted l) (modify l' f).
Proof.
  intros Hf w (st & Hl & Ha). unfold modify, update, abortedAt.
  cbn [snd heap].
  destruct (decide (l' = l)) as [-> | Hne].
  - exists (f st). rewrite lookup_alter_eq, Hl. split; [reflexivity | auto].
  - exists st. rewrite lookup_alter_ne by exact Hne. auto.
Qed.

Lemma Gap_runCall_staysAborted env l c w :
  staysAborted l w (Gap.runCall env c w).
Proof.
  destruct c as [b k | b k]; simpl.
  - revert w. change (preserves (staysAborted l) (Gap.pauseUpload b k)).
    unfold Gap.pauseUpload.
    pres (staysAborted l).
    apply staysAborted_modify. intros st Ha. exact Ha.
  - revert w. change (preserves (staysAborted l)
      (Gap.abortUploadWith (awaitAlone env) b k)).
    unfold Gap.abortUploadWith, awaitAlone.
    pres (staysAborted l);
      try (apply staysAborted_modify; intros st Ha; reflexivity);
      try (intros w; apply staysAborted_same_heap; reflexivity).
Qed.

Lemma Gap_intrusions_staysAborted env l :
  preserves (staysAborted l) (intrusions env (Gap.runCall env)).
Proof.
  apply (preserves_intrusions env (Gap.runCall env) (staysAborted l)).
  - intros c w. apply Gap_runCall_staysAborted.
  - intros c w. apply staysAborted_same_heap. reflexivity.
Qed.

Lemma uploadsIssued_app a b :
  uploadsIssued (a ++ b) = uploadsIssued b ++ uploadsIssued a.
Proof. unfold uploadsIssued. rewrite rev_app_distr, omap_app. reflexivity. Qed.

Lemma uploadsIssued_calls mid :
  Forall callEntry mid -> uploadsIssued mid = [].
Proof.
  intros F. unfold uploadsIssued.
  assert (Forall callEntry (rev mid)) as F'.
  { apply Forall_forall. intros e He. rewrite Forall_forall in F.
    apply F. apply list_elem_of_In, in_rev, list_elem_of_In, He. }
  induction F' as [| e l He _ IH]; [reflexivity |].
  destruct e as [[] | [] | | |]; simpl in *; try contradiction; exact IH.
Qed.

Lemma startsNoAttempt_call e : callEntry e -> startsNoAttempt e.
Proof. destruct e as [[] | | | |]; simpl; auto. Qed.

(** One continuation of a part task while the abort flag is set. *)
Lemma Gap_uploadPartResume_aborted file l size t s o r w :
  abortedAt l w ->
  promise t = Pending s o ->
  exists t' new w1,
    Gap.uploadPartResume file l size t s o r w = (Return t', w1) /\
    abortedAt l w1 /\
    log w1 = new ++ log w /\
    Forall startsNoAttempt new /\
    List.length (uploadsIssued new) + (if reading t' then 1 else 0)
    <= (if reading t then 1 else 0).
Proof.
  intros (st & Hl & Ha) Hp.
  assert (heap w !!! l = st) as Hst by (apply lookup_total_correct, Hl).
  assert (forall n rc e,
             Gap.uploadPartCatch l n rc e w
             = (Return (mkTask n rc (Rejected e)), w)) as Hcatch.
  { intros n rc e. unfold Gap.uploadPartCatch, bind, read.
    rewrite Hst, Ha, andb_false_r. reflexivity. }
  assert (forall n rc,
             Gap.uploadPart file l n size rc w
             = (Return (mkTask n rc Resolved), w)) as Hentry.
  { intros n rc. unfold Gap.uploadPart, bind, read.
    rewrite Hst, Ha. reflexivity. }
  assert (abortedAt l w) as Hw by (exists st; auto).
  unfold reading at 2. rewrite Hp.
  unfold Gap.uploadPartResume.
  destruct s.
  - (* Seeking *)
    destruct r;
      [ rewrite Hcatch; eexists _, [], w; cbn; repeat split; auto; lia | ..];
      (unfold bind, issue, record, ret;
       eexists _, [_], _; split; [reflexivity |];
       split; [exact Hw |]; split; [reflexivity |];
       split; [repeat constructor | cbn; lia]).
  - (* Reading *)
    destruct r;
      [ rewrite Hcatch; eexists _, [], w; cbn; repeat split; auto; lia | ..];
      (unfold bind, read, issue, record, ret;
       eexists _, [_], _; split; [reflexivity |];
       split; [exact Hw |]; split; [reflexivity |];
       split; [repeat constructor | cbn; lia]).
  - (* Sending *)
    destruct r; try (rewrite Hcatch; eexists _, [], w; cbn;
                     repeat split; auto; lia).
    destruct (String.eqb id "");
      [rewrite Hcatch; eexists _, [], w; cbn; repeat split; auto; lia |].
    unfold bind, read, write, modify, update, onProgress, record, ret.
    rewrite Hst. cbn [heap uploadStates log logEntry].
    eexists _, [_], _. split; [reflexivity |].
    split.
    { eexists. unfold logEntry. cbn [heap]. rewrite lookup_alter_eq, Hl.
      split; [reflexivity | exact Ha]. }
    split; [reflexivity |].
    split; [repeat constructor | cbn; lia].
  - (* Backoff *)
    destruct r; rewrite Hentry; eexists _, [], w; cbn;
      repeat split; auto; lia.
Qed.

Lemma pendingFrom_In k tasks i t s o :
  In (i, t, s, o) (pendingFrom k tasks) ->
  exists j, i = k + j /\ tasks !! j = Some t /\ promise t = Pending s o.
Proof.
  revert k. induction tasks as [| t0 tasks IH]; intros k; simpl; [tauto |].
  destruct (promise t0) as [s0 o0 | |] eqn:Hp0.
  - intros [E | Hin].
    + inversion E; subst. exists 0. split; [lia |]. split; [reflexivity | exact Hp0].
    + destruct (IH _ Hin) as (j & -> & Hj & Hp).
      exists (S j). split; [lia |]. split; [exact Hj | exact Hp].
  - intros Hin. destruct (IH _ Hin) as (j & -> & Hj & Hp).
    exists (S j). split; [lia |]. split; [exact Hj | exact Hp].
  - intros Hin. destruct (IH _ Hin) as (j & -> & Hj & Hp).
    exists (S j). split; [lia |]. split; [exact Hj | exact Hp].
Qed.

Lemma inFlight_insert tasks i t t' :
  tasks !! i = Some t ->
  inFlight (<[i := t']> tasks) + (if reading t then 1 else 0)
  = inFlight tasks + (if reading t' then 1 else 0).
Proof.
  unfold inFlight. revert i.
  induction tasks as [| t0 tasks IH]; intros i Hi; [discriminate |].
  destruct i as [| i]; simpl in *.
  - inversion Hi; subst. destruct (reading t), (reading t'); simpl; lia.
  - specialize (IH i Hi). destruct (reading t0); simpl; lia.
Qed.

(** While [Promise.all] is pending and the abort flag is set. *)
Lemma Gap_promiseAll_aborted env file l size fuel :
  forall tasks w,
    abortedAt l w ->
    exists r new w1,
      promiseAll env (Gap.runCall env) (Gap.uploadPartResume file l size)
        fuel tasks w = (r, w1) /\
      abortedAt l w1 /\
      log w1 = new ++ log w /\
      Forall startsNoAttempt new /\
      List.length (uploadsIssued new) <= inFlight tasks.
Proof.
  induction fuel as [| fuel IH]; intros tasks w Hw; cbn [promiseAll].
  - destruct (rejection tasks);
      [eexists _, [], w; repeat split; auto; cbn; lia |].
    destruct (pendingFrom 0 tasks);
      eexists _, [], w; repeat split; auto; cbn; lia.
  - destruct (rejection tasks);
      [eexists _, [], w; repeat split; auto; cbn; lia |].
    destruct (pendingFrom 0 tasks) as [| first others] eqn:Hpend;
      [eexists _, [], w; repeat split; auto; cbn; lia |].
    unfold bind at 1.
    pose proof (Gap_intrusions_staysAborted env l w Hw) as Hwa.
    pose proof (preserves_intrusions env (Gap.runCall env) (logged callEntry)
                  (Gap_runCall_logged env)
                  (fun c w' => logged_entry callEntry (Extern c) w' I) w)
      as (mid & Lmid & Fmid).
    destruct (intrusions env (Gap.runCall env) w) as [[[] | e] wa] eqn:Ei;
      [| unfold intrusions in Ei; discriminate].
    cbn [snd] in Hwa, Lmid.
    unfold bind at 1, getWorld at 1.
    assert (In (nth (pick env (log wa) mod S (List.length others))
                  (first :: others) first) (pendingFrom 0 tasks)) as Hin.
    { rewrite Hpend. apply nth_In. cbn [List.length].
      apply Nat.mod_upper_bound. lia. }
    destruct (nth (pick env (log wa) mod S (List.length others))
                (first :: others) first) as [[[i t] s] o].
    destruct (pendingFrom_In 0 tasks i t s o Hin) as (j & -> & Hj & Hp).
    cbn [Nat.add].
    unfold bind at 1, settle at 1.
    set (r := reply env (log wa) o).
    assert (abortedAt l (logEntry (Settle o r) wa)) as Hwb.
    { destruct Hwa as (st & Hl & Ha). exists st. auto. }
    destruct (Gap_uploadPartResume_aborted file l size t s o r _ Hwb Hp)
      as (t' & new_s & wc & Es & Hwc & Ls & Fs & Us).
    unfold bind at 1. rewrite Es.
    destruct (IH (<[j := t']> tasks) wc Hwc)
      as (r' & new_r & w1 & Er & Hw1 & Lr & Fr & Ur).
    rewrite Er.
    exists r', (new_r ++ new_s ++ Settle o r :: mid), w1.
    split; [reflexivity |]. split; [exact Hw1 |].
    split.
    { rewrite Lr, Ls. cbn [log logEntry]. rewrite Lmid.
      rewrite <- !app_assoc. reflexivity. }
    split.
    { apply Forall_app. split; [exact Fr |].
      apply Forall_app. split; [exact Fs |].
      constructor; [exact I |].
      eapply Forall_impl; [exact Fmid | apply startsNoAttempt_call]. }
    rewrite !uploadsIssued_app, !length_app.
    change (Settle o r :: mid) with ([Settle o r] ++ mid).
    rewrite uploadsIssued_app, (uploadsIssued_calls mid Fmid).
    pose proof (inFlight_insert tasks j t t' Hj) as Hins.
    cbn [List.length uploadsIssued rev omap app]. cbn.
    lia.
Qed.

(** C6 as stated fails: in the gap-scanning manager a part task that passed
    its entry check and awaits its seek when [abortUpload] sets the flag
    goes on to read its range and to issue its [UploadPart]; so do all three
    tasks of a batch.  (The cursor-only manager has no abort flag: after
    [abortUpload] its loop goes on to upload and to finalize.) *)
Lemma upload_issued_after_abort :
  trace (Gap.uploadFile abortingEnv "b" "k" "f" emptyWorld).2
  = [ Issue (DenoStat "f"); Settle (DenoStat "f") (WithSize (5 * MiB));
      Issue (CreateMultipartUpload "b" "k");
      Settle (CreateMultipartUpload "b" "k") (WithId "upload-1");
      Issue (DenoOpen "f"); Settle (DenoOpen "f") Fulfilled;
      Issue (FileSeek "f" 0);
      Extern (CallAbort "b" "k");
      Issue (AbortMultipartUpload "b" "k" "upload-1");
      Settle (AbortMultipartUpload "b" "k" "upload-1") Fulfilled;
      Settle (FileSeek "f" 0) Fulfilled;
      Issue (FileRead "f" (5 * MiB));
      Settle (FileRead "f" (5 * MiB)) Fulfilled;
      Issue (UploadPart "b" "k" "upload-1" 1);
      Settle (UploadPart "b" "k" "upload-1" 1) (WithId "etag");
      Emit (mkProgress "f" (5 * MiB) (5 * MiB) 100 (Some 1) (Some 1) uploading);
      FileClose "f" ] /\
  uploadAfterAbort "b" "k" false
    (trace (Gap.uploadFile abortingEnv "b" "k" "f" emptyWorld).2) = true /\
  uploadsIssued (log (Gap.uploadFile abortingEnv3 "b" "k" "f" emptyWorld).2)
  = [1; 2; 3] /\
  uploadAfterAbort "b" "k" false
    (trace (Gap.uploadFile abortingEnv3 "b" "k" "f" emptyWorld).2) = true /\
  uploadAfterAbort "b" "k" false
    (trace (Cursor.uploadFile abortingEnv3 "b" "k" "f" emptyWorld).2) = true.
Proof. repeat split; vm_compute; reflexivity. Qed.

Lemma Gap_transferLoop_aborted env fuel file l total size w :
  abortedAt l w ->
  Gap.transferLoop env fuel file l total size w = (Return tt, w).
Proof.
  intros (st & Hl & Ha).
  destruct fuel; cbn [Gap.transferLoop]; unfold bind, read;
    rewrite (lookup_total_correct _ _ _ Hl), Ha, orb_true_r; reflexivity.
Qed.

Lemma Gap_startBatch_aborted file l size parts w :
  abortedAt l w ->
  Gap.startBatch file l size parts w = (Return [], w).
Proof.
  intros (st & Hl & Ha).
  destruct parts; cbn [Gap.startBatch]; [reflexivity |].
  unfold bind, read.
  rewrite (lookup_total_correct _ _ _ Hl), Ha, orb_true_r. reflexivity.
Qed.

Lemma Gap_uploadPart_aborted file l n size rc w :
  abortedAt l w ->
  Gap.uploadPart file l n size rc w = (Return (mkTask n rc Resolved), w).
Proof.
  intros (st & Hl & Ha). unfold Gap.uploadPart, bind, read.
  rewrite (lookup_total_correct _ _ _ Hl), Ha. reflexivity.
Qed.

(** C6 (amended).  In the gap-scanning manager, once the abort flag of the
    transfer's state is set: the transfer loop leaves at once and starts no
    batch, a part task that is started or retried returns at its entry
    check, and while [Promise.all] is pending, whatever the environment
    does, the flag stays set, no attempt is started and no retry is
    scheduled (no seek, no backoff timer is issued), and the part uploads
    still issued are at most as many as the part tasks that were seeking
    or reading their byte range. *)
Theorem aborted_transfer_only_drains env file l size (w : Gap.W) :
  abortedAt l w ->
  (forall fuel total,
     Gap.transferLoop env fuel file l total size w = (Return tt, w)) /\
  (forall parts, Gap.startBatch file l size parts w = (Return [], w)) /\
  (forall n rc,
     Gap.uploadPart file l n size rc w = (Return (mkTask n rc Resolved), w)) /\
  (forall fuel tasks,
     exists r new w1,
       promiseAll env (Gap.runCall env) (Gap.uploadPartResume file l size)
         fuel tasks w = (r, w1) /\
       abortedAt l w1 /\
       log w1 = new ++ log w /\
       Forall startsNoAttempt new /\
       List.length (uploadsIssued new) <= inFlight tasks).
Proof.
  intros Hw. split; [| split; [| split]].
  - intros fuel total. apply Gap_transferLoop_aborted, Hw.
  - intros parts. apply Gap_startBatch_aborted, Hw.
  - intros n rc. apply Gap_uploadPart_aborted, Hw.
  - intros fuel tasks. apply Gap_promiseAll_aborted, Hw.
Qed.

(** Three tasks pending when the flag is set, two of them before their
    upload: two uploads are still issued, the third task only settles. *)
Lemma aborted_transfer_only_drains_witness :
  abortedAt 0 abortedWorld /\
  inFlight abortedTasks = 2 /\
  uploadsIssued
    (log (promiseAll (calmEnv (12 * MiB) []) (Gap.runCall (calmEnv (12 * MiB) []))
            (Gap.uploadPartResume "f" 0 (12 * MiB)) 48 abortedTasks
            abortedWorld).2) = [1; 2] /\
  (exists r new w1,
     promiseAll (calmEnv (12 * MiB) []) (Gap.runCall (calmEnv (12 * MiB) []))
       (Gap.uploadPartResume "f" 0 (12 * MiB)) 48 abortedTasks abortedWorld
     = (r, w1) /\
     abortedAt 0 w1 /\
     log w1 = new ++ log abortedWorld /\
     Forall startsNoAttempt new /\
     List.length (uploadsIssued new) <= inFlight abortedTasks).
Proof.
  assert (abortedAt 0 abortedWorld) as Hw.
  { eexists. split; reflexivity. }
  split; [exact Hw |]. split; [reflexivity |].
  split; [vm_compute; reflexivity |].
  destruct (aborted_transfer_only_drains (calmEnv (12 * MiB) []) "f" 0
              (12 * MiB) abortedWorld Hw) as (_ & _ & _ & H).
  apply H.
Defined.

(** * Resume around gaps, and retry: the two managers side by side *)

(** C1.  Resumed on a five-part transfer of which parts 2 and 4 are stored,
    everything succeeding: the cursor-only manager sets its cursor to the
    number of stored parts plus one and uploads parts 3, 4 and 5: part 4 a
    second time, part 1 never, and it finalizes with part 4 twice and
    without part 1.  The gap-scanning manager uploads parts 1, 3 and 5 and
    finalizes with parts 1 to 5. *)
Theorem cursor_resume_misses_the_gaps :
  let env := calmEnv (25 * MiB) [mkPart 2 "e2"; mkPart 4 "e4"] in
  (Cursor.resumeUpload env "b" "k" cursorWorld24).1 = Return Completed /\
  uploadsIssued (log (Cursor.resumeUpload env "b" "k" cursorWorld24).2)
  = [3; 4; 5] /\
  finalizedWith (log (Cursor.resumeUpload env "b" "k" cursorWorld24).2)
  = Some [ mkPart 2 "e2"; mkPart 3 "etag"; mkPart 4 "e4"; mkPart 4 "etag";
           mkPart 5 "etag" ] /\
  (Gap.resumeUpload env "b" "k" gapWorld24).1 = Return Completed /\
  uploadsIssued (log (Gap.resumeUpload env "b" "k" gapWorld24).2)
  = [1; 3; 5] /\
  finalizedWith (log (Gap.resumeUpload env "b" "k" gapWorld24).2)
  = Some [ mkPart 1 "etag"; mkPart 2 "e2"; mkPart 3 "etag"; mkPart 4 "e4";
           mkPart 5 "etag" ].
Proof. repeat split; vm_compute; reflexivity. Qed.

(** C2.  On a three-part upload whose second part the backend refuses
    twice and then accepts: the cursor-only manager issues the upload of
    part 2 once, sets no backoff timer and throws at the first refusal.
    The gap-scanning manager issues it three times, with backoff timers of
    1000 and 2000 ms in between, completes, and finalizes with part 2
    recorded once; against a backend that always refuses a part it gives
    up after four attempts and timers of 1000, 2000 and 3000 ms. *)
Theorem cursor_never_retries_a_part :
  (Cursor.uploadFile flakyEnv "b" "k" "f" emptyWorld).1
  = Throw (OpFailed (UploadPart "b" "k" "upload-1" 2)) /\
  attemptsOf 2 (log (Cursor.uploadFile flakyEnv "b" "k" "f" emptyWorld).2) = 1 /\
  timersIssued (log (Cursor.uploadFile flakyEnv "b" "k" "f" emptyWorld).2) = [] /\
  (Gap.uploadFile flakyEnv "b" "k" "f" emptyWorld).1 = Return Completed /\
  uploadsIssued (log (Gap.uploadFile flakyEnv "b" "k" "f" emptyWorld).2)
  = [1; 2; 2; 2; 3] /\
  timersIssued (log (Gap.uploadFile flakyEnv "b" "k" "f" emptyWorld).2)
  = [1000; 2000]%Z /\
  finalizedWith (log (Gap.uploadFile flakyEnv "b" "k" "f" emptyWorld).2)
  = Some [mkPart 1 "etag"; mkPart 2 "etag"; mkPart 3 "etag"] /\
  (Gap.uploadFile refusingEnv "b" "k" "f" emptyWorld).1
  = Throw (OpFailed (UploadPart "b" "k" "upload-1" 3)) /\
  attemptsOf 3 (log (Gap.uploadFile refusingEnv "b" "k" "f" emptyWorld).2) = 4 /\
  timersIssued (log (Gap.uploadFile refusingEnv "b" "k" "f" emptyWorld).2)
  = [1000; 2000; 3000]%Z.
Proof. repeat split; vm_compute; reflexivity. Qed.

(** * Retry in the gap-scanning manager *)

(** A failed attempt of a part, the transfer not aborted, is followed by a
    backoff of 1000 ms times the number of the attempt while fewer than
    three retries were made; after the third retry the failure is
    surfaced. *)
Lemma Gap_failed_attempt_retried file l size t s o w st :
  heap w !! l = Some st -> Gap.isAborted st = false -> s <> Backoff ->
  Gap.uploadPartResume file l size t s o Failure w
  = if retryCount t <? 3 then
      let timer := SetTimeout (1000 * (Z.of_nat (retryCount t) + 1)) in
      (Return (mkTask (partNumber t) (retryCount t) (Pending Backoff timer)),
       logEntry (Issue timer) w)
    else
      (Return (mkTask (partNumber t) (retryCount t) (Rejected (OpFailed o))),
       w).
Proof.
  intros Hl Ha Hs.
  destruct s; [| | | contradiction];
    unfold Gap.uploadPartResume, Gap.uploadPartCatch, bind, read;
    rewrite (lookup_total_correct _ _ _ Hl), Ha;
    destruct (retryCount t <? 3); reflexivity.
Qed.

(** When the backoff timer fires, the part is tried again, with one retry
    more on its count. *)
Lemma Gap_timer_fired file l size t o r :
  Gap.uploadPartResume file l size t Backoff o r
  = Gap.uploadPart file l (partNumber t) size (retryCount t + 1).
Proof. destruct r; reflexivity. Qed.

(** An accepted attempt, the first or a later one, adds the part to the
    stored parts once. *)
Lemma Gap_accepted_part_recorded file l size t o etag w st :
  heap w !! l = Some st -> etag <> "" ->
  exists w1,
    Gap.uploadPartResume file l size t Sending o (WithId etag) w
    = (Return (mkTask (partNumber t) (retryCount t) Resolved), w1) /\
    Gap.uploadedParts <$> heap w1 !! l
    = Some (sortParts (Gap.uploadedParts st ++ [mkPart (partNumber t) etag])).
Proof.
  intros Hl He. unfold Gap.uploadPartResume.
  destruct (String.eqb_spec etag ""); [contradiction |].
  unfold bind, read, write, modify, update, onProgress, record, ret.
  rewrite (lookup_total_correct _ _ _ Hl).
  eexists. split; [reflexivity |].
  cbn [heap logEntry]. rewrite lookup_alter_eq, Hl. reflexivity.
Qed.

(** * Termination: the fuel suffices *)

Lemma totalSteps_insert steps tasks i t t' :
  tasks !! i = Some t ->
  totalSteps steps (<[i := t']> tasks) + steps t
  = totalSteps steps tasks + steps t'.
Proof.
  unfold totalSteps. revert i.
  induction tasks as [| t0 tasks IH]; intros i Hi; [discriminate |].
  destruct i as [| i]; simpl in *.
  - inversion Hi; subst. lia.
  - specialize (IH i Hi). lia.
Qed.

Lemma rejection_sane tasks :
  Forall sane tasks -> rejection tasks <> Some OutOfFuel.
Proof.
  induction 1 as [| t tasks Ht _ IH]; simpl; [discriminate |].
  unfold sane in Ht. destruct (promise t); try exact IH.
  intros E. inversion E; subst. apply Ht. reflexivity.
Qed.

Section Fuel.
Context {St : Type} (env : Env) (runCall : Call -> World St -> World St).
Variable resume : PartTask -> Stage -> Op -> Reply -> M St PartTask.
Variable steps : PartTask -> nat.
Variable good : PartTask -> Prop.

Hypothesis good_sane : forall t, good t -> sane t.
Hypothesis resume_descends : forall t s o r w,
  good t ->
  promise t = Pending s o ->
  exists t' w1,
    resume t s o r w = (Return t', w1) /\ steps t' < steps t /\ good t'.

Lemma promiseAll_fuel_suffices fuel :
  forall tasks w,
    totalSteps steps tasks <= fuel ->
    Forall good tasks ->
    (promiseAll env runCall resume fuel tasks w).1 <> Throw OutOfFuel.
Proof.
  induction fuel as [| fuel IH]; intros tasks w Hfuel Hgood;
    pose proof (Forall_impl _ _ _ Hgood good_sane) as Hsane;
    cbn [promiseAll].
  - destruct (rejection tasks) as [e |] eqn:Hrej.
    { cbn. intros E. inversion E; subst.
      eapply rejection_sane; eauto. }
    destruct (pendingFrom 0 tasks) as [| [[[i t] s] o] others] eqn:Hpend;
      [cbn; discriminate |].
    exfalso.
    destruct (pendingFrom_In 0 tasks i t s o) as (j & -> & Hj & Hp).
    { rewrite Hpend. left. reflexivity. }
    destruct (resume_descends t s o Failure w
                (proj1 (Forall_lookup _ _) Hgood j t Hj) Hp)
      as (t' & w1 & _ & Hlt & _).
    pose proof (totalSteps_insert steps tasks j t t Hj) as Hins.
    assert (steps t <= totalSteps steps tasks).
    { clear -Hj. unfold totalSteps. revert j Hj.
      induction tasks as [| t0 tasks IH]; intros j Hj; [discriminate |].
      destruct j; simpl in *.
      - inversion Hj; subst. lia.
      - specialize (IH j Hj). lia. }
    lia.
  - destruct (rejection tasks) as [e |] eqn:Hrej.
    { cbn. intros E. inversion E; subst.
      eapply rejection_sane; eauto. }
    destruct (pendingFrom 0 tasks) as [| first others] eqn:Hpend;
      [cbn; discriminate |].
    unfold bind at 1.
    destruct (intrusions env runCall w) as [[[] | e] wa] eqn:Ei;
      [| unfold intrusions in Ei; discriminate].
    unfold bind at 1, getWorld at 1.
    assert (In (nth (pick env (log wa) mod S (List.length others))
                  (first :: others) first) (pendingFrom 0 tasks)) as Hin.
    { rewrite Hpend. apply nth_In. cbn [List.length].
      apply Nat.mod_upper_bound. lia. }
    destruct (nth (pick env (log wa) mod S (List.length others))
                (first :: others) first) as [[[i t] s] o].
    destruct (pendingFrom_In 0 tasks i t s o Hin) as (j & -> & Hj & Hp).
    cbn [Nat.add].
    unfold bind at 1, settle at 1.
    destruct (resume_descends t s o (reply env (log wa) o)
                (logEntry (Settle o (reply env (log wa) o)) wa)
                (proj1 (Forall_lookup _ _) Hgood j t Hj) Hp)
      as (t' & wc & Es & Hlt & Hs).
    unfold bind at 1. rewrite Es.
    apply IH.
    + pose proof (totalSteps_insert steps tasks j t t' Hj). lia.
    + apply Forall_insert; assumption.
Qed.
End Fuel.

Lemma Gap_uploadPartCatch_result l n rc e w :
  e <> OutOfFuel ->
  exists t',
    Gap.uploadPartCatch l n rc e w
    = (Return t',
       match promise t' with
       | Pending _ o => logEntry (Issue o) w
       | _ => w
       end) /\
    partNumber t' = n /\ retryCount t' = rc /\
    gapSteps t' <= 4 * (3 - rc) /\ sane t' /\
    (promise t' = Rejected e \/
     rc < 3 /\ Gap.isAborted (heap w !!! l) = false /\
     promise t'
     = Pending Backoff (SetTimeout (1000 * (Z.of_nat rc + 1)))).
Proof.
  intros He. unfold Gap.uploadPartCatch, bind, read.
  destruct (rc <? 3) eqn:Hrc; cbn [andb].
  - apply Nat.ltb_lt in Hrc.
    destruct (Gap.isAborted (heap w !!! l)) eqn:Ha; cbn [negb].
    + eexists (mkTask n rc (Rejected e)). cbn.
      repeat split; try lia; [intros E; inversion E; contradiction | auto].
    + eexists (mkTask n rc (Pending Backoff _)). unfold issue, record, ret.
      cbn. repeat split; try lia; [discriminate | right; auto].
  - eexists (mkTask n rc (Rejected e)). cbn.
    repeat split; try lia; [intros E; inversion E; contradiction | auto].
Qed.

Lemma Gap_uploadPart_result file l n size rc w :
  exists t',
    Gap.uploadPart file l n size rc w
    = (Return t',
       match promise t' with
       | Pending _ o => logEntry (Issue o) w
       | _ => w
       end) /\
    partNumber t' = n /\ retryCount t' = rc /\
    gapSteps t' <= 3 + 4 * (3 - rc) /\ sane t' /\
    (promise t' = Resolved /\ Gap.isAborted (heap w !!! l) = true \/
     Gap.isAborted (heap w !!! l) = false /\
     promise t' = Pending Seeking (FileSeek file (partOffset n))).
Proof.
  unfold Gap.uploadPart, bind, read.
  destruct (Gap.isAborted (heap w !!! l)) eqn:Ha.
  - eexists (mkTask n rc Resolved). cbn.
    repeat split; try lia; [discriminate | auto].
  - eexists (mkTask n rc (Pending Seeking _)). unfold issue, record, ret.
    cbn. repeat split; try lia; [discriminate | auto].
Qed.

Lemma Gap_uploadPartResume_descends file l size t s o r w :
  promise t = Pending s o ->
  exists t' w1,
    Gap.uploadPartResume file l size t s o r w = (Return t', w1) /\
    gapSteps t' < gapSteps t /\ sane t'.
Proof.
  intros Hp. unfold gapSteps at 2. rewrite Hp.
  unfold Gap.uploadPartResume.
  assert (forall e, e <> OutOfFuel ->
            exists t' w1,
              Gap.uploadPartCatch l (partNumber t) (retryCount t) e w
              = (Return t', w1) /\
              gapSteps t' <= 4 * (3 - retryCount t) /\ sane t') as Hcatch.
  { intros e He.
    destruct (Gap_uploadPartCatch_result l (partNumber t) (retryCount t) e w He)
      as (t' & E & _ & _ & Hs & Hsane & _).
    eauto. }
  destruct s.
  - destruct r;
      [ destruct (Hcatch (OpFailed o)) as (t' & w1 & E & Hs & Hsane);
        [discriminate |]; exists t', w1; rewrite E; repeat split; auto; lia
      | .. ];
      (unfold bind, issue, record, ret; eexists _, _;
       split; [reflexivity |]; cbn; split; [lia | discriminate]).
  - destruct r;
      [ destruct (Hcatch (OpFailed o)) as (t' & w1 & E & Hs & Hsane);
        [discriminate |]; exists t', w1; rewrite E; repeat split; auto; lia
      | .. ];
      (unfold bind, read, issue, record, ret; eexists _, _;
       split; [reflexivity |]; cbn; split; [lia | discriminate]).
  - destruct r;
      try (destruct (Hcatch (PartFailed (partNumber t)))
             as (t' & w1 & E & Hs & Hsane);
           [discriminate |]; exists t', w1; rewrite E;
           repeat split; auto; lia).
    + destruct (Hcatch (OpFailed o)) as (t' & w1 & E & Hs & Hsane);
        [discriminate |]. exists t', w1. rewrite E. repeat split; auto. lia.
    + destruct (String.eqb id "").
      * destruct (Hcatch (PartFailed (partNumber t)))
          as (t' & w1 & E & Hs & Hsane); [discriminate |].
        exists t', w1. rewrite E. repeat split; auto. lia.
      * unfold bind, read, write, modify, update, onProgress, record, ret.
        eexists _, _. split; [reflexivity |]. cbn.
        split; [lia | discriminate].
  - destruct (Gap_uploadPart_result file l (partNumber t) size
                (retryCount t + 1) w)
      as (t' & E & _ & _ & Hs & Hsane & _).
    destruct r; rewrite E; eexists _, _;
      (split; [reflexivity |]); (split; [lia | exact Hsane]).
Qed.

(** [Promise.all] over a batch of the gap-scanning manager never runs out
    of the fuel the transfer loop gives it. *)
Lemma Gap_promiseAll_terminates env file l size fuel tasks w :
  totalSteps gapSteps tasks <= fuel ->
  Forall sane tasks ->
  (promiseAll env (Gap.runCall env) (Gap.uploadPartResume file l size)
     fuel tasks w).1 <> Throw OutOfFuel.
Proof.
  apply (promiseAll_fuel_suffices env (Gap.runCall env)
           (Gap.uploadPartResume file l size) gapSteps sane).
  - intros t Ht. exact Ht.
  - intros t s o r w0 _ Hp. apply Gap_uploadPartResume_descends, Hp.
Qed.

Section Advances.
Context {St : Type} `{Inhabited St} (next : St -> nat) (l : nat).

#[global] Instance advances_preorder : PreOrder (advances next l).
Proof.
  split.
  - intros w st Hl. exists st. split; [exact Hl | lia].
  - intros w1 w2 w3 H1 H2 st Hl.
    destruct (H1 st Hl) as (st2 & Hl2 & Hle2).
    destruct (H2 st2 Hl2) as (st3 & Hl3 & Hle3).
    exists st3. split; [exact Hl3 | lia].
Qed.

Lemma advances_same_heap (w w1 : World St) :
  heap w1 = heap w -> advances next l w w1.
Proof. intros E st Hl. exists st. rewrite E. split; [exact Hl | lia]. Qed.

Lemma advances_modify l' (f : St -> St) :
  (forall st, next st <= next (f st)) ->
  preserves (advances next l) (modify l' f).
Proof.
  intros Hf w st Hl. unfold modify, update. cbn [snd heap].
  destruct (decide (l' = l)) as [-> | Hne].
  - exists (f st). rewrite lookup_alter_eq, Hl. split; [reflexivity | apply Hf].
  - exists st. rewrite lookup_alter_ne by exact Hne. split; [exact Hl | lia].
Qed.
End Advances.

(** Steps that leave the heap alone. *)
Ltac same_heap :=
  try (intros ?; apply advances_same_heap; reflexivity).

Lemma Gap_runCall_advances env l c w :
  advances Gap.nextPartNumber l w (Gap.runCall env c w).
Proof.
  destruct c as [b k | b k]; simpl.
  - revert w.
    change (preserves (advances Gap.nextPartNumber l) (Gap.pauseUpload b k)).
    unfold Gap.pauseUpload.
    pres (advances Gap.nextPartNumber l); same_heap.
    apply advances_modify. intros st. reflexivity.
  - revert w.
    change (preserves (advances Gap.nextPartNumber l)
              (Gap.abortUploadWith (awaitAlone env) b k)).
    unfold Gap.abortUploadWith, awaitAlone.
    pres (advances Gap.nextPartNumber l); same_heap;
      apply advances_modify; intros st; reflexivity.
Qed.

Lemma Gap_uploadPartResume_advances file l size t s o r :
  preserves (advances Gap.nextPartNumber l)
    (Gap.uploadPartResume file l size t s o r).
Proof.
  unfold Gap.uploadPartResume, Gap.uploadPartCatch, Gap.uploadPart.
  destruct s, r;
    try (pres (advances Gap.nextPartNumber l); same_heap; fail).
  destruct (String.eqb id "");
    [pres (advances Gap.nextPartNumber l); same_heap; fail |].
  intros w st Hl.
  unfold bind, read, write, modify, update, onProgress, record, ret.
  cbn [snd heap logEntry].
  rewrite lookup_alter_eq, Hl, (lookup_total_correct _ _ _ Hl).
  eexists. split; [reflexivity | cbn; lia].
Qed.

Lemma Gap_promiseAll_advances env file l size fuel tasks :
  preserves (advances Gap.nextPartNumber l)
    (promiseAll env (Gap.runCall env) (Gap.uploadPartResume file l size)
       fuel tasks).
Proof.
  apply (preserves_promiseAll env (Gap.runCall env)
           (advances Gap.nextPartNumber l)).
  - intros c w. apply Gap_runCall_advances.
  - intros c w. apply advances_same_heap. reflexivity.
  - intros t s o r. apply Gap_uploadPartResume_advances.
  - intros o r w. apply advances_same_heap. reflexivity.
Qed.

Lemma Gap_startBatch_result file l size : forall parts w,
  exists tasks w1,
    Gap.startBatch file l size parts w = (Return tasks, w1) /\
    heap w1 = heap w /\
    Forall sane tasks /\
    totalSteps gapSteps tasks <= 16 * List.length tasks.
Proof.
  induction parts as [| n parts IH]; intros w; cbn [Gap.startBatch].
  - exists [], w. repeat split; [constructor | cbn; lia].
  - unfold bind at 1, read at 1.
    destruct (Gap.isPaused _ || Gap.isAborted _).
    + exists [], w. repeat split; [constructor | cbn; lia].
    + destruct (Gap_uploadPart_result file l n size 0 w)
        as (t & Et & _ & _ & Hs & Hsane & _).
      rewrite (bind_return _ _ _ _ _ Et). cbv beta. unfold bind at 1.
      match goal with
      | |- context [Gap.startBatch file l size parts ?w0] =>
          destruct (IH w0) as (tasks & w1 & E & Hh & Hf & Hsteps)
      end.
      rewrite E.
      exists (t :: tasks), w1. split; [reflexivity |].
      split; [rewrite Hh; destruct (promise t); reflexivity |].
      split; [constructor; assumption |].
      unfold totalSteps, list_sum in *. cbn [map fold_right List.length]. lia.
Qed.

Lemma findNextPart_bounds numbers next total n :
  Gap.findNextPart numbers next total = Some n -> next <= n <= total.
Proof.
  unfold Gap.findNextPart. intros E.
  apply List.find_some in E. destruct E as [Hin Hb].
  apply in_seq in Hin. apply andb_prop in Hb. destruct Hb as [_ Hb].
  apply Nat.leb_le in Hb. lia.
Qed.

Lemma last_Forall {A} (P : A -> Prop) (xs : list A) d :
  Forall P xs -> P d -> P (List.last xs d).
Proof.
  induction 1 as [| x xs Hx Hxs IH]; intros Hd; [exact Hd |].
  destruct xs; [exact Hx | apply IH, Hd].
Qed.

Lemma collectParts_from numbers total n :
  n <= List.last (Gap.collectParts numbers total n) n.
Proof.
  apply (last_Forall (fun x => n <= x)); [| lia].
  unfold Gap.collectParts.
  assert (forall xs acc,
            Forall (fun x => n <= x) acc -> Forall (fun x => n <= x) xs ->
            Forall (fun x => n <= x)
              (foldl (fun partsToUpload tempNext =>
                        if List.length partsToUpload <? MAX_CONCURRENT_UPLOADS
                        then
                          if Gap.has numbers tempNext then partsToUpload
                          else partsToUpload ++ [tempNext]
                        else partsToUpload) acc xs)) as Hfold.
  { induction xs as [| x xs IH]; intros acc Hacc Hxs; cbn [foldl];
      [exact Hacc |].
    inversion Hxs; subst. apply IH; [| assumption].
    destruct (_ <? _); [| exact Hacc].
    destruct (Gap.has _ _); [exact Hacc |].
    apply Forall_app. split; [exact Hacc | constructor; [assumption | constructor]]. }
  apply Hfold; [constructor; [lia | constructor] |].
  apply List.Forall_forall. intros x Hx. apply in_seq in Hx. lia.
Qed.

(** The transfer loop of the gap-scanning manager always comes to an end:
    each pass moves the cursor forward, so the passes the model allows
    are never used up. *)
Lemma Gap_transferLoop_terminates env file l total size :
  forall fuel w st,
    heap w !! l = Some st ->
    total + 1 <= Gap.nextPartNumber st + fuel ->
    (Gap.transferLoop env fuel file l total size w).1 <> Throw OutOfFuel.
Proof.
  induction fuel as [| fuel IH]; intros w st Hl Hfuel;
    cbn [Gap.transferLoop]; unfold bind at 1, read at 1;
    rewrite (lookup_total_correct _ _ _ Hl);
    (destruct (Gap.isPaused st || Gap.isAborted st); [discriminate |]);
    (destruct (Gap.findNextPart _ _ _) as [n |] eqn:En; [| discriminate]);
    apply findNextPart_bounds in En;
    pose proof (collectParts_from (PartNumber <$> Gap.uploadedParts st)
                  total n) as Hlast;
    unfold bind at 1, modify at 1, update at 1; cbv iota beta;
    unfold bind at 1, modify at 1, update at 1; cbv iota beta;
    unfold bind at 1;
    match goal with
    | |- context [Gap.startBatch file l size ?ps ?w0] =>
        destruct (Gap_startBatch_result file l size ps w0)
          as (tasks & w1 & E & Hh & Hf & Hsteps);
        assert (exists st1, heap w1 !! l = Some st1 /\
                  n + 1 <= Gap.nextPartNumber st1) as (st1 & Hl1 & Hn1)
    end.
  1, 3: rewrite Hh; cbn [heap]; rewrite !lookup_alter_eq, Hl;
        eexists; split; [reflexivity | cbn; lia].
  all: rewrite E; cbv iota beta;
    pose proof (Gap_promiseAll_terminates env file l size _ tasks w1
                  Hsteps Hf) as Hall;
    pose proof (Gap_promiseAll_advances env file l size
                  (16 * List.length tasks) tasks w1 st1 Hl1)
      as (st2 & Hl2 & Hn2);
    unfold bind at 1;
    destruct (promiseAll _ _ _ _ _ _) as [[[] | e] w2];
    cbn [fst snd] in *; [| exact Hall];
    unfold bind at 1, read at 1;
    destruct (_ =? _); [discriminate |].
  - lia.
  - apply (IH w2 st2 Hl2). lia.
Qed.

Lemma neverBacksOff_sane t : neverBacksOff t -> sane t.
Proof.
  unfold neverBacksOff, sane. intros Ht E. rewrite E in Ht. exact Ht.
Qed.

Lemma Cursor_uploadPartResume_descends file l size t s o r w :
  neverBacksOff t ->
  promise t = Pending s o ->
  exists t' w1,
    Cursor.uploadPartResume file l size t s o r w = (Return t', w1) /\
    cursorSteps t' < cursorSteps t /\ neverBacksOff t'.
Proof.
  intros Ht Hp. unfold neverBacksOff in Ht. unfold cursorSteps at 2.
  rewrite Hp in *. unfold Cursor.uploadPartResume.
  destruct s; [| | | contradiction];
    destruct r; try destruct (String.eqb id "");
    unfold bind, read, write, modify, update, issue, onProgress, record, ret;
    eexists _, _; (split; [reflexivity |]); cbn; split; (lia || exact I).
Qed.

(** [Promise.all] over a batch of the cursor-only manager never runs out
    of the fuel the transfer loop gives it. *)
Lemma Cursor_promiseAll_terminates env file l size fuel tasks w :
  totalSteps cursorSteps tasks <= fuel ->
  Forall neverBacksOff tasks ->
  (promiseAll env (Cursor.runCall env) (Cursor.uploadPartResume file l size)
     fuel tasks w).1 <> Throw OutOfFuel.
Proof.
  apply (promiseAll_fuel_suffices env (Cursor.runCall env)
           (Cursor.uploadPartResume file l size) cursorSteps neverBacksOff).
  - apply neverBacksOff_sane.
  - intros t s o r w0. apply Cursor_uploadPartResume_descends.
Qed.

Lemma Cursor_runCall_advances env l c w :
  advances Cursor.nextPartNumber l w (Cursor.runCall env c w).
Proof.
  destruct c as [b k | b k]; simpl.
  - revert w.
    change (preserves (advances Cursor.nextPartNumber l)
              (Cursor.pauseUpload b k)).
    unfold Cursor.pauseUpload.
    pres (advances Cursor.nextPartNumber l); same_heap.
    apply advances_modify. intros st. reflexivity.
  - revert w.
    change (preserves (advances Cursor.nextPartNumber l)
              (Cursor.abortUploadWith (awaitAlone env) b k)).
    unfold Cursor.abortUploadWith, awaitAlone.
    pres (advances Cursor.nextPartNumber l); same_heap.
Qed.

Lemma Cursor_uploadPartResume_advances file l size t s o r :
  preserves (advances Cursor.nextPartNumber l)
    (Cursor.uploadPartResume file l size t s o r).
Proof.
  unfold Cursor.uploadPartResume.
  destruct s, r;
    try (pres (advances Cursor.nextPartNumber l); same_heap; fail).
  destruct (String.eqb id "");
    [pres (advances Cursor.nextPartNumber l); same_heap; fail |].
  intros w st Hl.
  unfold bind, read, write, modify, update, onProgress, record, ret.
  cbn [snd heap logEntry].
  rewrite lookup_alter_eq, Hl, (lookup_total_correct _ _ _ Hl).
  eexists. split; [reflexivity | cbn; lia].
Qed.

Lemma Cursor_promiseAll_advances env file l size fuel tasks :
  preserves (advances Cursor.nextPartNumber l)
    (promiseAll env (Cursor.runCall env) (Cursor.uploadPartResume file l size)
       fuel tasks).
Proof.
  apply (preserves_promiseAll env (Cursor.runCall env)
           (advances Cursor.nextPartNumber l)).
  - intros c w. apply Cursor_runCall_advances.
  - intros c w. apply advances_same_heap. reflexivity.
  - intros t s o r. apply Cursor_uploadPartResume_advances.
  - intros o r w. apply advances_same_heap. reflexivity.
Qed.

Lemma Cursor_startBatch_result file l total size : forall n w st,
  heap w !! l = Some st ->
  exists tasks w1 st1,
    Cursor.startBatch n file l total size w = (Return tasks, w1) /\
    heap w1 !! l = Some st1 /\
    Cursor.nextPartNumber st <= Cursor.nextPartNumber st1 /\
    (1 <= n -> Cursor.nextPartNumber st <= total ->
     Cursor.nextPartNumber st + 1 <= Cursor.nextPartNumber st1) /\
    Forall neverBacksOff tasks /\
    totalSteps cursorSteps tasks <= 3 * List.length tasks.
Proof.
  induction n as [| n IH]; intros w st Hl; cbn [Cursor.startBatch].
  - exists [], w, st. repeat split; [exact Hl | lia | lia | constructor | cbn; lia].
  - unfold bind at 1, read at 1. rewrite (lookup_total_correct _ _ _ Hl).
    destruct (Nat.leb_spec (Cursor.nextPartNumber st) total) as [Hle | Hgt].
    + unfold bind at 1, modify at 1, update at 1. cbv iota beta.
      unfold bind at 1, Cursor.uploadPart at 1, bind at 1, issue at 1,
        record at 1, ret at 1.
      cbv iota beta. unfold bind at 1.
      match goal with
      | |- context [Cursor.startBatch n file l total size ?w0] =>
          destruct (IH w0 (Cursor.setNextPartNumber
                             (Cursor.nextPartNumber st + 1) st))
            as (tasks & w1 & st1 & E & Hl1 & Hn1 & _ & Hf & Hsteps)
      end.
      { cbn [heap logEntry]. rewrite lookup_alter_eq, Hl. reflexivity. }
      rewrite E. cbn [Cursor.nextPartNumber Cursor.setNextPartNumber] in Hn1.
      eexists (_ :: tasks), w1, st1. split; [reflexivity |].
      split; [exact Hl1 |]. split; [lia |]. split; [lia |].
      split; [constructor; [exact I | exact Hf] |].
      unfold totalSteps, list_sum in *. cbn [map fold_right List.length].
      cbn. lia.
    + exists [], w, st.
      repeat split; [exact Hl | lia | lia | constructor | cbn; lia].
Qed.

(** The transfer loop of the cursor-only manager always comes to an end:
    each pass moves the cursor forward, so the passes the model allows
    are never used up. *)
Lemma Cursor_transferLoop_terminates env file l total size :
  forall fuel w st,
    heap w !! l = Some st ->
    total + 1 <= Cursor.nextPartNumber st + fuel ->
    (Cursor.transferLoop env fuel file l total size w).1 <> Throw OutOfFuel.
Proof.
  induction fuel as [| fuel IH]; intros w st Hl Hfuel;
    cbn [Cursor.transferLoop]; unfold bind at 1, read at 1;
    rewrite (lookup_total_correct _ _ _ Hl);
    (destruct (Nat.leb_spec (Cursor.nextPartNumber st) total) as [Hle | Hgt];
     cbn [andb]; [| discriminate]);
    (destruct (negb (Cursor.isPaused st)); [| discriminate]);
    destruct (Cursor_startBatch_result file l total size
                MAX_CONCURRENT_UPLOADS w st Hl)
      as (tasks & w1 & st1 & E & Hl1 & _ & Hn1 & Hf & Hsteps);
    rewrite (bind_return _ _ _ _ _ E); cbv beta;
    pose proof (Cursor_promiseAll_terminates env file l size _ tasks w1
                  Hsteps Hf) as Hall;
    pose proof (Cursor_promiseAll_advances env file l size
                  (3 * List.length tasks) tasks w1 st1 Hl1)
      as (st2 & Hl2 & Hn2);
    unfold bind at 1;
    (destruct (promiseAll _ _ _ _ _ _) as [[[] | e] w2];
     cbn [fst snd] in *; [| exact Hall]).
  - unfold MAX_CONCURRENT_UPLOADS in Hn1. lia.
  - apply (IH w2 st2 Hl2). unfold MAX_CONCURRENT_UPLOADS in Hn1. lia.
Qed.

(** ** The calls as a whole *)

Section Finishes.
Context {St : Type} `{Inhabited St}.
Implicit Types (P : World St -> Prop).

Lemma finishes_ret {A} P (a : A) (Q : A -> World St -> Prop) :
  (forall w, P w -> Q a w) -> finishes P (ret a) Q.
Proof. intros HQ w Hw. apply HQ, Hw. Qed.

Lemma finishes_throw {A} P e (Q : A -> World St -> Prop) :
  e <> OutOfFuel -> finishes P (throw e) Q.
Proof. intros He w _. exact He. Qed.

Lemma finishes_bind {A B} (mid : A -> World St -> Prop) P
    (m : M St A) (k : A -> M St B) (Q : B -> World St -> Prop) :
  finishes P m mid -> (forall a, finishes (mid a) (k a) Q) ->
  finishes P (bind m k) Q.
Proof.
  intros Hm Hk w Hw. specialize (Hm w Hw). unfold bind.
  destruct (m w) as [[a | e] w1]; [apply Hk, Hm | exact Hm].
Qed.

Lemma finishes_tryCatch {A} P (m : M St A) (h : Error -> M St A)
    (Q : A -> World St -> Prop) :
  finishes P m Q ->
  (forall e, finishes (fun _ => e <> OutOfFuel) (h e) Q) ->
  finishes P (tryCatch m h) Q.
Proof.
  intros Hm Hh w Hw. specialize (Hm w Hw). unfold tryCatch.
  destruct (m w) as [[a | e] w1]; [exact Hm | apply Hh, Hm].
Qed.

Lemma finishes_tryFinally {A} P (m : M St A) cleanup
    (Q : A -> World St -> Prop) :
  finishes P m (fun a w => Q a (cleanup w)) ->
  finishes P (tryFinally m cleanup) Q.
Proof.
  intros Hm w Hw. specialize (Hm w Hw). unfold tryFinally.
  destruct (m w) as [[a | e] w1]; exact Hm.
Qed.

Lemma finishes_attempt {A} P (m : M St A) (Q : A -> World St -> Prop) :
  finishes P m Q -> finishes P (attempt m) (attempted Q).
Proof.
  intros Hm w Hw. specialize (Hm w Hw). unfold attempt.
  destruct (m w) as [[a | e] w1]; exact Hm.
Qed.

Lemma finishes_weaken {A} P P' (m : M St A) (Q Q' : A -> World St -> Prop) :
  (forall w, P' w -> P w) -> (forall a w, Q a w -> Q' a w) ->
  finishes P m Q -> finishes P' m Q'.
Proof.
  intros HP HQ Hm w Hw. specialize (Hm w (HP w Hw)).
  destruct (m w) as [[a | e] w1]; [apply HQ, Hm | exact Hm].
Qed.

Lemma allocated_advances (next : St -> nat) l (w w1 : World St) :
  advances next l w w1 -> allocated l w -> allocated l w1.
Proof.
  intros Hadv [st Hl]. destruct (Hadv st Hl) as (st1 & Hl1 & _).
  exists st1. exact Hl1.
Qed.

Lemma finishes_alloc P (st : St) :
  finishes P (alloc st) (fun l w => allocated l w).
Proof.
  intros w _. unfold alloc, allocated. cbn [heap].
  rewrite lookup_insert_eq. eexists. reflexivity.
Qed.

Section Awaits.
Variable env : Env.
Variable runCall : Call -> World St -> World St.
Variable next : St -> nat.
Variable l : nat.
Hypothesis call_advances : forall c w, advances next l w (runCall c w).

Lemma finishes_await o :
  finishes (allocated l) (await env runCall o) (fun _ => allocated l).
Proof.
  intros w Hw.
  pose proof (preserves_await env runCall (advances next l) call_advances
                (fun c w' => advances_same_heap next l _ _ eq_refl) o
                (fun w' => advances_same_heap next l _ _ eq_refl)
                (fun r w' => advances_same_heap next l _ _ eq_refl) w) as Hadv.
  unfold await, bind, issue, record, intrusions, settle in *.
  cbn in *. eapply allocated_advances; eauto.
Qed.

Lemma finishes_awaitOk o :
  finishes (allocated l) (awaitOk env runCall o) (fun _ => allocated l).
Proof.
  unfold awaitOk. apply (finishes_bind (fun _ => allocated l)).
  - apply finishes_await.
  - intros r. destruct r;
      first [apply finishes_throw; discriminate
            | apply finishes_ret; auto].
Qed.

(** Without an object to keep track of. *)
Lemma finishes_awaitOk_any o (Q : Reply -> World St -> Prop) :
  (forall r w, Q r w) ->
  finishes (fun _ => True) (awaitOk env runCall o) Q.
Proof.
  intros HQ w _. unfold awaitOk, bind, await, bind, issue, record,
    intrusions, settle. cbn.
  destruct (reply env _ o); cbn; first [discriminate | apply HQ].
Qed.
End Awaits.
End Finishes.

Lemma finishes_outcome {St A} (m : M St A) (Q : A -> World St -> Prop) :
  finishes (fun _ => True) m Q ->
  forall w, (m w).1 <> Throw OutOfFuel.
Proof.
  intros Hm w. specialize (Hm w I).
  destruct (m w) as [[a | e] w1]; cbn; [discriminate |].
  intros E. inversion E; subst. apply Hm. reflexivity.
Qed.

(** One structural step on a goal [finishes _ m (fun _ _ => True)]. *)
Ltac fin_step :=
  lazymatch goal with
  | |- finishes _ (bind _ _) _ =>
      apply (finishes_bind (fun _ _ => True)); [| intros ?]
  | |- finishes _ (ret _) _ => apply finishes_ret; auto
  | |- finishes _ (throw _) _ => apply finishes_throw; discriminate
  | |- finishes _ (match ?x with _ => _ end) _ => destruct x
  | |- finishes _ (let _ := _ in _) _ => cbv zeta
  | |- finishes _ (awaitOk _ _ _) _ => apply finishes_awaitOk_any; auto
  | |- finishes _ (Gap.awaitOk _ _) _ => apply finishes_awaitOk_any; auto
  | |- finishes _ (Cursor.awaitOk _ _) _ => apply finishes_awaitOk_any; auto
  end.

Ltac fin := repeat fin_step; try (intros ? ?; exact I).

Lemma finishes_rethrow {St A} p e :
  finishes (fun _ : World St => e <> OutOfFuel)
    (exec onProgress p in throw e) (fun (_ : A) _ => True).
Proof. intros w He. exact He. Qed.

Lemma finishes_statSize {St} env (runCall : Call -> World St -> World St)
    filePath :
  finishes (fun _ => True) (statSize env runCall filePath)
    (fun _ _ => True).
Proof.
  intros w _. unfold statSize, bind, await, bind, issue, record, intrusions,
    settle. cbn.
  destruct (reply env _ _); cbn; first [discriminate | exact I].
Qed.

Lemma finishes_simpleUpload {St} env (runCall : Call -> World St -> World St)
    bucket key filePath size :
  finishes (fun _ => True) (simpleUpload env runCall bucket key filePath size)
    (fun _ _ => True).
Proof.
  unfold simpleUpload.
  apply finishes_tryCatch; [fin | intros e; apply finishes_rethrow].
Qed.

(** ** The gap-scanning manager finishes *)

Lemma Gap_transferLoop_finishes env file l total size :
  finishes (allocated l) (Gap.transferLoop env (S total) file l total size)
    (fun _ _ => True).
Proof.
  intros w [st Hl].
  pose proof (Gap_transferLoop_terminates env file l total size (S total)
                w st Hl ltac:(lia)) as Hend.
  destruct (Gap.transferLoop _ _ _ _ _ _ _) as [[a | e] w1]; [exact I |].
  intros ->. apply Hend. reflexivity.
Qed.

Lemma Gap_finishUpload_finishes env k filePath l total size :
  finishes (fun _ => True) (Gap.finishUpload env k filePath l total size)
    (fun _ _ => True).
Proof. unfold Gap.finishUpload, Gap.completeMultipartUpload. fin. Qed.

Lemma Gap_multipartCatch_finishes state filePath size e :
  finishes (fun _ => e <> OutOfFuel)
    (Gap.multipartCatch state filePath size e) (fun _ _ => True).
Proof.
  intros w He. unfold Gap.multipartCatch, bind, read, ret, onProgress,
    record, throw.
  destruct state; cbn; [destruct (Gap.isAborted _) |]; cbn; auto.
Qed.

Lemma Gap_starting_finishes env bucket key filePath size rid :
  finishes (fun _ => True)
    (let* w := getWorld in
     if truthy rid
        || bool_decide (is_Some (uploadStates w !! stateKey bucket key))
     then Gap.resumeMultipartUpload env bucket key filePath size rid
     else Gap.initiateMultipartUpload env bucket key filePath size)
    (fun l w => allocated l w).
Proof.
  apply (finishes_bind (fun _ _ => True)); [intros w _; exact I |].
  intros w0. destruct (_ || _).
  - unfold Gap.resumeMultipartUpload.
    apply (finishes_bind (fun _ _ => True)); [intros w _; exact I |].
    intros w1. cbv zeta. destruct (negb _); [fin |].
    apply (finishes_bind (fun _ _ => True)); [fin |].
    intros r. apply finishes_alloc.
  - unfold Gap.initiateMultipartUpload.
    apply (finishes_bind (fun _ _ => True)); [fin |].
    intros r. destruct r; try (fin; fail).
    destruct (String.eqb _ _); [fin | apply finishes_alloc].
Qed.

(** A chunked transfer of the gap-scanning manager comes to an end,
    whatever the backend answers and whoever calls in between. *)
Lemma Gap_multipartUpload_finishes env bucket key filePath size rid :
  finishes (fun _ => True)
    (Gap.multipartUpload env bucket key filePath size rid)
    (fun _ _ => True).
Proof.
  unfold Gap.multipartUpload. cbv zeta.
  apply (finishes_bind (attempted (fun l w => allocated l w))).
  { apply finishes_attempt, Gap_starting_finishes. }
  intros [l | error]; [| apply Gap_multipartCatch_finishes].
  apply finishes_tryCatch; [| intros e; apply Gap_multipartCatch_finishes].
  apply (finishes_bind (fun _ => allocated l)).
  { intros w Hw. exact Hw. }
  intros _.
  apply (finishes_bind (fun _ => allocated l)).
  { apply (finishes_awaitOk env (Gap.runCall env) Gap.nextPartNumber l).
    intros c w. apply Gap_runCall_advances. }
  intros _. apply finishes_tryFinally.
  apply (finishes_bind (fun _ _ => True)).
  - apply Gap_transferLoop_finishes.
  - intros _.
    apply (finishes_weaken (fun _ => True) _ _ (fun _ _ => True));
      [auto | auto | apply Gap_finishUpload_finishes].
Qed.

Lemma Gap_uploadFile_terminates env bucket key filePath w :
  (Gap.uploadFile env bucket key filePath w).1 <> Throw OutOfFuel.
Proof.
  apply (finishes_outcome _ (fun _ _ => True)).
  unfold Gap.uploadFile.
  apply (finishes_bind (fun _ _ => True)); [apply finishes_statSize |].
  intros size. destruct (_ <? _)%Z.
  - apply (finishes_bind (fun _ _ => True));
      [apply finishes_simpleUpload | intros _; fin].
  - apply Gap_multipartUpload_finishes.
Qed.

Lemma Gap_resumeUpload_terminates env bucket key w :
  (Gap.resumeUpload env bucket key w).1 <> Throw OutOfFuel.
Proof.
  apply (finishes_outcome _ (fun _ _ => True)).
  unfold Gap.resumeUpload.
  apply (finishes_bind (fun _ _ => True)); [intros w0 _; exact I |].
  intros w0. destruct (_ !! _); [| fin].
  apply (finishes_bind (fun _ _ => True)); [intros w1 _; exact I |].
  intros _.
  apply (finishes_bind (fun _ _ => True)); [intros w1 _; exact I |].
  intros st. apply Gap_multipartUpload_finishes.
Qed.

(** ** The cursor-only manager finishes *)

Lemma Cursor_transferLoop_finishes env file l total size :
  finishes (allocated l) (Cursor.transferLoop env (S total) file l total size)
    (fun _ _ => True).
Proof.
  intros w [st Hl].
  pose proof (Cursor_transferLoop_terminates env file l total size (S total)
                w st Hl ltac:(lia)) as Hend.
  destruct (Cursor.transferLoop _ _ _ _ _ _ _) as [[a | e] w1]; [exact I |].
  intros ->. apply Hend. reflexivity.
Qed.

Lemma Cursor_finishUpload_finishes env k filePath l total size :
  finishes (fun _ => True) (Cursor.finishUpload env k filePath l total size)
    (fun _ _ => True).
Proof. unfold Cursor.finishUpload, Cursor.completeMultipartUpload. fin. Qed.

Lemma Cursor_starting_finishes env bucket key filePath size rid
    (w0 : Cursor.W) :
  finishes (fun _ => True)
    (if truthy rid
        || bool_decide (is_Some (uploadStates w0 !! stateKey bucket key))
     then Cursor.resumeMultipartUpload env bucket key filePath size rid
     else Cursor.initiateMultipartUpload env bucket key filePath size)
    (fun l w => allocated l w).
Proof.
  destruct (_ || _).
  - unfold Cursor.resumeMultipartUpload.
    apply (finishes_bind (fun _ _ => True)); [intros w _; exact I |].
    intros w1. cbv zeta. destruct (negb _); [fin |].
    apply (finishes_bind (fun _ _ => True)); [fin |].
    intros r. apply finishes_alloc.
  - unfold Cursor.initiateMultipartUpload.
    apply (finishes_bind (fun _ _ => True)); [fin |].
    intros r. destruct r; try (fin; fail).
    destruct (String.eqb _ _); [fin | apply finishes_alloc].
Qed.

(** A chunked transfer of the cursor-only manager comes to an end,
    whatever the backend answers and whoever calls in between. *)
Lemma Cursor_multipartUpload_finishes env bucket key filePath size rid :
  finishes (fun _ => True)
    (Cursor.multipartUpload env bucket key filePath size rid)
    (fun _ _ => True).
Proof.
  unfold Cursor.multipartUpload. cbv zeta.
  apply finishes_tryCatch;
    [| intros e; unfold Cursor.multipartCatch; apply finishes_rethrow].
  apply (finishes_bind (fun _ _ => True)); [intros w _; exact I |].
  intros w0.
  apply (finishes_bind (fun l w => allocated l w));
    [apply Cursor_starting_finishes |].
  intros l.
  apply (finishes_bind (fun _ => allocated l)).
  { intros w Hw. exact Hw. }
  intros _.
  apply (finishes_bind (fun _ => allocated l)).
  { apply (finishes_awaitOk env (Cursor.runCall env) Cursor.nextPartNumber l).
    intros c w. apply Cursor_runCall_advances. }
  intros _. apply finishes_tryFinally.
  apply (finishes_bind (fun _ _ => True)).
  - apply Cursor_transferLoop_finishes.
  - intros _.
    apply (finishes_weaken (fun _ => True) _ _ (fun _ _ => True));
      [auto | auto | apply Cursor_finishUpload_finishes].
Qed.

Lemma Cursor_uploadFile_terminates env bucket key filePath w :
  (Cursor.uploadFile env bucket key filePath w).1 <> Throw OutOfFuel.
Proof.
  apply (finishes_outcome _ (fun _ _ => True)).
  unfold Cursor.uploadFile.
  apply (finishes_bind (fun _ _ => True)); [apply finishes_statSize |].
  intros size. destruct (_ <? _)%Z.
  - apply (finishes_bind (fun _ _ => True));
      [apply finishes_simpleUpload | intros _; fin].
  - apply Cursor_multipartUpload_finishes.
Qed.

Lemma Cursor_resumeUpload_terminates env bucket key w :
  (Cursor.resumeUpload env bucket key w).1 <> Throw OutOfFuel.
Proof.
  apply (finishes_outcome _ (fun _ _ => True)).
  unfold Cursor.resumeUpload.
  apply (finishes_bind (fun _ _ => True)); [intros w0 _; exact I |].
  intros w0. destruct (_ !! _); [| fin].
  apply (finishes_bind (fun _ _ => True)); [intros w1 _; exact I |].
  intros _.
  apply (finishes_bind (fun _ _ => True)); [intros w1 _; exact I |].
  intros st. apply Cursor_multipartUpload_finishes.
Qed.

(** * Start and end events *)

Lemma noClosingEvent_call e : callEntry e -> noClosingEvent e.
Proof. destruct e; simpl; auto. contradiction. Qed.

Lemma noClosingEvent_part size p :
  partEvent size p -> noClosingEvent (Emit p).
Proof. intros (fp & n & ->). reflexivity. Qed.

Ltac no_closing :=
  first [exact noClosingEvent_call | exact I | intros; exact I].

Lemma Gap_finishUpload_noClosing env k filePath l total size w r w1 :
  Gap.finishUpload env k filePath l total size w = (r, w1) ->
  r <> Return Paused -> r <> Return Completed ->
  logged noClosingEvent w w1.
Proof.
  unfold Gap.finishUpload. unfold bind at 1, read at 1.
  destruct (Gap.isAborted _); [intros E; inversion E; reflexivity |].
  destruct (Gap.isPaused _).
  { unfold bind, onProgress, record, ret. intros E. inversion E; subst.
    intros H; contradiction H; reflexivity. }
  destruct (negb _); [intros E; inversion E; reflexivity |].
  assert (preserves (@logged Gap.UploadState noClosingEvent)
            (Gap.completeMultipartUpload env l)) as Hc.
  { unfold Gap.completeMultipartUpload, Gap.awaitOk.
    pres (@logged Gap.UploadState noClosingEvent); try pres_await;
      no_closing. }
  unfold bind at 1. specialize (Hc w).
  destruct (Gap.completeMultipartUpload env l w) as [[[] | e'] w'];
    cbn [snd] in Hc.
  - unfold bind, onProgress, record, registryDelete, update, ret.
    intros E. inversion E; subst. intros _ H; contradiction H; reflexivity.
  - intros E. inversion E; subst. intros _ _. exact Hc.
Qed.

(** A chunked call of the gap-scanning manager that returns on an abort
    has emitted nothing but the reports of the parts it stored. *)
Lemma Gap_multipartUpload_abortedQuietly env bucket key filePath size rid
    w w1 :
  Gap.multipartUpload env bucket key filePath size rid w
  = (Return Aborted, w1) ->
  logged noClosingEvent w w1.
Proof.
  assert (forall l total,
            preserves (@logged Gap.UploadState noClosingEvent)
              (Gap.transferLoop env (S total) filePath l total size))
    as Hloop.
  { intros l total. apply Gap_transferLoop_logged;
      first [ exact noClosingEvent_call | apply noClosingEvent_part
            | intros; exact I ]. }
  assert (preserves (@logged Gap.UploadState noClosingEvent)
            (Gap.awaitOk env (DenoOpen filePath))) as Hopen.
  { unfold Gap.awaitOk. pres_await; no_closing. }
  assert (forall resumes : bool,
            preserves (@logged Gap.UploadState noClosingEvent)
              (if resumes
               then Gap.resumeMultipartUpload env bucket key filePath size rid
               else Gap.initiateMultipartUpload env bucket key filePath size))
    as Hstart.
  { intros resumes.
    unfold Gap.resumeMultipartUpload, Gap.initiateMultipartUpload,
      Gap.awaitOk.
    pres (@logged Gap.UploadState noClosingEvent); try pres_await;
      no_closing. }
  unfold Gap.multipartUpload. cbv zeta. unfold bind at 1, attempt.
  unfold bind at 1, getWorld at 1.
  specialize (Hstart (truthy rid
                      || bool_decide (is_Some (uploadStates w
                                                 !! stateKey bucket key))) w).
  case_run l e0 w0; cbn [snd] in Hstart.
  2: { unfold Gap.multipartCatch, bind, ret, onProgress, record, throw.
       discriminate. }
  unfold tryCatch. unfold bind at 1, registrySet at 1, update at 1.
  unfold bind at 1.
  match goal with
  | |- context [Gap.awaitOk env _ ?w'] => set (w0' := w') in *
  end.
  assert (logged noClosingEvent w w0') as H0
    by (destruct Hstart as (n & E & F); exists n; split; assumption).
  specialize (Hopen w0').
  destruct (Gap.awaitOk env (DenoOpen filePath) w0') as [[r' | e'] w'];
    cbn [snd] in Hopen.
  2: { unfold Gap.multipartCatch, bind, read, ret.
       destruct (Gap.isAborted _).
       - intros H. inversion H; subst. etransitivity; eassumption.
       - unfold onProgress, record, throw. discriminate. }
  unfold tryFinally. unfold bind at 1.
  specialize (Hloop l (totalPartsFor size) w').
  destruct (Gap.transferLoop env _ filePath l _ size w') as [[[] | e2] w3];
    cbn [snd] in Hloop.
  2: { unfold Gap.multipartCatch, bind, read, ret. cbn [heap logEntry].
       destruct (Gap.isAborted _).
       - intros H. inversion H; subst.
         etransitivity; [exact H0 |]. etransitivity; [exact Hopen |].
         etransitivity; [exact Hloop |]. apply logged_entry. exact I.
       - unfold onProgress, record, throw. discriminate. }
  destruct (Gap.finishUpload env _ filePath l _ size w3) as [[x | e3] w4]
    eqn:Ef.
  - intros H. inversion H; subst.
    etransitivity; [exact H0 |]. etransitivity; [exact Hopen |].
    etransitivity; [exact Hloop |].
    etransitivity; [| apply logged_entry; exact I].
    eapply Gap_finishUpload_noClosing; [exact Ef | discriminate ..].
  - unfold Gap.multipartCatch, bind, read, ret. cbn [heap logEntry].
    destruct (Gap.isAborted _).
    + intros H. inversion H; subst.
      etransitivity; [exact H0 |]. etransitivity; [exact Hopen |].
      etransitivity; [exact Hloop |].
      etransitivity; [| apply logged_entry; exact I].
      eapply Gap_finishUpload_noClosing; [exact Ef | discriminate ..].
    + unfold onProgress, record, throw. discriminate.
Qed.

Lemma Gap_uploadFile_abortedQuietly env bucket key filePath w w1 :
  Gap.uploadFile env bucket key filePath w = (Return Aborted, w1) ->
  logged noClosingEvent w w1.
Proof.
  assert (preserves (@logged Gap.UploadState noClosingEvent)
            (statSize env (Gap.runCall env) filePath)) as Hstat.
  { unfold statSize. pres (@logged Gap.UploadState noClosingEvent);
      try pres_await; no_closing. }
  unfold Gap.uploadFile. unfold bind at 1. specialize (Hstat w).
  destruct (statSize env (Gap.runCall env) filePath w) as [[size | e] w0];
    cbn [snd] in Hstat; [| discriminate].
  destruct (size <? MULTIPART_THRESHOLD)%Z.
  - unfold bind, ret.
    destruct (simpleUpload env (Gap.runCall env) bucket key filePath size w0)
      as [[[] | e] w2]; discriminate.
  - intros E. etransitivity; [exact Hstat |].
    eapply Gap_multipartUpload_abortedQuietly, E.
Qed.

Lemma Cursor_finishUpload_neverAborted env k filePath l total size w w1 :
  Cursor.finishUpload env k filePath l total size w <> (Return Aborted, w1).
Proof.
  unfold Cursor.finishUpload. unfold bind at 1, read at 1.
  destruct (Cursor.isPaused _).
  { unfold bind, onProgress, record, ret. discriminate. }
  unfold bind at 1.
  destruct (Cursor.completeMultipartUpload env l w) as [[[] | e'] w'];
    [| discriminate].
  unfold bind, onProgress, record, registryDelete, update, ret. discriminate.
Qed.

(** The cursor-only manager has no exit on an abort. *)
Lemma Cursor_multipartUpload_neverAborted env bucket key filePath size rid
    w w1 :
  Cursor.multipartUpload env bucket key filePath size rid w
  <> (Return Aborted, w1).
Proof.
  unfold Cursor.multipartUpload, tryCatch.
  case_run_eq x e0 w0 E.
  - intros H. inversion H; subst. revert E.
    unfold bind at 1, getWorld at 1. unfold bind at 1.
    case_run l e1 w2; [| discriminate].
    unfold bind at 1, registrySet at 1, update at 1.
    unfold bind at 1.
    destruct (Cursor.awaitOk _ _ _) as [[r' | e'] w']; [| discriminate].
    unfold tryFinally.
    destruct ((exec Cursor.transferLoop _ _ _ _ _ _ in _) w')
      as [[x' | e2] w3] eqn:E; [| discriminate].
    intros H'. inversion H'; subst. revert E. unfold bind.
    destruct (Cursor.transferLoop _ _ _ _ _ _ w') as [[[] | e3] w4];
      [| discriminate].
    apply Cursor_finishUpload_neverAborted.
  - unfold Cursor.multipartCatch, bind, onProgress, record, throw.
    discriminate.
Qed.

Lemma Cursor_uploadFile_neverAborted env bucket key filePath w w1 :
  Cursor.uploadFile env bucket key filePath w <> (Return Aborted, w1).
Proof.
  unfold Cursor.uploadFile. unfold bind at 1.
  destruct (statSize env (Cursor.runCall env) filePath w) as [[size | e] w0];
    [| discriminate].
  destruct (size <? MULTIPART_THRESHOLD)%Z.
  - unfold bind, ret.
    destruct (simpleUpload env (Cursor.runCall env) bucket key filePath size
                w0) as [[[] | e] w2]; discriminate.
  - apply Cursor_multipartUpload_neverAborted.
Qed.

(** C4 (amended).  In both managers, for a file whose size [Deno.stat]
    reports, the call comes to an end, by returning or by throwing an error
    of the program, and: below the threshold it emits exactly two events,
    first the start event (0 bytes, 0 percent, uploading) and last the
    completed event (on success) or the failed event (on failure); at or
    above the threshold it emits no start event, every [uploading] event
    being past 0 percent, and the newest event is the completed event when
    the call completes, the failed event when it throws, a paused event
    when it stops on a pause.  A call of the gap-scanning manager that
    leaves on an abort has emitted no event of its own: no completed,
    failed or paused event, only the [uploading] events of the parts it
    stored; a call of the cursor-only manager never leaves that way. *)
Theorem start_and_end_events env bucket key filePath size
    (w : Gap.W) (v : Cursor.W) :
  (forall lg, reply env lg (DenoStat filePath) = WithSize size) ->
  (exists r new w1,
     Gap.uploadFile env bucket key filePath w = (r, w1) /\
     r <> Throw OutOfFuel /\
     log w1 = new ++ log w /\
     if (size <? MULTIPART_THRESHOLD)%Z
     then eventsOf new = simpleEvents filePath size r
     else Forall uploadingPastZero new /\
          chunkedClosing filePath size r (log w1) /\
          abortedQuietly r new) /\
  (exists r new v1,
     Cursor.uploadFile env bucket key filePath v = (r, v1) /\
     r <> Throw OutOfFuel /\
     log v1 = new ++ log v /\
     if (size <? MULTIPART_THRESHOLD)%Z
     then eventsOf new = simpleEvents filePath size r
     else Forall uploadingPastZero new /\
          chunkedClosing filePath size r (log v1) /\
          r <> Return Aborted).
Proof.
  intros Hstat. split.
  - destruct (Gap_uploadFile_events env bucket key filePath size w Hstat)
      as (r & new & w1 & E & L & Hev).
    pose proof (Gap_uploadFile_terminates env bucket key filePath w) as Hend.
    rewrite E in Hend. exists r, new, w1.
    split; [exact E |]. split; [exact Hend |]. split; [exact L |].
    destruct (size <? MULTIPART_THRESHOLD)%Z; [exact Hev |].
    destruct Hev as [Hpast Hclosing].
    split; [exact Hpast |]. split; [exact Hclosing |].
    intros Hr. subst r.
    destruct (Gap_uploadFile_abortedQuietly env bucket key filePath w w1 E)
      as (new' & L' & F).
    rewrite L in L'. apply app_inv_tail in L'. subst new'. exact F.
  - destruct (Cursor_uploadFile_events env bucket key filePath size v Hstat)
      as (r & new & v1 & E & L & Hev).
    pose proof (Cursor_uploadFile_terminates env bucket key filePath v)
      as Hend.
    rewrite E in Hend. exists r, new, v1.
    split; [exact E |]. split; [exact Hend |]. split; [exact L |].
    destruct (size <? MULTIPART_THRESHOLD)%Z; [exact Hev |].
    destruct Hev as [Hpast Hclosing].
    split; [exact Hpast |]. split; [exact Hclosing |].
    intros Hr. subst r.
    exact (Cursor_uploadFile_neverAborted env bucket key filePath v v1 E).
Qed.

Lemma start_and_end_events_witness :
  (forall lg, reply onePartEnv lg (DenoStat "f") = WithSize (5 * MiB)) /\
  (exists r new w1,
     Gap.uploadFile onePartEnv "b" "k" "f" emptyWorld = (r, w1) /\
     r <> Throw OutOfFuel /\
     log w1 = new ++ log (@emptyWorld Gap.UploadState) /\
     Forall uploadingPastZero new /\
     chunkedClosing "f" (5 * MiB) r (log w1) /\
     abortedQuietly r new).
Proof.
  assert (forall lg, reply onePartEnv lg (DenoStat "f") = WithSize (5 * MiB))
    as Hstat by reflexivity.
  split; [exact Hstat |].
  destruct (start_and_end_events onePartEnv "b" "k" "f" (5 * MiB)
              emptyWorld emptyWorld Hstat)
    as ((r & new & w1 & E & Hend & L & H) & _).
  exists r, new, w1. split; [exact E |]. split; [exact Hend |].
  split; [exact L |]. exact H.
Defined.

(** A call that leaves on an abort: [abortUpload] comes in while the only
    part task awaits its seek; the part is still stored and reported, and
    the call returns without any other event. *)
Example aborted_call_reports_only_its_part :
  (Gap.uploadFile abortingEnv "b" "k" "f" emptyWorld).1 = Return Aborted /\
  status <$> eventsOf (log (Gap.uploadFile abortingEnv "b" "k" "f"
                              emptyWorld).2)
  = [uploading].
Proof. vm_compute. split; reflexivity. Qed.

(** * The plan of parts *)

Lemma totalPartsFor_spec size :
  (0 < size)%Z ->
  ((Z.of_nat (totalPartsFor size) - 1) * PART_SIZE < size
   <= Z.of_nat (totalPartsFor size) * PART_SIZE)%Z.
Proof.
  intros Hs. unfold totalPartsFor, PART_SIZE.
  set (p := (5 * 1024 * 1024)%Z).
  assert (0 < p)%Z as Hp by (unfold p; lia).
  pose proof (Z.div_mod (size + p - 1) p ltac:(lia)) as Hdm.
  pose proof (Z.mod_pos_bound (size + p - 1) p Hp) as Hm.
  assert (0 <= (size + p - 1) / p)%Z by (apply Z.div_pos; lia).
  rewrite Z2Nat.id by assumption. nia.
Qed.

Lemma totalPartsFor_positive size : (0 < size)%Z -> 1 <= totalPartsFor size.
Proof.
  intros Hs. pose proof (totalPartsFor_spec size Hs) as [_ H].
  unfold PART_SIZE in H. lia.
Qed.

Lemma partLength_inner size n :
  (0 < size)%Z -> 1 <= n < totalPartsFor size ->
  partLength n size = PART_SIZE.
Proof.
  intros Hs Hn. pose proof (totalPartsFor_spec size Hs) as [Hlo _].
  unfold partLength, partOffset, PART_SIZE in *. nia.
Qed.

Lemma partLength_last size :
  (0 < size)%Z ->
  (partOffset (totalPartsFor size)
   + partLength (totalPartsFor size) size = size)%Z.
Proof.
  intros Hs. pose proof (totalPartsFor_spec size Hs) as [Hlo Hhi].
  unfold partLength, partOffset, PART_SIZE in *. nia.
Qed.

Lemma partLength_sum size k :
  (0 < size)%Z -> k < totalPartsFor size ->
  foldr Z.add 0%Z ((fun n => partLength n size) <$> seq 1 k)
  = (Z.of_nat k * PART_SIZE)%Z.
Proof.
  intros Hs. induction k as [| k IH]; intros Hk; [reflexivity |].
  rewrite seq_S, fmap_app, foldr_app. cbn [fmap list_fmap foldr Nat.add].
  rewrite (partLength_inner size (S k)) by lia.
  assert (forall (xs : list Z) a,
            foldr Z.add a xs = (foldr Z.add 0 xs + a)%Z) as Hshift.
  { induction xs as [| x xs IHx]; intros a; cbn [foldr]; [lia |].
    rewrite IHx. lia. }
  rewrite Hshift, IH by lia. lia.
Qed.

(** X1.  The planned parts tile a non-empty file: there is at least one,
    every one starts inside the file and has between 1 and [PART_SIZE]
    bytes, all but the last are full and each begins where the one before
    ends, the last ends at the end of the file, and together they have
    exactly the bytes of the file.  A part number past the plan has no
    bytes left. *)
Theorem planned_parts_tile_the_file size :
  (0 < size)%Z ->
  1 <= totalPartsFor size /\
  (forall n, 1 <= n <= totalPartsFor size ->
     (0 <= partOffset n < size)%Z /\
     (0 < partLength n size <= PART_SIZE)%Z /\
     (partOffset n + partLength n size <= size)%Z) /\
  (forall n, 1 <= n < totalPartsFor size ->
     partLength n size = PART_SIZE /\
     partOffset (n + 1) = (partOffset n + partLength n size)%Z) /\
  (partOffset (totalPartsFor size) + partLength (totalPartsFor size) size
   = size)%Z /\
  plannedBytes size = size /\
  (forall n, totalPartsFor size < n -> (partLength n size <= 0)%Z).
Proof.
  intros Hs. pose proof (totalPartsFor_spec size Hs) as [Hlo Hhi].
  pose proof (totalPartsFor_positive size Hs) as Hpos.
  split; [exact Hpos |]. split; [| split; [| split; [| split]]].
  - intros n Hn. unfold partLength, partOffset, PART_SIZE in *. nia.
  - intros n Hn. split; [apply partLength_inner; assumption |].
    rewrite partLength_inner by assumption.
    unfold partOffset, PART_SIZE. lia.
  - apply partLength_last, Hs.
  - unfold plannedBytes, plannedParts.
    destruct (totalPartsFor size) as [| k] eqn:Hk; [lia |].
    rewrite seq_S, fmap_app, foldr_app. cbn [fmap list_fmap foldr Nat.add].
    assert (forall (xs : list Z) a,
              foldr Z.add a xs = (foldr Z.add 0 xs + a)%Z) as Hshift.
    { induction xs as [| x xs IHx]; intros a; cbn [foldr]; [lia |].
      rewrite IHx. lia. }
    rewrite Hshift, partLength_sum by (assumption || lia).
    pose proof (partLength_last size Hs) as Hlast. rewrite Hk in Hlast.
    unfold partOffset in Hlast. lia.
  - intros n Hn. unfold partLength, partOffset, PART_SIZE in *. nia.
Qed.

Lemma planned_parts_tile_the_file_witness :
  (0 < 12 * MiB)%Z /\
  totalPartsFor (12 * MiB) = 3 /\
  partLength 3 (12 * MiB) = (2 * MiB)%Z /\
  plannedBytes (12 * MiB) = (12 * MiB)%Z.
Proof.
  assert (0 < 12 * MiB)%Z as Hs by (unfold MiB; lia).
  split; [exact Hs |]. split; [reflexivity |]. split; [reflexivity |].
  apply (planned_parts_tile_the_file (12 * MiB) Hs).
Defined.

(** * Planning a batch in the gap-scanning manager *)

Lemma has_true numbers i : Gap.has numbers i = true <-> i ∈ numbers.
Proof. unfold Gap.has. apply bool_decide_eq_true. Qed.

Lemma has_false numbers i : Gap.has numbers i = false <-> i ∉ numbers.
Proof. unfold Gap.has. apply bool_decide_eq_false. Qed.

Lemma find_first {A} (f : A -> bool) (xs : list A) x :
  List.find f xs = Some x ->
  exists before after,
    xs = before ++ x :: after /\ f x = true /\
    Forall (fun y => f y = false) before.
Proof.
  induction xs as [| a xs IH]; intros E; [discriminate |].
  cbn [List.find] in E. destruct (f a) eqn:Ha.
  - inversion E; subst. exists [], xs. repeat split; [exact Ha | constructor].
  - destruct (IH E) as (before & after & -> & Hx & Hb).
    exists (a :: before), after. repeat split; [exact Hx |].
    constructor; assumption.
Qed.

Lemma seq_split_lt start len before x after :
  seq start len = before ++ x :: after ->
  forall y, y ∈ before -> y < x.
Proof.
  revert start before. induction len as [| len IH]; intros start before E y Hy.
  - destruct before; discriminate.
  - cbn [seq] in E. destruct before as [| b before].
    + apply elem_of_nil in Hy. contradiction.
    + inversion E; subst.
      assert (In x (seq (S b) len)) as Hx.
      { rewrite H1. apply in_or_app. right. left. reflexivity. }
      apply in_seq in Hx.
      apply elem_of_cons in Hy. destruct Hy as [-> | Hy]; [lia |].
      eapply IH; eauto.
Qed.

Lemma findNextPart_least numbers next total :
  match Gap.findNextPart numbers next total with
  | Some n =>
      missingFrom numbers next total n /\
      forall i, missingFrom numbers next total i -> n <= i
  | None => forall i, ~ missingFrom numbers next total i
  end.
Proof.
  unfold Gap.findNextPart, missingFrom.
  destruct (List.find _ _) as [n |] eqn:E.
  - destruct (find_first _ _ _ E) as (before & after & Hs & Hn & Hb).
    apply andb_prop in Hn. destruct Hn as [Hn1 Hn2].
    apply negb_true_iff, has_false in Hn1. apply Nat.leb_le in Hn2.
    assert (In n (seq 1 total)) as Hin.
    { rewrite Hs. apply in_or_app. right. left. reflexivity. }
    apply in_seq in Hin.
    split; [repeat split; (lia || assumption) |].
    intros i (Hi & Hnext & Hmiss).
    destruct (Nat.le_gt_cases n i) as [| Hlt]; [assumption | exfalso].
    assert (In i (seq 1 total)) as Hi' by (apply in_seq; lia).
    rewrite Hs in Hi'. apply in_app_or in Hi'. destruct Hi' as [Hi' | Hi'].
    + rewrite List.Forall_forall in Hb. specialize (Hb i Hi').
      apply andb_false_iff in Hb. destruct Hb as [Hb | Hb].
      * apply negb_false_iff, has_true in Hb. contradiction.
      * apply Nat.leb_gt in Hb. lia.
    + destruct Hi' as [-> | Hi']; [lia |].
      assert (n < i); [| lia].
      clear -Hs Hi'.
      apply in_split in Hi'. destruct Hi' as (a1 & a2 & ->).
      apply (seq_split_lt 1 total (before ++ n :: a1) i a2).
      * rewrite Hs, <- app_assoc. reflexivity.
      * apply elem_of_app. right. apply elem_of_cons. left. reflexivity.
  - intros i (Hi & Hnext & Hmiss).
    pose proof (List.find_none _ _ E i) as Hf.
    assert (In i (seq 1 total)) as Hi' by (apply in_seq; lia).
    specialize (Hf Hi'). apply andb_false_iff in Hf. destruct Hf as [Hf | Hf].
    + apply negb_false_iff, has_true in Hf. contradiction.
    + apply Nat.leb_gt in Hf. lia.
Qed.

(** X2.  The scan for the next part to upload finds the least planned part
    that is not stored and not before the cursor; it finds none exactly
    when every planned part from the cursor on is stored. *)
Theorem next_part_is_least_missing numbers next total :
  match Gap.findNextPart numbers next total with
  | Some n =>
      missingFrom numbers next total n /\
      forall i, missingFrom numbers next total i -> n <= i
  | None => forall i, ~ missingFrom numbers next total i
  end.
Proof. apply findNextPart_least. Qed.

Lemma collectParts_fold numbers xs : forall acc,
  List.length acc <= MAX_CONCURRENT_UPLOADS ->
  foldl (fun partsToUpload tempNext =>
           if List.length partsToUpload <? MAX_CONCURRENT_UPLOADS then
             if Gap.has numbers tempNext then partsToUpload
             else partsToUpload ++ [tempNext]
           else partsToUpload) acc xs
  = acc ++ take (MAX_CONCURRENT_UPLOADS - List.length acc)
             (List.filter (fun i => negb (Gap.has numbers i)) xs).
Proof.
  induction xs as [| x xs IH]; intros acc Hacc; cbn [foldl List.filter].
  - rewrite take_nil, app_nil_r. reflexivity.
  - destruct (Nat.ltb_spec (List.length acc) MAX_CONCURRENT_UPLOADS)
      as [Hlt | Hge].
    + destruct (Gap.has numbers x); cbn [negb]; [apply IH, Hacc |].
      rewrite IH by (rewrite length_app; cbn; lia).
      rewrite length_app. cbn [List.length].
      replace (MAX_CONCURRENT_UPLOADS - List.length acc)
        with (S (MAX_CONCURRENT_UPLOADS - (List.length acc + 1))) by lia.
      cbn [take]. rewrite <- app_assoc. reflexivity.
    + rewrite IH by exact Hacc.
      replace (MAX_CONCURRENT_UPLOADS - List.length acc) with 0 by lia.
      rewrite !take_0. reflexivity.
Qed.

Lemma missingAfter_spec numbers total from i :
  i ∈ missingAfter numbers total from <->
  from <= i <= total /\ i ∉ numbers.
Proof.
  unfold missingAfter. rewrite list_elem_of_In, filter_In, in_seq.
  rewrite negb_true_iff, has_false. split; intros [H1 H2]; split; (lia || auto).
Qed.

Lemma missingAfter_sorted numbers total from :
  StronglySorted lt (missingAfter numbers total from).
Proof.
  unfold missingAfter. generalize (total + 1 - from) as len. intros len.
  revert from. induction len as [| len IH]; intros from; cbn [seq List.filter].
  - constructor.
  - destruct (negb _); [| apply IH].
    constructor; [apply IH |].
    apply List.Forall_forall. intros x Hx. apply filter_In in Hx.
    destruct Hx as [Hx _]. apply in_seq in Hx. lia.
Qed.

Lemma StronglySorted_take {A} (R : A -> A -> Prop) k (xs : list A) :
  StronglySorted R xs -> StronglySorted R (take k xs).
Proof.
  intros Hs. revert k. induction Hs as [| x xs Hs IH Hx]; intros k.
  - rewrite take_nil. constructor.
  - destruct k; cbn [take]; [constructor |].
    constructor; [apply IH |].
    apply List.Forall_forall. intros y Hy.
    rewrite List.Forall_forall in Hx. apply Hx.
    apply list_elem_of_In. eapply subseteq_take. apply list_elem_of_In, Hy.
Qed.

Lemma collectParts_shape numbers total n :
  let batch := Gap.collectParts numbers total n in
  batch = n :: take (MAX_CONCURRENT_UPLOADS - 1)
                 (missingAfter numbers total (n + 1)) /\
  1 <= List.length batch <= MAX_CONCURRENT_UPLOADS /\
  StronglySorted lt batch /\
  (forall i, i ∈ batch -> i = n \/ (n < i <= total /\ i ∉ numbers)).
Proof.
  cbv zeta.
  assert (Gap.collectParts numbers total n
          = n :: take (MAX_CONCURRENT_UPLOADS - 1)
                   (missingAfter numbers total (n + 1))) as E.
  { unfold Gap.collectParts.
    rewrite collectParts_fold by (cbn; unfold MAX_CONCURRENT_UPLOADS; lia).
    unfold missingAfter.
    replace (total + 1 - (n + 1)) with (total - n) by lia. reflexivity. }
  rewrite E. split; [reflexivity |]. split; [| split].
  - cbn [List.length]. rewrite length_take. unfold MAX_CONCURRENT_UPLOADS. lia.
  - constructor.
    + apply StronglySorted_take, missingAfter_sorted.
    + apply List.Forall_forall. intros x Hx.
      apply list_elem_of_In in Hx. apply subseteq_take in Hx.
      apply missingAfter_spec in Hx. lia.
  - intros i Hi. apply elem_of_cons in Hi. destruct Hi as [-> | Hi]; [auto |].
    right. apply subseteq_take, missingAfter_spec in Hi.
    destruct Hi as [Hi Hm]. split; [lia | exact Hm].
Qed.

(** X3.  A batch is the part found by the scan followed by the first
    missing parts after it, as many as the concurrency bound leaves room
    for.  So it has at most [MAX_CONCURRENT_UPLOADS] parts, in ascending
    order without repetition, and every part after the first is planned
    and not stored. *)
Theorem batch_is_the_next_missing_parts numbers total n :
  let batch := Gap.collectParts numbers total n in
  batch = n :: take (MAX_CONCURRENT_UPLOADS - 1)
                 (missingAfter numbers total (n + 1)) /\
  1 <= List.length batch <= MAX_CONCURRENT_UPLOADS /\
  StronglySorted lt batch /\
  (forall i, i ∈ batch -> i = n \/ (n < i <= total /\ i ∉ numbers)).
Proof. apply collectParts_shape. Qed.

(** * The stored parts *)

Lemma insertPart_perm p l : insertPart p l ≡ₚ p :: l.
Proof.
  induction l as [| q l IH]; cbn [insertPart]; [reflexivity |].
  destruct (_ <=? _); [reflexivity |].
  rewrite IH. apply Permutation_swap.
Qed.

Lemma sortParts_perm l : sortParts l ≡ₚ l.
Proof.
  unfold sortParts. induction l as [| p l IH]; cbn [foldr]; [reflexivity |].
  rewrite insertPart_perm, IH. reflexivity.
Qed.

Lemma insertPart_ascending p l : ascending l -> ascending (insertPart p l).
Proof.
  unfold ascending. induction 1 as [| q l Hl IH Hq]; cbn [insertPart].
  - constructor; constructor.
  - destruct (Nat.leb_spec (PartNumber p) (PartNumber q)) as [Hle | Hgt].
    + constructor; [constructor; assumption |].
      constructor; [exact Hle |].
      eapply Forall_impl; [exact Hq |]. cbn. intros x Hx. lia.
    + constructor; [exact IH |].
      rewrite insertPart_perm. constructor; [lia | exact Hq].
Qed.

Lemma sortParts_ascending l : ascending (sortParts l).
Proof.
  unfold sortParts. induction l as [| p l IH]; cbn [foldr].
  - constructor.
  - apply insertPart_ascending, IH.
Qed.

Lemma alter_as_insert {A} (f : A -> A) (l : nat) (m : gmap nat A) x :
  m !! l = Some x -> alter f l m = <[l := f x]> m.
Proof.
  intros Hl. apply map_eq. intros i.
  destruct (decide (l = i)) as [<- | Hne].
  - rewrite lookup_alter_eq, lookup_insert_eq, Hl. reflexivity.
  - rewrite lookup_alter_ne, lookup_insert_ne by exact Hne. reflexivity.
Qed.

(** X4.  When the backend accepts a part, the part is added to the stored
    parts of the transfer and the stored parts are put in ascending order
    of part number, whatever their order was; nothing else of the state
    changes.  In both managers. *)
Theorem accepted_part_is_stored_in_order file l size t o etag
    (w : Gap.W) (v : Cursor.W) st sv :
  heap w !! l = Some st -> heap v !! l = Some sv -> etag <> "" ->
  (exists st1,
     heap (Gap.uploadPartResume file l size t Sending o (WithId etag) w).2
     = <[l := st1]> (heap w) /\
     gapFrame st1 = gapFrame st /\
     ascending (Gap.uploadedParts st1) /\
     Gap.uploadedParts st1
     ≡ₚ mkPart (partNumber t) etag :: Gap.uploadedParts st) /\
  (exists sv1,
     heap (Cursor.uploadPartResume file l size t Sending o (WithId etag) v).2
     = <[l := sv1]> (heap v) /\
     cursorFrame sv1 = cursorFrame sv /\
     ascending (Cursor.uploadedParts sv1) /\
     Cursor.uploadedParts sv1
     ≡ₚ mkPart (partNumber t) etag :: Cursor.uploadedParts sv).
Proof.
  intros Hw Hv He. split.
  - unfold Gap.uploadPartResume.
    destruct (String.eqb_spec etag ""); [contradiction |].
    unfold bind, read, write, modify, update, onProgress, record, ret.
    rewrite (lookup_total_correct _ _ _ Hw).
    eexists. cbn [snd heap logEntry].
    split; [apply (alter_as_insert _ _ _ _ Hw) |].
    split; [reflexivity |]. cbn [Gap.uploadedParts Gap.setUploadedParts].
    split; [apply sortParts_ascending |].
    rewrite sortParts_perm, Permutation_app_comm. reflexivity.
  - unfold Cursor.uploadPartResume.
    destruct (String.eqb_spec etag ""); [contradiction |].
    unfold bind, read, write, modify, update, onProgress, record, ret.
    rewrite (lookup_total_correct _ _ _ Hv).
    eexists. cbn [snd heap logEntry].
    split; [apply (alter_as_insert _ _ _ _ Hv) |].
    split; [reflexivity |].
    cbn [Cursor.uploadedParts Cursor.setUploadedParts].
    split; [apply sortParts_ascending |].
    rewrite sortParts_perm, Permutation_app_comm. reflexivity.
Qed.

Lemma accepted_part_is_stored_in_order_witness :
  heap gapWorld24 !! 0 = Some gapState24 /\
  exists st1,
    heap (Gap.uploadPartResume "f" 0 (25 * MiB) (mkTask 3 0 Resolved) Sending
            (UploadPart "b" "k" "upload-1" 3) (WithId "e3") gapWorld24).2
    = <[0 := st1]> (heap gapWorld24) /\
    gapFrame st1 = gapFrame gapState24 /\
    ascending (Gap.uploadedParts st1) /\
    Gap.uploadedParts st1
    ≡ₚ mkPart 3 "e3" :: Gap.uploadedParts gapState24.
Proof.
  split; [reflexivity |].
  exact (proj1 (accepted_part_is_stored_in_order "f" 0 (25 * MiB)
                  (mkTask 3 0 Resolved) (UploadPart "b" "k" "upload-1" 3) "e3"
                  gapWorld24 cursorWorld24 gapState24 cursorState24
                  eq_refl eq_refl ltac:(discriminate))).
Defined.

(** * Starting a batch *)

Lemma seeksFor_cons file n numbers :
  seeksFor file (n :: numbers)
  = seeksFor file numbers ++ [Issue (FileSeek file (partOffset n))].
Proof. reflexivity. Qed.

Lemma Gap_startBatch_shape file l size parts (w : Gap.W) st :
  heap w !! l = Some st ->
  Gap.startBatch file l size parts w
  = if Gap.isPaused st || Gap.isAborted st then (Return [], w)
    else match parts with
         | [] => (Return [], w)
         | _ =>
             (Return (startedOn file <$> parts),
              mkWorld (heap w) (uploadStates w) (seeksFor file parts ++ log w))
         end.
Proof.
  intros Hl. destruct (Gap.isPaused st || Gap.isAborted st) eqn:Hflags.
  - destruct parts; cbn [Gap.startBatch]; [reflexivity |].
    unfold bind, read. rewrite (lookup_total_correct _ _ _ Hl), Hflags.
    reflexivity.
  - assert (forall ps (w0 : Gap.W),
              heap w0 = heap w ->
              Gap.startBatch file l size ps w0
              = (Return (startedOn file <$> ps),
                 mkWorld (heap w0) (uploadStates w0)
                   (seeksFor file ps ++ log w0))) as Hgen.
    { induction ps as [| n ps IH]; intros w0 Hh; cbn [Gap.startBatch].
      - destruct w0; reflexivity.
      - apply orb_false_elim in Hflags. destruct Hflags as [Hp Ha].
        unfold bind at 1, read at 1.
        rewrite (lookup_total_correct (heap w0) l st) by (rewrite Hh; exact Hl).
        rewrite Hp, Ha. cbn [orb].
        unfold bind at 1, Gap.uploadPart, bind at 1, read at 1.
        rewrite (lookup_total_correct (heap w0) l st) by (rewrite Hh; exact Hl).
        rewrite Ha. unfold bind at 1, issue, record. cbv iota beta.
        unfold ret at 1. cbv iota beta. unfold bind at 1.
        rewrite IH by exact Hh. unfold ret.
        cbn [heap uploadStates log logEntry fmap list_fmap].
        rewrite seeksFor_cons, <- app_assoc. reflexivity. }
    destruct parts as [| n ps]; [reflexivity |]. apply Hgen. reflexivity.
Qed.

(** X5.  In the gap-scanning manager the tasks of a batch are started all
    or not at all: nothing is awaited between the flag checks of the [for]
    loop, so when the transfer is paused or aborted no task starts, and
    otherwise one task starts for every part of the batch, each with the
    seek to the offset of its part; the state is not touched. *)
Theorem batch_starts_all_or_nothing file l size parts (w : Gap.W) st :
  heap w !! l = Some st ->
  Gap.startBatch file l size parts w
  = if Gap.isPaused st || Gap.isAborted st then (Return [], w)
    else match parts with
         | [] => (Return [], w)
         | _ =>
             (Return (startedOn file <$> parts),
              mkWorld (heap w) (uploadStates w) (seeksFor file parts ++ log w))
         end.
Proof. apply Gap_startBatch_shape. Qed.

Lemma batch_starts_all_or_nothing_witness :
  Gap.startBatch "f" 0 (25 * MiB) [1; 3; 5]
    (snd (modify 0 (Gap.setPaused false) gapWorld24))
  = (Return [startedOn "f" 1; startedOn "f" 3; startedOn "f" 5],
     mkWorld (heap (snd (modify 0 (Gap.setPaused false) gapWorld24)))
       (uploadStates gapWorld24)
       [Issue (FileSeek "f" (20 * MiB)); Issue (FileSeek "f" (10 * MiB));
        Issue (FileSeek "f" 0)]).
Proof.
  exact (batch_starts_all_or_nothing "f" 0 (25 * MiB) [1; 3; 5]
           (snd (modify 0 (Gap.setPaused false) gapWorld24))
           (Gap.setPaused false gapState24) eq_refl).
Defined.

Lemma insert_over_alter {A} (f : A -> A) (l : nat) (m : gmap nat A) y :
  <[l := y]> (alter f l m) = <[l := y]> m.
Proof.
  apply map_eq. intros i. destruct (decide (l = i)) as [<- | Hne].
  - rewrite !lookup_insert_eq. reflexivity.
  - rewrite !lookup_insert_ne, lookup_alter_ne by exact Hne. reflexivity.
Qed.

Lemma Cursor_startBatch_consecutive file l total size : forall n (v : Cursor.W) st,
  heap v !! l = Some st ->
  let next := Cursor.nextPartNumber st in
  let k := Nat.min n (total + 1 - next) in
  Cursor.startBatch n file l total size v
  = (Return (startedOn file <$> seq next k),
     mkWorld (<[l := Cursor.setNextPartNumber (next + k) st]> (heap v))
       (uploadStates v) (seeksFor file (seq next k) ++ log v)).
Proof.
  assert (forall (v : Cursor.W) st,
            heap v !! l = Some st ->
            v = mkWorld
                  (<[l := Cursor.setNextPartNumber
                            (Cursor.nextPartNumber st + 0) st]> (heap v))
                  (uploadStates v) (log v)) as Hsame.
  { intros v st Hl. rewrite Nat.add_0_r.
    replace (Cursor.setNextPartNumber (Cursor.nextPartNumber st) st) with st
      by (destruct st; reflexivity).
    rewrite insert_id by exact Hl. destruct v; reflexivity. }
  induction n as [| n IH]; intros v st Hl; cbv zeta; cbn [Cursor.startBatch].
  - cbn [Nat.min seq fmap list_fmap]. unfold ret, seeksFor. cbn [rev app].
    f_equal. apply Hsame, Hl.
  - unfold bind at 1, read at 1. rewrite (lookup_total_correct _ _ _ Hl).
    destruct (Nat.leb_spec (Cursor.nextPartNumber st) total) as [Hle | Hgt].
    + unfold bind at 1, modify at 1, update at 1. cbv iota beta.
      unfold bind at 1, Cursor.uploadPart at 1, bind at 1, issue at 1,
        record at 1, ret at 1.
      cbv iota beta. unfold bind at 1.
      match goal with
      | |- context [Cursor.startBatch n file l total size ?w0] =>
          rewrite (IH w0 (Cursor.setNextPartNumber
                            (Cursor.nextPartNumber st + 1) st))
            by (cbn [heap logEntry]; rewrite lookup_alter_eq, Hl; reflexivity)
      end.
      cbv zeta. cbn [Cursor.nextPartNumber Cursor.setNextPartNumber].
      replace (Nat.min (S n) (total + 1 - Cursor.nextPartNumber st))
        with (S (Nat.min n (total + 1 - (Cursor.nextPartNumber st + 1))))
        by lia.
      unfold ret. cbn [seq fmap list_fmap heap uploadStates log logEntry].
      rewrite insert_over_alter, seeksFor_cons, <- app_assoc.
      replace (Cursor.nextPartNumber st + 1 +
               Nat.min n (total + 1 - (Cursor.nextPartNumber st + 1)))
        with (Cursor.nextPartNumber st +
              S (Nat.min n (total + 1 - (Cursor.nextPartNumber st + 1))))
        by lia.
      replace (S (Cursor.nextPartNumber st))
        with (Cursor.nextPartNumber st + 1) by lia.
      reflexivity.
    + replace (Nat.min (S n) (total + 1 - Cursor.nextPartNumber st))
        with 0 by lia.
      cbn [seq fmap list_fmap]. unfold ret, seeksFor. cbn [rev app].
      f_equal. apply Hsame, Hl.
Qed.

(** X6.  In the cursor-only manager a batch is made of the parts at the
    cursor and after it, one after the other, as many as the concurrency
    bound and the plan allow; one task starts for each, with the seek to
    the offset of its part, and the cursor moves past the batch.  Parts
    before the cursor are never started, stored or not. *)
Theorem cursor_batch_is_consecutive file l total size (v : Cursor.W) st :
  heap v !! l = Some st ->
  let next := Cursor.nextPartNumber st in
  let k := Nat.min MAX_CONCURRENT_UPLOADS (total + 1 - next) in
  Cursor.startBatch MAX_CONCURRENT_UPLOADS file l total size v
  = (Return (startedOn file <$> seq next k),
     mkWorld (<[l := Cursor.setNextPartNumber (next + k) st]> (heap v))
       (uploadStates v) (seeksFor file (seq next k) ++ log v)).
Proof. apply Cursor_startBatch_consecutive. Qed.

Lemma cursor_batch_is_consecutive_witness :
  Cursor.startBatch MAX_CONCURRENT_UPLOADS "f" 0 5 (25 * MiB)
    (snd (modify 0 (Cursor.setNextPartNumber 3) cursorWorld24))
  = (Return [startedOn "f" 3; startedOn "f" 4; startedOn "f" 5],
     mkWorld
       (<[0 := Cursor.setNextPartNumber 6
                 (Cursor.setNextPartNumber 3 cursorState24)]>
          (heap (snd (modify 0 (Cursor.setNextPartNumber 3) cursorWorld24))))
       (uploadStates cursorWorld24)
       [Issue (FileSeek "f" (20 * MiB)); Issue (FileSeek "f" (15 * MiB));
        Issue (FileSeek "f" (10 * MiB))]).
Proof.
  exact (cursor_batch_is_consecutive "f" 0 5 (25 * MiB)
           (snd (modify 0 (Cursor.setNextPartNumber 3) cursorWorld24))
           (Cursor.setNextPartNumber 3 cursorState24) eq_refl).
Defined.

(** * Specifications of runs *)

Section Hoare.
Context {St : Type}.
Implicit Types (P : World St -> Prop) (E : Error -> World St -> Prop).

Lemma hoare_ret {A} P (a : A) (Q : A -> World St -> Prop) E :
  (forall w, P w -> Q a w) -> hoare P (ret a) Q E.
Proof. intros HQ w Hw. apply HQ, Hw. Qed.

Lemma hoare_throw {A} P e (Q : A -> World St -> Prop) E :
  (forall w, P w -> E e w) -> hoare P (throw e) Q E.
Proof. intros HE w Hw. apply HE, Hw. Qed.

Lemma hoare_bind {A B} (mid : A -> World St -> Prop) P
    (m : M St A) (k : A -> M St B) (Q : B -> World St -> Prop) E :
  hoare P m mid E -> (forall a, hoare (mid a) (k a) Q E) ->
  hoare P (bind m k) Q E.
Proof.
  intros Hm Hk w Hw. specialize (Hm w Hw). unfold bind.
  destruct (m w) as [[a | e] w1]; [apply Hk, Hm | exact Hm].
Qed.

Lemma hoare_tryCatch {A} (caught : Error -> World St -> Prop) P
    (m : M St A) (h : Error -> M St A) (Q : A -> World St -> Prop) E :
  hoare P m Q caught -> (forall e, hoare (caught e) (h e) Q E) ->
  hoare P (tryCatch m h) Q E.
Proof.
  intros Hm Hh w Hw. specialize (Hm w Hw). unfold tryCatch.
  destruct (m w) as [[a | e] w1]; [exact Hm | apply Hh, Hm].
Qed.

Lemma hoare_tryFinally {A} P (m : M St A) cleanup
    (Q : A -> World St -> Prop) E :
  hoare P m (fun a w => Q a (cleanup w)) (fun e w => E e (cleanup w)) ->
  hoare P (tryFinally m cleanup) Q E.
Proof.
  intros Hm w Hw. specialize (Hm w Hw). unfold tryFinally.
  destruct (m w) as [[a | e] w1]; exact Hm.
Qed.

Lemma hoare_attempt {A} P (m : M St A) (Q : A -> World St -> Prop) E E' :
  hoare P m Q E -> hoare P (attempt m) (outcomeOf Q E) E'.
Proof.
  intros Hm w Hw. specialize (Hm w Hw). unfold attempt.
  destruct (m w) as [[a | e] w1]; exact Hm.
Qed.

Lemma hoare_weaken {A} P P' (m : M St A) (Q Q' : A -> World St -> Prop) E E' :
  (forall w, P' w -> P w) -> (forall a w, Q a w -> Q' a w) ->
  (forall e w, E e w -> E' e w) ->
  hoare P m Q E -> hoare P' m Q' E'.
Proof.
  intros HP HQ HE Hm w Hw. specialize (Hm w (HP w Hw)).
  destruct (m w) as [[a | e] w1]; [apply HQ, Hm | apply HE, Hm].
Qed.

Lemma hoare_step {A} P (m : M St A) (Q : A -> World St -> Prop) E :
  (forall w, P w -> exists a, m w = (Return a, (m w).2) /\ Q a (m w).2) ->
  hoare P m Q E.
Proof.
  intros Hm w Hw. destruct (Hm w Hw) as (a & E1 & HQ).
  rewrite E1. exact HQ.
Qed.

Lemma hoare_run {A} P (m : M St A) (Q : A -> World St -> Prop) E w :
  hoare P m Q E -> P w -> outcomeOf Q E (m w).1 (m w).2.
Proof.
  intros Hm Hw. specialize (Hm w Hw).
  destruct (m w) as [[a | e] w1]; exact Hm.
Qed.

Section Awaits.
Variable env : Env.
Variable runCall : Call -> World St -> World St.

(** An await: [waiting] holds from the issue on, through every call that
    comes in, until the settlement. *)
Lemma hoare_await (waiting : World St -> Prop) P o
    (Q : Reply -> World St -> Prop) E :
  (forall w, P w -> waiting (logEntry (Issue o) w)) ->
  (forall c w, waiting w -> waiting (runCall c (logEntry (Extern c) w))) ->
  (forall w, waiting w ->
     Q (reply env (log w) o) (logEntry (Settle o (reply env (log w) o)) w)) ->
  hoare P (await env runCall o) Q E.
Proof.
  intros Hi Hc Hs w Hw. unfold await, bind, issue, record, intrusions, settle.
  cbn [fst snd]. apply Hs.
  generalize (intrude env (log (logEntry (Issue o) w))).
  intros calls. specialize (Hi w Hw). revert Hi.
  generalize (logEntry (Issue o) w). clear w Hw.
  induction calls as [| c calls IH]; intros w Hw; cbn [foldl]; [exact Hw |].
  apply IH, Hc, Hw.
Qed.

Lemma hoare_awaitOk (waiting : World St -> Prop) P o
    (Q : Reply -> World St -> Prop) E :
  (forall w, P w -> waiting (logEntry (Issue o) w)) ->
  (forall c w, waiting w -> waiting (runCall c (logEntry (Extern c) w))) ->
  (forall w, waiting w ->
     let r := reply env (log w) o in
     match r with
     | Failure => E (OpFailed o) (logEntry (Settle o r) w)
     | _ => Q r (logEntry (Settle o r) w)
     end) ->
  hoare P (awaitOk env runCall o) Q E.
Proof.
  intros Hi Hc Hs. unfold awaitOk.
  apply (hoare_bind
           (fun r w => match r with
                       | Failure => E (OpFailed o) w
                       | _ => Q r w
                       end)).
  - apply (hoare_await waiting); [exact Hi | exact Hc |].
    intros w Hw. apply (Hs w Hw).
  - intros r. destruct r;
      first [apply hoare_throw; auto | apply hoare_ret; auto].
Qed.

(** [Promise.all]: [Inv] relates the promises of the batch to the world,
    through every call that comes in and every settlement. *)
Section PromiseAll.
Variable resume : PartTask -> Stage -> Op -> Reply -> M St PartTask.
Variable Inv : list PartTask -> World St -> Prop.

Hypothesis Inv_call : forall tasks c w,
  Inv tasks w -> Inv tasks (runCall c (logEntry (Extern c) w)).
Hypothesis Inv_step : forall tasks w j t s o,
  Inv tasks w -> tasks !! j = Some t -> promise t = Pending s o ->
  let r := reply env (log w) o in
  exists t' w1,
    resume t s o r (logEntry (Settle o r) w) = (Return t', w1) /\
    Inv (<[j := t']> tasks) w1.

Lemma promiseAll_invariant fuel : forall tasks w,
  Inv tasks w ->
  exists tasks' r w1,
    promiseAll env runCall resume fuel tasks w = (r, w1) /\
    Inv tasks' w1 /\ settledAs r tasks'.
Proof.
  assert (forall tasks, rejection tasks = None -> pendingFrom 0 tasks = [] ->
            Forall (fun t => promise t = Resolved) tasks) as Hdone.
  { intros tasks. generalize 0.
    induction tasks as [| t tasks IH]; intros i Hr Hp; [constructor |].
    cbn [rejection pendingFrom] in *.
    destruct (promise t) eqn:Ep; try discriminate.
    constructor; [exact Ep | eapply IH; eauto]. }
  induction fuel as [| fuel IH]; intros tasks w Hinv; cbn [promiseAll].
  - destruct (rejection tasks) as [e |] eqn:Hrej.
    { eexists tasks, _, _. split; [reflexivity |].
      split; [exact Hinv | right; exact Hrej]. }
    destruct (pendingFrom 0 tasks) eqn:Hpend.
    + eexists tasks, _, _. split; [reflexivity |].
      split; [exact Hinv | apply Hdone; assumption].
    + eexists tasks, _, _. split; [reflexivity |].
      split; [exact Hinv | left; reflexivity].
  - destruct (rejection tasks) as [e |] eqn:Hrej.
    { eexists tasks, _, _. split; [reflexivity |].
      split; [exact Hinv | right; exact Hrej]. }
    destruct (pendingFrom 0 tasks) as [| first others] eqn:Hpend.
    { eexists tasks, _, _. split; [reflexivity |].
      split; [exact Hinv | apply Hdone; assumption]. }
    unfold bind at 1.
    assert (Inv tasks (intrusions env runCall w).2) as Hinv'.
    { unfold intrusions. cbn [snd].
      generalize (intrude env (log w)). intros calls.
      revert w Hinv. clear -Inv_call.
      induction calls as [| c calls IHc]; intros w Hw; cbn [foldl];
        [exact Hw | apply IHc, Inv_call, Hw]. }
    destruct (intrusions env runCall w) as [[[] | e] wa] eqn:Ei;
      [| unfold intrusions in Ei; discriminate].
    cbn [snd] in Hinv'.
    unfold bind at 1, getWorld at 1.
    assert (In (nth (pick env (log wa) mod S (List.length others))
                  (first :: others) first) (pendingFrom 0 tasks)) as Hin.
    { rewrite Hpend. apply nth_In. cbn [List.length].
      apply Nat.mod_upper_bound. lia. }
    destruct (nth (pick env (log wa) mod S (List.length others))
                (first :: others) first) as [[[i t] s] o].
    destruct (pendingFrom_In 0 tasks i t s o Hin) as (j & -> & Hj & Hp).
    cbn [Nat.add].
    unfold bind at 1, settle at 1.
    destruct (Inv_step tasks wa j t s o Hinv' Hj Hp) as (t' & wc & Es & Hc).
    unfold bind at 1. rewrite Es. apply IH, Hc.
Qed.
End PromiseAll.
End Awaits.
End Hoare.

(** * The bookkeeping of a transfer *)

Lemma outstanding_le_peak lg : outstanding lg <= peak lg.
Proof. destruct lg; [reflexivity | apply Nat.le_max_l]. Qed.

Lemma omap_cons_option {A B} (f : A -> option B) x (l : list A) :
  omap f (x :: l) = option_list (f x) ++ omap f l.
Proof. simpl. destruct (f x); reflexivity. Qed.

Lemma pendingNumbers_split tasks j t t' :
  tasks !! j = Some t ->
  exists before after,
    pendingNumbers tasks
    = before ++ option_list (pendingNumber t) ++ after /\
    pendingNumbers (<[j := t']> tasks)
    = before ++ option_list (pendingNumber t') ++ after.
Proof.
  intros Hj. pose proof (lookup_lt_Some _ _ _ Hj) as Hlt.
  exists (pendingNumbers (take j tasks)), (pendingNumbers (drop (S j) tasks)).
  unfold pendingNumbers. split.
  - rewrite <- (take_drop_middle tasks j t Hj) at 1.
    rewrite omap_app, omap_cons_option. reflexivity.
  - rewrite insert_take_drop by exact Hlt.
    rewrite omap_app, omap_cons_option. reflexivity.
Qed.

Lemma sendingCount_insert tasks j t t' :
  tasks !! j = Some t ->
  sendingCount (<[j := t']> tasks) + (if sending t then 1 else 0)
  = sendingCount tasks + (if sending t' then 1 else 0).
Proof.
  intros Hj. pose proof (lookup_lt_Some _ _ _ Hj) as Hlt.
  unfold sendingCount.
  rewrite (insert_take_drop tasks j t') by exact Hlt.
  assert (List.filter sending tasks
          = List.filter sending (take j tasks)
            ++ List.filter sending [t]
            ++ List.filter sending (drop (S j) tasks)) as ->.
  { rewrite <- (take_drop_middle tasks j t Hj) at 1.
    rewrite List.filter_app. cbn [List.filter].
    destruct (sending t); reflexivity. }
  rewrite List.filter_app, !length_app.
  change (t' :: drop (S j) tasks) with ([t'] ++ drop (S j) tasks).
  rewrite List.filter_app, !length_app. cbn [List.filter].
  destruct (sending t), (sending t'); cbn [List.length]; lia.
Qed.

Lemma sendingCount_le tasks : sendingCount tasks <= List.length tasks.
Proof. apply List.filter_length_le. Qed.

Lemma sendingCount_resolved tasks :
  Forall (fun t => promise t = Resolved) tasks -> sendingCount tasks = 0.
Proof.
  unfold sendingCount. induction 1 as [| t tasks Ht _ IH]; [reflexivity |].
  simpl. replace (sending t) with false
    by (unfold sending; rewrite Ht; reflexivity).
  exact IH.
Qed.

Lemma pendingNumbers_resolved tasks :
  Forall (fun t => promise t = Resolved) tasks -> pendingNumbers tasks = [].
Proof.
  unfold pendingNumbers. induction 1 as [| t tasks Ht _ IH]; [reflexivity |].
  rewrite omap_cons_option.
  replace (pendingNumber t) with (@None nat)
    by (unfold pendingNumber; rewrite Ht; reflexivity).
  exact IH.
Qed.

Lemma pendingNumbers_same tasks j t t' :
  tasks !! j = Some t -> pendingNumber t' = pendingNumber t ->
  pendingNumbers (<[j := t']> tasks) = pendingNumbers tasks.
Proof.
  intros Hj Hp.
  destruct (pendingNumbers_split tasks j t t' Hj) as (a & b & -> & ->).
  rewrite Hp. reflexivity.
Qed.

Lemma pendingNumbers_drop tasks j t t' n :
  tasks !! j = Some t -> pendingNumber t = Some n -> pendingNumber t' = None ->
  pendingNumbers tasks ≡ₚ n :: pendingNumbers (<[j := t']> tasks).
Proof.
  intros Hj Hp Hp'.
  destruct (pendingNumbers_split tasks j t t' Hj) as (a & b & -> & ->).
  rewrite Hp, Hp'. cbn [option_list app].
  symmetry. apply Permutation_middle.
Qed.

Lemma awaitsItsOwn_settled file size ident t :
  pendingNumber t = None -> awaitsItsOwn file size ident t.
Proof.
  unfold pendingNumber, awaitsItsOwn. destruct (promise t); [discriminate | |]; auto.
Qed.

Section Transferring.
Variables (file : string) (size : Z) (total : nat) (ident : Identity).
Variables (skip : list nat) (listed : list Part).

Local Abbreviation transferring' :=
  (transferring file size total ident skip listed).
Local Abbreviation orderly' := (orderly file size total ident skip).
Local Abbreviation planned' := (plannedEntry file size total ident skip).

Lemma orderly_cons e new :
  orderly' new -> planned' e ->
  outstanding (e :: new) <= MAX_CONCURRENT_UPLOADS ->
  orderly' (e :: new).
Proof.
  intros [Hf Hp] He Ho. split; [constructor; assumption |].
  cbn [peak]. apply Nat.max_lub; assumption.
Qed.

(** An entry that is not a part upload. *)
Lemma orderly_other e new :
  orderly' new -> planned' e -> outstanding (e :: new) = outstanding new ->
  orderly' (e :: new).
Proof.
  intros Ho He E. apply orderly_cons; [assumption | assumption |].
  rewrite E. destruct Ho as [_ Hp].
  pose proof (outstanding_le_peak new). lia.
Qed.

Lemma transferring_same tasks parts next done new new' j t t' :
  transferring' tasks parts next done new ->
  tasks !! j = Some t -> pendingNumber t' = pendingNumber t ->
  awaitsItsOwn file size ident t' ->
  orderly' new' -> outstanding new' = sendingCount (<[j := t']> tasks) ->
  transferring' (<[j := t']> tasks) parts next done new'.
Proof.
  intros [] Hj Hp Ha Ho Hout.
  constructor; try assumption.
  - rewrite (pendingNumbers_same tasks j t t') by assumption. assumption.
  - rewrite (pendingNumbers_same tasks j t t') by assumption. assumption.
  - apply Forall_insert; assumption.
  - rewrite length_insert. assumption.
Qed.

Lemma transferring_drop tasks parts next done new new' j t t' n :
  transferring' tasks parts next done new ->
  tasks !! j = Some t ->
  pendingNumber t = Some n -> pendingNumber t' = None ->
  orderly' new' -> outstanding new' = sendingCount (<[j := t']> tasks) ->
  transferring' (<[j := t']> tasks) parts next done new'.
Proof.
  intros [] Hj Hp Hp' Ho Hout.
  pose proof (pendingNumbers_drop tasks j t t' n Hj Hp Hp') as Hperm.
  rewrite Hperm in parts_once0, parts_planned0.
  cbn [app] in parts_once0, parts_planned0.
  apply NoDup_cons in parts_once0. destruct parts_once0 as [_ Hnd].
  apply Forall_cons in parts_planned0. destruct parts_planned0 as [_ Hpl].
  constructor; try assumption.
  - apply Forall_insert; [assumption |].
    apply awaitsItsOwn_settled, Hp'.
  - rewrite length_insert. assumption.
Qed.

Lemma transferring_push tasks parts next done new new' j t t' n etag :
  transferring' tasks parts next done new ->
  tasks !! j = Some t ->
  pendingNumber t = Some n -> pendingNumber t' = None ->
  orderly' new' -> outstanding new' = sendingCount (<[j := t']> tasks) ->
  transferring' (<[j := t']> tasks)
    (sortParts (parts ++ [mkPart n etag])) next (n :: done) new'.
Proof.
  intros [] Hj Hp Hp' Ho Hout.
  pose proof (pendingNumbers_drop tasks j t t' n Hj Hp Hp') as Hperm.
  rewrite Hperm in parts_once0, parts_planned0.
  cbn [app] in parts_once0, parts_planned0.
  constructor; try assumption.
  - rewrite sortParts_perm, fmap_app, stored_parts0. cbn [fmap list_fmap].
    rewrite <- app_assoc. apply Permutation_app_head.
    symmetry. apply Permutation_cons_append.
  - intros _. apply sortParts_ascending.
  - rewrite <- Permutation_middle. assumption.
  - rewrite <- Permutation_middle. assumption.
  - apply Forall_insert; [assumption |].
    apply awaitsItsOwn_settled, Hp'.
  - rewrite length_insert. assumption.
Qed.

(** A batch has settled: its tasks are forgotten. *)
Lemma transferring_settled tasks parts next done new :
  transferring' tasks parts next done new ->
  Forall (fun t => promise t = Resolved) tasks ->
  transferring' [] parts next done new.
Proof.
  intros [] Hres.
  rewrite (pendingNumbers_resolved tasks Hres) in parts_once0, parts_planned0.
  rewrite (sendingCount_resolved tasks Hres) in uploads_outstanding0.
  constructor; try assumption; try (cbn; lia). constructor.
Qed.

(** The cursor moves forward. *)
Lemma transferring_advance tasks parts next next' done new :
  transferring' tasks parts next done new -> next <= next' ->
  transferring' tasks parts next' done new.
Proof.
  intros [] Hle. constructor; try assumption.
  eapply Forall_impl; [exact parts_planned0 |].
  cbn. intros n (H1 & H2 & H3). repeat split; (lia || assumption).
Qed.

(** A batch starts. *)
Lemma transferring_start parts next done new batch :
  transferring' [] parts next done new ->
  NoDup batch ->
  Forall (fun n => 1 <= n <= total /\ (n ∉ skip) /\ n < next) batch ->
  (forall n, n ∈ batch -> n ∉ done) ->
  List.length batch <= MAX_CONCURRENT_UPLOADS ->
  transferring' (startedOn file <$> batch) parts next done
    (seeksFor file batch ++ new).
Proof.
  intros [] Hnd Hpl Hfresh Hlen.
  assert (pendingNumbers (startedOn file <$> batch) = batch) as Hpn.
  { clear. induction batch as [| n batch IH]; [reflexivity |].
    cbn [fmap list_fmap]. unfold pendingNumbers in *.
    rewrite omap_cons_option. cbn. f_equal. exact IH. }
  assert (sendingCount (startedOn file <$> batch) = 0) as Hsc.
  { clear. induction batch as [| n batch IH]; [reflexivity |]. exact IH. }
  assert (outstanding (seeksFor file batch ++ new) = outstanding new) as Hout.
  { clear. unfold seeksFor. induction batch as [| n batch IH] using rev_ind;
      [reflexivity |].
    rewrite fmap_app, rev_app_distr. cbn [fmap list_fmap rev app outstanding].
    exact IH. }
  constructor; try assumption.
  - rewrite Hpn. cbn [pendingNumbers omap app] in parts_once0.
    apply NoDup_app. repeat split; [exact Hnd | | exact parts_once0].
    intros n Hn. apply Hfresh, Hn.
  - rewrite Hpn. cbn [pendingNumbers omap app] in parts_planned0.
    apply Forall_app. split; assumption.
  - apply Forall_fmap, Forall_true. intros n. reflexivity.
  - rewrite length_fmap. exact Hlen.
  - destruct history_orderly0 as [Hf Hp]. split.
    + apply Forall_app. split; [| exact Hf].
      unfold seeksFor. apply Forall_rev, Forall_fmap.
      eapply Forall_impl; [exact Hpl |].
      cbn. intros n (Hn & _). split; [reflexivity |]. exists n. auto.
    + clear -Hp. unfold seeksFor.
      induction batch as [| n batch IH] using rev_ind; [exact Hp |].
      rewrite fmap_app, rev_app_distr. cbn [fmap list_fmap rev app peak].
      apply Nat.max_lub; [| exact IH].
      cbn [outstanding].
      pose proof (outstanding_le_peak
                    (rev ((fun n => Issue (FileSeek file (partOffset n)))
                          <$> batch) ++ new)). lia.
  - rewrite Hout, Hsc. cbn [sendingCount List.filter List.length] in *.
    assumption.
Qed.
End Transferring.

(** ** Calls from outside *)

Section Keeps.
Context {St C : Type} `{Inhabited St} (core : St -> C) (l : nat).

#[global] Instance keeps_preorder : PreOrder (keeps core l).
Proof.
  split.
  - intros w st Hl. exists st. split; [exact Hl | reflexivity].
  - intros w1 w2 w3 H1 H2 st Hl.
    destruct (H1 st Hl) as (st2 & Hl2 & E2).
    destruct (H2 st2 Hl2) as (st3 & Hl3 & E3).
    exists st3. split; [exact Hl3 | congruence].
Qed.

Lemma keeps_same_heap (w w1 : World St) :
  heap w1 = heap w -> keeps core l w w1.
Proof. intros E st Hl. exists st. rewrite E. split; [exact Hl | reflexivity]. Qed.

Lemma keeps_modify l' (f : St -> St) :
  (forall st, core (f st) = core st) ->
  preserves (keeps core l) (modify l' f).
Proof.
  intros Hf w st Hl. unfold modify, update. cbn [snd heap].
  destruct (decide (l' = l)) as [-> | Hne].
  - exists (f st). rewrite lookup_alter_eq, Hl. split; [reflexivity | apply Hf].
  - exists st. rewrite lookup_alter_ne by exact Hne. split; [exact Hl | reflexivity].
Qed.
End Keeps.

Ltac keeps_heap :=
  try (intros ?; apply keeps_same_heap; reflexivity).

Lemma Gap_runCall_keeps env l c w :
  keeps gapCore l w (Gap.runCall env c w).
Proof.
  destruct c as [b k | b k]; simpl.
  - revert w. change (preserves (keeps gapCore l) (Gap.pauseUpload b k)).
    unfold Gap.pauseUpload.
    pres (keeps gapCore l); keeps_heap.
    apply keeps_modify. intros st. reflexivity.
  - revert w.
    change (preserves (keeps gapCore l)
              (Gap.abortUploadWith (awaitAlone env) b k)).
    unfold Gap.abortUploadWith, awaitAlone.
    pres (keeps gapCore l); keeps_heap;
      apply keeps_modify; intros st; reflexivity.
Qed.

Lemma Cursor_runCall_keeps env l c w :
  keeps cursorCore l w (Cursor.runCall env c w).
Proof.
  destruct c as [b k | b k]; simpl.
  - revert w. change (preserves (keeps cursorCore l) (Cursor.pauseUpload b k)).
    unfold Cursor.pauseUpload.
    pres (keeps cursorCore l); keeps_heap.
    apply keeps_modify. intros st. reflexivity.
  - revert w.
    change (preserves (keeps cursorCore l)
              (Cursor.abortUploadWith (awaitAlone env) b k)).
    unfold Cursor.abortUploadWith, awaitAlone.
    pres (keeps cursorCore l); keeps_heap.
Qed.

Lemma outstanding_calls mid new :
  Forall callEntry mid -> outstanding (mid ++ new) = outstanding new.
Proof.
  induction 1 as [| e mid He _ IH]; [reflexivity |].
  cbn [app]. destruct e as [[] | [] | | |]; cbn in He; try contradiction;
    cbn [outstanding]; exact IH.
Qed.

Lemma orderly_calls file size total ident skip mid new :
  Forall callEntry mid ->
  orderly file size total ident skip new ->
  orderly file size total ident skip (mid ++ new).
Proof.
  intros Hmid Ho. induction Hmid as [| e mid He Hmid IH]; [exact Ho |].
  cbn [app]. apply orderly_other; [exact IH | |].
  - destruct e as [[] | | | |]; cbn in He; try contradiction; exact I.
  - change (e :: mid ++ new) with ((e :: mid) ++ new).
    rewrite !outstanding_calls by (try constructor; assumption). reflexivity.
Qed.

(** ** A batch of the gap-scanning manager *)

Lemma sending_pending t s o :
  promise t = Pending s o ->
  sending t = match s with Sending => true | _ => false end /\
  pendingNumber t = Some (partNumber t).
Proof.
  intros Hp. unfold sending, pendingNumber. rewrite Hp.
  destruct s; auto.
Qed.

Section AfterSettlement.
Variables (file : string) (size : Z) (total : nat) (ident : Identity).
Variables (skip : list nat) (listed : list Part).

(** What is known when the operation that task [j] awaits has settled. *)
Lemma after_settlement tasks parts next done new j t s o r :
  transferring file size total ident skip listed tasks parts next done new ->
  tasks !! j = Some t -> promise t = Pending s o ->
  orderly file size total ident skip (Settle o r :: new) /\
  outstanding (Settle o r :: new) + (if sending t then 1 else 0)
  = sendingCount tasks /\
  (1 <= partNumber t <= total /\ partNumber t ∉ skip) /\
  awaitsItsOwn file size ident t.
Proof.
  intros T Hj Hp. destruct T.
  pose proof (proj1 (Forall_lookup _ _) tasks_await0 j t Hj) as Ha.
  destruct (sending_pending t s o Hp) as [Hs Hn].
  assert (partNumber t ∈ pendingNumbers tasks ++ done) as Hin.
  { destruct (pendingNumbers_split tasks j t t Hj) as (a & b & -> & _).
    rewrite Hn. cbn [option_list]. set_solver. }
  rewrite Forall_forall in parts_planned0.
  destruct (parts_planned0 _ Hin) as (Hr & Hk & _).
  assert (sending t = true -> 1 <= sendingCount tasks) as Hpos.
  { intros Ht.
    pose proof (sendingCount_insert tasks j t (mkTask 0 0 Resolved) Hj) as E.
    rewrite Ht in E. cbn in E. lia. }
  assert (outstanding (Settle o r :: new) + (if sending t then 1 else 0)
          = sendingCount tasks) as Hout.
  { rewrite <- uploads_outstanding0 in *. unfold awaitsItsOwn in Ha.
    rewrite Hp in Ha. rewrite Hs in *.
    destruct s; [subst o | subst o | subst o | destruct Ha as [ms ->]];
      cbn [outstanding]; try specialize (Hpos eq_refl); lia. }
  split; [| split; [exact Hout | split; [split; assumption | exact Ha]]].
  apply orderly_cons; [assumption | exact I |].
  destruct history_orderly0 as [_ Hpk].
  pose proof (sendingCount_le tasks). lia.
Qed.

(** At most one entry follows the settlement before the task awaits
    again or ends. *)
Lemma orderly_extra extra new :
  orderly file size total ident skip new ->
  Forall (plannedEntry file size total ident skip) extra ->
  List.length extra <= 1 ->
  outstanding (extra ++ new) <= MAX_CONCURRENT_UPLOADS ->
  orderly file size total ident skip (extra ++ new).
Proof.
  intros Ho Hf Hlen Hout. destruct extra as [| e [| e' extra]];
    [exact Ho | | cbn in Hlen; lia].
  inversion Hf; subst. apply orderly_cons; assumption.
Qed.
End AfterSettlement.

Section GapBatch.
Variables (env : Env) (file : string) (size : Z) (total : nat).
Variables (ident : Identity) (listed : list Part) (l : nat).
Variable lg0 : list Entry.

Local Abbreviation Inv := (gapTransfer file size total ident listed l lg0).

Lemma gapTransfer_call tasks c w :
  Inv tasks w -> Inv tasks (Gap.runCall env c (logEntry (Extern c) w)).
Proof.
  intros (st & done & new & Hl & Hlog & Hid & T).
  destruct (Gap_runCall_keeps env l c (logEntry (Extern c) w) st Hl)
    as (st1 & Hl1 & Hcore).
  destruct (Gap_runCall_logged env c (logEntry (Extern c) w))
    as (mid & Hmid & Fmid).
  inversion Hcore as [[Hb Hk Hu Hf Hs Hparts Hnext]].
  exists st1, done, (mid ++ Extern c :: new).
  split; [exact Hl1 |]. split.
  { rewrite Hmid. cbn [log logEntry]. rewrite Hlog, <- app_assoc. reflexivity. }
  split; [rewrite <- Hid; unfold gapIdentity; congruence |].
  rewrite Hparts, Hnext. destruct T. constructor; try assumption.
  - change (mid ++ Extern c :: new) with (mid ++ [Extern c] ++ new).
    rewrite app_assoc. apply orderly_calls; [| assumption].
    apply Forall_app. split; [exact Fmid | constructor; [exact I | constructor]].
  - change (mid ++ Extern c :: new) with (mid ++ [Extern c] ++ new).
    rewrite app_assoc, outstanding_calls; [assumption |].
    apply Forall_app. split; [exact Fmid | constructor; [exact I | constructor]].
Qed.
End GapBatch.

(** The settlement of the operation that task [j] awaits, the at most one
    entry [extra] that follows, and the new state [t'] of the task. *)
Section Events.
Variables (file : string) (size : Z) (total : nat) (ident : Identity).
Variables (skip : list nat) (listed : list Part).
Variables (tasks : list PartTask) (parts : list Part) (next : nat).
Variables (done : list nat) (new : list Entry) (j : nat) (t t' : PartTask).
Variables (s : Stage) (o : Op) (r : Reply) (extra : list Entry).

Hypothesis T :
  transferring file size total ident skip listed tasks parts next done new.
Hypothesis Hj : tasks !! j = Some t.
Hypothesis Hp : promise t = Pending s o.
Hypothesis extra_planned :
  Forall (plannedEntry file size total ident skip) extra.
Hypothesis extra_short : List.length extra <= 1.
Hypothesis extra_outstanding :
  outstanding (extra ++ Settle o r :: new)
  = outstanding (Settle o r :: new) + (if sending t' then 1 else 0).

Lemma event_history :
  orderly file size total ident skip (extra ++ Settle o r :: new) /\
  outstanding (extra ++ Settle o r :: new)
  = sendingCount (<[j := t']> tasks).
Proof.
  destruct (after_settlement file size total ident skip listed tasks parts
              next done new j t s o r T Hj Hp) as (Ho & Hout & _ & _).
  pose proof (sendingCount_insert tasks j t t' Hj) as Hins.
  assert (outstanding (extra ++ Settle o r :: new)
          = sendingCount (<[j := t']> tasks)) as E by lia.
  split; [| exact E].
  apply orderly_extra; try assumption.
  rewrite E. pose proof (sendingCount_le (<[j := t']> tasks)) as Hle.
  rewrite length_insert in Hle. destruct T. lia.
Qed.

Lemma event_same :
  pendingNumber t' = pendingNumber t ->
  awaitsItsOwn file size ident t' ->
  transferring file size total ident skip listed (<[j := t']> tasks) parts
    next done (extra ++ Settle o r :: new).
Proof.
  intros Hn Ha. destruct event_history as [Ho Hout].
  eapply transferring_same; eauto.
Qed.

Lemma event_drop :
  pendingNumber t' = None ->
  transferring file size total ident skip listed (<[j := t']> tasks) parts
    next done (extra ++ Settle o r :: new).
Proof.
  intros Hn. destruct event_history as [Ho Hout].
  destruct (sending_pending t s o Hp) as [_ Hpn].
  eapply transferring_drop; eauto.
Qed.

Lemma event_push etag :
  pendingNumber t' = None ->
  transferring file size total ident skip listed (<[j := t']> tasks)
    (sortParts (parts ++ [mkPart (partNumber t) etag])) next
    (partNumber t :: done) (extra ++ Settle o r :: new).
Proof.
  intros Hn. destruct event_history as [Ho Hout].
  destruct (sending_pending t s o Hp) as [_ Hpn].
  eapply transferring_push; eauto.
Qed.
End Events.

Section GapStep.
Variables (env : Env) (file : string) (size : Z) (total : nat).
Variables (ident : Identity) (listed : list Part) (l : nat).
Variable lg0 : list Entry.

Local Abbreviation Inv := (gapTransfer file size total ident listed l lg0).

Lemma gapTransfer_step tasks w j t s o :
  Inv tasks w -> tasks !! j = Some t -> promise t = Pending s o ->
  let r := reply env (log w) o in
  exists t' w1,
    Gap.uploadPartResume file l size t s o r (logEntry (Settle o r) w)
    = (Return t', w1) /\
    Inv (<[j := t']> tasks) w1.
Proof.
  intros (st & done & new & Hl & Hlog & Hid & T) Hj Hp r.
  destruct (after_settlement _ _ _ _ _ _ _ _ _ _ _ j t s o r T Hj Hp)
    as (_ & _ & (Hrange & Hskip) & Ha).
  destruct (sending_pending t s o Hp) as [Hs Hn].
  set (w' := logEntry (Settle o r) w).
  assert (heap w' !! l = Some st) as Hl' by exact Hl.
  assert (log w' = (Settle o r :: new) ++ lg0) as Hlog'
    by (cbn [log logEntry w']; rewrite Hlog; reflexivity).
  assert (forall e, e <> OutOfFuel ->
            exists t' w1,
              Gap.uploadPartCatch l (partNumber t) (retryCount t) e w'
              = (Return t', w1) /\ Inv (<[j := t']> tasks) w1) as Hcatch.
  { intros e He.
    destruct (Gap_uploadPartCatch_result l (partNumber t) (retryCount t) e w'
                He)
      as (t' & E & Hn' & _ & _ & _ & [Hrej | (_ & _ & Hback)]).
    - rewrite Hrej in E. exists t', w'. split; [exact E |].
      exists st, done, (Settle o r :: new).
      split; [exact Hl' |]. split; [exact Hlog' |]. split; [exact Hid |].
      apply (event_drop _ _ _ _ _ _ _ _ _ _ _ j t t' s o r [] T Hj Hp);
        [constructor | cbn; lia | | unfold pendingNumber; rewrite Hrej; reflexivity].
      cbn [app]. unfold sending. rewrite Hrej. lia.
    - rewrite Hback in E. eexists t', _. split; [exact E |].
      exists st, done,
        (Issue (SetTimeout (1000 * (Z.of_nat (retryCount t) + 1)))
         :: Settle o r :: new).
      split; [exact Hl' |].
      split; [cbn [log logEntry]; rewrite Hlog'; reflexivity |].
      split; [exact Hid |].
      apply (event_same _ _ _ _ _ _ _ _ _ _ _ j t t' s o r [_] T Hj Hp).
      + constructor; [exact I | constructor].
      + cbn; lia.
      + cbn [app outstanding]. unfold sending. rewrite Hback. lia.
      + rewrite Hn. unfold pendingNumber. rewrite Hback, Hn'. reflexivity.
      + unfold awaitsItsOwn. rewrite Hback. eexists. reflexivity. }
  unfold awaitsItsOwn in Ha. rewrite Hp in Ha.
  destruct s.
  - (* the seek has settled *)
    subst o. destruct r eqn:Er;
      [apply Hcatch; discriminate | ..];
      (unfold Gap.uploadPartResume, bind, issue, record, ret;
       eexists _, _; split; [reflexivity |];
       exists st, done,
         (Issue (FileRead file (partLength (partNumber t) size))
          :: Settle (FileSeek file (partOffset (partNumber t))) r :: new);
       split; [exact Hl' |];
       split; [cbn [log logEntry]; rewrite Hlog', Er; reflexivity |];
       split; [exact Hid |];
       rewrite <- Er in *;
       apply (event_same _ _ _ _ _ _ _ _ _ _ _ j t _ Seeking _ r [_] T Hj Hp);
       [ constructor; [split; [reflexivity | eexists; eauto] | constructor]
       | cbn; lia
       | cbn [app outstanding sending promise]; lia
       | rewrite Hn; reflexivity
       | reflexivity ]).
  - (* the read has settled *)
    subst o. destruct r eqn:Er;
      [apply Hcatch; discriminate | ..];
      (unfold Gap.uploadPartResume, bind, read, issue, record, ret;
       rewrite (lookup_total_correct _ _ _ Hl');
       eexists _, _; split; [reflexivity |];
       exists st, done,
         (Issue (UploadPart (Gap.bucket st) (Gap.key st) (Gap.uploadId st)
                   (partNumber t))
          :: Settle (FileRead file (partLength (partNumber t) size)) r :: new);
       split; [exact Hl' |];
       split; [cbn [log logEntry]; rewrite Hlog', Er; reflexivity |];
       split; [exact Hid |];
       rewrite <- Er in *;
       apply (event_same _ _ _ _ _ _ _ _ _ _ _ j t _ Reading _ r [_] T Hj Hp);
       [ constructor; [split; [exact Hid | auto] | constructor]
       | cbn; lia
       | cbn [app outstanding sending promise]; lia
       | rewrite Hn; reflexivity
       | unfold awaitsItsOwn; cbn [promise partNumber];
         rewrite <- Hid; reflexivity ]).
  - (* the upload has settled *)
    subst o. destruct r eqn:Er; try (apply Hcatch; discriminate).
    unfold Gap.uploadPartResume.
    destruct (String.eqb id ""); [apply Hcatch; discriminate |].
    unfold bind, read, write, modify, update, onProgress, record, ret.
    rewrite (lookup_total_correct _ _ _ Hl').
    eexists _, _. split; [reflexivity |].
    eexists _, (partNumber t :: done), (Emit _ :: Settle _ r :: new).
    cbn [heap log logEntry w']. rewrite lookup_alter_eq, Hl.
    split; [reflexivity |].
    split; [rewrite Hlog, Er; reflexivity |].
    split; [exact Hid |].
    cbn [Gap.uploadedParts Gap.nextPartNumber Gap.setUploadedParts].
    rewrite <- Er in *.
    apply (event_push _ _ _ _ _ _ _ _ _ _ _ j t _ Sending _ r [_] T Hj Hp);
      [ constructor; [exact I | constructor]
      | cbn; lia
      | cbn [app outstanding sending promise]; lia
      | reflexivity ].
  - (* the backoff timer has fired *)
    destruct (Gap_uploadPart_result file l (partNumber t) size
                (retryCount t + 1) w')
      as (t' & E & Hn' & _ & _ & _ & [(Hres & _) | (_ & Hseek)]).
    + assert (Gap.uploadPartResume file l size t Backoff o r w'
              = (Return t', w')) as E'.
      { rewrite Hres in E. destruct r; exact E. }
      exists t', w'. split; [exact E' |].
      exists st, done, (Settle o r :: new).
      split; [exact Hl' |]. split; [exact Hlog' |]. split; [exact Hid |].
      apply (event_drop _ _ _ _ _ _ _ _ _ _ _ j t t' Backoff o r [] T Hj Hp);
        [constructor | cbn; lia | | unfold pendingNumber; rewrite Hres; reflexivity].
      cbn [app]. unfold sending. rewrite Hres. lia.
    + rewrite Hseek in E.
      assert (Gap.uploadPartResume file l size t Backoff o r w'
              = (Return t',
                 logEntry (Issue (FileSeek file (partOffset (partNumber t))))
                   w')) as E'.
      { destruct r; exact E. }
      eexists t', _. split; [exact E' |].
      exists st, done,
        (Issue (FileSeek file (partOffset (partNumber t)))
         :: Settle o r :: new).
      split; [exact Hl' |].
      split; [cbn [log logEntry]; rewrite Hlog'; reflexivity |].
      split; [exact Hid |].
      apply (event_same _ _ _ _ _ _ _ _ _ _ _ j t t' Backoff o r [_] T Hj Hp).
      * constructor; [split; [reflexivity | eexists; eauto] | constructor].
      * cbn; lia.
      * cbn [app outstanding]. unfold sending. rewrite Hseek. lia.
      * rewrite Hn. unfold pendingNumber. rewrite Hseek, Hn'. reflexivity.
      * unfold awaitsItsOwn. rewrite Hseek, Hn'. reflexivity.
Qed.
End GapStep.

(** ** The transfer loop of the gap-scanning manager *)

Lemma last_of_sorted (xs : list nat) d x :
  StronglySorted lt xs -> x ∈ xs -> x <= List.last xs d.
Proof.
  intros Hs. revert x. induction Hs as [| y ys Hs IH Hy]; intros x Hx.
  - apply elem_of_nil in Hx. contradiction.
  - apply elem_of_cons in Hx. destruct ys as [| z ys].
    + destruct Hx as [-> | Hx]; [cbn; lia |].
      apply elem_of_nil in Hx. contradiction.
    + change (List.last (y :: z :: ys) d) with (List.last (z :: ys) d).
      destruct Hx as [-> | Hx]; [| apply IH, Hx].
      inversion Hy; subst.
      specialize (IH z ltac:(left)). lia.
Qed.

Lemma StronglySorted_lt_NoDup (xs : list nat) :
  StronglySorted lt xs -> NoDup xs.
Proof.
  induction 1 as [| x xs Hs IH Hx]; constructor; [| exact IH].
  intros Hin. rewrite List.Forall_forall in Hx.
  apply list_elem_of_In in Hin. specialize (Hx x Hin). lia.
Qed.

Section GapLoop.
Variables (env : Env) (file : string) (size : Z) (total : nat).
Variables (ident : Identity) (listed : list Part) (l : nat).
Variable lg0 : list Entry.

Local Abbreviation Inv := (gapTransfer file size total ident listed l lg0).

Lemma Gap_promiseAll_transfer fuel tasks w :
  Inv tasks w ->
  exists tasks' r w1,
    promiseAll env (Gap.runCall env) (Gap.uploadPartResume file l size)
      fuel tasks w = (r, w1) /\
    Inv tasks' w1 /\ settledAs r tasks'.
Proof.
  apply (promiseAll_invariant env (Gap.runCall env)
           (Gap.uploadPartResume file l size) Inv).
  - intros ts c w0. apply gapTransfer_call.
  - intros ts w0 j t s o. apply gapTransfer_step.
Qed.

(** Planning and starting a batch. *)
Lemma Gap_batch_starts (w : Gap.W) st n :
  Inv [] w -> heap w !! l = Some st ->
  Gap.isPaused st || Gap.isAborted st = false ->
  Gap.findNextPart (PartNumber <$> Gap.uploadedParts st)
    (Gap.nextPartNumber st) total = Some n ->
  let batch :=
    Gap.collectParts (PartNumber <$> Gap.uploadedParts st) total n in
  let next := List.last batch n + 1 in
  Inv (startedOn file <$> batch)
    (mkWorld (alter (Gap.setNextPartNumber next) l
                (alter (Gap.setNextPartNumber (n + 1)) l (heap w)))
       (uploadStates w) (seeksFor file batch ++ log w)).
Proof.
  intros (st' & done & new & Hl' & Hlog & Hid & T) Hl Hflags En batch next.
  rewrite Hl in Hl'. inversion Hl'; subst st'. clear Hl'.
  pose proof (findNextPart_least (PartNumber <$> Gap.uploadedParts st)
                (Gap.nextPartNumber st) total) as Hleast.
  rewrite En in Hleast. destruct Hleast as [(Hn & Hnext & Hmiss) _].
  destruct (collectParts_shape (PartNumber <$> Gap.uploadedParts st) total n)
    as (Hshape & Hlen & Hsorted & Hmem).
  fold batch in Hshape, Hlen, Hsorted, Hmem.
  assert (forall x, x ∈ batch -> n <= x <= List.last batch n) as Hbounds.
  { intros x Hx. split; [| apply last_of_sorted; assumption].
    destruct (Hmem x Hx) as [-> | [Hx' _]]; lia. }
  assert (n ∈ batch) as Hnb by (rewrite Hshape; left).
  pose proof (Hbounds n Hnb) as Hnlast.
  exists (Gap.setNextPartNumber next (Gap.setNextPartNumber (n + 1) st)),
    done, (seeksFor file batch ++ new).
  cbn [heap log]. rewrite !lookup_alter_eq, Hl.
  split; [reflexivity |].
  split; [rewrite Hlog, app_assoc; reflexivity |].
  split; [exact Hid |].
  cbn [Gap.uploadedParts Gap.nextPartNumber Gap.setNextPartNumber].
  assert (Gap.nextPartNumber st <= next) as Hadv by (unfold next; lia).
  pose proof T as T0. destruct T0.
  cbn [pendingNumbers omap app] in parts_planned0.
  apply transferring_start.
  - apply (transferring_advance _ _ _ _ _ _ _ _ _ _ _ _ T Hadv).
  - apply StronglySorted_lt_NoDup, Hsorted.
  - apply Forall_forall. intros x Hx.
    destruct (Hbounds x Hx) as [Hx1 Hx2].
    assert ((x ∉ PartNumber <$> Gap.uploadedParts st) /\ x <= total)
      as [Hxm Hxt].
    { destruct (Hmem x Hx) as [-> | [Hx' Hx'']]; [split; [exact Hmiss | lia] |].
      split; [exact Hx'' | lia]. }
    split; [lia |]. split; [| unfold next; lia].
    intros Hin. apply Hxm. rewrite stored_parts0.
    apply elem_of_app. left. exact Hin.
  - intros x Hx Hin. destruct (Hbounds x Hx) as [Hx1 _].
    rewrite Forall_forall in parts_planned0.
    destruct (parts_planned0 x Hin) as (_ & _ & Hlt). lia.
  - lia.
Qed.

Lemma Gap_transferLoop_transfer fuel :
  hoare (Inv []) (Gap.transferLoop env fuel file l total size)
    (fun _ => Inv []) (fun _ w => exists tasks, Inv tasks w).
Proof.
  induction fuel as [| fuel IH]; intros w Hinv.
  all: pose proof Hinv as (st & done & new & Hl & Hlog & Hid & T).
  all: cbn [Gap.transferLoop]; unfold bind at 1, read at 1.
  all: rewrite (lookup_total_correct _ _ _ Hl).
  all: destruct (Gap.isPaused st || Gap.isAborted st) eqn:Hflags;
    [exact Hinv |].
  all: destruct (Gap.findNextPart _ _ _) as [n |] eqn:En; [| exact Hinv].
  all: pose proof (Gap_batch_starts w st n Hinv Hl Hflags En) as Hstart.
  all: cbv zeta in Hstart.
  all: unfold bind at 1, modify at 1, update at 1; cbv iota beta.
  all: unfold bind at 1, modify at 1, update at 1; cbv iota beta.
  all: unfold bind at 1.
  all: erewrite Gap_startBatch_shape
    by (cbn [heap]; rewrite !lookup_alter_eq, Hl; reflexivity).
  all: cbn [Gap.isPaused Gap.isAborted Gap.setNextPartNumber].
  all: rewrite Hflags.
  all: destruct (Gap.collectParts _ _ _) as [| b batch] eqn:Eb;
    [destruct (collectParts_shape (PartNumber <$> Gap.uploadedParts st)
                 total n) as (Hshape & _); rewrite Eb in Hshape;
     discriminate |].
  all: cbn [heap uploadStates log] in *.
  all: unfold bind at 1.
  all: match goal with
       | |- context [promiseAll ?e ?rc ?res ?f ?ts ?w0] =>
           destruct (Gap_promiseAll_transfer f ts w0 Hstart)
             as (tasks' & r & w1 & Ep & Hinv1 & Hset)
       end.
  all: rewrite Ep.
  all: destruct r as [[] | e]; [| exists tasks'; exact Hinv1].
  all: assert (Inv [] w1) as Hinv2
    by (destruct Hinv1 as (st1 & done1 & new1 & Hl1 & Hlog1 & Hid1 & T1);
        exists st1, done1, new1; repeat split; try assumption;
        eapply transferring_settled; eauto).
  all: unfold bind at 1, read at 1.
  all: destruct (_ =? _); [exact Hinv2 |].
  - exists []. exact Hinv2.
  - apply IH, Hinv2.
Qed.
End GapLoop.

(** ** Entries that are no part operation *)

Lemma callEntry_plain e : callEntry e -> plainEntry e.
Proof. destruct e as [[] | [] | | |]; cbn; auto. Qed.

Lemma plainEntry_quiet e : plainEntry e -> quietEntry e.
Proof. destruct e as [[] | | | |]; cbn; auto. Qed.

Lemma quiet_outstanding e new :
  quietEntry e -> outstanding (e :: new) = outstanding new.
Proof. destruct e as [[] | [] | | |]; cbn; auto; contradiction. Qed.

Lemma quiet_planned file size total ident skip e :
  quietEntry e -> plannedEntry file size total ident skip e.
Proof. destruct e as [[] | | | |]; cbn; auto; contradiction. Qed.

Lemma orderly_quiet file size total ident skip e new :
  quietEntry e ->
  orderly file size total ident skip new ->
  orderly file size total ident skip (e :: new).
Proof.
  intros He Ho. apply orderly_other; [exact Ho | |].
  - apply quiet_planned, He.
  - apply quiet_outstanding, He.
Qed.

Lemma quiet_history file size total ident skip new :
  Forall quietEntry new ->
  orderly file size total ident skip new /\ outstanding new = 0.
Proof.
  induction 1 as [| e new He _ [IHo IHc]].
  - split; [split; [constructor | cbn; lia] | reflexivity].
  - split; [apply orderly_quiet; assumption |].
    rewrite quiet_outstanding; assumption.
Qed.

Lemma plain_finalizedWith e new :
  plainEntry e -> finalizedWith (e :: new) = finalizedWith new.
Proof. destruct e as [[] | | | |]; cbn; auto; contradiction. Qed.

Lemma transferring_quiet file size total ident skip listed tasks parts next
    done new e :
  quietEntry e ->
  transferring file size total ident skip listed tasks parts next done new ->
  transferring file size total ident skip listed tasks parts next done
    (e :: new).
Proof.
  intros He []. constructor; try assumption.
  - apply orderly_quiet; assumption.
  - rewrite quiet_outstanding; assumption.
Qed.

Section GapFinish.
Variables (env : Env) (file : string) (size : Z) (total : nat).
Variables (ident : Identity) (listed : list Part) (l : nat).
Variable lg0 : list Entry.

Local Abbreviation Inv := (gapTransfer file size total ident listed l lg0).
Local Abbreviation Fin := (gapFinalized file size total ident listed l lg0).

Lemma gapTransfer_quiet tasks e w :
  quietEntry e -> Inv tasks w -> Inv tasks (logEntry e w).
Proof.
  intros He (st & done & new & Hl & Hlog & Hid & T).
  exists st, done, (e :: new). split; [exact Hl |].
  split; [cbn [log logEntry]; rewrite Hlog; reflexivity |].
  split; [exact Hid |]. apply transferring_quiet; assumption.
Qed.

Lemma gapFinalized_plain e w :
  plainEntry e -> Fin w -> Fin (logEntry e w).
Proof.
  intros He (st & done & new & Hl & Hlog & Hid & T & Hf & Hlen).
  exists st, done, (e :: new). split; [exact Hl |].
  split; [cbn [log logEntry]; rewrite Hlog; reflexivity |].
  split; [exact Hid |].
  split; [apply transferring_quiet; [apply plainEntry_quiet, He | exact T] |].
  split; [rewrite plain_finalizedWith; assumption | exact Hlen].
Qed.

Lemma gapFinalized_transfer w : Fin w -> Inv [] w.
Proof.
  intros (st & done & new & Hl & Hlog & Hid & T & _). exists st, done, new.
  auto.
Qed.

Lemma gapFinalized_call c w :
  Fin w -> Fin (Gap.runCall env c (logEntry (Extern c) w)).
Proof.
  intros (st & done & new & Hl & Hlog & Hid & T & Hf & Hlen).
  destruct (Gap_runCall_keeps env l c (logEntry (Extern c) w) st Hl)
    as (st1 & Hl1 & Hcore).
  destruct (Gap_runCall_logged env c (logEntry (Extern c) w))
    as (mid & Hmid & Fmid).
  inversion Hcore as [[Hb Hk Hu Hfp Hs Hparts Hnext]].
  assert (Forall plainEntry (mid ++ [Extern c])) as Hplain.
  { apply Forall_app. split.
    - eapply Forall_impl; [exact Fmid | apply callEntry_plain].
    - constructor; [exact I | constructor]. }
  exists st1, done, ((mid ++ [Extern c]) ++ new).
  split; [exact Hl1 |]. split.
  { rewrite Hmid. cbn [log logEntry]. rewrite Hlog, <- !app_assoc.
    reflexivity. }
  split; [rewrite <- Hid; unfold gapIdentity; congruence |].
  rewrite Hparts, Hnext.
  induction Hplain as [| e es He _ IH]; [auto |].
  destruct IH as (T' & Hf' & Hlen'). cbn [app].
  split; [apply transferring_quiet; [apply plainEntry_quiet, He | exact T'] |].
  split; [rewrite plain_finalizedWith; assumption | exact Hlen'].
Qed.

Lemma gapFinalized_same (w w1 : Gap.W) :
  heap w1 = heap w -> log w1 = log w -> Fin w -> Fin w1.
Proof.
  intros Hh Hg (st & done & new & Hl & Hlog & Hrest).
  exists st, done, new. rewrite Hh, Hg. auto.
Qed.

Lemma gapTransfer_same tasks (w w1 : Gap.W) :
  heap w1 = heap w -> log w1 = log w -> Inv tasks w -> Inv tasks w1.
Proof.
  intros Hh Hg (st & done & new & Hl & Hlog & Hrest).
  exists st, done, new. rewrite Hh, Hg. auto.
Qed.

Lemma Gap_finishUpload_transfer k filePath :
  hoare (Inv [])
    (Gap.finishUpload env k filePath l total size)
    (fun x w => (exists tasks, Inv tasks w) /\ (x = Completed -> Fin w))
    (fun _ w => exists tasks, Inv tasks w).
Proof.
  intros w Hinv. pose proof Hinv as (st & done & new & Hl & Hlog & Hid & T).
  unfold Gap.finishUpload. unfold bind at 1, read at 1.
  rewrite (lookup_total_correct _ _ _ Hl).
  destruct (Gap.isAborted st); [split; [eauto | discriminate] |].
  destruct (Gap.isPaused st).
  { unfold bind, onProgress, record, ret.
    split; [| discriminate].
    exists []. apply gapTransfer_quiet; [exact I | exact Hinv]. }
  destruct (Nat.eqb_spec (List.length (Gap.uploadedParts st)) total)
    as [Hcount | Hcount]; cbn [negb]; [| exists []; exact Hinv].
  unfold bind at 1, Gap.completeMultipartUpload.
  unfold bind at 1, read at 1. rewrite (lookup_total_correct _ _ _ Hl).
  unfold bind at 1.
  set (command := CompleteMultipartUpload _ _ _ _).
  assert (hoare (fun w0 => w0 = w) (Gap.awaitOk env command)
            (fun _ w0 => Fin w0) (fun _ w0 => exists tasks, Inv tasks w0))
    as Hawait.
  { apply (hoare_awaitOk env (Gap.runCall env) Fin).
    - intros w0 ->. exists st, done, (Issue command :: new).
      split; [exact Hl |].
      split; [cbn [log logEntry]; rewrite Hlog; reflexivity |].
      split; [exact Hid |].
      split; [apply transferring_quiet; [exact I | exact T] |].
      split; [reflexivity | exact Hcount].
    - intros c w0. apply gapFinalized_call.
    - intros w0 Hfin r. destruct r;
        [ exists []; apply gapTransfer_quiet;
          [exact I | apply gapFinalized_transfer, Hfin]
        | apply gapFinalized_plain; [exact I | exact Hfin] .. ]. }
  specialize (Hawait w eq_refl).
  destruct (Gap.awaitOk env command w) as [[r' | e'] w1]; [| exact Hawait].
  unfold bind, ret, onProgress, record, registryDelete, update.
  assert (Fin (mkWorld (heap w1) (delete k (uploadStates w1))
                 (Emit (mkProgress filePath size size 100 (Some total)
                          (Some total) completed) :: log w1))) as Hfin.
  { apply (gapFinalized_same (logEntry (Emit (mkProgress filePath size size
             100 (Some total) (Some total) completed)) w1));
      [reflexivity | reflexivity |].
    apply gapFinalized_plain; [exact I | exact Hawait]. }
  split; [| intros _; exact Hfin].
  exists []. apply gapFinalized_transfer, Hfin.
Qed.
End GapFinish.

(** ** A chunked call of the gap-scanning manager *)

Lemma transferring_initial file size total ident skip listed next new :
  Forall quietEntry new ->
  transferring file size total ident skip listed [] listed next [] new.
Proof.
  intros Hq. destruct (quiet_history file size total ident skip new Hq)
    as [Ho Hout].
  constructor; try assumption.
  - rewrite app_nil_r. reflexivity.
  - auto.
  - constructor.
  - constructor.
  - constructor.
  - cbn. lia.
Qed.

Lemma Forall_quiet_await o r mid :
  quietEntry (Issue o) -> quietEntry (Settle o r) -> Forall callEntry mid ->
  Forall quietEntry (Settle o r :: mid ++ [Issue o]).
Proof.
  intros Hi Hs Hmid. constructor; [exact Hs |].
  apply Forall_app. split; [| constructor; [exact Hi | constructor]].
  eapply Forall_impl; [exact Hmid |].
  intros e He. apply plainEntry_quiet, callEntry_plain, He.
Qed.

Lemma getListing_call e : callEntry e -> getListing e = None.
Proof. destruct e as [[] | [] | | |]; intros H; try contradiction; reflexivity. Qed.

Lemma getListing_calls mid :
  Forall callEntry mid -> omap getListing mid = [].
Proof.
  induction 1 as [| e mid He _ IH]; [reflexivity |].
  rewrite omap_cons_option, (getListing_call e He). exact IH.
Qed.

(** The history of the await of [ListParts]. *)
Lemma getListing_await b k id r mid :
  Forall callEntry mid ->
  omap getListing
    (Settle (ListParts b k id) r :: mid ++ [Issue (ListParts b k id)])
  = [match r with
     | WithParts parts => parts
     | _ => []
     end].
Proof.
  intros F. rewrite omap_cons_option. cbn [getListing option_list app].
  rewrite omap_app, (getListing_calls mid F). reflexivity.
Qed.

(** Once a call that resumes has its answer, the parts it starts from are
    settled, whatever the history goes on with. *)
Lemma startsFrom_more resumes rest new :
  (resumes = true -> omap getListing new <> []) ->
  startsFrom resumes (rest ++ new) = startsFrom resumes new.
Proof.
  destruct resumes; [| reflexivity].
  intros H. specialize (H eq_refl). unfold startsFrom, listedIn.
  rewrite omap_app, last_app.
  destruct (last (omap getListing new)) eqn:El; [reflexivity |].
  apply last_None in El. contradiction.
Qed.

Lemma startsFrom_entry resumes e new :
  getListing e = None ->
  startsFrom resumes (e :: new) = startsFrom resumes new.
Proof.
  intros He. unfold startsFrom, listedIn.
  rewrite omap_cons_option, He. reflexivity.
Qed.

Section GapStart.
Variables (env : Env) (bucket key filePath : string) (size : Z).
Variable rid : option string.

Local Abbreviation total := (totalPartsFor size).

(** Initiating or resuming: the state object of the transfer and the
    parts it starts from. *)
Lemma Gap_starting_transfer (w : Gap.W) :
  let resumes :=
    truthy rid
    || bool_decide (is_Some (uploadStates w !! stateKey bucket key)) in
  exists r w1 new,
    (if resumes
     then Gap.resumeMultipartUpload env bucket key filePath size rid
     else Gap.initiateMultipartUpload env bucket key filePath size) w
    = (r, w1) /\
    log w1 = new ++ log w /\ Forall quietEntry new /\
    match r with
    | Return l =>
        exists id,
          listedBy env bucket key resumes (startsFrom resumes new) /\
          gapTransfer filePath size total (bucket, key, id)
            (startsFrom resumes new) l (log w) [] w1 /\
          (resumes = true -> omap getListing new <> []) /\
          exists st,
            heap w1 !! l = Some st /\
            Gap.uploadedParts st = startsFrom resumes new
    | Throw _ => startsFrom resumes new = []
    end.
Proof.
  cbv zeta. destruct (_ || _).
  - unfold Gap.resumeMultipartUpload. unfold bind at 1, getWorld at 1.
    cbv zeta.
    destruct (negb _).
    { exists (Throw NoUploadId), w, []. repeat split; constructor. }
    set (id := default "" _).
    destruct (awaitOk_spec env (Gap.runCall env) (Gap_runCall_logged env)
                (Gap_runCall_noNewKey env) (ListParts bucket key id) w)
      as (mid & w1 & r & Fmid & _ & Er & Hlog & _ & E).
    unfold bind at 1, Gap.awaitOk. rewrite E.
    assert (Forall quietEntry
              (Settle (ListParts bucket key id) r
               :: mid ++ [Issue (ListParts bucket key id)])) as Hq
      by (apply Forall_quiet_await; [exact I | exact I | exact Fmid]).
    assert (log w1
            = (Settle (ListParts bucket key id) r
               :: mid ++ [Issue (ListParts bucket key id)]) ++ log w)
      as Hlog' by (rewrite Hlog; cbn [app]; rewrite <- app_assoc; reflexivity).
    pose proof (getListing_await bucket key id r mid Fmid) as Hlist.
    destruct r eqn:Hr;
      [ eexists _, _, _; split; [reflexivity |]; split; [exact Hlog' |];
        split; [exact Hq |];
        unfold startsFrom, listedIn; rewrite Hlist; reflexivity
      | .. ];
      (unfold alloc; eexists _, _, _; split; [reflexivity |];
       split; [exact Hlog' |]; split; [exact Hq |];
       exists id; unfold startsFrom, listedIn; rewrite Hlist;
       cbn [last default];
       split;
       [| split;
          [| split; [intros _; discriminate |];
             eexists; split; [cbn [heap]; apply lookup_insert_eq |];
             reflexivity];
          eexists _, [], _; cbn [heap log];
          split; [apply lookup_insert_eq |];
          split; [exact Hlog' |]; split; [reflexivity |];
          apply transferring_initial, Hq ]).
    1-3: left; reflexivity.
    right. exists (mid ++ Issue (ListParts bucket key id) :: log w), id.
    symmetry. exact Er.
  - unfold Gap.initiateMultipartUpload.
    destruct (awaitOk_spec env (Gap.runCall env) (Gap_runCall_logged env)
                (Gap_runCall_noNewKey env)
                (CreateMultipartUpload bucket key) w)
      as (mid & w1 & r & Fmid & _ & Er & Hlog & _ & E).
    unfold bind at 1, Gap.awaitOk. rewrite E.
    assert (Forall quietEntry
              (Settle (CreateMultipartUpload bucket key) r
               :: mid ++ [Issue (CreateMultipartUpload bucket key)])) as Hq
      by (apply Forall_quiet_await; [exact I | exact I | exact Fmid]).
    assert (log w1
            = (Settle (CreateMultipartUpload bucket key) r
               :: mid ++ [Issue (CreateMultipartUpload bucket key)]) ++ log w)
      as Hlog' by (rewrite Hlog; cbn [app]; rewrite <- app_assoc; reflexivity).
    destruct r eqn:Hr;
      try (eexists _, _, _; split; [reflexivity |]; split; [exact Hlog' |];
           split; [exact Hq | reflexivity]).
    destruct (String.eqb id "");
      [eexists _, _, _; split; [reflexivity |]; split; [exact Hlog' |];
       split; [exact Hq | reflexivity] |].
    unfold alloc. eexists _, _, _. split; [reflexivity |].
    split; [exact Hlog' |]. split; [exact Hq |].
    exists id. split; [reflexivity |].
    split;
      [| split; [discriminate |];
         eexists; split; [cbn [heap]; apply lookup_insert_eq |];
         reflexivity].
    eexists _, [], _. cbn [heap log].
    split; [apply lookup_insert_eq |].
    split; [exact Hlog' |]. split; [reflexivity |].
    apply transferring_initial, Hq.
Qed.
End GapStart.

Section GapCall.
Variables (env : Env) (bucket key filePath : string) (size : Z).

Local Abbreviation total := (totalPartsFor size).

Section Body.
Variables (ident : Identity) (listed : list Part) (l : nat).
Variable lg0 : list Entry.

Local Abbreviation Inv :=
  (gapTransfer filePath size total ident listed l lg0).
Local Abbreviation Fin :=
  (gapFinalized filePath size total ident listed l lg0).
Local Abbreviation Post :=
  (fun (x : Exit) (w : Gap.W) =>
     (exists tasks, Inv tasks w) /\ (x = Completed -> Fin w)).
Local Abbreviation Fail :=
  (fun (_ : Error) (w : Gap.W) => exists tasks, Inv tasks w).

Lemma Gap_transfer_body :
  hoare (Inv [])
    (tryCatch
       (exec registrySet (stateKey bucket key) l in
        exec Gap.awaitOk env (DenoOpen filePath) in
        tryFinally
          (exec Gap.transferLoop env (S total) filePath l total size in
           Gap.finishUpload env (stateKey bucket key) filePath l total size)
          (logEntry (FileClose filePath)))
       (Gap.multipartCatch (Some l) filePath size))
    Post Fail.
Proof.
  apply (hoare_tryCatch Fail).
  - apply (hoare_bind (fun _ => Inv [])).
    { intros w Hinv. apply (gapTransfer_same _ _ _ _ _ _ _ _ w);
        [reflexivity | reflexivity | exact Hinv]. }
    intros _. apply (hoare_bind (fun _ => Inv [])).
    { apply (hoare_awaitOk env (Gap.runCall env) (Inv [])).
      - intros w. apply gapTransfer_quiet. exact I.
      - intros c w. apply gapTransfer_call.
      - intros w Hinv r. destruct r;
          [exists [] | ..]; apply gapTransfer_quiet; (exact I || exact Hinv). }
    intros _. apply hoare_tryFinally.
    apply (hoare_bind (fun _ => Inv [])).
    + eapply hoare_weaken; [| | | apply Gap_transferLoop_transfer].
      * intros w Hw. exact Hw.
      * intros a w Hw. exact Hw.
      * intros e w (tasks & Hw). exists tasks.
        apply gapTransfer_quiet; [exact I | exact Hw].
    + intros _. eapply hoare_weaken; [| | | apply Gap_finishUpload_transfer].
      * intros w Hw. exact Hw.
      * intros x w ((tasks & Hw) & Hfin). split.
        -- exists tasks. apply gapTransfer_quiet; [exact I | exact Hw].
        -- intros Hx. apply gapFinalized_plain; [exact I | apply Hfin, Hx].
      * intros e w (tasks & Hw). exists tasks.
        apply gapTransfer_quiet; [exact I | exact Hw].
  - intros e w (tasks & Hinv).
    pose proof Hinv as (st & done & new & Hl & _).
    unfold Gap.multipartCatch, bind, read, ret.
    rewrite (lookup_total_correct _ _ _ Hl).
    destruct (Gap.isAborted st);
      [split; [exists tasks; exact Hinv | discriminate] |].
    unfold onProgress, record, throw. exists tasks.
    apply gapTransfer_quiet; [exact I | exact Hinv].
Qed.

Lemma gapTransfer_outcome r (w1 : Gap.W) :
  (exists tasks, Inv tasks w1) ->
  (r = Return Completed -> Fin w1) ->
  exists new,
    log w1 = new ++ lg0 /\ gapOutcome filePath size ident listed new r.
Proof.
  intros (tasks & st & done & new & Hl & Hlog & Hid & T) Hfin.
  exists new. split; [exact Hlog |]. split; [destruct T; assumption |].
  intros Hr. destruct (Hfin Hr)
    as (st' & done' & new' & Hl' & Hlog' & _ & T' & Hf & Hlen).
  rewrite Hlog in Hlog'. apply app_inv_tail in Hlog'. subst new'.
  exists (Gap.uploadedParts st'), done'. destruct T'.
  cbn [pendingNumbers omap app] in *.
  split; [exact Hf |]. split; [exact Hlen |]. split; [assumption |].
  split; [assumption |]. split; [| assumption].
  eapply Forall_impl; [exact parts_planned0 |].
  cbn. intros n (H1 & H2 & _). auto.
Qed.
End Body.

(** The statements after the state object is there only add to the
    history. *)
Lemma Gap_transfer_extends l :
  preserves (@logged Gap.UploadState (fun _ => True))
    (tryCatch
       (exec registrySet (stateKey bucket key) l in
        exec Gap.awaitOk env (DenoOpen filePath) in
        tryFinally
          (exec Gap.transferLoop env (S total) filePath l total size in
           Gap.finishUpload env (stateKey bucket key) filePath l total size)
          (logEntry (FileClose filePath)))
       (Gap.multipartCatch (Some l) filePath size)).
Proof.
  apply (preserves_tryCatch _);
    [| intros e; apply Gap_multipartCatch_logged; intros; exact I].
  unfold Gap.awaitOk.
  pres (@logged Gap.UploadState (fun _ : Entry => True)); try pres_await;
    auto.
  apply (preserves_tryFinally _).
  - pres (@logged Gap.UploadState (fun _ : Entry => True));
      [apply Gap_transferLoop_logged | apply Gap_finishUpload_logged];
      intros; exact I.
  - intros w. apply logged_entry. exact I.
Qed.

(** A chunked call, whatever the backend answers, whichever promise
    settles first, whoever calls in between. *)
Lemma Gap_multipartUpload_listed rid (w : Gap.W) :
  let resumes :=
    truthy rid
    || bool_decide (is_Some (uploadStates w !! stateKey bucket key)) in
  exists r w1 new id,
    Gap.multipartUpload env bucket key filePath size rid w = (r, w1) /\
    log w1 = new ++ log w /\
    listedBy env bucket key resumes (startsFrom resumes new) /\
    gapOutcome filePath size (bucket, key, id) (startsFrom resumes new) new r.
Proof.
  cbv zeta. unfold Gap.multipartUpload. cbv zeta.
  unfold bind at 1, attempt, bind at 1, getWorld at 1.
  destruct (Gap_starting_transfer env bucket key filePath size rid w)
    as (r0 & w0 & new0 & E0 & Hlog0 & Hq0 & Hr0).
  cbv zeta in E0. rewrite E0.
  destruct r0 as [l | e].
  - destruct Hr0 as (id & Hlisted & Hinv & Hsettled & _).
    set (ident := (bucket, key, id)) in *.
    set (resumes := truthy rid || _) in *.
    pose proof (Gap_transfer_body ident (startsFrom resumes new0) l (log w)
                  w0 Hinv) as Hbody.
    pose proof (Gap_transfer_extends l w0) as (rest & Hrest & _).
    assert (forall new (w1 : Gap.W),
              log w1 = rest ++ log w0 -> log w1 = new ++ log w ->
              startsFrom resumes new = startsFrom resumes new0) as Hsame.
    { intros new w1 H1 H2. rewrite H1, Hlog0, app_assoc in H2.
      apply app_inv_tail in H2. subst new.
      apply startsFrom_more, Hsettled. }
    match type of Hbody with
    | match ?m w0 with _ => _ end => destruct (m w0) as [[x | e] w1] eqn:Eb
    end; cbn [snd] in Hrest.
    + destruct Hbody as (Hany & Hfin).
      destruct (gapTransfer_outcome ident (startsFrom resumes new0) l (log w)
                  (Return x) w1 Hany)
        as (new & Hlog & Hout).
      { intros Hx. inversion Hx; subst. apply Hfin. reflexivity. }
      exists (Return x), w1, new, id.
      rewrite (Hsame new w1 Hrest Hlog). auto.
    + destruct (gapTransfer_outcome ident (startsFrom resumes new0) l (log w)
                  (Throw e) w1 Hbody)
        as (new & Hlog & Hout); [discriminate |].
      exists (Throw e), w1, new, id.
      rewrite (Hsame new w1 Hrest Hlog). auto.
  - unfold Gap.multipartCatch, bind, ret, onProgress, record, throw.
    eexists (Throw e), _, (Emit _ :: new0), "".
    split; [reflexivity |].
    split; [cbn [log logEntry]; rewrite Hlog0; reflexivity |].
    rewrite startsFrom_entry by reflexivity. rewrite Hr0.
    split; [destruct (_ || _); [left |]; reflexivity |].
    split; [| discriminate].
    apply quiet_history. constructor; [exact I | exact Hq0].
Qed.

Lemma Gap_multipartUpload_outcome rid (w : Gap.W) :
  let resumes :=
    truthy rid
    || bool_decide (is_Some (uploadStates w !! stateKey bucket key)) in
  exists r w1 new id listed,
    Gap.multipartUpload env bucket key filePath size rid w = (r, w1) /\
    log w1 = new ++ log w /\
    listedBy env bucket key resumes listed /\
    gapOutcome filePath size (bucket, key, id) listed new r.
Proof.
  cbv zeta.
  destruct (Gap_multipartUpload_listed rid w)
    as (r & w1 & new & id & E & Hlog & Hlisted & Hout).
  eexists r, w1, new, id, _. eauto.
Qed.
End GapCall.

(** ** A batch of the cursor-only manager *)

Lemma rejection_app tasks1 tasks2 :
  rejection (tasks1 ++ tasks2)
  = match rejection tasks1 with
    | Some e => Some e
    | None => rejection tasks2
    end.
Proof.
  induction tasks1 as [| t tasks1 IH]; [reflexivity |].
  cbn [app rejection]. destruct (promise t); auto.
Qed.

Lemma rejection_insert_pending tasks j t t' s o :
  tasks !! j = Some t -> promise t = Pending s o ->
  rejection (<[j := t']> tasks) = None ->
  rejection tasks = None /\ forall e, promise t' <> Rejected e.
Proof.
  intros Hj Hp. pose proof (lookup_lt_Some _ _ _ Hj) as Hlt.
  rewrite <- (take_drop_middle tasks j t Hj) at 2.
  rewrite insert_take_drop by exact Hlt.
  rewrite !rejection_app. cbn [rejection]. rewrite Hp.
  destruct (rejection (take j tasks)); [discriminate |].
  destruct (promise t') eqn:Ep'; try discriminate; auto.
  all: intros Hr; split; [exact Hr | intros e; discriminate].
Qed.

Section CursorStep.
Variables (env : Env) (file : string) (size : Z) (total : nat).
Variables (ident : Identity) (listed : list Part) (l : nat).
Variable lg0 : list Entry.

Local Abbreviation Inv := (cursorTransfer file size total ident listed l lg0).

Lemma cursorTransfer_call tasks c w :
  Inv tasks w -> Inv tasks (Cursor.runCall env c (logEntry (Extern c) w)).
Proof.
  intros (st & done & new & Hl & Hlog & Hid & T & Hlo & Hhi & Hall).
  destruct (Cursor_runCall_keeps env l c (logEntry (Extern c) w) st Hl)
    as (st1 & Hl1 & Hcore).
  destruct (Cursor_runCall_logged env c (logEntry (Extern c) w))
    as (mid & Hmid & Fmid).
  inversion Hcore as [[Hb Hk Hu Hf Hs Hparts Hnext]].
  exists st1, done, (mid ++ Extern c :: new).
  split; [exact Hl1 |]. split.
  { rewrite Hmid. cbn [log logEntry]. rewrite Hlog, <- app_assoc. reflexivity. }
  split; [rewrite <- Hid; unfold cursorIdentity; congruence |].
  rewrite Hparts, Hnext. split; [| auto].
  destruct T. constructor; try assumption.
  - change (mid ++ Extern c :: new) with (mid ++ [Extern c] ++ new).
    rewrite app_assoc. apply orderly_calls; [| assumption].
    apply Forall_app. split; [exact Fmid | constructor; [exact I | constructor]].
  - change (mid ++ Extern c :: new) with (mid ++ [Extern c] ++ new).
    rewrite app_assoc, outstanding_calls; [assumption |].
    apply Forall_app. split; [exact Fmid | constructor; [exact I | constructor]].
Qed.

Lemma cursorTransfer_step tasks w j t s o :
  Inv tasks w -> tasks !! j = Some t -> promise t = Pending s o ->
  let r := reply env (log w) o in
  exists t' w1,
    Cursor.uploadPartResume file l size t s o r (logEntry (Settle o r) w)
    = (Return t', w1) /\
    Inv (<[j := t']> tasks) w1.
Proof.
  intros (st & done & new & Hl & Hlog & Hid & T & Hlo & Hhi & Hall) Hj Hp r.
  destruct (after_settlement _ _ _ _ _ _ _ _ _ _ _ j t s o r T Hj Hp)
    as (_ & _ & (Hrange & Hskip) & Ha).
  destruct (sending_pending t s o Hp) as [Hs Hn].
  set (w' := logEntry (Settle o r) w).
  assert (heap w' !! l = Some st) as Hl' by exact Hl.
  assert (log w' = (Settle o r :: new) ++ lg0) as Hlog'
    by (cbn [log logEntry w']; rewrite Hlog; reflexivity).
  (* the task stays pending, on the same part *)
  assert (forall t' extra,
            pendingNumber t' = pendingNumber t ->
            awaitsItsOwn file size ident t' ->
            Forall (plannedEntry file size total ident []) extra ->
            List.length extra <= 1 ->
            outstanding (extra ++ Settle o r :: new)
            = outstanding (Settle o r :: new)
              + (if sending t' then 1 else 0) ->
            Inv (<[j := t']> tasks)
              (mkWorld (heap w) (uploadStates w) (extra ++ log w')))
    as Hsame.
  { intros t' extra Hn' Ha' Hpl Hlen Hout.
    exists st, done, (extra ++ Settle o r :: new).
    split; [exact Hl |].
    split; [cbn [log]; rewrite Hlog', app_assoc; reflexivity |].
    split; [exact Hid |].
    split; [apply (event_same _ _ _ _ _ _ _ _ _ _ _ j t t' s o r extra T Hj Hp);
            assumption |].
    split; [exact Hlo |]. split; [exact Hhi |].
    intros Hrej.
    destruct (rejection_insert_pending tasks j t t' s o Hj Hp Hrej)
      as [Hrej0 _].
    rewrite (pendingNumbers_same tasks j t t' Hj Hn'). apply Hall, Hrej0. }
  (* the task is rejected *)
  assert (forall e,
            Inv (<[j := mkTask (partNumber t) 0 (Rejected e)]> tasks) w')
    as Hreject.
  { intros e. exists st, done, (Settle o r :: new).
    split; [exact Hl |]. split; [exact Hlog' |]. split; [exact Hid |].
    split.
    { apply (event_drop _ _ _ _ _ _ _ _ _ _ _ j t _ s o r [] T Hj Hp);
        [constructor | cbn; lia | cbn; lia | reflexivity]. }
    split; [exact Hlo |]. split; [exact Hhi |].
    intros Hrej.
    destruct (rejection_insert_pending tasks j t _ s o Hj Hp Hrej)
      as [_ Hno].
    exfalso. apply (Hno e). reflexivity. }
  unfold awaitsItsOwn in Ha. rewrite Hp in Ha.
  destruct s.
  - subst o. destruct r eqn:Er;
      [ eexists _, _; split; [reflexivity | apply Hreject] | .. ];
      (unfold Cursor.uploadPartResume, bind, issue, record, ret;
       eexists _, _; split; [reflexivity |];
       rewrite <- Er in *;
       apply (Hsame (mkTask (partNumber t) 0 (Pending Reading _)) [_]);
       [ rewrite Hn; reflexivity
       | reflexivity
       | constructor; [split; [reflexivity | eexists; eauto] | constructor]
       | cbn; lia
       | cbn [app outstanding sending promise]; lia ]).
  - subst o. destruct r eqn:Er;
      [ eexists _, _; split; [reflexivity | apply Hreject] | .. ];
      (unfold Cursor.uploadPartResume, bind, read, issue, record, ret;
       rewrite (lookup_total_correct _ _ _ Hl');
       eexists _, _; split; [reflexivity |];
       rewrite <- Er in *;
       apply (Hsame (mkTask (partNumber t) 0 (Pending Sending _)) [_]);
       [ rewrite Hn; reflexivity
       | unfold awaitsItsOwn; cbn [promise partNumber];
         rewrite <- Hid; reflexivity
       | constructor; [split; [exact Hid | auto] | constructor]
       | cbn; lia
       | cbn [app outstanding sending promise]; lia ]).
  - subst o. destruct r eqn:Er;
      try (eexists _, _; split; [reflexivity | apply Hreject]).
    unfold Cursor.uploadPartResume.
    destruct (String.eqb id "");
      [eexists _, _; split; [reflexivity | apply Hreject] |].
    unfold bind, read, write, modify, update, onProgress, record, ret.
    rewrite (lookup_total_correct _ _ _ Hl').
    eexists _, _. split; [reflexivity |].
    eexists _, (partNumber t :: done), (Emit _ :: Settle _ r :: new).
    cbn [heap log logEntry w']. rewrite lookup_alter_eq, Hl.
    split; [reflexivity |].
    split; [rewrite Hlog, Er; reflexivity |].
    split; [exact Hid |].
    cbn [Cursor.uploadedParts Cursor.nextPartNumber Cursor.setUploadedParts].
    rewrite <- Er in *.
    split.
    { apply (event_push _ _ _ _ _ _ _ _ _ _ _ j t _ Sending _ r [_] T Hj Hp);
        [ constructor; [exact I | constructor]
        | cbn; lia
        | cbn [app outstanding sending promise]; lia
        | reflexivity ]. }
    split; [exact Hlo |]. split; [exact Hhi |].
    intros Hrej.
    destruct (rejection_insert_pending tasks j t _ Sending _ Hj Hp Hrej)
      as [Hrej0 _].
    rewrite <- (Hall Hrej0).
    rewrite (pendingNumbers_drop tasks j t
               (mkTask (partNumber t) 0 Resolved) (partNumber t) Hj Hn
               eq_refl).
    cbn [app]. symmetry. apply Permutation_middle.
  - (* no timer is ever set by this manager *)
    assert (Cursor.uploadPartResume file l size t Backoff o r w'
            = (Return t, w')) as E by (destruct r; reflexivity).
    exists t, w'. split; [exact E |].
    destruct w as [h u lg]. apply (Hsame t []);
      [ reflexivity
      | unfold awaitsItsOwn; rewrite Hp; exact Ha
      | constructor | cbn; lia
      | cbn [app]; unfold sending; rewrite Hp; lia ].
Qed.
End CursorStep.

(** ** The transfer loop of the cursor-only manager *)

Lemma rejection_resolved tasks :
  Forall (fun t => promise t = Resolved) tasks -> rejection tasks = None.
Proof.
  induction 1 as [| t tasks Ht _ IH]; [reflexivity |].
  cbn [rejection]. rewrite Ht. exact IH.
Qed.

Lemma rejection_started file batch :
  rejection (startedOn file <$> batch) = None.
Proof. induction batch as [| n batch IH]; [reflexivity | exact IH]. Qed.

Lemma pendingNumbers_started file batch :
  pendingNumbers (startedOn file <$> batch) = batch.
Proof.
  induction batch as [| n batch IH]; [reflexivity |].
  cbn [fmap list_fmap]. unfold pendingNumbers in *.
  rewrite omap_cons_option. cbn. f_equal. exact IH.
Qed.

Section CursorLoop.
Variables (env : Env) (file : string) (size : Z) (total : nat).
Variables (ident : Identity) (listed : list Part) (l : nat).
Variable lg0 : list Entry.

Local Abbreviation Inv := (cursorTransfer file size total ident listed l lg0).

(** Why the loop was left: on a pause, or with the cursor past the plan. *)
Local Abbreviation left_loop :=
  (fun w : Cursor.W =>
     exists st, heap w !! l = Some st /\
       (Cursor.isPaused st = true \/ total < Cursor.nextPartNumber st)).

Lemma Cursor_promiseAll_transfer fuel tasks w :
  Inv tasks w ->
  exists tasks' r w1,
    promiseAll env (Cursor.runCall env) (Cursor.uploadPartResume file l size)
      fuel tasks w = (r, w1) /\
    Inv tasks' w1 /\ settledAs r tasks'.
Proof.
  apply (promiseAll_invariant env (Cursor.runCall env)
           (Cursor.uploadPartResume file l size) Inv).
  - intros ts c w0. apply cursorTransfer_call.
  - intros ts w0 j t s o. apply cursorTransfer_step.
Qed.

Lemma cursorTransfer_settled tasks w :
  Inv tasks w -> Forall (fun t => promise t = Resolved) tasks -> Inv [] w.
Proof.
  intros (st & done & new & Hl & Hlog & Hid & T & Hlo & Hhi & Hall) Hres.
  exists st, done, new.
  split; [exact Hl |]. split; [exact Hlog |]. split; [exact Hid |].
  split; [eapply transferring_settled; eauto |].
  split; [exact Hlo |]. split; [exact Hhi |].
  intros _. rewrite <- (Hall (rejection_resolved tasks Hres)).
  rewrite (pendingNumbers_resolved tasks Hres). reflexivity.
Qed.

Lemma Cursor_batch_starts (w : Cursor.W) st :
  Inv [] w -> heap w !! l = Some st ->
  Cursor.nextPartNumber st <= total ->
  let next := Cursor.nextPartNumber st in
  let k := Nat.min MAX_CONCURRENT_UPLOADS (total + 1 - next) in
  Inv (startedOn file <$> seq next k)
    (mkWorld (<[l := Cursor.setNextPartNumber (next + k) st]> (heap w))
       (uploadStates w) (seeksFor file (seq next k) ++ log w)).
Proof.
  intros (st' & done & new & Hl' & Hlog & Hid & T & Hlo & Hhi & Hall) Hl Hle
    next k.
  rewrite Hl in Hl'. inversion Hl'; subst st'. clear Hl'.
  exists (Cursor.setNextPartNumber (next + k) st), done,
    (seeksFor file (seq next k) ++ new).
  cbn [heap log]. rewrite lookup_insert_eq.
  split; [reflexivity |].
  split; [rewrite Hlog, app_assoc; reflexivity |].
  split; [exact Hid |].
  cbn [Cursor.uploadedParts Cursor.nextPartNumber Cursor.setNextPartNumber].
  fold next in Hlo, Hhi, Hall, Hle.
  assert (1 <= k <= MAX_CONCURRENT_UPLOADS /\ next + k <= total + 1) as Hk
    by (unfold k, MAX_CONCURRENT_UPLOADS; lia).
  pose proof T as T0. destruct T0.
  cbn [pendingNumbers omap app] in parts_planned0.
  split; [| split; [lia | split; [lia |]]].
  - apply transferring_start.
    + apply (transferring_advance _ _ _ _ _ _ _ _ next (next + k) _ _ T).
      lia.
    + apply NoDup_ListNoDup, seq_NoDup.
    + apply Forall_forall. intros x Hx.
      apply list_elem_of_In, in_seq in Hx.
      split; [lia |]. split; [apply not_elem_of_nil | lia].
    + intros x Hx Hin. apply list_elem_of_In, in_seq in Hx.
      rewrite Forall_forall in parts_planned0.
      destruct (parts_planned0 x Hin) as (_ & _ & Hlt). fold next in Hlt. lia.
    + rewrite length_seq. lia.
  - intros _. rewrite pendingNumbers_started.
    specialize (Hall eq_refl). cbn [pendingNumbers omap app] in Hall.
    replace (next + k - (List.length listed + 1))
      with ((next - (List.length listed + 1)) + k) by lia.
    rewrite seq_app.
    replace (List.length listed + 1 + (next - (List.length listed + 1)))
      with next by lia.
    etransitivity; [apply Permutation_app_comm |].
    apply Permutation_app_tail, Hall.
Qed.

Lemma Cursor_transferLoop_transfer fuel :
  hoare (Inv []) (Cursor.transferLoop env fuel file l total size)
    (fun _ w => Inv [] w /\ left_loop w)
    (fun _ w => exists tasks, Inv tasks w).
Proof.
  induction fuel as [| fuel IH]; intros w Hinv.
  all: pose proof Hinv as (st & done & new & Hl & Hlog & Hid & T & Hrest).
  all: cbn [Cursor.transferLoop]; unfold bind at 1, read at 1.
  all: rewrite (lookup_total_correct _ _ _ Hl).
  all: destruct (Nat.leb_spec (Cursor.nextPartNumber st) total)
    as [Hle | Hgt]; cbn [andb];
    [| split; [exact Hinv | exists st; split; [exact Hl | right; lia]]].
  all: destruct (Cursor.isPaused st) eqn:Hp; cbn [negb];
    [split; [exact Hinv | exists st; split; [exact Hl | left; exact Hp]] |].
  all: pose proof (Cursor_batch_starts w st Hinv Hl Hle) as Hstart.
  all: cbv zeta in Hstart.
  all: unfold bind at 1.
  all: rewrite (Cursor_startBatch_consecutive file l total size
                  MAX_CONCURRENT_UPLOADS w st Hl).
  all: cbv zeta.
  all: unfold bind at 1.
  all: match goal with
       | |- context [promiseAll ?e ?rc ?res ?f ?ts ?w0] =>
           destruct (Cursor_promiseAll_transfer f ts w0 Hstart)
             as (tasks' & r & w1 & Ep & Hinv1 & Hset)
       end.
  all: rewrite Ep.
  all: destruct r as [[] | e]; [| exists tasks'; exact Hinv1].
  all: pose proof (cursorTransfer_settled tasks' w1 Hinv1 Hset) as Hinv2.
  - exists []. exact Hinv2.
  - apply IH, Hinv2.
Qed.
End CursorLoop.

(** ** A chunked call of the cursor-only manager *)

Section CursorFinish.
Variables (env : Env) (file : string) (size : Z) (total : nat).
Variables (ident : Identity) (listed : list Part) (l : nat).
Variable lg0 : list Entry.

Local Abbreviation Inv := (cursorTransfer file size total ident listed l lg0).
Local Abbreviation Fin :=
  (cursorFinalized file size total ident listed l lg0).

Lemma cursorTransfer_quiet tasks e w :
  quietEntry e -> Inv tasks w -> Inv tasks (logEntry e w).
Proof.
  intros He (st & done & new & Hl & Hlog & Hid & T & Hrest).
  exists st, done, (e :: new). split; [exact Hl |].
  split; [cbn [log logEntry]; rewrite Hlog; reflexivity |].
  split; [exact Hid |].
  split; [apply transferring_quiet; assumption | exact Hrest].
Qed.

Lemma cursorTransfer_same tasks (w w1 : Cursor.W) :
  heap w1 = heap w -> log w1 = log w -> Inv tasks w -> Inv tasks w1.
Proof.
  intros Hh Hg (st & done & new & Hl & Hlog & Hrest).
  exists st, done, new. rewrite Hh, Hg. auto.
Qed.

Lemma cursorFinalized_plain e w :
  plainEntry e -> Fin w -> Fin (logEntry e w).
Proof.
  intros He (st & done & new & Hl & Hlog & T & Hf & Hdone).
  exists st, done, (e :: new). split; [exact Hl |].
  split; [cbn [log logEntry]; rewrite Hlog; reflexivity |].
  split; [apply transferring_quiet; [apply plainEntry_quiet, He | exact T] |].
  split; [rewrite plain_finalizedWith; assumption | exact Hdone].
Qed.

Lemma cursorFinalized_same (w w1 : Cursor.W) :
  heap w1 = heap w -> log w1 = log w -> Fin w -> Fin w1.
Proof.
  intros Hh Hg (st & done & new & Hl & Hlog & Hrest).
  exists st, done, new. rewrite Hh, Hg. auto.
Qed.

Lemma cursorFinalized_call c w :
  Fin w -> Fin (Cursor.runCall env c (logEntry (Extern c) w)).
Proof.
  intros (st & done & new & Hl & Hlog & T & Hf & Hdone).
  destruct (Cursor_runCall_keeps env l c (logEntry (Extern c) w) st Hl)
    as (st1 & Hl1 & Hcore).
  destruct (Cursor_runCall_logged env c (logEntry (Extern c) w))
    as (mid & Hmid & Fmid).
  inversion Hcore as [[Hb Hk Hu Hfp Hs Hparts Hnext]].
  assert (Forall plainEntry (mid ++ [Extern c])) as Hplain.
  { apply Forall_app. split.
    - eapply Forall_impl; [exact Fmid | apply callEntry_plain].
    - constructor; [exact I | constructor]. }
  exists st1, done, ((mid ++ [Extern c]) ++ new).
  split; [exact Hl1 |]. split.
  { rewrite Hmid. cbn [log logEntry]. rewrite Hlog, <- !app_assoc.
    reflexivity. }
  rewrite Hparts, Hnext.
  induction Hplain as [| e es He _ IH]; [auto |].
  destruct IH as (T' & Hf' & Hdone'). cbn [app].
  split; [apply transferring_quiet; [apply plainEntry_quiet, He | exact T'] |].
  split; [rewrite plain_finalizedWith; assumption | exact Hdone'].
Qed.

Lemma Cursor_finishUpload_transfer k filePath :
  hoare
    (fun w =>
       Inv [] w /\
       exists st, heap w !! l = Some st /\
         (Cursor.isPaused st = true \/ total < Cursor.nextPartNumber st))
    (Cursor.finishUpload env k filePath l total size)
    (fun x w => (exists tasks, Inv tasks w) /\ (x = Completed -> Fin w))
    (fun _ w => exists tasks, Inv tasks w).
Proof.
  intros w (Hinv & st' & Hl' & Hleft).
  pose proof Hinv as (st & done & new & Hl & Hlog & Hid & T & Hlo & Hhi & Hall).
  rewrite Hl in Hl'. inversion Hl'; subst st'. clear Hl'.
  unfold Cursor.finishUpload. unfold bind at 1, read at 1.
  rewrite (lookup_total_correct _ _ _ Hl).
  destruct (Cursor.isPaused st) eqn:Hp.
  { unfold bind, onProgress, record, ret.
    split; [| discriminate].
    exists []. apply cursorTransfer_quiet; [exact I | exact Hinv]. }
  destruct Hleft as [Hleft | Hpast]; [discriminate |].
  assert (done ≡ₚ seq (List.length listed + 1) (total - List.length listed))
    as Hdone.
  { specialize (Hall eq_refl). cbn [pendingNumbers omap app] in Hall.
    rewrite Hall. f_equiv. lia. }
  unfold bind at 1, Cursor.completeMultipartUpload.
  unfold bind at 1, read at 1. rewrite (lookup_total_correct _ _ _ Hl).
  unfold bind at 1.
  set (command := CompleteMultipartUpload _ _ _ _).
  assert (hoare (fun w0 => w0 = w) (Cursor.awaitOk env command)
            (fun _ w0 => Fin w0 /\ Inv [] w0)
            (fun _ w0 => exists tasks, Inv tasks w0))
    as Hawait.
  { apply (hoare_awaitOk env (Cursor.runCall env)
             (fun w0 => Fin w0 /\ Inv [] w0)).
    - intros w0 ->. split.
      + exists st, done, (Issue command :: new).
        split; [exact Hl |].
        split; [cbn [log logEntry]; rewrite Hlog; reflexivity |].
        split; [apply transferring_quiet; [exact I | exact T] |].
        split; [reflexivity | exact Hdone].
      + apply cursorTransfer_quiet; [exact I | exact Hinv].
    - intros c w0 [Hf Hi].
      split; [apply cursorFinalized_call, Hf | apply cursorTransfer_call, Hi].
    - intros w0 [Hf Hi] r. destruct r;
        [ exists []; apply cursorTransfer_quiet; [exact I | exact Hi]
        | split;
          [ apply cursorFinalized_plain; [exact I | exact Hf]
          | apply cursorTransfer_quiet; [exact I | exact Hi] ] .. ]. }
  specialize (Hawait w eq_refl).
  destruct (Cursor.awaitOk env command w) as [[r' | e'] w1]; [| exact Hawait].
  destruct Hawait as [Hf1 Hi1].
  unfold bind, ret, onProgress, record, registryDelete, update.
  set (event := Emit _).
  split.
  - exists []. apply (cursorTransfer_same _ (logEntry event w1));
      [reflexivity | reflexivity |].
    apply cursorTransfer_quiet; [exact I | exact Hi1].
  - intros _. apply (cursorFinalized_same (logEntry event w1));
      [reflexivity | reflexivity |].
    apply cursorFinalized_plain; [exact I | exact Hf1].
Qed.
End CursorFinish.

(** ** The stored parts only become more *)

Section Growing.
Context {St : Type} `{Inhabited St} (partsOf : St -> list Part) (l : nat).

#[global] Instance growing_preorder : PreOrder (growing partsOf l).
Proof.
  split.
  - intros w st Hl. exists st. split; [exact Hl | reflexivity].
  - intros w1 w2 w3 H1 H2 st Hl.
    destruct (H1 st Hl) as (st2 & Hl2 & E2).
    destruct (H2 st2 Hl2) as (st3 & Hl3 & E3).
    exists st3. split; [exact Hl3 | etransitivity; eassumption].
Qed.

Lemma growing_same_heap (w w1 : World St) :
  heap w1 = heap w -> growing partsOf l w w1.
Proof. intros E st Hl. exists st. rewrite E. split; [exact Hl | reflexivity]. Qed.

Lemma growing_modify l' (f : St -> St) :
  (forall st, partsOf st ⊆+ partsOf (f st)) ->
  preserves (growing partsOf l) (modify l' f).
Proof.
  intros Hf w st Hl. unfold modify, update. cbn [snd heap].
  destruct (decide (l' = l)) as [-> | Hne].
  - exists (f st). rewrite lookup_alter_eq, Hl. split; [reflexivity | apply Hf].
  - exists st. rewrite lookup_alter_ne by exact Hne.
    split; [exact Hl | reflexivity].
Qed.

Lemma growing_keeps {C} (core : St -> C) (w w1 : World St) :
  (forall st st1, core st1 = core st -> partsOf st1 = partsOf st) ->
  keeps core l w w1 -> growing partsOf l w w1.
Proof.
  intros Hcore Hk st Hl. destruct (Hk st Hl) as (st1 & Hl1 & E).
  exists st1. split; [exact Hl1 |]. rewrite (Hcore st st1 E). reflexivity.
Qed.
End Growing.

Ltac grows_heap :=
  try (intros ?; apply growing_same_heap; reflexivity).

Lemma sortParts_grows parts p : parts ⊆+ sortParts (parts ++ [p]).
Proof.
  rewrite sortParts_perm. apply submseteq_inserts_r. reflexivity.
Qed.

Section CursorGrowing.
Variables (env : Env) (l : nat).

Local Abbreviation R := (growing Cursor.uploadedParts l).

Lemma Cursor_runCall_growing c w : R w (Cursor.runCall env c w).
Proof.
  apply (growing_keeps _ _ cursorCore); [| apply Cursor_runCall_keeps].
  intros st st1 E. inversion E. reflexivity.
Qed.

Lemma Cursor_uploadPartResume_growing file size t s o r :
  preserves R (Cursor.uploadPartResume file l size t s o r).
Proof.
  unfold Cursor.uploadPartResume, Cursor.uploadPart.
  destruct s;
    try (destruct r; pres (growing Cursor.uploadedParts l); grows_heap; fail).
  destruct r;
    try (pres (growing Cursor.uploadedParts l); grows_heap; fail).
  destruct (String.eqb id "");
    [pres (growing Cursor.uploadedParts l); grows_heap; fail |].
  intros w st Hl.
  unfold bind, read, write, modify, update, onProgress, record, ret.
  cbn [snd]. rewrite (lookup_total_correct _ _ _ Hl).
  cbn [heap uploadStates log logEntry].
  eexists. rewrite lookup_alter_eq, Hl. split; [reflexivity |].
  apply sortParts_grows.
Qed.

Lemma Cursor_promiseAll_growing file size fuel tasks :
  preserves R
    (promiseAll env (Cursor.runCall env) (Cursor.uploadPartResume file l size)
       fuel tasks).
Proof.
  apply (preserves_promiseAll env (Cursor.runCall env) R).
  - intros c w. apply Cursor_runCall_growing.
  - intros c w. apply growing_same_heap. reflexivity.
  - intros t s o r. apply Cursor_uploadPartResume_growing.
  - intros o r w. apply growing_same_heap. reflexivity.
Qed.

Lemma Cursor_startBatch_growing n file total size :
  preserves R (Cursor.startBatch n file l total size).
Proof.
  induction n as [| n IH]; cbn [Cursor.startBatch].
  - apply (preserves_ret R).
  - unfold Cursor.uploadPart.
    pres (growing Cursor.uploadedParts l); grows_heap.
    apply growing_modify. intros st. reflexivity.
Qed.

Lemma Cursor_transferLoop_growing fuel file total size :
  preserves R (Cursor.transferLoop env fuel file l total size).
Proof.
  induction fuel as [| fuel IH]; cbn [Cursor.transferLoop];
    pres (growing Cursor.uploadedParts l); grows_heap;
    first [ apply Cursor_startBatch_growing
          | apply Cursor_promiseAll_growing ].
Qed.

Lemma Cursor_awaitOk_growing o :
  preserves R (Cursor.awaitOk env o).
Proof.
  apply (preserves_awaitOk env (Cursor.runCall env) R).
  - intros c w. apply Cursor_runCall_growing.
  - intros c w. apply growing_same_heap. reflexivity.
  - intros w. apply growing_same_heap. reflexivity.
  - intros r w. apply growing_same_heap. reflexivity.
Qed.

Lemma Cursor_finishUpload_growing k filePath total size :
  preserves R (Cursor.finishUpload env k filePath l total size).
Proof.
  unfold Cursor.finishUpload, Cursor.completeMultipartUpload.
  pres (growing Cursor.uploadedParts l); grows_heap;
    apply Cursor_awaitOk_growing.
Qed.

(** The statements after the state object is there keep the parts it
    started with. *)
Lemma Cursor_transfer_growing bucket key filePath size :
  preserves R
    (exec registrySet (stateKey bucket key) l in
     exec Cursor.awaitOk env (DenoOpen filePath) in
     tryFinally
       (exec Cursor.transferLoop env (S (totalPartsFor size)) filePath l
               (totalPartsFor size) size in
        Cursor.finishUpload env (stateKey bucket key) filePath l
          (totalPartsFor size) size)
       (logEntry (FileClose filePath))).
Proof.
  pres (growing Cursor.uploadedParts l); grows_heap;
    try apply Cursor_awaitOk_growing.
  apply (preserves_tryFinally _).
  - pres (growing Cursor.uploadedParts l);
      [apply Cursor_transferLoop_growing | apply Cursor_finishUpload_growing].
  - intros w. apply growing_same_heap. reflexivity.
Qed.
End CursorGrowing.

Section CursorStart.
Variables (env : Env) (bucket key filePath : string) (size : Z).
Variable rid : option string.

Local Abbreviation total := (totalPartsFor size).

Lemma cursorTransfer_initial ident listed l lg0 (w : Cursor.W) st new :
  heap w !! l = Some st -> log w = new ++ lg0 ->
  Forall quietEntry new ->
  cursorIdentity st = ident ->
  Cursor.uploadedParts st = listed ->
  Cursor.nextPartNumber st = List.length listed + 1 ->
  cursorTransfer filePath size total ident listed l lg0 [] w.
Proof.
  intros Hl Hlog Hq Hid Hparts Hnext. exists st, [], new.
  split; [exact Hl |]. split; [exact Hlog |]. split; [exact Hid |].
  rewrite Hparts, Hnext.
  split; [apply transferring_initial, Hq |].
  split; [lia |]. split; [right; reflexivity |].
  intros _. rewrite Nat.sub_diag. reflexivity.
Qed.

Lemma Cursor_starting_transfer (w : Cursor.W) :
  let resumes :=
    truthy rid
    || bool_decide (is_Some (uploadStates w !! stateKey bucket key)) in
  exists r w1 new,
    (if resumes
     then Cursor.resumeMultipartUpload env bucket key filePath size rid
     else Cursor.initiateMultipartUpload env bucket key filePath size) w
    = (r, w1) /\
    log w1 = new ++ log w /\ Forall quietEntry new /\
    match r with
    | Return l =>
        exists id,
          listedBy env bucket key resumes (startsFrom resumes new) /\
          cursorTransfer filePath size total (bucket, key, id)
            (startsFrom resumes new) l (log w) [] w1 /\
          (resumes = true -> omap getListing new <> []) /\
          exists st,
            heap w1 !! l = Some st /\
            Cursor.uploadedParts st = startsFrom resumes new
    | Throw _ => startsFrom resumes new = []
    end.
Proof.
  cbv zeta. destruct (_ || _).
  - unfold Cursor.resumeMultipartUpload. unfold bind at 1, getWorld at 1.
    cbv zeta.
    destruct (negb _).
    { exists (Throw NoUploadId), w, []. repeat split; constructor. }
    set (id := default "" _).
    destruct (awaitOk_spec env (Cursor.runCall env) (Cursor_runCall_logged env)
                (Cursor_runCall_noNewKey env) (ListParts bucket key id) w)
      as (mid & w1 & r & Fmid & _ & Er & Hlog & _ & E).
    unfold bind at 1, Cursor.awaitOk. rewrite E.
    assert (Forall quietEntry
              (Settle (ListParts bucket key id) r
               :: mid ++ [Issue (ListParts bucket key id)])) as Hq
      by (apply Forall_quiet_await; [exact I | exact I | exact Fmid]).
    assert (log w1
            = (Settle (ListParts bucket key id) r
               :: mid ++ [Issue (ListParts bucket key id)]) ++ log w)
      as Hlog' by (rewrite Hlog; cbn [app]; rewrite <- app_assoc; reflexivity).
    pose proof (getListing_await bucket key id r mid Fmid) as Hlist.
    destruct r eqn:Hr;
      [ eexists _, _, _; split; [reflexivity |]; split; [exact Hlog' |];
        split; [exact Hq |];
        unfold startsFrom, listedIn; rewrite Hlist; reflexivity
      | .. ];
      (unfold alloc; eexists _, _, _; split; [reflexivity |];
       split; [exact Hlog' |]; split; [exact Hq |];
       exists id; unfold startsFrom, listedIn; rewrite Hlist;
       cbn [last default];
       split;
       [| split;
          [| split; [intros _; discriminate |];
             eexists; split; [cbn [heap]; apply lookup_insert_eq |];
             reflexivity];
          eapply cursorTransfer_initial;
          [ cbn [heap]; apply lookup_insert_eq
          | exact Hlog' | exact Hq
          | reflexivity | reflexivity | reflexivity ] ]).
    1-3: left; reflexivity.
    right. exists (mid ++ Issue (ListParts bucket key id) :: log w), id.
    symmetry. exact Er.
  - unfold Cursor.initiateMultipartUpload.
    destruct (awaitOk_spec env (Cursor.runCall env) (Cursor_runCall_logged env)
                (Cursor_runCall_noNewKey env)
                (CreateMultipartUpload bucket key) w)
      as (mid & w1 & r & Fmid & _ & Er & Hlog & _ & E).
    unfold bind at 1, Cursor.awaitOk. rewrite E.
    assert (Forall quietEntry
              (Settle (CreateMultipartUpload bucket key) r
               :: mid ++ [Issue (CreateMultipartUpload bucket key)])) as Hq
      by (apply Forall_quiet_await; [exact I | exact I | exact Fmid]).
    assert (log w1
            = (Settle (CreateMultipartUpload bucket key) r
               :: mid ++ [Issue (CreateMultipartUpload bucket key)]) ++ log w)
      as Hlog' by (rewrite Hlog; cbn [app]; rewrite <- app_assoc; reflexivity).
    destruct r eqn:Hr;
      try (eexists _, _, _; split; [reflexivity |]; split; [exact Hlog' |];
           split; [exact Hq | reflexivity]).
    destruct (String.eqb id "");
      [eexists _, _, _; split; [reflexivity |]; split; [exact Hlog' |];
       split; [exact Hq | reflexivity] |].
    unfold alloc. eexists _, _, _. split; [reflexivity |].
    split; [exact Hlog' |]. split; [exact Hq |].
    exists id. split; [reflexivity |].
    split;
      [| split; [discriminate |];
         eexists; split; [cbn [heap]; apply lookup_insert_eq |];
         reflexivity].
    eapply cursorTransfer_initial;
      [ cbn [heap]; apply lookup_insert_eq
      | exact Hlog' | exact Hq | reflexivity | reflexivity | reflexivity ].
Qed.
End CursorStart.

Section CursorCall.
Variables (env : Env) (bucket key filePath : string) (size : Z).

Local Abbreviation total := (totalPartsFor size).

Section Body.
Variables (ident : Identity) (listed : list Part) (l : nat).
Variable lg0 : list Entry.

Local Abbreviation Inv :=
  (cursorTransfer filePath size total ident listed l lg0).
Local Abbreviation Fin :=
  (cursorFinalized filePath size total ident listed l lg0).
Local Abbreviation Post :=
  (fun (x : Exit) (w : Cursor.W) =>
     (exists tasks, Inv tasks w) /\ (x = Completed -> Fin w)).
Local Abbreviation Fail :=
  (fun (_ : Error) (w : Cursor.W) => exists tasks, Inv tasks w).

Lemma Cursor_transfer_body :
  hoare (Inv [])
    (exec registrySet (stateKey bucket key) l in
     exec Cursor.awaitOk env (DenoOpen filePath) in
     tryFinally
       (exec Cursor.transferLoop env (S total) filePath l total size in
        Cursor.finishUpload env (stateKey bucket key) filePath l total size)
       (logEntry (FileClose filePath)))
    Post Fail.
Proof.
  apply (hoare_bind (fun _ => Inv [])).
  { intros w Hinv. apply (cursorTransfer_same _ _ _ _ _ _ _ _ w);
      [reflexivity | reflexivity | exact Hinv]. }
  intros _. apply (hoare_bind (fun _ => Inv [])).
  { apply (hoare_awaitOk env (Cursor.runCall env) (Inv [])).
    - intros w. apply cursorTransfer_quiet. exact I.
    - intros c w. apply cursorTransfer_call.
    - intros w Hinv r. destruct r;
        [exists [] | ..]; apply cursorTransfer_quiet; (exact I || exact Hinv). }
  intros _. apply hoare_tryFinally.
  apply (hoare_bind
           (fun _ w =>
              Inv [] w /\
              exists st, heap w !! l = Some st /\
                (Cursor.isPaused st = true \/
                 total < Cursor.nextPartNumber st))).
  - eapply hoare_weaken; [| | | apply Cursor_transferLoop_transfer].
    + intros w Hw. exact Hw.
    + intros a w Hw. exact Hw.
    + intros e w (tasks & Hw). exists tasks.
      apply cursorTransfer_quiet; [exact I | exact Hw].
  - intros _. eapply hoare_weaken; [| | | apply Cursor_finishUpload_transfer].
    + intros w Hw. exact Hw.
    + intros x w ((tasks & Hw) & Hfin). split.
      * exists tasks. apply cursorTransfer_quiet; [exact I | exact Hw].
      * intros Hx. apply cursorFinalized_plain; [exact I | apply Hfin, Hx].
    + intros e w (tasks & Hw). exists tasks.
      apply cursorTransfer_quiet; [exact I | exact Hw].
Qed.

Lemma cursorTransfer_outcome r (w1 : Cursor.W) :
  (exists tasks, Inv tasks w1) ->
  (r = Return Completed -> Fin w1) ->
  exists new,
    log w1 = new ++ lg0 /\ cursorOutcome filePath size ident listed new r.
Proof.
  intros (tasks & st & done & new & Hl & Hlog & Hid & T & _) Hfin.
  exists new. split; [exact Hlog |]. split; [destruct T; assumption |].
  intros Hr. destruct (Hfin Hr)
    as (st' & done' & new' & Hl' & Hlog' & T' & Hf & Hdone).
  rewrite Hlog in Hlog'. apply app_inv_tail in Hlog'. subst new'.
  exists (Cursor.uploadedParts st'). destruct T'.
  split; [exact Hf |]. split; [| assumption].
  rewrite stored_parts0. apply Permutation_app_head, Hdone.
Qed.
End Body.

(** The statements after the state object is there only add to the
    history. *)
Lemma Cursor_transfer_extends l :
  preserves (@logged Cursor.UploadState (fun _ => True))
    (exec registrySet (stateKey bucket key) l in
     exec Cursor.awaitOk env (DenoOpen filePath) in
     tryFinally
       (exec Cursor.transferLoop env (S total) filePath l total size in
        Cursor.finishUpload env (stateKey bucket key) filePath l total size)
       (logEntry (FileClose filePath))).
Proof.
  unfold Cursor.awaitOk.
  pres (@logged Cursor.UploadState (fun _ : Entry => True)); try pres_await;
    auto.
  apply (preserves_tryFinally _).
  - pres (@logged Cursor.UploadState (fun _ : Entry => True));
      [apply Cursor_transferLoop_logged | apply Cursor_finishUpload_logged];
      intros; exact I.
  - intros w. apply logged_entry. exact I.
Qed.

(** A chunked call, whatever the backend answers, whichever promise
    settles first, whoever calls in between. *)
Lemma Cursor_multipartUpload_listed rid (w : Cursor.W) :
  let resumes :=
    truthy rid
    || bool_decide (is_Some (uploadStates w !! stateKey bucket key)) in
  exists r w1 new id,
    Cursor.multipartUpload env bucket key filePath size rid w = (r, w1) /\
    log w1 = new ++ log w /\
    listedBy env bucket key resumes (startsFrom resumes new) /\
    cursorOutcome filePath size (bucket, key, id) (startsFrom resumes new)
      new r /\
    (r = Return Completed ->
     exists parts,
       finalizedWith new = Some parts /\ startsFrom resumes new ⊆+ parts).
Proof.
  cbv zeta. unfold Cursor.multipartUpload. cbv zeta.
  unfold tryCatch, bind at 1, getWorld at 1. unfold bind at 1.
  destruct (Cursor_starting_transfer env bucket key filePath size rid w)
    as (r0 & w0 & new0 & E0 & Hlog0 & Hq0 & Hr0).
  cbv zeta in E0. rewrite E0.
  destruct r0 as [l | e].
  - destruct Hr0 as (id & Hlisted & Hinv & Hsettled & st0 & Hl0 & Hparts0).
    set (ident := (bucket, key, id)) in *.
    set (resumes := truthy rid || _) in *.
    pose proof (Cursor_transfer_growing env l bucket key filePath size w0
                  st0 Hl0) as (st1 & Hl1 & Hgrown).
    pose proof (Cursor_transfer_body ident (startsFrom resumes new0) l
                  (log w) w0 Hinv) as Hbody.
    pose proof (Cursor_transfer_extends l w0) as (rest & Hrest & _).
    assert (forall new (w1 : Cursor.W),
              (exists more, log w1 = more ++ rest ++ log w0) ->
              log w1 = new ++ log w ->
              startsFrom resumes new = startsFrom resumes new0) as Hsame.
    { intros new w1 (more & H1) H2.
      rewrite H1, Hlog0, !app_assoc in H2.
      apply app_inv_tail in H2. subst new.
      apply startsFrom_more, Hsettled. }
    match type of Hbody with
    | match ?m w0 with _ => _ end => destruct (m w0) as [[x | e] w1] eqn:Eb
    end; cbn [snd] in Hrest, Hl1.
    + destruct Hbody as (Hany & Hfin).
      destruct (cursorTransfer_outcome ident (startsFrom resumes new0) l
                  (log w) (Return x) w1 Hany)
        as (new & Hlog & Hout).
      { intros Hx. inversion Hx; subst. apply Hfin. reflexivity. }
      exists (Return x), w1, new, id.
      rewrite (Hsame new w1 (ex_intro _ [] Hrest) Hlog).
      split; [reflexivity |]. split; [exact Hlog |].
      split; [exact Hlisted |]. split; [exact Hout |].
      intros Hx. inversion Hx; subst x.
      destruct (Hfin eq_refl)
        as (st' & done' & new' & Hl' & Hlog' & _ & Hf' & _).
      rewrite Hlog in Hlog'. apply app_inv_tail in Hlog'. subst new'.
      rewrite Hl1 in Hl'. inversion Hl'; subst st'.
      exists (Cursor.uploadedParts st1). split; [exact Hf' |].
      rewrite <- Hparts0. exact Hgrown.
    + destruct Hbody as (tasks & Hw1).
      assert (exists tasks,
                cursorTransfer filePath size total ident
                  (startsFrom resumes new0) l (log w) tasks
                  (logEntry (Emit (mkProgress filePath 0 size 0 None None
                                     failed)) w1)) as Hany.
      { exists tasks. apply cursorTransfer_quiet; [exact I | exact Hw1]. }
      destruct (cursorTransfer_outcome ident (startsFrom resumes new0) l
                  (log w) (Throw e) _ Hany)
        as (new & Hlog & Hout); [discriminate |].
      assert (exists more,
                log (logEntry (Emit (mkProgress filePath 0 size 0 None None
                                       failed)) w1)
                = more ++ rest ++ log w0) as Hmore.
      { exists [Emit (mkProgress filePath 0 size 0 None None failed)].
        cbn [log logEntry app]. rewrite Hrest. reflexivity. }
      unfold Cursor.multipartCatch, bind, onProgress, record, throw.
      eexists (Throw e), _, new, id.
      split; [reflexivity |].
      rewrite (Hsame new _ Hmore Hlog).
      split; [exact Hlog |]. split; [exact Hlisted |].
      split; [exact Hout | discriminate].
  - unfold Cursor.multipartCatch, bind, ret, onProgress, record, throw.
    eexists (Throw e), _, (Emit _ :: new0), "".
    split; [reflexivity |].
    split; [cbn [log logEntry]; rewrite Hlog0; reflexivity |].
    rewrite startsFrom_entry by reflexivity. rewrite Hr0.
    split; [destruct (_ || _); [left |]; reflexivity |].
    split; [| discriminate].
    split; [| discriminate].
    apply quiet_history. constructor; [exact I | exact Hq0].
Qed.

Lemma Cursor_multipartUpload_outcome rid (w : Cursor.W) :
  let resumes :=
    truthy rid
    || bool_decide (is_Some (uploadStates w !! stateKey bucket key)) in
  exists r w1 new id listed,
    Cursor.multipartUpload env bucket key filePath size rid w = (r, w1) /\
    log w1 = new ++ log w /\
    listedBy env bucket key resumes listed /\
    cursorOutcome filePath size (bucket, key, id) listed new r.
Proof.
  cbv zeta.
  destruct (Cursor_multipartUpload_listed rid w)
    as (r & w1 & new & id & E & Hlog & Hlisted & Hout & _).
  eexists r, w1, new, id, _. eauto.
Qed.
End CursorCall.

(** * The answers to [ListParts] *)

Lemma preserves_bind_valued {St A B} (R : relation (World St))
    `{!PreOrder R} (Q : A -> Prop) (m : M St A) (k : A -> M St B) :
  preserves R m ->
  (forall w a w1, m w = (Return a, w1) -> Q a) ->
  (forall a, Q a -> preserves R (k a)) ->
  preserves R (bind m k).
Proof.
  intros Hm HQ Hk w. unfold bind. specialize (Hm w). specialize (HQ w).
  destruct (m w) as [[a | e] w1]; simpl in *; [| exact Hm].
  etransitivity; [exact Hm | apply Hk; eapply HQ; reflexivity].
Qed.

Lemma noListing_call e : callEntry e -> noListing e.
Proof. apply getListing_call. Qed.

Lemma noListing_partOp o r : partOp o -> noListing (Settle o r).
Proof. destruct o; intros H; try contradiction; reflexivity. Qed.

(** While [Promise.all] is pending, the operations that settle are those
    of the part tasks. *)
Section PartOps.
Context {St : Type} (env : Env) (runCall : Call -> World St -> World St).
Variable P : Entry -> Prop.
Variable resume : PartTask -> Stage -> Op -> Reply -> M St PartTask.
Hypothesis call_logged : forall c w, logged callEntry w (runCall c w).
Hypothesis P_call : forall e, callEntry e -> P e.
Hypothesis P_settle : forall o r, partOp o -> P (Settle o r).
Hypothesis resume_logged : forall t s o r, preserves (logged P) (resume t s o r).
Hypothesis resume_task : forall t s o r w t' w1,
  awaitsPartOp t -> resume t s o r w = (Return t', w1) -> awaitsPartOp t'.

Lemma promiseAll_partOps fuel : forall tasks,
  Forall awaitsPartOp tasks ->
  preserves (logged P) (promiseAll env runCall resume fuel tasks).
Proof.
  induction fuel as [| fuel IH]; intros tasks Ht; cbn [promiseAll].
  - destruct (rejection tasks); [apply (preserves_throw _) |].
    destruct (pendingFrom 0 tasks);
      [apply (preserves_ret _) | apply (preserves_throw _)].
  - destruct (rejection tasks); [apply (preserves_throw _) |].
    destruct (pendingFrom 0 tasks) as [| first others] eqn:Hpend;
      [apply (preserves_ret _) |].
    apply (preserves_bind _).
    { apply (preserves_intrusions env runCall (logged P)).
      - intros c w. eapply logged_mono; [exact P_call | apply call_logged].
      - intros c w. apply logged_entry, P_call. exact I. }
    intros _.
    apply (preserves_bind _); [apply (preserves_getWorld _) | intros w'].
    assert (In (nth (pick env (log w') mod S (List.length others))
                  (first :: others) first) (pendingFrom 0 tasks)) as Hin.
    { rewrite Hpend. apply nth_In. cbn [List.length].
      apply Nat.mod_upper_bound. lia. }
    destruct (nth (pick env (log w') mod S (List.length others))
                (first :: others) first) as [[[i t] s] o].
    destruct (pendingFrom_In 0 tasks i t s o Hin) as (j & -> & Hj & Hp).
    assert (awaitsPartOp t) as Hat.
    { rewrite Forall_forall in Ht. apply Ht.
      eapply list_elem_of_lookup_2, Hj. }
    assert (partOp o) as Ho by (unfold awaitsPartOp in Hat; rewrite Hp in Hat; exact Hat).
    apply (preserves_bind _).
    { intros w. apply logged_entry, P_settle, Ho. }
    intros r.
    apply (preserves_bind_valued _ awaitsPartOp).
    + apply resume_logged.
    + intros w a w1. apply resume_task, Hat.
    + intros t' Ht'. apply IH. apply Forall_insert; assumption.
Qed.
End PartOps.

Ltac no_listing :=
  first [ exact noListing_call
        | intros [] ?; try contradiction; exact eq_refl
        | intros; exact eq_refl ].

Section GapUnlisted.
Variables (env : Env) (file : string) (l : nat) (size : Z).

Local Abbreviation R := (@logged Gap.UploadState noListing).

Lemma Gap_uploadPartCatch_task n rc e w t' w1 :
  Gap.uploadPartCatch l n rc e w = (Return t', w1) -> awaitsPartOp t'.
Proof.
  unfold Gap.uploadPartCatch, bind, read, issue, record, ret.
  destruct (_ && _); intros E; inversion E; exact I.
Qed.

Lemma Gap_uploadPart_task n rc w t' w1 :
  Gap.uploadPart file l n size rc w = (Return t', w1) -> awaitsPartOp t'.
Proof.
  unfold Gap.uploadPart, bind, read, issue, record, ret.
  destruct (Gap.isAborted _); intros E; inversion E; exact I.
Qed.

Lemma Gap_uploadPartResume_task t s o r w t' w1 :
  awaitsPartOp t ->
  Gap.uploadPartResume file l size t s o r w = (Return t', w1) ->
  awaitsPartOp t'.
Proof.
  intros _. unfold Gap.uploadPartResume.
  destruct s, r;
    first [ apply Gap_uploadPartCatch_task
          | apply Gap_uploadPart_task
          | idtac ];
    try (unfold bind, read, issue, record, ret;
         intros E; inversion E; exact I).
  destruct (String.eqb id ""); [apply Gap_uploadPartCatch_task |].
  unfold bind, read, write, modify, update, onProgress, record, ret.
  intros E. inversion E. exact I.
Qed.

Lemma Gap_startBatch_tasks parts : forall w tasks w1,
  Gap.startBatch file l size parts w = (Return tasks, w1) ->
  Forall awaitsPartOp tasks.
Proof.
  induction parts as [| n parts IH]; intros w tasks w1; cbn [Gap.startBatch].
  - intros E. inversion E. constructor.
  - unfold bind at 1, read at 1.
    destruct (_ || _); [intros E; inversion E; constructor |].
    unfold bind at 1.
    destruct (Gap.uploadPart file l n size 0 w) as [[t | e] w2] eqn:Et;
      [| discriminate].
    unfold bind at 1.
    destruct (Gap.startBatch file l size parts w2) as [[ts | e] w3] eqn:Es;
      [| discriminate].
    intros E. inversion E; subst. constructor.
    + eapply Gap_uploadPart_task, Et.
    + eapply IH, Es.
Qed.

Lemma Gap_promiseAll_unlisted fuel tasks :
  Forall awaitsPartOp tasks ->
  preserves R
    (promiseAll env (Gap.runCall env) (Gap.uploadPartResume file l size)
       fuel tasks).
Proof.
  apply promiseAll_partOps.
  - apply Gap_runCall_logged.
  - exact noListing_call.
  - exact noListing_partOp.
  - intros t s o r. apply Gap_uploadPartResume_logged; no_listing.
  - apply Gap_uploadPartResume_task.
Qed.

Lemma Gap_transferLoop_unlisted fuel total :
  preserves R (Gap.transferLoop env fuel file l total size).
Proof.
  induction fuel as [| fuel IH]; cbn [Gap.transferLoop].
  all: apply (preserves_bind R); [apply logged_read | intros st].
  all: destruct (_ || _); [apply (preserves_ret R) |].
  all: destruct (Gap.findNextPart _ _ _); [| apply (preserves_ret R)].
  all: apply (preserves_bind R); [apply logged_modify | intros _].
  all: cbv zeta.
  all: apply (preserves_bind R); [apply logged_modify | intros _].
  all: apply (preserves_bind_valued R (Forall awaitsPartOp));
    [ apply Gap_startBatch_logged; no_listing
    | apply Gap_startBatch_tasks
    | intros tasks Ht ].
  all: apply (preserves_bind R);
    [apply Gap_promiseAll_unlisted, Ht | intros _].
  all: apply (preserves_bind R); [apply logged_read | intros st'].
  all: destruct (_ =? _); [apply (preserves_ret R) |].
  - apply (preserves_throw R).
  - apply IH.
Qed.

Lemma Gap_finishUpload_unlisted k filePath total :
  preserves R (Gap.finishUpload env k filePath l total size).
Proof.
  unfold Gap.finishUpload, Gap.completeMultipartUpload, Gap.awaitOk.
  pres (@logged Gap.UploadState noListing); try pres_await; no_listing.
Qed.
End GapUnlisted.

Lemma getListing_quiet rest :
  Forall noListing rest -> omap getListing rest = [].
Proof.
  induction 1 as [| e rest He _ IH]; [reflexivity |].
  rewrite omap_cons_option, He. exact IH.
Qed.

(** The history of an await of an operation other than [ListParts] holds
    no answer to one. *)
Lemma getListing_other o r mid :
  noListing (Settle o r) -> Forall callEntry mid ->
  omap getListing (Settle o r :: mid ++ [Issue o]) = [].
Proof.
  intros Ho F. apply getListing_quiet. constructor; [exact Ho |].
  apply Forall_app. split; [| repeat constructor].
  eapply Forall_impl; [exact F | exact noListing_call].
Qed.

Lemma answered_more resumes rest new :
  Forall noListing rest -> answered resumes new ->
  answered resumes (rest ++ new).
Proof.
  intros F H. unfold answered. rewrite omap_app, (getListing_quiet rest F).
  exact H.
Qed.

Lemma answered_listedIn resumes new :
  answered resumes new -> startsFrom resumes new = listedIn new.
Proof.
  intros [_ H]. destruct resumes; [reflexivity |].
  unfold startsFrom, listedIn. rewrite (H eq_refl). reflexivity.
Qed.

Lemma Gap_starting_answers env bucket key filePath size rid (resumes : bool)
    (w : Gap.W) :
  exists new,
    log ((if resumes
          then Gap.resumeMultipartUpload env bucket key filePath size rid
          else Gap.initiateMultipartUpload env bucket key filePath size) w).2
    = new ++ log w /\
    answered resumes new.
Proof.
  destruct resumes.
  - unfold Gap.resumeMultipartUpload. unfold bind at 1, getWorld at 1.
    cbv zeta.
    destruct (negb _).
    { exists []. split; [reflexivity |]. split; [cbn; lia | discriminate]. }
    set (id := default "" _).
    destruct (awaitOk_spec env (Gap.runCall env) (Gap_runCall_logged env)
                (Gap_runCall_noNewKey env) (ListParts bucket key id) w)
      as (mid & w1 & r & Fmid & _ & _ & Hlog & _ & E).
    unfold bind at 1, Gap.awaitOk. rewrite E.
    exists (Settle (ListParts bucket key id) r
            :: mid ++ [Issue (ListParts bucket key id)]).
    split.
    + destruct r; cbn [snd alloc log]; rewrite Hlog; cbn [app];
        rewrite <- app_assoc; reflexivity.
    + split; [| discriminate].
      rewrite (getListing_await bucket key id r mid Fmid). cbn. lia.
  - unfold Gap.initiateMultipartUpload.
    destruct (awaitOk_spec env (Gap.runCall env) (Gap_runCall_logged env)
                (Gap_runCall_noNewKey env) (CreateMultipartUpload bucket key) w)
      as (mid & w1 & r & Fmid & _ & _ & Hlog & _ & E).
    unfold bind at 1, Gap.awaitOk. rewrite E.
    exists (Settle (CreateMultipartUpload bucket key) r
            :: mid ++ [Issue (CreateMultipartUpload bucket key)]).
    split.
    + destruct r; try destruct (String.eqb id ""); cbn [snd alloc log throw];
        rewrite Hlog; cbn [app]; rewrite <- app_assoc; reflexivity.
    + unfold answered.
      rewrite (getListing_other _ r mid) by (reflexivity || exact Fmid).
      split; [cbn; lia | reflexivity].
Qed.

Lemma Gap_transfer_unlisted env bucket key filePath size l :
  preserves (@logged Gap.UploadState noListing)
    (tryCatch
       (exec registrySet (stateKey bucket key) l in
        exec Gap.awaitOk env (DenoOpen filePath) in
        tryFinally
          (exec Gap.transferLoop env (S (totalPartsFor size)) filePath l
                  (totalPartsFor size) size in
           Gap.finishUpload env (stateKey bucket key) filePath l
             (totalPartsFor size) size)
          (logEntry (FileClose filePath)))
       (Gap.multipartCatch (Some l) filePath size)).
Proof.
  apply (preserves_tryCatch _);
    [| intros e; apply Gap_multipartCatch_logged; no_listing].
  unfold Gap.awaitOk.
  pres (@logged Gap.UploadState noListing); try pres_await;
    try no_listing.
  apply (preserves_tryFinally _).
  - pres (@logged Gap.UploadState noListing);
      [apply Gap_transferLoop_unlisted | apply Gap_finishUpload_unlisted].
  - intros w. apply logged_entry. reflexivity.
Qed.

(** A chunked call of the gap-scanning manager gets one answer to
    [ListParts] at most, and none when it initiates the transfer. *)
Lemma Gap_multipartUpload_answers env bucket key filePath size rid
    (w : Gap.W) :
  let resumes :=
    truthy rid
    || bool_decide (is_Some (uploadStates w !! stateKey bucket key)) in
  exists new,
    log (Gap.multipartUpload env bucket key filePath size rid w).2
    = new ++ log w /\
    answered resumes new.
Proof.
  intros resumes.
  unfold Gap.multipartUpload. cbv zeta.
  unfold bind at 1, attempt, bind at 1, getWorld at 1. fold resumes.
  destruct (Gap_starting_answers env bucket key filePath size rid resumes w)
    as (new0 & Hlog0 & Hans).
  case_run l e w0; cbn [snd] in Hlog0.
  - destruct (Gap_transfer_unlisted env bucket key filePath size l w0)
      as (rest & Hrest & Frest).
    exists (rest ++ new0). split.
    + rewrite Hrest, Hlog0. apply app_assoc.
    + apply answered_more; assumption.
  - destruct (Gap_multipartCatch_logged noListing size ltac:(no_listing)
                None filePath e w0) as (rest & Hrest & Frest).
    exists (rest ++ new0). split.
    + rewrite Hrest, Hlog0. apply app_assoc.
    + apply answered_more; assumption.
Qed.

Section CursorUnlisted.
Variables (env : Env) (file : string) (l : nat) (size : Z).

Local Abbreviation R := (@logged Cursor.UploadState noListing).

Lemma Cursor_uploadPartResume_task t s o r w t' w1 :
  awaitsPartOp t ->
  Cursor.uploadPartResume file l size t s o r w = (Return t', w1) ->
  awaitsPartOp t'.
Proof.
  intros Ht. unfold Cursor.uploadPartResume.
  destruct s, r;
    try (unfold bind, read, issue, record, ret;
         intros E; inversion E; subst; first [exact I | exact Ht]).
  destruct (String.eqb id "");
    unfold bind, read, write, modify, update, onProgress, record, ret;
    intros E; inversion E; exact I.
Qed.

Lemma Cursor_startBatch_tasks total n : forall w tasks w1,
  Cursor.startBatch n file l total size w = (Return tasks, w1) ->
  Forall awaitsPartOp tasks.
Proof.
  induction n as [| n IH]; intros w tasks w1; cbn [Cursor.startBatch].
  - intros E. inversion E. constructor.
  - unfold bind at 1, read at 1.
    destruct (_ <=? _); [| intros E; inversion E; constructor].
    unfold bind at 1, modify at 1, update at 1. cbv iota beta.
    unfold bind at 1, Cursor.uploadPart, bind at 1, issue, record, ret.
    cbv iota beta.
    unfold bind at 1.
    match goal with
    | |- context [Cursor.startBatch n file l total size ?w0] =>
        destruct (Cursor.startBatch n file l total size w0)
          as [[ts | e] w3] eqn:Es
    end; [| discriminate].
    intros E. inversion E; subst. constructor; [exact I |].
    eapply IH, Es.
Qed.

Lemma Cursor_promiseAll_unlisted fuel tasks :
  Forall awaitsPartOp tasks ->
  preserves R
    (promiseAll env (Cursor.runCall env) (Cursor.uploadPartResume file l size)
       fuel tasks).
Proof.
  apply promiseAll_partOps.
  - apply Cursor_runCall_logged.
  - exact noListing_call.
  - exact noListing_partOp.
  - intros t s o r. apply Cursor_uploadPartResume_logged; no_listing.
  - apply Cursor_uploadPartResume_task.
Qed.

Lemma Cursor_transferLoop_unlisted fuel total :
  preserves R (Cursor.transferLoop env fuel file l total size).
Proof.
  induction fuel as [| fuel IH]; cbn [Cursor.transferLoop].
  all: apply (preserves_bind R); [apply logged_read | intros st].
  all: destruct (_ && _); [| apply (preserves_ret R)].
  all: apply (preserves_bind_valued R (Forall awaitsPartOp));
    [ apply Cursor_startBatch_logged; no_listing
    | apply Cursor_startBatch_tasks
    | intros tasks Ht ].
  all: apply (preserves_bind R);
    [apply Cursor_promiseAll_unlisted, Ht | intros _].
  - apply (preserves_throw R).
  - apply IH.
Qed.

Lemma Cursor_finishUpload_unlisted k filePath total :
  preserves R (Cursor.finishUpload env k filePath l total size).
Proof.
  unfold Cursor.finishUpload, Cursor.completeMultipartUpload, Cursor.awaitOk.
  pres (@logged Cursor.UploadState noListing); try pres_await; no_listing.
Qed.
End CursorUnlisted.

Lemma Cursor_starting_answers env bucket key filePath size rid
    (resumes : bool) (w : Cursor.W) :
  exists new,
    log ((if resumes
          then Cursor.resumeMultipartUpload env bucket key filePath size rid
          else Cursor.initiateMultipartUpload env bucket key filePath size)
           w).2
    = new ++ log w /\
    answered resumes new.
Proof.
  destruct resumes.
  - unfold Cursor.resumeMultipartUpload. unfold bind at 1, getWorld at 1.
    cbv zeta.
    destruct (negb _).
    { exists []. split; [reflexivity |]. split; [cbn; lia | discriminate]. }
    set (id := default "" _).
    destruct (awaitOk_spec env (Cursor.runCall env)
                (Cursor_runCall_logged env) (Cursor_runCall_noNewKey env)
                (ListParts bucket key id) w)
      as (mid & w1 & r & Fmid & _ & _ & Hlog & _ & E).
    unfold bind at 1, Cursor.awaitOk. rewrite E.
    exists (Settle (ListParts bucket key id) r
            :: mid ++ [Issue (ListParts bucket key id)]).
    split.
    + destruct r; cbn [snd alloc log]; rewrite Hlog; cbn [app];
        rewrite <- app_assoc; reflexivity.
    + split; [| discriminate].
      rewrite (getListing_await bucket key id r mid Fmid). cbn. lia.
  - unfold Cursor.initiateMultipartUpload.
    destruct (awaitOk_spec env (Cursor.runCall env)
                (Cursor_runCall_logged env) (Cursor_runCall_noNewKey env)
                (CreateMultipartUpload bucket key) w)
      as (mid & w1 & r & Fmid & _ & _ & Hlog & _ & E).
    unfold bind at 1, Cursor.awaitOk. rewrite E.
    exists (Settle (CreateMultipartUpload bucket key) r
            :: mid ++ [Issue (CreateMultipartUpload bucket key)]).
    split.
    + destruct r; try destruct (String.eqb id ""); cbn [snd alloc log throw];
        rewrite Hlog; cbn [app]; rewrite <- app_assoc; reflexivity.
    + unfold answered.
      rewrite (getListing_other _ r mid) by (reflexivity || exact Fmid).
      split; [cbn; lia | reflexivity].
Qed.

Lemma Cursor_transfer_unlisted env bucket key filePath size l :
  preserves (@logged Cursor.UploadState noListing)
    (exec registrySet (stateKey bucket key) l in
     exec Cursor.awaitOk env (DenoOpen filePath) in
     tryFinally
       (exec Cursor.transferLoop env (S (totalPartsFor size)) filePath l
               (totalPartsFor size) size in
        Cursor.finishUpload env (stateKey bucket key) filePath l
          (totalPartsFor size) size)
       (logEntry (FileClose filePath))).
Proof.
  unfold Cursor.awaitOk.
  pres (@logged Cursor.UploadState noListing); try pres_await;
    try no_listing.
  apply (preserves_tryFinally _).
  - pres (@logged Cursor.UploadState noListing);
      [apply Cursor_transferLoop_unlisted | apply Cursor_finishUpload_unlisted].
  - intros w. apply logged_entry. reflexivity.
Qed.

(** A chunked call of the cursor-only manager gets one answer to
    [ListParts] at most, and none when it initiates the transfer. *)
Lemma Cursor_multipartUpload_answers env bucket key filePath size rid
    (w : Cursor.W) :
  let resumes :=
    truthy rid
    || bool_decide (is_Some (uploadStates w !! stateKey bucket key)) in
  exists new,
    log (Cursor.multipartUpload env bucket key filePath size rid w).2
    = new ++ log w /\
    answered resumes new.
Proof.
  intros resumes.
  unfold Cursor.multipartUpload. cbv zeta.
  unfold tryCatch, bind at 1, getWorld at 1. unfold bind at 1.
  fold resumes.
  destruct (Cursor_starting_answers env bucket key filePath size rid resumes
              w) as (new0 & Hlog0 & Hans).
  case_run l e w0; cbn [snd] in Hlog0.
  - destruct (Cursor_transfer_unlisted env bucket key filePath size l w0)
      as (rest & Hrest & Frest).
    match type of Hrest with
    | log (?m w0).2 = _ => destruct (m w0) as [[x | e] w1]
    end; cbn [snd] in Hrest |- *.
    + exists (rest ++ new0). split.
      * rewrite Hrest, Hlog0. apply app_assoc.
      * apply answered_more; assumption.
    + unfold Cursor.multipartCatch, bind, onProgress, record, throw.
      cbn [snd log logEntry].
      exists ((Emit (mkProgress filePath 0 size 0 None None failed) :: rest)
              ++ new0).
      split.
      * rewrite Hrest, Hlog0. cbn [app]. rewrite app_assoc. reflexivity.
      * apply answered_more; [| assumption].
        constructor; [reflexivity | exact Frest].
  - unfold Cursor.multipartCatch, bind, onProgress, record, throw.
    cbn [snd log logEntry].
    exists ([Emit (mkProgress filePath 0 size 0 None None failed)] ++ new0).
    split; [rewrite Hlog0; reflexivity |].
    apply answered_more; [| assumption].
    repeat constructor.
Qed.

(** * What a chunked call issues and finalizes *)

Lemma planned_any_skip file size total ident skip e :
  plannedEntry file size total ident skip e ->
  plannedEntry file size total ident [] e.
Proof.
  destruct e as [[] | | | |]; cbn; auto.
  intros (H1 & H2 & _). split; [exact H1 |]. split; [exact H2 |].
  apply not_elem_of_nil.
Qed.

Lemma uploadsIssued_planned file size total ident skip new :
  Forall (plannedEntry file size total ident skip) new ->
  Forall (fun n => 1 <= n <= total /\ (n ∉ skip)) (uploadsIssued new).
Proof.
  intros Hf. unfold uploadsIssued.
  apply Forall_rev in Hf. induction Hf as [| e es He _ IH]; [constructor |].
  rewrite omap_cons_option.
  destruct e as [[] | | | |]; cbn [option_list app]; try exact IH.
  constructor; [| exact IH]. destruct He as (_ & H1 & H2). auto.
Qed.

(** X7.  In a chunked call of either manager, whatever the backend
    answers, whichever promise settles first and whoever calls in between:
    every seek and read on the file and every part upload is for a planned
    part, a part number from 1 to [totalParts]; the seek goes to the offset
    of that part, the read asks for its length, and the upload is sent
    under the bucket and key of the call and one upload id. *)
Theorem part_operations_follow_the_plan env bucket key filePath size rid
    (w : Gap.W) (v : Cursor.W) :
  let total := totalPartsFor size in
  (exists r w1 new id,
     Gap.multipartUpload env bucket key filePath size rid w = (r, w1) /\
     log w1 = new ++ log w /\
     Forall (plannedEntry filePath size total (bucket, key, id) []) new) /\
  (exists r v1 new id,
     Cursor.multipartUpload env bucket key filePath size rid v = (r, v1) /\
     log v1 = new ++ log v /\
     Forall (plannedEntry filePath size total (bucket, key, id) []) new).
Proof.
  cbv zeta. split.
  - destruct (Gap_multipartUpload_outcome env bucket key filePath size rid w)
      as (r & w1 & new & id & listed & E & Hlog & _ & [Hf _] & _).
    exists r, w1, new, id. split; [exact E |]. split; [exact Hlog |].
    eapply Forall_impl; [exact Hf | apply planned_any_skip].
  - destruct (Cursor_multipartUpload_outcome env bucket key filePath size rid v)
      as (r & v1 & new & id & listed & E & Hlog & _ & [Hf _] & _).
    exists r, v1, new, id. auto.
Qed.

Lemma answered_only resumes new b k id parts :
  answered resumes new ->
  Settle (ListParts b k id) (WithParts parts) ∈ new ->
  startsFrom resumes new = parts.
Proof.
  intros [Hlen Hnone] Hin.
  assert (parts ∈ omap getListing new) as Hp
    by (apply list_elem_of_omap; eexists; split; [exact Hin | reflexivity]).
  destruct resumes;
    [| rewrite (Hnone eq_refl) in Hp; apply elem_of_nil in Hp; contradiction].
  unfold startsFrom, listedIn.
  destruct (omap getListing new) as [| p [| q ps]];
    [apply elem_of_nil in Hp; contradiction | | cbn in Hlen; lia].
  apply list_elem_of_singleton in Hp. subst p. reflexivity.
Qed.

Lemma answered_none new b k id r :
  omap getListing new = [] -> Settle (ListParts b k id) r ∉ new.
Proof.
  intros Hnone Hin.
  assert ((match r with WithParts parts => parts | _ => [] end)
          ∈ omap getListing new) as Hp
    by (apply list_elem_of_omap; eexists; split; [exact Hin | reflexivity]).
  rewrite Hnone in Hp. apply elem_of_nil in Hp. exact Hp.
Qed.

(** X8.  A chunked call of the gap-scanning manager never issues the
    upload of a part that the backend listed: whatever parts an answer to
    [ListParts] in the history of the call holds, none of them is uploaded
    in that history.  A call that initiates a transfer gets no such
    answer. *)
Theorem gap_never_uploads_a_listed_part env bucket key filePath size rid
    (w : Gap.W) :
  let resumes :=
    truthy rid
    || bool_decide (is_Some (uploadStates w !! stateKey bucket key)) in
  exists r w1 new,
    Gap.multipartUpload env bucket key filePath size rid w = (r, w1) /\
    log w1 = new ++ log w /\
    (forall b k id parts,
       Settle (ListParts b k id) (WithParts parts) ∈ new ->
       Forall (fun n => n ∉ PartNumber <$> parts) (uploadsIssued new)) /\
    (resumes = false ->
     forall b k id answer, Settle (ListParts b k id) answer ∉ new).
Proof.
  cbv zeta.
  destruct (Gap_multipartUpload_listed env bucket key filePath size rid w)
    as (r & w1 & new & id & E & Hlog & _ & [Hf _] & _).
  destruct (Gap_multipartUpload_answers env bucket key filePath size rid w)
    as (new' & Hlog' & Hans).
  rewrite E in Hlog'. cbn [snd] in Hlog'. rewrite Hlog in Hlog'.
  apply app_inv_tail in Hlog'. subst new'.
  exists r, w1, new. split; [exact E |]. split; [exact Hlog |]. split.
  - intros b k id' parts Hin.
    rewrite <- (answered_only _ new b k id' parts Hans Hin).
    eapply Forall_impl; [apply (uploadsIssued_planned _ _ _ _ _ _ Hf) |].
    cbn. intros n [_ Hn]. exact Hn.
  - intros Hres b k id' answer. apply answered_none.
    destruct Hans as [_ Hnone]. apply Hnone, Hres.
Qed.

(** The call that resumes the 25 MiB upload of which the backend lists the
    parts 2 and 4 starts from these two parts and uploads the other
    three. *)
Example resumed_call_uploads_the_unlisted_parts :
  let run :=
    Gap.multipartUpload (calmEnv (25 * MiB) [mkPart 2 "e2"; mkPart 4 "e4"])
      "b" "k" "f" (25 * MiB) (Some "upload-1") gapWorld24 in
  omap getListing (log run.2) = [[mkPart 2 "e2"; mkPart 4 "e4"]] /\
  uploadsIssued (log run.2) = [1; 3; 5].
Proof. vm_compute. split; reflexivity. Qed.

(** X9.  In a chunked call of either manager, at no time are more than
    [MAX_CONCURRENT_UPLOADS] part uploads issued and not yet settled. *)
Theorem at_most_three_uploads_in_flight env bucket key filePath size rid
    (w : Gap.W) (v : Cursor.W) :
  (exists r w1 new,
     Gap.multipartUpload env bucket key filePath size rid w = (r, w1) /\
     log w1 = new ++ log w /\ peak new <= MAX_CONCURRENT_UPLOADS) /\
  (exists r v1 new,
     Cursor.multipartUpload env bucket key filePath size rid v = (r, v1) /\
     log v1 = new ++ log v /\ peak new <= MAX_CONCURRENT_UPLOADS).
Proof.
  split.
  - destruct (Gap_multipartUpload_outcome env bucket key filePath size rid w)
      as (r & w1 & new & id & listed & E & Hlog & _ & [_ Hp] & _).
    exists r, w1, new. auto.
  - destruct (Cursor_multipartUpload_outcome env bucket key filePath size rid v)
      as (r & v1 & new & id & listed & E & Hlog & _ & [_ Hp] & _).
    exists r, v1, new. auto.
Qed.

Lemma seq_sorted start len : StronglySorted le (seq start len).
Proof.
  revert start. induction len as [| len IH]; intros start; cbn [seq];
    constructor; [apply IH |].
  apply List.Forall_forall. intros x Hx. apply in_seq in Hx. lia.
Qed.

Lemma numbers_are_the_plan parts total :
  ascending parts ->
  PartNumber <$> parts ≡ₚ seq 1 total ->
  PartNumber <$> parts = seq 1 total.
Proof.
  intros Hasc Hperm.
  apply (StronglySorted_unique le); [| apply seq_sorted | exact Hperm].
  apply (StronglySorted_fmap _ (fun a b => PartNumber a <= PartNumber b));
    [auto | exact Hasc].
Qed.

Lemma plan_by_counting (numbers : list nat) total :
  NoDup numbers -> Forall (fun n => 1 <= n <= total) numbers ->
  List.length numbers = total ->
  numbers ≡ₚ seq 1 total.
Proof.
  intros Hnd Hr Hlen. apply submseteq_length_Permutation.
  - apply NoDup_submseteq; [exact Hnd |].
    intros x Hx. rewrite Forall_forall in Hr. specialize (Hr x Hx).
    apply list_elem_of_In, in_seq. lia.
  - rewrite length_seq. lia.
Qed.

(** X10.  When a chunked call of the gap-scanning manager completes, it
    has finalized the transfer with exactly the planned parts, each once,
    in ascending order: whatever was retried, paused over or uploaded out
    of order on the way.  For a call that resumes a transfer this needs a
    backend that lists the stored parts properly. *)
Theorem gap_completed_call_finalizes_the_plan env bucket key filePath size
    rid (w : Gap.W) :
  let total := totalPartsFor size in
  let resumes :=
    truthy rid
    || bool_decide (is_Some (uploadStates w !! stateKey bucket key)) in
  (resumes = true ->
   forall lg id parts,
     reply env lg (ListParts bucket key id) = WithParts parts ->
     properListing total parts) ->
  exists r w1 new,
    Gap.multipartUpload env bucket key filePath size rid w = (r, w1) /\
    log w1 = new ++ log w /\
    (r = Return Completed ->
     exists parts,
       finalizedWith new = Some parts /\
       PartNumber <$> parts = seq 1 total).
Proof.
  cbv zeta. intros Hproper.
  destruct (Gap_multipartUpload_outcome env bucket key filePath size rid w)
    as (r & w1 & new & id & listed & E & Hlog & Hlisted & _ & Hdone).
  exists r, w1, new. split; [exact E |]. split; [exact Hlog |].
  intros Hr.
  destruct (Hdone Hr) as (parts & done & Hf & Hlen & Hperm & Hnd & Hpl & Hasc).
  assert (properListing (totalPartsFor size) listed)
    as (Hlasc & Hlnd & Hlr).
  { unfold listedBy in Hlisted.
    destruct (_ || _) eqn:Hres.
    - destruct Hlisted as [-> | (lg & id' & Hrep)];
        [repeat constructor | eapply Hproper; eauto].
    - subst listed. repeat constructor. }
  exists parts. split; [exact Hf |].
  apply numbers_are_the_plan; [apply Hasc, Hlasc |].
  apply plan_by_counting.
  - rewrite Hperm. apply NoDup_app. split; [exact Hlnd |].
    split; [| exact Hnd].
    intros x Hx Hx'. rewrite Forall_forall in Hpl.
    destruct (Hpl x Hx') as [_ Hno]. contradiction.
  - rewrite Hperm. apply Forall_app. split; [exact Hlr |].
    eapply Forall_impl; [exact Hpl |]. cbn. intros n [Hn _]. exact Hn.
  - rewrite length_fmap. exact Hlen.
Qed.

Lemma gap_completed_call_finalizes_the_plan_witness :
  let env := calmEnv (25 * MiB) [mkPart 2 "e2"; mkPart 4 "e4"] in
  (forall lg id parts,
     reply env lg (ListParts "b" "k" id) = WithParts parts ->
     properListing (totalPartsFor (25 * MiB)) parts) /\
  exists r w1 new,
    Gap.multipartUpload env "b" "k" "f" (25 * MiB) (Some "upload-1")
      gapWorld24 = (r, w1) /\
    log w1 = new ++ log gapWorld24 /\
    (r = Return Completed ->
     exists parts,
       finalizedWith new = Some parts /\
       PartNumber <$> parts = seq 1 (totalPartsFor (25 * MiB))).
Proof.
  cbv zeta.
  assert (forall lg id parts,
            reply (calmEnv (25 * MiB) [mkPart 2 "e2"; mkPart 4 "e4"]) lg
              (ListParts "b" "k" id) = WithParts parts ->
            properListing (totalPartsFor (25 * MiB)) parts) as Hproper.
  { intros lg id parts Hrep. cbn in Hrep. inversion Hrep; subst parts.
    split; [| split].
    - repeat constructor.
    - cbn. apply NoDup_cons. split; [| apply NoDup_singleton].
      intros H. apply list_elem_of_singleton in H. discriminate.
    - cbn. repeat constructor; vm_compute; lia. }
  split; [exact Hproper |].
  apply (gap_completed_call_finalizes_the_plan
           (calmEnv (25 * MiB) [mkPart 2 "e2"; mkPart 4 "e4"])
           "b" "k" "f" (25 * MiB) (Some "upload-1") gapWorld24).
  intros _. exact Hproper.
Defined.

(** X11.  A chunked call of the cursor-only manager gets at most one
    answer to [ListParts], and none when it starts a new transfer.  When
    the call completes, it has finalized the transfer with the parts in
    that answer, each with the [ETag] it was listed with, together with one
    part for each number from the one after as many as were listed up to
    the last planned one; the parts are in ascending order if the listed
    ones were.  A call that starts a new transfer has so finalized with
    exactly the planned parts, each once, in ascending order. *)
Theorem cursor_completed_call_finalizes_listed_and_rest env bucket key
    filePath size rid (v : Cursor.W) :
  let total := totalPartsFor size in
  let resumes :=
    truthy rid
    || bool_decide (is_Some (uploadStates v !! stateKey bucket key)) in
  exists r v1 new,
    Cursor.multipartUpload env bucket key filePath size rid v = (r, v1) /\
    log v1 = new ++ log v /\
    answered resumes new /\
    let listed := listedIn new in
    (r = Return Completed ->
     exists parts fresh,
       finalizedWith new = Some parts /\
       parts ≡ₚ listed ++ fresh /\
       PartNumber <$> fresh
       ≡ₚ seq (List.length listed + 1) (total - List.length listed) /\
       (ascending listed -> ascending parts) /\
       (resumes = false -> PartNumber <$> parts = seq 1 total)).
Proof.
  cbv zeta.
  destruct (Cursor_multipartUpload_listed env bucket key filePath size rid v)
    as (r & v1 & new & id & E & Hlog & Hlisted & [_ Hdone] & Hkept).
  destruct (Cursor_multipartUpload_answers env bucket key filePath size rid v)
    as (new' & Hlog' & Hans).
  rewrite E in Hlog'. cbn [snd] in Hlog'. rewrite Hlog in Hlog'.
  apply app_inv_tail in Hlog'. subst new'.
  exists r, v1, new. split; [exact E |]. split; [exact Hlog |].
  split; [exact Hans |].
  rewrite (answered_listedIn _ new Hans) in Hdone, Hkept.
  intros Hr. destruct (Hdone Hr) as (parts & Hf & Hperm & Hasc).
  destruct (Hkept Hr) as (parts' & Hf' & Hsub).
  rewrite Hf in Hf'. inversion Hf'; subst parts'.
  apply submseteq_Permutation in Hsub. destruct Hsub as (fresh & Hfresh).
  assert (PartNumber <$> fresh
          ≡ₚ seq (List.length (listedIn new) + 1)
               (totalPartsFor size - List.length (listedIn new))) as Hrest.
  { rewrite Hfresh, fmap_app in Hperm.
    apply Permutation_app_inv_l in Hperm. exact Hperm. }
  exists parts, fresh. split; [exact Hf |]. split; [exact Hfresh |].
  split; [exact Hrest |]. split; [exact Hasc |].
  intros Hres. destruct Hans as [_ Hnone].
  assert (listedIn new = []) as Hnil
    by (unfold listedIn; rewrite (Hnone Hres); reflexivity).
  rewrite Hnil in *.
  apply numbers_are_the_plan; [apply Hasc; constructor |].
  rewrite Hfresh. cbn [app]. rewrite Hrest. cbn. rewrite Nat.sub_0_r.
  reflexivity.
Qed.

(** The call that resumes the 25 MiB upload of which the backend lists the
    parts 2 and 4 finalizes with these two parts as they were listed and
    with the parts 3, 4 and 5 that it uploaded. *)
Example resumed_call_finalizes_the_listed_parts :
  let run :=
    Cursor.multipartUpload
      (calmEnv (25 * MiB) [mkPart 2 "e2"; mkPart 4 "e4"])
      "b" "k" "f" (25 * MiB) (Some "upload-1") cursorWorld24 in
  run.1 = Return Completed /\
  listedIn (log run.2) = [mkPart 2 "e2"; mkPart 4 "e4"] /\
  finalizedWith (log run.2)
  = Some [mkPart 2 "e2"; mkPart 3 "etag"; mkPart 4 "e4"; mkPart 4 "etag";
          mkPart 5 "etag"].
Proof. vm_compute. repeat split; reflexivity. Qed.

(** * Progress reports stay within the file *)

Lemma partEvent_within size p :
  (0 <= size)%Z -> partEvent size p -> reportsWithin size (Emit p).
Proof.
  intros Hs (fp & n & ->). cbn. split; [reflexivity |]. intros _.
  assert (0 < PART_SIZE)%Z as Hp by reflexivity.
  unfold withinTotal; cbn. split; [lia |].
  unfold pct. rewrite Qred_correct. split.
  - apply Q.min_glb; [| discriminate].
    apply Qmult_le_0_compat; [| discriminate].
    apply Qmult_le_0_compat.
    + unfold ZtoQ. rewrite <- (Zle_Qle 0). lia.
    + apply Qinv_le_0_compat. unfold ZtoQ. rewrite <- (Zle_Qle 0). exact Hs.
  - apply Q.le_min_r.
Qed.

Lemma reportsWithin_call size e : callEntry e -> reportsWithin size e.
Proof. destruct e; simpl; auto. contradiction. Qed.

Lemma reportsWithin_total size e : reportsWithin size e -> reportsWithinTotal e.
Proof. destruct e; simpl; auto. intros [_ H]. exact H. Qed.

(** The entries of [multipartUpload] outside the transfer loop, one
    hypothesis for each of them. *)
Section GapShaped.
Variables (env : Env) (P : Entry -> Prop) (size : Z) (filePath : string).
Hypothesis P_call : forall e, callEntry e -> P e.
Hypothesis P_settle : forall o r, P (Settle o r).
Hypothesis P_partOp : forall o, partOp o -> P (Issue o).
Hypothesis P_part : forall p, partEvent size p -> P (Emit p).
Hypothesis P_failed : P (Emit (mkProgress filePath 0 size 0 None None failed)).
Hypothesis P_paused : forall n total,
  P (Emit (mkProgress filePath (Z.of_nat n * PART_SIZE) size
             (pct (ZtoQ (Z.of_nat n) / ZtoQ (Z.of_nat total) * 100))
             (Some n) (Some total) paused)).
Hypothesis P_completed : forall total,
  P (Emit (mkProgress filePath size size 100 (Some total) (Some total)
             completed)).
Hypothesis P_complete : forall b k id parts,
  P (Issue (CompleteMultipartUpload b k id parts)).

Local Abbreviation R := (@logged Gap.UploadState P).

Lemma Gap_multipartCatch_shaped state e :
  preserves R (Gap.multipartCatch state filePath size e).
Proof.
  unfold Gap.multipartCatch. pres (@logged Gap.UploadState P).
Qed.

Lemma Gap_finishUpload_shaped k l total :
  preserves R (Gap.finishUpload env k filePath l total size).
Proof.
  unfold Gap.finishUpload, Gap.completeMultipartUpload, Gap.awaitOk.
  pres (@logged Gap.UploadState P); try pres_await; auto.
Qed.

Lemma Gap_transferBody_shaped k l total fuel :
  preserves R
    (exec Gap.transferLoop env fuel filePath l total size in
     Gap.finishUpload env k filePath l total size).
Proof.
  pres (@logged Gap.UploadState P);
    [apply Gap_transferLoop_logged; assumption | apply Gap_finishUpload_shaped].
Qed.

Hypothesis P_start : forall o,
  match o with
  | CreateMultipartUpload _ _ | ListParts _ _ _ => True
  | _ => False
  end -> P (Issue o).

Lemma Gap_starting_shaped bucket key rid (resumes : bool) :
  preserves R
    (if resumes
     then Gap.resumeMultipartUpload env bucket key filePath size rid
     else Gap.initiateMultipartUpload env bucket key filePath size).
Proof.
  unfold Gap.resumeMultipartUpload, Gap.initiateMultipartUpload, Gap.awaitOk.
  pres (@logged Gap.UploadState P); try pres_await; auto;
    try (apply P_start; exact I).
Qed.

Hypothesis P_open : P (Issue (DenoOpen filePath)).
Hypothesis P_close : P (FileClose filePath).

Lemma Gap_multipartUpload_shaped bucket key rid :
  preserves R (Gap.multipartUpload env bucket key filePath size rid).
Proof.
  unfold Gap.multipartUpload. cbv zeta.
  apply (preserves_bind R).
  - apply (preserves_attempt R). apply (preserves_bind R).
    + apply (preserves_getWorld R).
    + intros w0. apply Gap_starting_shaped.
  - intros [l | e]; [| apply Gap_multipartCatch_shaped].
    apply (preserves_tryCatch R); [| intros e; apply Gap_multipartCatch_shaped].
    unfold Gap.awaitOk.
    pres (@logged Gap.UploadState P); try pres_await; auto.
    apply (preserves_tryFinally R).
    + apply Gap_transferBody_shaped.
    + intros w. apply logged_entry, P_close.
Qed.
End GapShaped.

Section CursorShaped.
Variables (env : Env) (P : Entry -> Prop) (size : Z) (filePath : string).
Hypothesis P_call : forall e, callEntry e -> P e.
Hypothesis P_settle : forall o r, P (Settle o r).
Hypothesis P_partOp : forall o, partOp o -> P (Issue o).
Hypothesis P_part : forall p, partEvent size p -> P (Emit p).
Hypothesis P_failed : P (Emit (mkProgress filePath 0 size 0 None None failed)).
Hypothesis P_paused : forall n total,
  P (Emit (mkProgress filePath (Z.of_nat n * PART_SIZE) size
             (pct (ZtoQ (Z.of_nat n) / ZtoQ (Z.of_nat total) * 100))
             (Some n) (Some total) paused)).
Hypothesis P_completed : forall total,
  P (Emit (mkProgress filePath size size 100 (Some total) (Some total)
             completed)).
Hypothesis P_complete : forall b k id parts,
  P (Issue (CompleteMultipartUpload b k id parts)).

Local Abbreviation R := (@logged Cursor.UploadState P).

Lemma Cursor_multipartCatch_shaped e :
  preserves R (Cursor.multipartCatch filePath size e).
Proof.
  unfold Cursor.multipartCatch. pres (@logged Cursor.UploadState P).
Qed.

Lemma Cursor_finishUpload_shaped k l total :
  preserves R (Cursor.finishUpload env k filePath l total size).
Proof.
  unfold Cursor.finishUpload, Cursor.completeMultipartUpload, Cursor.awaitOk.
  pres (@logged Cursor.UploadState P); try pres_await; auto.
Qed.

Lemma Cursor_transferBody_shaped k l total fuel :
  preserves R
    (exec Cursor.transferLoop env fuel filePath l total size in
     Cursor.finishUpload env k filePath l total size).
Proof.
  pres (@logged Cursor.UploadState P);
    [apply Cursor_transferLoop_logged; assumption
    | apply Cursor_finishUpload_shaped].
Qed.

Hypothesis P_start : forall o,
  match o with
  | CreateMultipartUpload _ _ | ListParts _ _ _ => True
  | _ => False
  end -> P (Issue o).

Lemma Cursor_starting_shaped bucket key rid (resumes : bool) :
  preserves R
    (if resumes
     then Cursor.resumeMultipartUpload env bucket key filePath size rid
     else Cursor.initiateMultipartUpload env bucket key filePath size).
Proof.
  unfold Cursor.resumeMultipartUpload, Cursor.initiateMultipartUpload,
    Cursor.awaitOk.
  pres (@logged Cursor.UploadState P); try pres_await; auto;
    try (apply P_start; exact I).
Qed.

Hypothesis P_open : P (Issue (DenoOpen filePath)).
Hypothesis P_close : P (FileClose filePath).

Lemma Cursor_multipartUpload_shaped bucket key rid :
  preserves R (Cursor.multipartUpload env bucket key filePath size rid).
Proof.
  unfold Cursor.multipartUpload. cbv zeta.
  apply (preserves_tryCatch R); [| intros e; apply Cursor_multipartCatch_shaped].
  apply (preserves_bind R); [apply (preserves_getWorld R) |].
  intros w0. apply (preserves_bind R); [apply Cursor_starting_shaped |].
  intros l. unfold Cursor.awaitOk.
  pres (@logged Cursor.UploadState P); try pres_await; auto.
  apply (preserves_tryFinally R).
  - apply Cursor_transferBody_shaped.
  - intros w. apply logged_entry, P_close.
Qed.
End CursorShaped.

Lemma simpleUpload_within {St} env (runCall : Call -> World St -> World St)
    bucket key filePath size :
  (forall c w, logged callEntry w (runCall c w)) ->
  (0 <= size)%Z ->
  preserves (logged (reportsWithin size))
    (simpleUpload env runCall bucket key filePath size).
Proof.
  intros Hcall Hs. unfold simpleUpload.
  pres (@logged St (reportsWithin size));
    try (apply logged_awaitOk;
         [exact Hcall | apply reportsWithin_call | exact I | intros; exact I]);
    (split; [reflexivity |]; intros _; unfold withinTotal; cbn;
     repeat split; (lia || discriminate || apply Qle_refl)).
Qed.

Lemma statSize_within {St} env (runCall : Call -> World St -> World St)
    filePath (w : World St) :
  (forall c w, logged callEntry w (runCall c w)) ->
  (forall c w, noNewKey w (runCall c w)) ->
  sizesAreNatural env ->
  exists r w1,
    statSize env runCall filePath w = (r, w1) /\
    (forall size, logged (reportsWithin size) w w1) /\
    match r with
    | Return size => (0 <= size)%Z
    | Throw _ => True
    end.
Proof.
  intros Hcall Hkey Hnat.
  destruct (await_spec env runCall Hcall Hkey (DenoStat filePath) w)
    as (mid & w1 & Fmid & _ & Hlog & Haw).
  unfold statSize, bind. rewrite Haw.
  assert (forall size, logged (reportsWithin size) w w1) as Hl.
  { intros size. exists (Settle (DenoStat filePath)
                           (reply env (mid ++ Issue (DenoStat filePath) :: log w)
                              (DenoStat filePath))
                         :: mid ++ [Issue (DenoStat filePath)]).
    split.
    - rewrite Hlog. cbn [app]. rewrite <- app_assoc. reflexivity.
    - constructor; [exact I |]. apply Forall_app. split.
      + eapply Forall_impl; [exact Fmid |]. intros e. apply reportsWithin_call.
      + repeat constructor. }
  destruct (reply env _ _) eqn:Er;
    eexists _, _; (split; [reflexivity |]); (split; [exact Hl |]);
    try exact I.
  exact (Hnat _ _ _ Er).
Qed.

Lemma Gap_multipartUpload_within env bucket key filePath size rid :
  (0 <= size)%Z ->
  preserves (logged (reportsWithin size))
    (Gap.multipartUpload env bucket key filePath size rid).
Proof.
  intros Hs. apply Gap_multipartUpload_shaped;
    try (intros; exact I); try exact I.
  - apply reportsWithin_call.
  - intros p. apply partEvent_within, Hs.
  - split; [reflexivity |]. intros _. unfold withinTotal; cbn.
    repeat split; (lia || discriminate).
  - intros n total. split; [reflexivity |]. intros H. now contradiction H.
  - intros total. split; [reflexivity |]. intros _. unfold withinTotal; cbn.
    repeat split; (lia || discriminate || apply Qle_refl).
Qed.

Lemma Cursor_multipartUpload_within env bucket key filePath size rid :
  (0 <= size)%Z ->
  preserves (logged (reportsWithin size))
    (Cursor.multipartUpload env bucket key filePath size rid).
Proof.
  intros Hs. apply Cursor_multipartUpload_shaped;
    try (intros; exact I); try exact I.
  - apply reportsWithin_call.
  - intros p. apply partEvent_within, Hs.
  - split; [reflexivity |]. intros _. unfold withinTotal; cbn.
    repeat split; (lia || discriminate).
  - intros n total. split; [reflexivity |]. intros H. now contradiction H.
  - intros total. split; [reflexivity |]. intros _. unfold withinTotal; cbn.
    repeat split; (lia || discriminate || apply Qle_refl).
Qed.

(** X12. Whatever the backend answers and whoever calls in, as long as
    [Deno.stat] answers no negative size: all progress reports of one call of
    [uploadFile] carry one and the same total, and every report but the
    [paused] one has its bytes between 0 and that total and its percentage
    between 0 and 100; in both managers. *)
Theorem progress_stays_within_the_file env bucket key filePath
    (w : Gap.W) (v : Cursor.W) :
  sizesAreNatural env ->
  (exists size,
     logged (reportsWithin size) w
       (Gap.uploadFile env bucket key filePath w).2) /\
  (exists size,
     logged (reportsWithin size) v
       (Cursor.uploadFile env bucket key filePath v).2).
Proof.
  intros Hnat. split.
  - destruct (statSize_within env (Gap.runCall env) filePath w
                (Gap_runCall_logged env) (Gap_runCall_noNewKey env) Hnat)
      as (r & w1 & E & Hl & Hr).
    unfold Gap.uploadFile, bind at 1. rewrite E.
    destruct r as [size | e]; [| exists 0%Z; apply Hl].
    exists size. etransitivity; [apply Hl |].
    destruct (size <? MULTIPART_THRESHOLD)%Z eqn:Hlt.
    + apply (preserves_bind (logged (reportsWithin size))).
      * apply simpleUpload_within; [apply Gap_runCall_logged | exact Hr].
      * intros _. apply (preserves_ret (logged (reportsWithin size))).
    + apply Gap_multipartUpload_within, Hr.
  - destruct (statSize_within env (Cursor.runCall env) filePath v
                (Cursor_runCall_logged env) (Cursor_runCall_noNewKey env) Hnat)
      as (r & w1 & E & Hl & Hr).
    unfold Cursor.uploadFile, bind at 1. rewrite E.
    destruct r as [size | e]; [| exists 0%Z; apply Hl].
    exists size. etransitivity; [apply Hl |].
    destruct (size <? MULTIPART_THRESHOLD)%Z eqn:Hlt.
    + apply (preserves_bind (logged (reportsWithin size))).
      * apply simpleUpload_within; [apply Cursor_runCall_logged | exact Hr].
      * intros _. apply (preserves_ret (logged (reportsWithin size))).
    + apply Cursor_multipartUpload_within, Hr.
Qed.

Lemma progress_stays_within_the_file_witness :
  sizesAreNatural (calmEnv (12 * MiB) []) /\
  exists size,
    logged (reportsWithin size) emptyWorld
      (Gap.uploadFile (calmEnv (12 * MiB) []) "b" "k" "f" emptyWorld).2.
Proof.
  assert (sizesAreNatural (calmEnv (12 * MiB) [])) as H.
  { intros lg f s E. cbn in E. inversion E. discriminate. }
  split; [exact H |].
  exact (proj1 (progress_stays_within_the_file _ "b" "k" "f"
                  emptyWorld emptyWorld H)).
Defined.

(** * The file handle is closed when it was opened *)

Lemma offHandle_call e : callEntry e -> offHandle e.
Proof.
  destruct e as [o | o r | p | f | c]; try destruct o; intros H;
    try contradiction; reflexivity.
Qed.

Lemma closedOnce_more filePath ropen more after :
  Forall offHandle more ->
  closedOnce filePath ropen after ->
  closedOnce filePath ropen (more ++ after).
Proof.
  intros Hm. destruct ropen; cbn [closedOnce];
    try (intros (last & body & -> & Hl & Hb);
         exists (more ++ last), body;
         split; [apply app_assoc |]; split; [apply Forall_app; auto | exact Hb]).
  intros Ha. apply Forall_app; auto.
Qed.

(** From the registration to the end of the [finally]. *)
Lemma handle_opened {St} env (runCall : Call -> World St -> World St)
    filePath k l (body : M St Exit) :
  (forall c w, logged callEntry w (runCall c w)) ->
  (forall c w, noNewKey w (runCall c w)) ->
  preserves (logged offHandle) body ->
  forall w,
  exists after mid ropen,
    log ((exec registrySet k l in
          exec awaitOk env runCall (DenoOpen filePath) in
          tryFinally body (logEntry (FileClose filePath))) w).2
    = after ++ Settle (DenoOpen filePath) ropen
            :: mid ++ Issue (DenoOpen filePath) :: log w /\
    Forall callEntry mid /\
    closedOnce filePath ropen after.
Proof.
  intros Hcall Hkey Hbody w.
  unfold bind at 1, registrySet, update. cbv iota beta.
  set (w0 := mkWorld _ _ _).
  destruct (awaitOk_spec env runCall Hcall Hkey (DenoOpen filePath) w0)
    as (mid & w1 & r & Fmid & _ & _ & Hlog & _ & E).
  change (log w0) with (log w) in Hlog.
  unfold bind. rewrite E.
  assert (forall x, (let '(r0, w2) := body w1 in
                     (r0, logEntry (FileClose filePath) w2)) = x ->
            exists b, log x.2 = (FileClose filePath :: b) ++ log w1 /\
                      Forall offHandle b) as Hrun.
  { intros x <-. destruct (Hbody w1) as (b & Eb & Fb).
    destruct (body w1) as [r0 w2]. exists b. split; [| exact Fb].
    cbn in *. rewrite Eb. reflexivity. }
  destruct r;
    [ exists [], mid, Failure; split; [exact Hlog |]; split;
      [exact Fmid | constructor]
    | .. ];
    unfold tryFinally;
    (edestruct Hrun as (b & Eb & Fb); [reflexivity |]);
    eexists (FileClose filePath :: b), mid, _;
    (split; [rewrite Eb, Hlog; reflexivity |]);
    (split; [exact Fmid |]);
    exists [], b; (split; [reflexivity |]); (split; [constructor | exact Fb]).
Qed.

Lemma handle_caught {St} filePath (m : M St Exit) (h : Error -> M St Exit) lg0 :
  (forall e, preserves (logged offHandle) (h e)) ->
  forall w,
  (exists after mid ropen,
     log (m w).2 = after ++ Settle (DenoOpen filePath) ropen
                     :: mid ++ Issue (DenoOpen filePath) :: lg0 /\
     Forall callEntry mid /\ closedOnce filePath ropen after) ->
  exists after mid ropen,
    log (tryCatch m h w).2
    = after ++ Settle (DenoOpen filePath) ropen
            :: mid ++ Issue (DenoOpen filePath) :: lg0 /\
    Forall callEntry mid /\ closedOnce filePath ropen after.
Proof.
  intros Hh w (after & mid & ropen & Hlog & Fmid & Hc).
  unfold tryCatch. destruct (m w) as [[x | e] w1]; cbn [snd] in *.
  - exists after, mid, ropen. auto.
  - destruct (Hh e w1) as (more & Em & Fm).
    exists (more ++ after), mid, ropen. split; [| split; [exact Fmid |]].
    + rewrite Em, Hlog. apply app_assoc.
    + apply closedOnce_more; assumption.
Qed.

Ltac off_handle :=
  first [ exact offHandle_call
        | intros [] ?; try contradiction; reflexivity
        | intros; reflexivity ].

Lemma Gap_starting_handle env bucket key filePath size rid (resumes : bool) :
  preserves (logged offHandle)
    (if resumes
     then Gap.resumeMultipartUpload env bucket key filePath size rid
     else Gap.initiateMultipartUpload env bucket key filePath size).
Proof. apply Gap_starting_shaped; off_handle. Qed.

Lemma Gap_multipartCatch_handle state filePath size e :
  preserves (logged offHandle) (Gap.multipartCatch state filePath size e).
Proof. apply Gap_multipartCatch_shaped; off_handle. Qed.

Lemma Gap_transferBody_handle env k filePath l total size fuel :
  preserves (logged offHandle)
    (exec Gap.transferLoop env fuel filePath l total size in
     Gap.finishUpload env k filePath l total size).
Proof. apply Gap_transferBody_shaped; off_handle. Qed.

Lemma Gap_multipartUpload_handle env bucket key filePath size rid (w : Gap.W) :
  exists new,
    log (Gap.multipartUpload env bucket key filePath size rid w).2
    = new ++ log w /\
    handleHistory filePath new.
Proof.
  unfold Gap.multipartUpload. cbv zeta. unfold bind at 1, attempt.
  unfold bind at 1, getWorld.
  pose proof (Gap_starting_handle env bucket key filePath size rid
                (truthy rid
                 || bool_decide (is_Some (uploadStates w !! stateKey bucket key)))
                w) as (before & Eb & Fb).
  case_run_eq l e w0 Es; cbn [snd] in Eb.
  2: { destruct (Gap_multipartCatch_handle None filePath size e w0)
         as (more & Em & Fm).
       exists (more ++ before). split.
       - rewrite Em, Eb. apply app_assoc.
       - left. apply Forall_app; auto. }
  destruct (handle_caught filePath
              (exec registrySet (stateKey bucket key) l in
               exec Gap.awaitOk env (DenoOpen filePath) in
               tryFinally
                 (exec Gap.transferLoop env (S (totalPartsFor size)) filePath l
                         (totalPartsFor size) size in
                  Gap.finishUpload env (stateKey bucket key) filePath l
                    (totalPartsFor size) size)
                 (logEntry (FileClose filePath)))
              (Gap.multipartCatch (Some l) filePath size) (log w0)
              (Gap_multipartCatch_handle (Some l) filePath size)
              w0) as (after & mid & ropen & Hlog & Fmid & Hclosed).
  { apply handle_opened;
      [apply Gap_runCall_logged | apply Gap_runCall_noNewKey |].
    apply Gap_transferBody_handle. }
  exists (after ++ Settle (DenoOpen filePath) ropen
            :: mid ++ Issue (DenoOpen filePath) :: before).
  split.
  - rewrite Hlog, Eb. rewrite <- !app_assoc. cbn [app].
    rewrite <- !app_assoc. reflexivity.
  - right. exists after, mid, before, ropen. auto.
Qed.

Lemma Cursor_starting_handle env bucket key filePath size rid (resumes : bool) :
  preserves (logged offHandle)
    (if resumes
     then Cursor.resumeMultipartUpload env bucket key filePath size rid
     else Cursor.initiateMultipartUpload env bucket key filePath size).
Proof. apply Cursor_starting_shaped; off_handle. Qed.

Lemma Cursor_multipartCatch_handle filePath size e :
  preserves (logged offHandle) (Cursor.multipartCatch filePath size e).
Proof. apply Cursor_multipartCatch_shaped; off_handle. Qed.

Lemma Cursor_transferBody_handle env k filePath l total size fuel :
  preserves (logged offHandle)
    (exec Cursor.transferLoop env fuel filePath l total size in
     Cursor.finishUpload env k filePath l total size).
Proof. apply Cursor_transferBody_shaped; off_handle. Qed.

Lemma Cursor_multipartUpload_handle env bucket key filePath size rid
    (w : Cursor.W) :
  exists new,
    log (Cursor.multipartUpload env bucket key filePath size rid w).2
    = new ++ log w /\
    handleHistory filePath new.
Proof.
  unfold Cursor.multipartUpload. cbv zeta.
  pose proof (Cursor_starting_handle env bucket key filePath size rid
                (truthy rid
                 || bool_decide (is_Some (uploadStates w !! stateKey bucket key)))
                w) as (before & Eb & Fb).
  unfold tryCatch. unfold bind at 1, getWorld. unfold bind at 1.
  case_run_eq l e w0 Es; cbn [snd] in Eb.
  2: { destruct (Cursor_multipartCatch_handle filePath size e w0)
         as (more & Em & Fm).
       exists (more ++ before). split.
       - rewrite Em, Eb. apply app_assoc.
       - left. apply Forall_app; auto. }
  destruct (handle_caught filePath
              (exec registrySet (stateKey bucket key) l in
               exec Cursor.awaitOk env (DenoOpen filePath) in
               tryFinally
                 (exec Cursor.transferLoop env (S (totalPartsFor size)) filePath
                         l (totalPartsFor size) size in
                  Cursor.finishUpload env (stateKey bucket key) filePath l
                    (totalPartsFor size) size)
                 (logEntry (FileClose filePath)))
              (Cursor.multipartCatch filePath size) (log w0)
              (Cursor_multipartCatch_handle filePath size)
              w0) as (after & mid & ropen & Hlog & Fmid & Hclosed).
  { apply handle_opened;
      [apply Cursor_runCall_logged | apply Cursor_runCall_noNewKey |].
    apply Cursor_transferBody_handle. }
  exists (after ++ Settle (DenoOpen filePath) ropen
            :: mid ++ Issue (DenoOpen filePath) :: before).
  split.
  - unfold tryCatch in Hlog. rewrite Hlog, Eb. rewrite <- !app_assoc. cbn [app].
    rewrite <- !app_assoc. reflexivity.
  - right. exists after, mid, before, ropen. auto.
Qed.

(** X13. In both managers, whatever the backend answers and whoever calls
    in, one call of [multipartUpload] either never touches the file handle
    or opens the file once; when [Deno.open] succeeded the file is closed
    exactly once afterwards, on every way out (completed, paused, aborted
    or thrown), and when it failed nothing is closed. *)
Theorem opened_file_is_closed_once env bucket key filePath size rid
    (w : Gap.W) (v : Cursor.W) :
  (exists new,
     log (Gap.multipartUpload env bucket key filePath size rid w).2
     = new ++ log w /\
     handleHistory filePath new) /\
  (exists new,
     log (Cursor.multipartUpload env bucket key filePath size rid v).2
     = new ++ log v /\
     handleHistory filePath new).
Proof.
  split;
    [apply Gap_multipartUpload_handle | apply Cursor_multipartUpload_handle].
Qed.

(** * The registry after a chunked call *)

#[global] Instance staysRegistered_preorder k l c :
  PreOrder (staysRegistered k l c).
Proof.
  split.
  - intros w H. exact H.
  - intros w1 w2 w3 H1 H2 H. apply H2, H1, H.
Qed.

Lemma staysRegistered_same k l c (w w1 : Gap.W) :
  heap w1 = heap w -> uploadStates w1 = uploadStates w ->
  staysRegistered k l c w w1.
Proof.
  intros Eh Eu [(st & Hl & Hc & Hr) | (st & Hl & Ha)].
  - left. exists st. rewrite Eh, Eu. auto.
  - right. exists st. rewrite Eh. auto.
Qed.

Lemma abortedAt_alter l l' f (w w1 : Gap.W) :
  (forall st, Gap.isAborted st = true -> Gap.isAborted (f st) = true) ->
  heap w1 = alter f l' (heap w) ->
  abortedAt l w -> abortedAt l w1.
Proof.
  intros Ha Eh (st & Hl & Hst). unfold abortedAt. rewrite Eh.
  destruct (decide (l' = l)) as [-> | Hne].
  - exists (f st). rewrite lookup_alter_eq, Hl. auto.
  - exists st. rewrite lookup_alter_ne by exact Hne. auto.
Qed.

Lemma registeredUnlessAborted_alter k l c l' f (w w1 : Gap.W) :
  (forall st, Gap.isAborted st = true -> Gap.isAborted (f st) = true) ->
  (forall st, gapTransferOf (f st) = gapTransferOf st) ->
  heap w1 = alter f l' (heap w) ->
  uploadStates w1 !! k = uploadStates w !! k ->
  registeredUnlessAborted k l c w -> registeredUnlessAborted k l c w1.
Proof.
  intros Ha Hc Eh Eu [(st & Hl & Hst & Hr) | Hg];
    [| right; apply (abortedAt_alter l l' f w); auto].
  left. rewrite Eh, Eu.
  destruct (decide (l' = l)) as [-> | Hne].
  - exists (f st). rewrite lookup_alter_eq, Hl, Hc. auto.
  - exists st. rewrite lookup_alter_ne by exact Hne. auto.
Qed.

Lemma staysRegistered_modify k l c l' f :
  (forall st, Gap.isAborted st = true -> Gap.isAborted (f st) = true) ->
  (forall st, gapTransferOf (f st) = gapTransferOf st) ->
  preserves (staysRegistered k l c) (modify l' f).
Proof.
  intros Ha Hc w Hg.
  apply (registeredUnlessAborted_alter k l c l' f w); auto.
Qed.

(** [abortUpload] sets the flag of the transfer it finds before it removes
    the entry. *)
Lemma registeredUnlessAborted_abort k l c l' key' (w w1 : Gap.W) :
  uploadStates w !! key' = Some l' ->
  heap w1 = alter (Gap.setAborted true) l' (heap w) ->
  uploadStates w1 = uploadStates w \/
  uploadStates w1 = delete key' (uploadStates w) ->
  registeredUnlessAborted k l c w -> registeredUnlessAborted k l c w1.
Proof.
  intros El' Eh Eu Hg.
  destruct (decide (key' = k)) as [-> | Hne].
  - right. destruct Hg as [(st & Hl & Hst & Hr) | Hg].
    + rewrite Hr in El'. injection El' as <-.
      exists (Gap.setAborted true st). rewrite Eh, lookup_alter_eq, Hl. auto.
    + apply (abortedAt_alter l l' (Gap.setAborted true) w); auto.
  - apply (registeredUnlessAborted_alter k l c l' (Gap.setAborted true) w);
      auto.
    destruct Eu as [-> | ->]; [reflexivity |].
    apply lookup_delete_ne. exact Hne.
Qed.

Ltac same_registry :=
  try (intros ?; apply staysRegistered_same; reflexivity).

Lemma Gap_runCall_staysRegistered env k l c call w :
  staysRegistered k l c w (Gap.runCall env call w).
Proof.
  destruct call as [b' k' | b' k']; cbn [Gap.runCall].
  - revert w. change (preserves (staysRegistered k l c) (Gap.pauseUpload b' k')).
    unfold Gap.pauseUpload. pres (staysRegistered k l c); same_registry.
    apply staysRegistered_modify; intros st; auto.
  - intros Hg.
    unfold Gap.abortUploadWith, bind at 1, getWorld at 1. cbv iota beta.
    destruct (uploadStates w !! stateKey b' k') as [l' |] eqn:El';
      [| exact Hg].
    apply (registeredUnlessAborted_abort k l c l' (stateKey b' k') w);
      [exact El' | | | exact Hg];
      unfold bind, modify, update, read, awaitAlone, bind, issue, record,
        settle, throw, registryDelete, update;
      cbn [fst snd heap uploadStates log logEntry];
      match goal with
      | |- context [reply env ?lg ?o] => destruct (reply env lg o)
      end; cbn [snd heap uploadStates]; auto.
Qed.

Lemma Gap_uploadPartResume_staysRegistered k l c file l' size t s o r :
  preserves (staysRegistered k l c)
    (Gap.uploadPartResume file l' size t s o r).
Proof.
  unfold Gap.uploadPartResume, Gap.uploadPartCatch, Gap.uploadPart.
  destruct s, r;
    try (pres (staysRegistered k l c); same_registry; fail).
  destruct (String.eqb id "");
    [pres (staysRegistered k l c); same_registry; fail |].
  intros w.
  unfold bind, read, write, modify, update, onProgress, record, ret.
  cbn [snd].
  match goal with
  | |- staysRegistered _ _ _ _ (logEntry _ ?w1) =>
      transitivity w1; [| apply staysRegistered_same; reflexivity]
  end.
  intros Hg.
  destruct (heap w !! l') as [st0 |] eqn:Hl'.
  - apply (registeredUnlessAborted_alter k l c l'
             (Gap.setUploadedParts
                (sortParts (Gap.uploadedParts st0
                            ++ [mkPart (partNumber t) id]))) w);
      auto.
    cbn [heap]. rewrite (lookup_total_correct _ _ _ Hl').
    apply map_eq. intros j. destruct (decide (j = l')) as [-> | Hne].
    + rewrite !lookup_alter_eq, Hl'. reflexivity.
    + rewrite !lookup_alter_ne by auto. reflexivity.
  - apply (registeredUnlessAborted_alter k l c l' (fun st => st) w); auto.
    cbn [heap]. apply map_eq. intros j.
    destruct (decide (j = l')) as [-> | Hne].
    + rewrite !lookup_alter_eq, Hl'. reflexivity.
    + rewrite !lookup_alter_ne by auto. reflexivity.
Qed.

Lemma Gap_promiseAll_staysRegistered env k l c file l' size fuel tasks :
  preserves (staysRegistered k l c)
    (promiseAll env (Gap.runCall env) (Gap.uploadPartResume file l' size)
       fuel tasks).
Proof.
  apply (preserves_promiseAll env (Gap.runCall env) (staysRegistered k l c)).
  - intros call w. apply Gap_runCall_staysRegistered.
  - intros call w. apply staysRegistered_same; reflexivity.
  - intros t s o r. apply Gap_uploadPartResume_staysRegistered.
  - intros o r w. apply staysRegistered_same; reflexivity.
Qed.

Lemma Gap_startBatch_staysRegistered k l c file l' size parts :
  preserves (staysRegistered k l c) (Gap.startBatch file l' size parts).
Proof.
  induction parts as [| n parts IH]; cbn [Gap.startBatch].
  - apply (preserves_ret (staysRegistered k l c)).
  - unfold Gap.uploadPart. pres (staysRegistered k l c); same_registry.
Qed.

Lemma Gap_transferLoop_staysRegistered env k l c fuel file l' total size :
  preserves (staysRegistered k l c)
    (Gap.transferLoop env fuel file l' total size).
Proof.
  induction fuel as [| fuel IH]; cbn [Gap.transferLoop];
    pres (staysRegistered k l c); same_registry;
    first [ apply Gap_startBatch_staysRegistered
          | apply Gap_promiseAll_staysRegistered
          | apply staysRegistered_modify; intros st; auto ].
Qed.

Lemma hoare_any {St A} (P : World St -> Prop) (m : M St A) :
  hoare P m (fun _ _ => True) (fun _ _ => True).
Proof. intros w _. destruct (m w) as [[a | e] w1]; exact I. Qed.

Lemma hoare_preserved {St A I} (good : I -> World St -> Prop) (m : M St A) :
  (forall i, preserves (fun w w1 => good i w -> good i w1) m) ->
  hoare (fun w => exists i, good i w) m
    (fun _ w => exists i, good i w) (fun _ w => exists i, good i w).
Proof.
  intros H w (i & Hw). specialize (H i w Hw).
  destruct (m w) as [[a | e] w1]; exists i; exact H.
Qed.

Lemma getUploadState_unregistered {St} bucket key (w : World St) :
  uploadStates w !! stateKey bucket key = None ->
  getUploadState bucket key w = None.
Proof. unfold getUploadState. intros ->. reflexivity. Qed.

Section GapRegistry.
Variables (env : Env) (bucket key filePath : string) (size : Z).

Local Abbreviation k := (stateKey bucket key).
Local Abbreviation good l :=
  (fun id => registeredUnlessAborted k l (bucket, key, filePath, size, id)).
Local Abbreviation Post := (gapRegistryAfter bucket key filePath size).

Lemma Gap_starting_allocates rid (resumes : bool) :
  hoare (fun _ => True)
    (if resumes
     then Gap.resumeMultipartUpload env bucket key filePath size rid
     else Gap.initiateMultipartUpload env bucket key filePath size)
    (fun l w =>
       exists id st,
         heap w !! l = Some st /\
         gapTransferOf st = (bucket, key, filePath, size, id))
    (fun _ _ => True).
Proof.
  assert (forall id parts,
            hoare (fun _ : Gap.W => True)
              (alloc (Gap.mkState id bucket key filePath size parts 1
                        false false))
              (fun l w =>
                 exists id st,
                   heap w !! l = Some st /\
                   gapTransferOf st = (bucket, key, filePath, size, id))
              (fun _ _ => True)) as Halloc.
  { intros id parts w _. unfold alloc. eexists id, _. cbn [heap].
    rewrite lookup_insert_eq. split; reflexivity. }
  destruct resumes.
  - unfold Gap.resumeMultipartUpload.
    apply (hoare_bind (fun _ _ => True)); [apply hoare_any | intros w0].
    cbv zeta. destruct (negb _); [apply hoare_throw; auto |].
    apply (hoare_bind (fun _ _ => True)); [apply hoare_any | intros r].
    apply Halloc.
  - unfold Gap.initiateMultipartUpload.
    apply (hoare_bind (fun _ _ => True)); [apply hoare_any | intros r].
    destruct r; try (apply hoare_throw; auto).
    destruct (String.eqb _ _); [apply hoare_throw; auto | apply Halloc].
Qed.

Lemma Gap_multipartCatch_registry state e :
  hoare (fun _ => True) (Gap.multipartCatch state filePath size e)
    Post (fun _ _ => True).
Proof.
  unfold Gap.multipartCatch.
  apply (hoare_bind (fun _ _ => True)); [apply hoare_any | intros aborted].
  destruct aborted; [apply hoare_ret; intros; exact I |].
  apply (hoare_bind (fun _ _ => True)); [apply hoare_any | intros _].
  apply hoare_throw; auto.
Qed.

Lemma Gap_finishUpload_registry l total :
  hoare (fun w => exists id, good l id w)
    (Gap.finishUpload env k filePath l total size)
    (fun r w => Post r (logEntry (FileClose filePath) w))
    (fun _ _ => True).
Proof.
  unfold Gap.finishUpload.
  apply (hoare_bind (fun state w =>
                       (exists id, good l id w) /\ state = heap w !!! l)).
  { intros w Hw. unfold read. auto. }
  intros state.
  destruct (Gap.isAborted state) eqn:Hab; [apply hoare_ret; intros; exact I |].
  destruct (Gap.isPaused state) eqn:Hp.
  - cbv zeta. intros w ((id & Hg) & ->).
    unfold bind, onProgress, record, ret. cbn [gapRegistryAfter].
    destruct Hg as [(st & Hl & Hst & Hr) | (st & Hl & Hst)];
      rewrite (lookup_total_correct _ _ _ Hl) in *; [| congruence].
    exists st. unfold getUploadState. cbn [uploadStates heap logEntry].
    rewrite Hr. injection Hst as <- <- <- <- _. auto 10.
  - destruct (negb _); [apply hoare_throw; auto |].
    apply (hoare_bind (fun _ _ => True)); [apply hoare_any | intros _].
    apply (hoare_bind (fun _ _ => True)); [apply hoare_any | intros _].
    intros w _. unfold bind, registryDelete, update, ret.
    cbn [gapRegistryAfter]. apply getUploadState_unregistered.
    cbn [uploadStates logEntry]. apply lookup_delete_eq.
Qed.

Lemma Gap_multipartUpload_registry rid :
  hoare (fun _ => True)
    (Gap.multipartUpload env bucket key filePath size rid)
    Post (fun _ _ => True).
Proof.
  unfold Gap.multipartUpload. cbv zeta.
  apply (hoare_bind
           (outcomeOf
              (fun l w =>
                 exists id st,
                   heap w !! l = Some st /\
                   gapTransferOf st = (bucket, key, filePath, size, id))
              (fun _ _ => True))).
  { apply hoare_attempt.
    apply (hoare_bind (fun _ _ => True)); [apply hoare_any | intros w0].
    eapply hoare_weaken; [| | | apply Gap_starting_allocates]; auto. }
  intros [l | e].
  2: { eapply hoare_weaken; [| | | apply Gap_multipartCatch_registry]; auto. }
  apply (hoare_tryCatch (fun _ _ => True)).
  2: { intros e. apply Gap_multipartCatch_registry. }
  apply (hoare_bind (fun _ w => exists id, good l id w)).
  { intros w (id & st & Hl & Hst). unfold registrySet, update.
    exists id. left. exists st. cbn [heap uploadStates].
    rewrite lookup_insert_eq. auto. }
  intros _.
  apply (hoare_bind (fun _ w => exists id, good l id w)).
  { eapply hoare_weaken;
      [| | | apply (hoare_preserved (good l))];
      [auto | auto | auto |].
    intros id.
    apply (preserves_awaitOk env (Gap.runCall env)
             (staysRegistered k l (bucket, key, filePath, size, id))).
    - intros call w. apply Gap_runCall_staysRegistered.
    - intros call w. apply staysRegistered_same; reflexivity.
    - intros w. apply staysRegistered_same; reflexivity.
    - intros r w. apply staysRegistered_same; reflexivity. }
  intros _. apply hoare_tryFinally.
  apply (hoare_bind (fun _ w => exists id, good l id w)).
  - eapply hoare_weaken;
      [| | | apply (hoare_preserved (good l))];
      [auto | auto | auto |].
    intros id. apply Gap_transferLoop_staysRegistered.
  - intros _. apply Gap_finishUpload_registry.
Qed.
End GapRegistry.

Lemma Cursor_multipartUpload_registry env bucket key filePath size rid :
  hoare (fun _ => True)
    (Cursor.multipartUpload env bucket key filePath size rid)
    (cursorRegistryAfter bucket key) (fun _ _ => True).
Proof.
  unfold Cursor.multipartUpload. cbv zeta.
  apply (hoare_tryCatch (fun _ _ => True)).
  2: { intros e. unfold Cursor.multipartCatch.
       apply (hoare_bind (fun _ _ => True)); [apply hoare_any | intros _].
       apply hoare_throw; auto. }
  apply (hoare_bind (fun _ _ => True)); [apply hoare_any | intros w0].
  apply (hoare_bind (fun _ _ => True)); [apply hoare_any | intros l].
  apply (hoare_bind (fun _ _ => True)); [apply hoare_any | intros _].
  apply (hoare_bind (fun _ _ => True)); [apply hoare_any | intros _].
  apply hoare_tryFinally.
  apply (hoare_bind (fun _ _ => True)); [apply hoare_any | intros _].
  unfold Cursor.finishUpload.
  apply (hoare_bind (fun _ _ => True)); [apply hoare_any | intros state].
  destruct (Cursor.isPaused state).
  - cbv zeta.
    apply (hoare_bind (fun _ _ => True)); [apply hoare_any | intros _].
    apply hoare_ret. intros; exact I.
  - apply (hoare_bind (fun _ _ => True)); [apply hoare_any | intros _].
    apply (hoare_bind (fun _ _ => True)); [apply hoare_any | intros _].
    intros w _. unfold bind, registryDelete, update, ret.
    cbn [cursorRegistryAfter]. apply getUploadState_unregistered.
    cbn [uploadStates logEntry]. apply lookup_delete_eq.
Qed.

(** X14. In both managers, whatever the backend answers and whoever calls
    in: after a chunked call that returned [Completed], [getUploadState]
    finds nothing under the bucket and key of the call. *)
Theorem completed_transfer_is_forgotten env bucket key filePath size rid :
  (forall (w w1 : Gap.W),
     Gap.multipartUpload env bucket key filePath size rid w
     = (Return Completed, w1) ->
     getUploadState bucket key w1 = None) /\
  (forall (v v1 : Cursor.W),
     Cursor.multipartUpload env bucket key filePath size rid v
     = (Return Completed, v1) ->
     getUploadState bucket key v1 = None).
Proof.
  split.
  - intros w w1 E.
    pose proof (Gap_multipartUpload_registry env bucket key filePath size rid
                  w I) as H.
    rewrite E in H. exact H.
  - intros v v1 E.
    pose proof (Cursor_multipartUpload_registry env bucket key filePath size
                  rid v I) as H.
    rewrite E in H. exact H.
Qed.

Lemma completed_transfer_is_forgotten_witness :
  let run :=
    Gap.multipartUpload (calmEnv (12 * MiB) []) "b" "k" "f" (12 * MiB) None
      emptyWorld in
  run.1 = Return Completed /\ getUploadState "b" "k" run.2 = None.
Proof.
  intros run.
  assert (run = (Return Completed, run.2)) as E by (vm_compute; reflexivity).
  split; [vm_compute; reflexivity |].
  exact (proj1 (completed_transfer_is_forgotten _ "b" "k" "f" _ None)
           emptyWorld run.2 E).
Defined.



(** * The gap-scanning manager uploads no part more than four times *)

Lemma attemptsOf_cons n e lg :
  attemptsOf n (e :: lg)
  = attemptsOf n lg
    + match e with
      | Issue (UploadPart _ _ _ m) => if n =? m then 1 else 0
      | _ => 0
      end.
Proof.
  unfold attemptsOf, uploadsIssued. cbn [rev].
  rewrite omap_app, List.filter_app, length_app. f_equal.
  destruct e as [[] | | | |]; try reflexivity.
  cbn. destruct (n =? _); reflexivity.
Qed.

Lemma attemptsOf_other n e lg :
  notUpload e -> attemptsOf n (e :: lg) = attemptsOf n lg.
Proof.
  intros He. rewrite attemptsOf_cons.
  destruct e as [[] | | | |]; try contradiction; lia.
Qed.

Lemma attemptsOf_quiet n mid lg :
  Forall notUpload mid -> attemptsOf n (mid ++ lg) = attemptsOf n lg.
Proof.
  induction 1 as [| e mid He _ IH]; [reflexivity |].
  cbn [app]. rewrite attemptsOf_other by exact He. exact IH.
Qed.

Lemma attemptsOf_nil n : attemptsOf n [] = 0.
Proof. reflexivity. Qed.

Lemma notUpload_call e : callEntry e -> notUpload e.
Proof. destruct e as [[] | | | |]; cbn; auto. Qed.

Lemma noTimer_call e : callEntry e -> noTimer e.
Proof. destruct e as [[] | | | |]; cbn; auto. Qed.

Lemma noTimer_backoffDelay e : noTimer e -> backoffDelay e.
Proof. destruct e as [[] | | | |]; cbn; auto. contradiction. Qed.

Lemma retryBound_attempts retries new new' t :
  attemptsOf (partNumber t) new' = attemptsOf (partNumber t) new ->
  retryBound retries new t -> retryBound retries new' t.
Proof.
  unfold retryBound. intros ->. auto.
Qed.

(** The other tasks of a batch are for other parts. *)
Lemma others_bounded retries tasks new new' j t t' n :
  NoDup (pendingNumbers tasks) ->
  tasks !! j = Some t -> pendingNumber t = Some n ->
  (forall m, m <> n -> attemptsOf m new' = attemptsOf m new) ->
  Forall (retryBound retries new) tasks ->
  retryBound retries new' t' ->
  Forall (retryBound retries new') (<[j := t']> tasks).
Proof.
  intros Hnd Hj Hn Hsame Hall Ht'.
  pose proof (lookup_lt_Some _ _ _ Hj) as Hlt.
  rewrite insert_take_drop by exact Hlt.
  rewrite <- (take_drop_middle tasks j t Hj) in Hall, Hnd.
  unfold pendingNumbers in Hnd. rewrite omap_app, omap_cons_option, Hn in Hnd.
  cbn [option_list app] in Hnd.
  apply NoDup_app in Hnd. destruct Hnd as (_ & Hpre & Hnd).
  apply NoDup_cons in Hnd. destruct Hnd as [Hpost _].
  apply Forall_app in Hall. destruct Hall as [Hall1 Hall2].
  apply Forall_cons in Hall2. destruct Hall2 as [_ Hall2].
  assert (forall ts, n ∉ omap pendingNumber ts ->
            Forall (retryBound retries new) ts ->
            Forall (retryBound retries new') ts) as Hgen.
  { intros ts Hnot Hts. apply Forall_forall. intros t2 Ht2.
    rewrite Forall_forall in Hts. specialize (Hts t2 Ht2).
    unfold retryBound in *. destruct (promise t2) eqn:Ep2; try exact I.
    rewrite Hsame; [exact Hts |].
    intros <-. apply Hnot. apply list_elem_of_omap.
    exists t2. split; [exact Ht2 |]. unfold pendingNumber. rewrite Ep2.
    reflexivity. }
  apply Forall_app. split.
  - apply Hgen; [| exact Hall1]. intros Hin. apply (Hpre n Hin). left.
  - constructor; [exact Ht' | apply Hgen; assumption].
Qed.

Section Retrying.
Variables (retries : nat) (allowed : Entry -> Prop).
Variables (halted : bool) (known : nat -> Prop).
Variables (tasks : list PartTask) (new : list Entry).
Variables (j : nat) (t t' : PartTask) (n : nat).
Hypothesis T : retrying retries allowed halted known tasks new.
Hypothesis Hj : tasks !! j = Some t.
Hypothesis Hn : pendingNumber t = Some n.

(** The task goes on with its part. *)
Lemma retrying_stays new' :
  pendingNumber t' = Some n ->
  (forall m, m <> n -> attemptsOf m new' = attemptsOf m new) ->
  attemptsOf n new <= attemptsOf n new' <= S retries ->
  retryBound retries new' t' ->
  Forall allowed new' ->
  retrying retries allowed halted known (<[j := t']> tasks) new'.
Proof.
  intros Hn' Hsame Hgrow Ht' Hd. destruct T.
  assert (pendingNumbers (<[j := t']> tasks) = pendingNumbers tasks) as Hpn
    by (apply (pendingNumbers_same tasks j t t' Hj); congruence).
  assert (n ∈ pendingNumbers tasks) as Hin.
  { apply list_elem_of_omap. exists t. split; [| exact Hn].
    eapply list_elem_of_lookup_2, Hj. }
  constructor.
  - intros m. destruct (decide (m = n)) as [-> | Hne]; [lia |].
    rewrite Hsame by exact Hne. apply attempts_max0.
  - intros Ha Hr m Hm. rewrite Hpn.
    destruct (decide (m = n)) as [-> | Hne]; [left; exact Hin |].
    rewrite Hsame in Hm by exact Hne.
    apply attempts_known0; [exact Ha | | exact Hm].
    destruct t as [pn rc pr]. unfold pendingNumber in Hn. cbn in Hn.
    destruct pr as [s o | |] eqn:Epr; try discriminate.
    eapply (rejection_insert_pending tasks j _ t' s o Hj); [reflexivity |].
    exact Hr.
  - rewrite Hpn. exact pending_once0.
  - apply (others_bounded retries tasks new new' j t t' n pending_once0 Hj Hn);
      assumption.
  - exact Hd.
Qed.

(** The task is done with its part. *)
Lemma retrying_leaves halted' (known' : nat -> Prop) new' :
  pendingNumber t' = None ->
  (forall m, attemptsOf m new' = attemptsOf m new) ->
  Forall allowed new' ->
  (halted' = false -> halted = false) ->
  (forall m, known m -> known' m) ->
  (halted' = false -> (forall e, promise t' <> Rejected e) -> known' n) ->
  retrying retries allowed halted' known' (<[j := t']> tasks) new'.
Proof.
  intros Hn' Hsame Hd Hab Hstored Hdone. destruct T.
  pose proof (pendingNumbers_drop tasks j t t' n Hj Hn Hn') as Hperm.
  assert (exists s o, promise t = Pending s o) as (s & o & Hp).
  { unfold pendingNumber in Hn. destruct (promise t); try discriminate.
    eauto. }
  constructor.
  - intros m. rewrite Hsame. apply attempts_max0.
  - intros Ha Hr m Hm. rewrite Hsame in Hm.
    destruct (rejection_insert_pending tasks j t t' s o Hj Hp Hr)
      as [Hr0 Hnr].
    destruct (attempts_known0 (Hab Ha) Hr0 m Hm) as [Hin | Hin];
      [| right; apply Hstored, Hin].
    rewrite Hperm in Hin. apply elem_of_cons in Hin.
    destruct Hin as [-> | Hin]; [right; apply Hdone; assumption | left; exact Hin].
  - rewrite Hperm in pending_once0. apply NoDup_cons in pending_once0.
    apply pending_once0.
  - apply (others_bounded retries tasks new new' j t t' n pending_once0 Hj Hn);
      [intros m _; apply Hsame | exact tasks_bounded0 |].
    unfold retryBound. unfold pendingNumber in Hn'.
    destruct (promise t'); [discriminate | exact I | exact I].
  - exact Hd.
Qed.
End Retrying.

Lemma retrying_other retries allowed halted halted' (known known' : nat -> Prop)
    tasks new mid :
  retrying retries allowed halted known tasks new ->
  Forall notUpload mid -> Forall allowed mid ->
  (forall m, known m -> known' m) ->
  (halted' = false -> halted = false) ->
  retrying retries allowed halted' known' tasks (mid ++ new).
Proof.
  intros [] Hmid Hd Hparts Hab.
  assert (forall m, attemptsOf m (mid ++ new) = attemptsOf m new) as Hsame
    by (intros m; apply attemptsOf_quiet, Hmid).
  constructor.
  - intros m. rewrite Hsame. auto.
  - intros Ha Hr m Hm. rewrite Hsame in Hm.
    destruct (attempts_known0 (Hab Ha) Hr m Hm); auto.
  - assumption.
  - eapply Forall_impl; [exact tasks_bounded0 |].
    intros t. apply retryBound_attempts, Hsame.
  - apply Forall_app. auto.
Qed.

Lemma retrying_settled retries allowed halted known tasks new :
  retrying retries allowed halted known tasks new ->
  Forall (fun t => promise t = Resolved) tasks ->
  retrying retries allowed halted known [] new.
Proof.
  intros [] Hres. constructor; auto.
  - intros Ha _ m Hm.
    destruct (attempts_known0 Ha (rejection_resolved tasks Hres) m Hm)
      as [Hin | Hin]; [| right; exact Hin].
    rewrite (pendingNumbers_resolved tasks Hres) in Hin.
    apply elem_of_nil in Hin. contradiction.
  - constructor.
Qed.

Lemma retrying_initial retries allowed halted known new :
  Forall notUpload new -> Forall allowed new ->
  retrying retries allowed halted known [] new.
Proof.
  intros Hq Hb.
  assert (forall m, attemptsOf m new = 0) as Hzero.
  { intros m. rewrite <- (app_nil_r new). apply attemptsOf_quiet, Hq. }
  constructor.
  - intros n. rewrite Hzero. lia.
  - intros _ _ n Hn. rewrite Hzero in Hn. lia.
  - constructor.
  - constructor.
  - exact Hb.
Qed.

Section GapRetry.
Variables (env : Env) (file : string) (size : Z) (total : nat) (l : nat).
Variable lg0 : list Entry.

Local Abbreviation Inv := (gapRetrying l lg0).

Lemma gapRetrying_call tasks c w :
  Inv tasks w -> Inv tasks (Gap.runCall env c (logEntry (Extern c) w)).
Proof.
  intros (st & new & Hl & Hlog & T).
  destruct (Gap_runCall_keeps env l c (logEntry (Extern c) w) st Hl)
    as (st1 & Hl1 & Hcore).
  destruct (Gap_runCall_logged env c (logEntry (Extern c) w))
    as (mid & Hmid & Fmid).
  inversion Hcore as [[Hb Hk Hu Hf Hs Hparts Hnext]].
  exists st1, ((mid ++ [Extern c]) ++ new).
  split; [exact Hl1 |]. split.
  { rewrite Hmid. cbn [log logEntry]. rewrite Hlog, <- !app_assoc.
    reflexivity. }
  apply (retrying_other 3 backoffDelay (Gap.isAborted st) _
           (fun n => n ∈ (PartNumber <$> Gap.uploadedParts st)) _
           tasks new _ T).
  - apply Forall_app. split.
    + eapply Forall_impl; [exact Fmid | apply notUpload_call].
    + repeat constructor.
  - apply Forall_app. split.
    + eapply Forall_impl; [exact Fmid |].
      intros e He. apply noTimer_backoffDelay, noTimer_call, He.
    + repeat constructor.
  - intros m Hm. rewrite Hparts. exact Hm.
  - intros Ha1. destruct (Gap.isAborted st) eqn:Ha; [| reflexivity].
    destruct (Gap_runCall_staysAborted env l c (logEntry (Extern c) w))
      as (st2 & Hl2 & Ha2).
    { exists st. auto. }
    rewrite Hl1 in Hl2. injection Hl2 as <-. congruence.
Qed.

Lemma gapRetrying_step tasks w j t s o :
  Inv tasks w -> tasks !! j = Some t -> promise t = Pending s o ->
  let r := reply env (log w) o in
  exists t' w1,
    Gap.uploadPartResume file l size t s o r (logEntry (Settle o r) w)
    = (Return t', w1) /\
    Inv (<[j := t']> tasks) w1.
Proof.
  intros (st & new & Hl & Hlog & T) Hj Hp r.
  destruct (sending_pending t s o Hp) as [_ Hn].
  pose proof (Forall_lookup_1 _ _ _ _ (tasks_bounded _ _ _ _ _ _ T) Hj) as Hb.
  unfold retryBound in Hb. rewrite Hp in Hb. destruct Hb as [Hrc Hb].
  set (w' := logEntry (Settle o r) w).
  assert (heap w' !! l = Some st) as Hl' by exact Hl.
  assert (log w' = (Settle o r :: new) ++ lg0) as Hlog'
    by (cbn [log logEntry w']; rewrite Hlog; reflexivity).
  assert (forall e o0 r0 m, attemptsOf m (e :: Settle o0 r0 :: new)
                            = attemptsOf m (e :: new)) as Hskip.
  { intros e o0 r0 m. rewrite !attemptsOf_cons. cbn. lia. }
  assert (forall e, e <> OutOfFuel ->
            attemptsOf (partNumber t) new <= retryCount t + 1 ->
            exists t' w1,
              Gap.uploadPartCatch l (partNumber t) (retryCount t) e w'
              = (Return t', w1) /\ Inv (<[j := t']> tasks) w1) as Hcatch.
  { intros e He Hle.
    destruct (Gap_uploadPartCatch_result l (partNumber t) (retryCount t) e w'
                He)
      as (t' & E & Hn' & Hrc' & _ & _ & [Hrej | (Hlt & _ & Hback)]).
    - rewrite Hrej in E. exists t', w'. split; [exact E |].
      exists st, (Settle o r :: new).
      split; [exact Hl' |]. split; [exact Hlog' |].
      apply (retrying_leaves 3 backoffDelay _ _ tasks new j t t' (partNumber t)
               T Hj Hn).
      + unfold pendingNumber. rewrite Hrej. reflexivity.
      + intros m. apply attemptsOf_other. exact I.
      + constructor; [exact I | apply (entries_allowed _ _ _ _ _ _ T)].
      + intros Ha. exact Ha.
      + intros m Hm. exact Hm.
      + intros _ Hnr. exfalso. apply (Hnr e). exact Hrej.
    - rewrite Hback in E. eexists t', _. split; [exact E |].
      exists st,
        (Issue (SetTimeout (1000 * (Z.of_nat (retryCount t) + 1)))
         :: Settle o r :: new).
      split; [exact Hl' |].
      split; [cbn [log logEntry]; rewrite Hlog'; reflexivity |].
      apply (retrying_stays 3 backoffDelay _ _ tasks new j t t' (partNumber t)
               T Hj Hn).
      + unfold pendingNumber. rewrite Hback, Hn'. reflexivity.
      + intros m _. rewrite Hskip. apply attemptsOf_other. exact I.
      + rewrite Hskip, attemptsOf_other by exact I.
        split; [lia | apply (attempts_max _ _ _ _ _ _ T)].
      + unfold retryBound. rewrite Hback, Hn', Hrc'.
        rewrite Hskip, attemptsOf_other by exact I. lia.
      + constructor; [| constructor; [exact I | apply (entries_allowed _ _ _ _ _ _ T)]].
        cbn. destruct (retryCount t) as [| [| [| ?]]]; cbn; auto; lia. }
  destruct s.
  - (* the seek has settled *)
    destruct r eqn:Er;
      [apply Hcatch; [discriminate | lia] | ..];
      (unfold Gap.uploadPartResume, bind, issue, record, ret;
       eexists _, _; split; [reflexivity |];
       exists st,
         (Issue (FileRead file (partLength (partNumber t) size))
          :: Settle o r :: new);
       split; [exact Hl' |];
       split; [cbn [log logEntry]; rewrite Hlog', Er; reflexivity |];
       apply (retrying_stays 3 backoffDelay _ _ tasks new j t _ (partNumber t)
                T Hj Hn);
       [ reflexivity
       | intros m _; rewrite Hskip; apply attemptsOf_other; exact I
       | rewrite Hskip, attemptsOf_other by exact I;
         split; [lia | apply (attempts_max _ _ _ _ _ _ T)]
       | unfold retryBound; cbn [promise partNumber retryCount];
         rewrite Hskip, attemptsOf_other by exact I; lia
       | constructor; [exact I |];
         constructor; [exact I | apply (entries_allowed _ _ _ _ _ _ T)] ]).
  - (* the read has settled *)
    destruct r eqn:Er;
      [apply Hcatch; [discriminate | lia] | ..];
      (unfold Gap.uploadPartResume, bind, read, issue, record, ret;
       rewrite (lookup_total_correct _ _ _ Hl');
       eexists _, _; split; [reflexivity |];
       exists st,
         (Issue (UploadPart (Gap.bucket st) (Gap.key st) (Gap.uploadId st)
                   (partNumber t))
          :: Settle o r :: new);
       split; [exact Hl' |];
       split; [cbn [log logEntry]; rewrite Hlog', Er; reflexivity |];
       apply (retrying_stays 3 backoffDelay _ _ tasks new j t _ (partNumber t)
                T Hj Hn);
       [ reflexivity
       | intros m Hm; rewrite Hskip, attemptsOf_cons;
         destruct (Nat.eqb_spec m (partNumber t)); [contradiction | lia]
       | rewrite Hskip, attemptsOf_cons, Nat.eqb_refl; lia
       | unfold retryBound; cbn [promise partNumber retryCount];
         rewrite Hskip, attemptsOf_cons, Nat.eqb_refl; lia
       | constructor; [exact I |];
         constructor; [exact I | apply (entries_allowed _ _ _ _ _ _ T)] ]).
  - (* the upload has settled *)
    destruct r eqn:Er; try (apply Hcatch; [discriminate | lia]).
    unfold Gap.uploadPartResume.
    destruct (String.eqb id ""); [apply Hcatch; [discriminate | lia] |].
    unfold bind, read, write, modify, update, onProgress, record, ret.
    rewrite (lookup_total_correct _ _ _ Hl').
    eexists _, _. split; [reflexivity |].
    eexists _, (Emit _ :: Settle _ r :: new).
    cbn [heap log logEntry w']. rewrite lookup_alter_eq, Hl.
    split; [reflexivity |].
    split; [rewrite Hlog, Er; reflexivity |].
    assert (forall m,
              m ∈ (PartNumber
                     <$> sortParts (Gap.uploadedParts st
                                    ++ [mkPart (partNumber t) id]))
              <-> m ∈ (PartNumber <$> Gap.uploadedParts st)
                  \/ m = partNumber t) as Hstored.
    { intros m. rewrite sortParts_perm, fmap_app, elem_of_app.
      cbn. rewrite list_elem_of_singleton. reflexivity. }
    apply (retrying_leaves 3 backoffDelay _ _ tasks new j t _ (partNumber t)
             T Hj Hn).
    + reflexivity.
    + intros m. rewrite !attemptsOf_other by exact I. reflexivity.
    + constructor; [exact I |].
      constructor; [exact I | apply (entries_allowed _ _ _ _ _ _ T)].
    + intros Ha. exact Ha.
    + intros m Hm. apply Hstored. left. exact Hm.
    + intros _ _. apply Hstored. right. reflexivity.
  - (* the backoff timer has fired *)
    destruct Hb as [Hlt Hb].
    destruct (Gap_uploadPart_result file l (partNumber t) size
                (retryCount t + 1) w')
      as (t' & E & Hn' & Hrc' & _ & _ & [(Hres & Hab) | (_ & Hseek)]).
    + assert (Gap.uploadPartResume file l size t Backoff o r w'
              = (Return t', w')) as E'.
      { rewrite Hres in E. destruct r; exact E. }
      exists t', w'. split; [exact E' |].
      exists st, (Settle o r :: new).
      split; [exact Hl' |]. split; [exact Hlog' |].
      rewrite (lookup_total_correct _ _ _ Hl') in Hab.
      apply (retrying_leaves 3 backoffDelay _ _ tasks new j t t' (partNumber t)
               T Hj Hn).
      * unfold pendingNumber. rewrite Hres. reflexivity.
      * intros m. apply attemptsOf_other. exact I.
      * constructor; [exact I | apply (entries_allowed _ _ _ _ _ _ T)].
      * intros Ha. exact Ha.
      * intros m Hm. exact Hm.
      * intros Ha. congruence.
    + rewrite Hseek in E.
      assert (Gap.uploadPartResume file l size t Backoff o r w'
              = (Return t',
                 logEntry (Issue (FileSeek file (partOffset (partNumber t))))
                   w')) as E'.
      { destruct r; exact E. }
      eexists t', _. split; [exact E' |].
      exists st,
        (Issue (FileSeek file (partOffset (partNumber t)))
         :: Settle o r :: new).
      split; [exact Hl' |].
      split; [cbn [log logEntry]; rewrite Hlog'; reflexivity |].
      apply (retrying_stays 3 backoffDelay _ _ tasks new j t t' (partNumber t)
               T Hj Hn).
      * unfold pendingNumber. rewrite Hseek, Hn'. reflexivity.
      * intros m _. rewrite Hskip. apply attemptsOf_other. exact I.
      * rewrite Hskip, attemptsOf_other by exact I.
        split; [lia | apply (attempts_max _ _ _ _ _ _ T)].
      * unfold retryBound. rewrite Hseek, Hn', Hrc'.
        rewrite Hskip, attemptsOf_other by exact I. lia.
      * constructor; [exact I |].
        constructor; [exact I | apply (entries_allowed _ _ _ _ _ _ T)].
Qed.

Lemma Gap_promiseAll_retrying fuel tasks w :
  Inv tasks w ->
  exists tasks' r w1,
    promiseAll env (Gap.runCall env) (Gap.uploadPartResume file l size)
      fuel tasks w = (r, w1) /\
    Inv tasks' w1 /\ settledAs r tasks'.
Proof.
  apply (promiseAll_invariant env (Gap.runCall env)
           (Gap.uploadPartResume file l size) Inv).
  - intros ts c w0. apply gapRetrying_call.
  - intros ts w0 j t s o. apply gapRetrying_step.
Qed.
End GapRetry.

Lemma seeksFor_quiet file batch :
  Forall notUpload (seeksFor file batch) /\
  Forall backoffDelay (seeksFor file batch).
Proof.
  unfold seeksFor. split; apply Forall_rev, Forall_fmap, Forall_true;
    intros n; exact I.
Qed.

Section GapRetryLoop.
Variables (env : Env) (file : string) (size : Z) (total : nat) (l : nat).
Variable lg0 : list Entry.

Local Abbreviation Inv := (gapRetrying l lg0).

(** Planning and starting a batch: its parts have no upload yet. *)
Lemma Gap_batch_retrying (w : Gap.W) st n :
  Inv [] w -> heap w !! l = Some st ->
  Gap.isPaused st || Gap.isAborted st = false ->
  Gap.findNextPart (PartNumber <$> Gap.uploadedParts st)
    (Gap.nextPartNumber st) total = Some n ->
  let batch :=
    Gap.collectParts (PartNumber <$> Gap.uploadedParts st) total n in
  let next := List.last batch n + 1 in
  Inv (startedOn file <$> batch)
    (mkWorld (alter (Gap.setNextPartNumber next) l
                (alter (Gap.setNextPartNumber (n + 1)) l (heap w)))
       (uploadStates w) (seeksFor file batch ++ log w)).
Proof.
  intros (st' & new & Hl' & Hlog & T) Hl Hflags En batch next.
  rewrite Hl in Hl'. inversion Hl'; subst st'. clear Hl'.
  apply orb_false_elim in Hflags. destruct Hflags as [_ Hab].
  pose proof (findNextPart_least (PartNumber <$> Gap.uploadedParts st)
                (Gap.nextPartNumber st) total) as Hleast.
  rewrite En in Hleast. destruct Hleast as [(Hn & Hnext & Hmiss) _].
  destruct (collectParts_shape (PartNumber <$> Gap.uploadedParts st) total n)
    as (_ & _ & Hsorted & Hmem).
  fold batch in Hsorted, Hmem.
  destruct (seeksFor_quiet file batch) as [Hq Hd].
  assert (forall m, attemptsOf m (seeksFor file batch ++ new)
                    = attemptsOf m new) as Hsame
    by (intros m; apply attemptsOf_quiet, Hq).
  assert (forall x, x ∈ batch -> attemptsOf x new = 0) as Hfresh.
  { intros x Hx.
    destruct (attemptsOf x new) as [| a] eqn:Ea; [reflexivity |].
    destruct (attempts_known _ _ _ _ _ _ T Hab eq_refl x) as [Hin | Hin];
      [lia | apply elem_of_nil in Hin; contradiction |].
    exfalso. destruct (Hmem x Hx) as [-> | [_ Hx']]; auto. }
  exists (Gap.setNextPartNumber next (Gap.setNextPartNumber (n + 1) st)),
    (seeksFor file batch ++ new).
  cbn [heap log]. rewrite !lookup_alter_eq, Hl.
  split; [reflexivity |].
  split; [rewrite Hlog, app_assoc; reflexivity |].
  destruct T. constructor.
  - intros m. rewrite Hsame. auto.
  - intros _ _ m Hm. rewrite Hsame in Hm. right.
    destruct (attempts_known0 Hab eq_refl m Hm) as [Hin | Hin];
      [apply elem_of_nil in Hin; contradiction | exact Hin].
  - rewrite pendingNumbers_started.
    apply StronglySorted_lt_NoDup, Hsorted.
  - apply Forall_fmap, Forall_forall. intros x Hx.
    unfold retryBound. cbn. rewrite Hsame, (Hfresh x Hx). lia.
  - apply Forall_app. auto.
Qed.

Lemma Gap_transferLoop_retrying fuel :
  hoare (Inv []) (Gap.transferLoop env fuel file l total size)
    (fun _ => Inv []) (fun _ w => exists tasks, Inv tasks w).
Proof.
  induction fuel as [| fuel IH]; intros w Hinv.
  all: pose proof Hinv as (st & new & Hl & Hlog & T).
  all: cbn [Gap.transferLoop]; unfold bind at 1, read at 1.
  all: rewrite (lookup_total_correct _ _ _ Hl).
  all: destruct (Gap.isPaused st || Gap.isAborted st) eqn:Hflags;
    [exact Hinv |].
  all: destruct (Gap.findNextPart _ _ _) as [n |] eqn:En; [| exact Hinv].
  all: pose proof (Gap_batch_retrying w st n Hinv Hl Hflags En) as Hstart.
  all: cbv zeta in Hstart.
  all: unfold bind at 1, modify at 1, update at 1; cbv iota beta.
  all: unfold bind at 1, modify at 1, update at 1; cbv iota beta.
  all: unfold bind at 1.
  all: erewrite Gap_startBatch_shape
    by (cbn [heap]; rewrite !lookup_alter_eq, Hl; reflexivity).
  all: cbn [Gap.isPaused Gap.isAborted Gap.setNextPartNumber].
  all: rewrite Hflags.
  all: destruct (Gap.collectParts _ _ _) as [| b batch] eqn:Eb;
    [destruct (collectParts_shape (PartNumber <$> Gap.uploadedParts st)
                 total n) as (Hshape & _); rewrite Eb in Hshape;
     discriminate |].
  all: cbn [heap uploadStates log] in *.
  all: unfold bind at 1.
  all: match goal with
       | |- context [promiseAll ?e ?rc ?res ?f ?ts ?w0] =>
           destruct (Gap_promiseAll_retrying env file size l lg0 f ts w0
                       Hstart)
             as (tasks' & r & w1 & Ep & Hinv1 & Hset)
       end.
  all: rewrite Ep.
  all: destruct r as [[] | e]; [| exists tasks'; exact Hinv1].
  all: assert (Inv [] w1) as Hinv2
    by (destruct Hinv1 as (st1 & new1 & Hl1 & Hlog1 & T1);
        exists st1, new1; split; [exact Hl1 |]; split; [exact Hlog1 |];
        eapply retrying_settled; eauto).
  all: unfold bind at 1, read at 1.
  all: destruct (_ =? _); [exact Hinv2 |].
  - exists []. exact Hinv2.
  - apply IH, Hinv2.
Qed.
End GapRetryLoop.

Lemma quietRetry_call e : callEntry e -> quietRetry e.
Proof. split; [apply notUpload_call | apply noTimer_call]; assumption. Qed.

Lemma Forall_quietRetry allowed mid :
  (forall e, noTimer e -> allowed e) ->
  Forall quietRetry mid -> Forall notUpload mid /\ Forall allowed mid.
Proof.
  intros Ha H. split; (eapply Forall_impl; [exact H |]); intros e [? ?]; auto.
Qed.

Lemma retriesBounded_logged {St} retries allowed lg0 (w w1 : World St) :
  (forall e, noTimer e -> allowed e) ->
  logged quietRetry w w1 ->
  retriesBounded retries allowed lg0 w -> retriesBounded retries allowed lg0 w1.
Proof.
  intros Ha (mid & Hmid & Fmid) (new & Hlog & Hfour & Hd).
  destruct (Forall_quietRetry allowed mid Ha Fmid) as [Hq Hb].
  exists (mid ++ new). split; [| split].
  - rewrite Hmid, Hlog. apply app_assoc.
  - intros n. rewrite attemptsOf_quiet by exact Hq. apply Hfour.
  - apply Forall_app. auto.
Qed.

Lemma retriesBounded_initial {St} retries allowed lg0 (w w1 : World St) :
  (forall e, noTimer e -> allowed e) ->
  log w = lg0 -> logged quietRetry w w1 ->
  retriesBounded retries allowed lg0 w1.
Proof.
  intros Ha Hw Hl. apply (retriesBounded_logged retries allowed lg0 w w1 Ha Hl).
  exists []. split; [exact Hw |]. split; [| constructor].
  intros n. cbn. lia.
Qed.

Lemma gapRetrying_logged l lg0 tasks (w w1 : Gap.W) :
  logged quietRetry w w1 -> heap w1 = heap w ->
  gapRetrying l lg0 tasks w -> gapRetrying l lg0 tasks w1.
Proof.
  intros (mid & Hmid & Fmid) Hh (st & new & Hl & Hlog & T).
  destruct (Forall_quietRetry backoffDelay mid noTimer_backoffDelay Fmid)
    as [Hq Hb].
  exists st, (mid ++ new). split; [rewrite Hh; exact Hl |]. split.
  - rewrite Hmid, Hlog. apply app_assoc.
  - apply (retrying_other 3 backoffDelay (Gap.isAborted st) _
             (fun n => n ∈ (PartNumber <$> Gap.uploadedParts st)) _
             tasks new _ T); auto.
Qed.

Lemma gapRetrying_bounded l lg0 tasks (w : Gap.W) :
  gapRetrying l lg0 tasks w -> retriesBounded 3 backoffDelay lg0 w.
Proof.
  intros (st & new & _ & Hlog & []). exists new. auto.
Qed.

Section GapRetryCall.
Variables (env : Env) (bucket key filePath : string) (size : Z).
Variable lg0 : list Entry.

Local Abbreviation Bounded :=
  (@retriesBounded Gap.UploadState 3 backoffDelay lg0).

Lemma hoare_quiet {A} (m : Gap.M A) :
  preserves (logged quietRetry) m ->
  hoare Bounded m (fun _ => Bounded) (fun _ => Bounded).
Proof.
  intros H w Hw. specialize (H w).
  pose proof (retriesBounded_logged 3 backoffDelay lg0 w _
                noTimer_backoffDelay H Hw) as Hb.
  destruct (m w) as [[a | e] w1]; exact Hb.
Qed.

Lemma Gap_starting_retrying rid (resumes : bool) :
  hoare (fun w => log w = lg0)
    (if resumes
     then Gap.resumeMultipartUpload env bucket key filePath size rid
     else Gap.initiateMultipartUpload env bucket key filePath size)
    (fun l w => gapRetrying l lg0 [] w)
    (fun _ => Bounded).
Proof.
  intros w Hw.
  pose proof (Gap_starting_allocates env bucket key filePath size rid resumes
                w I) as Halloc.
  assert (preserves (logged quietRetry)
            (if resumes
             then Gap.resumeMultipartUpload env bucket key filePath size rid
             else Gap.initiateMultipartUpload env bucket key filePath size))
    as Hq.
  { apply Gap_starting_shaped.
    - apply quietRetry_call.
    - intros o r. split; exact I.
    - intros [] H; try contradiction; split; exact I. }
  specialize (Hq w).
  pose proof (retriesBounded_initial 3 backoffDelay lg0 w _
                noTimer_backoffDelay Hw Hq) as Hbound.
  destruct Hq as (new & Hlog & Fnew).
  destruct (Forall_quietRetry backoffDelay new noTimer_backoffDelay Fnew)
    as [Hq Hb].
  destruct (if resumes then _ else _) as [[l | e] w1]; cbn [snd] in Hlog;
    [| exact Hbound].
  destruct Halloc as (id & st & Hl & _).
  exists st, new. split; [exact Hl |]. split; [congruence |].
  apply retrying_initial; assumption.
Qed.

Lemma Gap_multipartCatch_retrying state e :
  hoare Bounded (Gap.multipartCatch state filePath size e)
    (fun _ => Bounded) (fun _ => Bounded).
Proof.
  apply hoare_quiet. apply Gap_multipartCatch_shaped. split; exact I.
Qed.

Lemma Gap_finishUpload_retrying l total :
  hoare Bounded
    (Gap.finishUpload env (stateKey bucket key) filePath l total size)
    (fun _ => Bounded) (fun _ => Bounded).
Proof.
  apply hoare_quiet. apply Gap_finishUpload_shaped.
  - apply quietRetry_call.
  - intros o r. split; exact I.
  - intros n tot. split; exact I.
  - intros tot. split; exact I.
  - intros b k id parts. split; exact I.
Qed.

Lemma Gap_multipartUpload_retrying rid :
  hoare (fun w => log w = lg0)
    (Gap.multipartUpload env bucket key filePath size rid)
    (fun _ => Bounded) (fun _ => Bounded).
Proof.
  unfold Gap.multipartUpload. cbv zeta.
  apply (hoare_bind
           (outcomeOf (fun l w => gapRetrying l lg0 [] w) (fun _ => Bounded))).
  { apply hoare_attempt.
    apply (hoare_bind (fun _ w => log w = lg0)).
    { intros w Hw. exact Hw. }
    intros w0. apply Gap_starting_retrying. }
  intros [l | e]; [| apply Gap_multipartCatch_retrying].
  apply (hoare_tryCatch (fun _ => Bounded));
    [| intros e; apply Gap_multipartCatch_retrying].
  assert (forall e tasks (w : Gap.W),
            quietRetry e -> gapRetrying l lg0 tasks w ->
            gapRetrying l lg0 tasks (logEntry e w)) as Hentry.
  { intros e tasks w He. apply gapRetrying_logged; [| reflexivity].
    exists [e]. split; [reflexivity | repeat constructor; apply He]. }
  apply (hoare_bind (fun _ w => gapRetrying l lg0 [] w)).
  { intros w Hw. unfold registrySet, update.
    revert Hw. apply gapRetrying_logged; [| reflexivity].
    exists []. split; [reflexivity | constructor]. }
  intros _.
  apply (hoare_bind (fun _ w => gapRetrying l lg0 [] w)).
  { apply (hoare_awaitOk env (Gap.runCall env) (gapRetrying l lg0 [])).
    - intros w. apply Hentry. split; exact I.
    - intros c w. apply gapRetrying_call.
    - intros w Hw. cbv zeta.
      assert (gapRetrying l lg0 []
                (logEntry (Settle (DenoOpen filePath)
                             (reply env (log w) (DenoOpen filePath))) w))
        as Hs by (apply Hentry; [split; exact I | exact Hw]).
      destruct (reply env (log w) (DenoOpen filePath));
        first [exact Hs | eapply gapRetrying_bounded; exact Hs]. }
  intros _. apply hoare_tryFinally.
  assert (forall w : Gap.W,
            Bounded w -> Bounded (logEntry (FileClose filePath) w)) as Hclose.
  { intros w. apply retriesBounded_logged; [exact noTimer_backoffDelay |].
    exists [FileClose filePath].
    split; [reflexivity | repeat constructor]. }
  apply (hoare_bind (fun _ => Bounded)).
  - eapply hoare_weaken;
      [| | | apply (Gap_transferLoop_retrying env filePath size
                      (totalPartsFor size) l lg0)].
    + intros w Hw. exact Hw.
    + intros a w Hw. eapply gapRetrying_bounded; exact Hw.
    + intros e w (tasks & Hw). apply Hclose.
      eapply gapRetrying_bounded; exact Hw.
  - intros _. eapply hoare_weaken; [| | | apply Gap_finishUpload_retrying].
    + intros w Hw. exact Hw.
    + intros a w Hw. apply Hclose, Hw.
    + intros e w Hw. apply Hclose, Hw.
Qed.
End GapRetryCall.

(** X16. In the gap-scanning manager, whatever the backend answers and
    whoever calls in: until a chunked call returns, the upload of one part
    is issued at most four times, the first attempt and three retries, and
    every backoff timer it sets has a delay of 1000, 2000 or 3000 ms. *)
Theorem gap_uploads_a_part_at_most_four_times env bucket key filePath size
    rid (w : Gap.W) :
  exists new,
    log (Gap.multipartUpload env bucket key filePath size rid w).2
    = new ++ log w /\
    (forall n, attemptsOf n new <= 4) /\
    Forall backoffDelay new.
Proof.
  pose proof (Gap_multipartUpload_retrying env bucket key filePath size
                (log w) rid w eq_refl) as H.
  destruct (Gap.multipartUpload env bucket key filePath size rid w)
    as [[x | e] w1]; exact H.
Qed.

(** The bound is reached: on a backend that refuses part 3 every time, the
    upload of part 3 is issued four times, with the three delays in
    between. *)
Example fourth_attempt_is_the_last :
  let new := log (Gap.uploadFile refusingEnv "b" "k" "f" emptyWorld).2 in
  attemptsOf 3 new = 4 /\ timersIssued new = [1000; 2000; 3000]%Z.
Proof. vm_compute. split; reflexivity. Qed.

(** * The cursor-only manager uploads no part twice *)

Section CursorRetry.
Variables (env : Env) (file : string) (size : Z) (total : nat) (l : nat).
Variable lg0 : list Entry.

Local Abbreviation Inv := (cursorRetrying l lg0).

Lemma cursorRetrying_call tasks c w :
  Inv tasks w -> Inv tasks (Cursor.runCall env c (logEntry (Extern c) w)).
Proof.
  intros (st & new & Hl & Hlog & T & Hlt).
  destruct (Cursor_runCall_keeps env l c (logEntry (Extern c) w) st Hl)
    as (st1 & Hl1 & Hcore).
  destruct (Cursor_runCall_logged env c (logEntry (Extern c) w))
    as (mid & Hmid & Fmid).
  inversion Hcore as [[Hb Hk Hu Hf Hs Hparts Hnext]].
  exists st1, ((mid ++ [Extern c]) ++ new).
  split; [exact Hl1 |]. split.
  { rewrite Hmid. cbn [log logEntry]. rewrite Hlog, <- !app_assoc.
    reflexivity. }
  rewrite Hnext. split; [| exact Hlt].
  apply (retrying_other 0 noTimer false false
           (fun n => n < Cursor.nextPartNumber st) _ tasks new _ T); auto.
  - apply Forall_app. split.
    + eapply Forall_impl; [exact Fmid | apply notUpload_call].
    + repeat constructor.
  - apply Forall_app. split.
    + eapply Forall_impl; [exact Fmid | apply noTimer_call].
    + repeat constructor.
Qed.

Lemma cursorRetrying_step tasks w j t s o :
  Inv tasks w -> tasks !! j = Some t -> promise t = Pending s o ->
  let r := reply env (log w) o in
  exists t' w1,
    Cursor.uploadPartResume file l size t s o r (logEntry (Settle o r) w)
    = (Return t', w1) /\
    Inv (<[j := t']> tasks) w1.
Proof.
  intros (st & new & Hl & Hlog & T & Hlt) Hj Hp r.
  destruct (sending_pending t s o Hp) as [_ Hn].
  pose proof (Forall_lookup_1 _ _ _ _ (tasks_bounded _ _ _ _ _ _ T) Hj) as Hb.
  unfold retryBound in Hb. rewrite Hp in Hb. destruct Hb as [Hrc Hb].
  set (w' := logEntry (Settle o r) w).
  assert (heap w' !! l = Some st) as Hl' by exact Hl.
  assert (log w' = (Settle o r :: new) ++ lg0) as Hlog'
    by (cbn [log logEntry w']; rewrite Hlog; reflexivity).
  assert (forall e o0 r0 m, attemptsOf m (e :: Settle o0 r0 :: new)
                            = attemptsOf m (e :: new)) as Hskip.
  { intros e o0 r0 m. rewrite !attemptsOf_cons. cbn. lia. }
  assert (partNumber t < Cursor.nextPartNumber st) as Hpast.
  { rewrite Forall_forall in Hlt. apply Hlt.
    apply list_elem_of_omap. exists t. split; [| exact Hn].
    eapply list_elem_of_lookup_2, Hj. }
  assert (forall t',
            pendingNumber t' = None ->
            Forall (fun n => n < Cursor.nextPartNumber st)
              (pendingNumbers (<[j := t']> tasks))) as Hdrop.
  { intros t' Hn'.
    pose proof (pendingNumbers_drop tasks j t t' (partNumber t) Hj Hn Hn')
      as Hperm.
    rewrite Hperm in Hlt. apply Forall_cons in Hlt. apply Hlt. }
  assert (forall t',
            pendingNumber t' = pendingNumber t ->
            Forall (fun n => n < Cursor.nextPartNumber st)
              (pendingNumbers (<[j := t']> tasks))) as Hkeep.
  { intros t' Hn'. rewrite (pendingNumbers_same tasks j t t' Hj Hn').
    exact Hlt. }
  (* the task is rejected *)
  assert (forall e,
            Inv (<[j := mkTask (partNumber t) 0 (Rejected e)]> tasks) w')
    as Hreject.
  { intros e. exists st, (Settle o r :: new).
    split; [exact Hl |]. split; [exact Hlog' |].
    split; [| apply Hdrop; reflexivity].
    apply (retrying_leaves 0 noTimer _ _ tasks new j t _ (partNumber t)
             T Hj Hn).
    - reflexivity.
    - intros m. apply attemptsOf_other. exact I.
    - constructor; [exact I | apply (entries_allowed _ _ _ _ _ _ T)].
    - intros Ha. exact Ha.
    - intros m Hm. exact Hm.
    - intros _ Hnr. exfalso. apply (Hnr e). reflexivity. }
  destruct s.
  - (* the seek has settled *)
    destruct r eqn:Er;
      [ eexists _, _; split; [reflexivity | apply Hreject] | .. ];
      (unfold Cursor.uploadPartResume, bind, issue, record, ret;
       eexists _, _; split; [reflexivity |];
       exists st,
         (Issue (FileRead file (partLength (partNumber t) size))
          :: Settle o r :: new);
       split; [exact Hl' |];
       split; [cbn [log logEntry]; rewrite Hlog', Er; reflexivity |];
       split; [| apply Hkeep; rewrite Hn; reflexivity];
       apply (retrying_stays 0 noTimer _ _ tasks new j t _ (partNumber t)
                T Hj Hn);
       [ reflexivity
       | intros m _; rewrite Hskip; apply attemptsOf_other; exact I
       | rewrite Hskip, attemptsOf_other by exact I;
         split; [lia | apply (attempts_max _ _ _ _ _ _ T)]
       | unfold retryBound; cbn [promise partNumber retryCount];
         rewrite Hskip, attemptsOf_other by exact I; lia
       | constructor; [exact I |];
         constructor; [exact I | apply (entries_allowed _ _ _ _ _ _ T)] ]).
  - (* the read has settled *)
    destruct r eqn:Er;
      [ eexists _, _; split; [reflexivity | apply Hreject] | .. ];
      (unfold Cursor.uploadPartResume, bind, read, issue, record, ret;
       rewrite (lookup_total_correct _ _ _ Hl');
       eexists _, _; split; [reflexivity |];
       exists st,
         (Issue (UploadPart (Cursor.bucket st) (Cursor.key st)
                   (Cursor.uploadId st) (partNumber t))
          :: Settle o r :: new);
       split; [exact Hl' |];
       split; [cbn [log logEntry]; rewrite Hlog', Er; reflexivity |];
       split; [| apply Hkeep; rewrite Hn; reflexivity];
       apply (retrying_stays 0 noTimer _ _ tasks new j t _ (partNumber t)
                T Hj Hn);
       [ reflexivity
       | intros m Hm; rewrite Hskip, attemptsOf_cons;
         destruct (Nat.eqb_spec m (partNumber t)); [contradiction | lia]
       | rewrite Hskip, attemptsOf_cons, Nat.eqb_refl; lia
       | unfold retryBound; cbn [promise partNumber retryCount];
         rewrite Hskip, attemptsOf_cons, Nat.eqb_refl; lia
       | constructor; [exact I |];
         constructor; [exact I | apply (entries_allowed _ _ _ _ _ _ T)] ]).
  - (* the upload has settled *)
    destruct r eqn:Er;
      try (eexists _, _; split; [reflexivity | apply Hreject]).
    unfold Cursor.uploadPartResume.
    destruct (String.eqb id "");
      [eexists _, _; split; [reflexivity | apply Hreject] |].
    unfold bind, read, write, modify, update, onProgress, record, ret.
    rewrite (lookup_total_correct _ _ _ Hl').
    eexists _, _. split; [reflexivity |].
    eexists _, (Emit _ :: Settle _ r :: new).
    cbn [heap log logEntry w']. rewrite lookup_alter_eq, Hl.
    split; [reflexivity |].
    split; [rewrite Hlog, Er; reflexivity |].
    cbn [Cursor.nextPartNumber Cursor.setUploadedParts].
    split; [| apply Hdrop; reflexivity].
    apply (retrying_leaves 0 noTimer _ _ tasks new j t _ (partNumber t)
             T Hj Hn).
    + reflexivity.
    + intros m. rewrite !attemptsOf_other by exact I. reflexivity.
    + constructor; [exact I |].
      constructor; [exact I | apply (entries_allowed _ _ _ _ _ _ T)].
    + intros Ha. exact Ha.
    + intros m Hm. exact Hm.
    + intros _ _. exact Hpast.
  - (* no timer is ever set by this manager *)
    lia.
Qed.

Lemma Cursor_promiseAll_retrying fuel tasks w :
  Inv tasks w ->
  exists tasks' r w1,
    promiseAll env (Cursor.runCall env) (Cursor.uploadPartResume file l size)
      fuel tasks w = (r, w1) /\
    Inv tasks' w1 /\ settledAs r tasks'.
Proof.
  apply (promiseAll_invariant env (Cursor.runCall env)
           (Cursor.uploadPartResume file l size) Inv).
  - intros ts c w0. apply cursorRetrying_call.
  - intros ts w0 j t s o. apply cursorRetrying_step.
Qed.

(** Starting a batch: the parts from the cursor on have no upload yet. *)
Lemma Cursor_batch_retrying (w : Cursor.W) st :
  Inv [] w -> heap w !! l = Some st ->
  let next := Cursor.nextPartNumber st in
  let k := Nat.min MAX_CONCURRENT_UPLOADS (total + 1 - next) in
  Inv (startedOn file <$> seq next k)
    (mkWorld (<[l := Cursor.setNextPartNumber (next + k) st]> (heap w))
       (uploadStates w) (seeksFor file (seq next k) ++ log w)).
Proof.
  intros (st' & new & Hl' & Hlog & T & _) Hl next k.
  rewrite Hl in Hl'. inversion Hl'; subst st'. clear Hl'.
  destruct (seeksFor_quiet file (seq next k)) as [Hq Hd].
  assert (forall m, attemptsOf m (seeksFor file (seq next k) ++ new)
                    = attemptsOf m new) as Hsame
    by (intros m; apply attemptsOf_quiet, Hq).
  assert (forall x, next <= x -> attemptsOf x new = 0) as Hfresh.
  { intros x Hx.
    destruct (attemptsOf x new) as [| a] eqn:Ea; [reflexivity |].
    destruct (attempts_known _ _ _ _ _ _ T eq_refl eq_refl x) as [Hin | Hin];
      [lia | apply elem_of_nil in Hin; contradiction |].
    fold next in Hin. lia. }
  exists (Cursor.setNextPartNumber (next + k) st),
    (seeksFor file (seq next k) ++ new).
  cbn [heap log]. rewrite lookup_insert_eq.
  split; [reflexivity |].
  split; [rewrite Hlog, app_assoc; reflexivity |].
  cbn [Cursor.nextPartNumber Cursor.setNextPartNumber].
  rewrite pendingNumbers_started.
  split.
  - destruct T. constructor.
    + intros m. rewrite Hsame. auto.
    + intros _ _ m Hm. rewrite Hsame in Hm. right.
      destruct (attempts_known0 eq_refl eq_refl m Hm) as [Hin | Hin];
        [apply elem_of_nil in Hin; contradiction |].
      fold next in Hin. lia.
    + rewrite pendingNumbers_started. apply NoDup_ListNoDup, seq_NoDup.
    + apply Forall_fmap, Forall_forall. intros x Hx.
      apply list_elem_of_In, in_seq in Hx.
      unfold retryBound, startedOn, compose.
      cbn [promise retryCount partNumber].
      rewrite Hsame, (Hfresh x) by lia. lia.
    + apply Forall_app. split; [| assumption].
      unfold seeksFor. apply Forall_rev, Forall_fmap, Forall_true.
      intros x. exact I.
  - apply Forall_forall. intros x Hx.
    apply list_elem_of_In, in_seq in Hx. lia.
Qed.

Lemma Cursor_transferLoop_retrying fuel :
  hoare (Inv []) (Cursor.transferLoop env fuel file l total size)
    (fun _ => Inv []) (fun _ w => exists tasks, Inv tasks w).
Proof.
  induction fuel as [| fuel IH]; intros w Hinv.
  all: pose proof Hinv as (st & new & Hl & Hlog & T & Hlt).
  all: cbn [Cursor.transferLoop]; unfold bind at 1, read at 1.
  all: rewrite (lookup_total_correct _ _ _ Hl).
  all: destruct ((Cursor.nextPartNumber st <=? total)
                 && negb (Cursor.isPaused st)); [| exact Hinv].
  all: pose proof (Cursor_batch_retrying w st Hinv Hl) as Hstart.
  all: cbv zeta in Hstart.
  all: unfold bind at 1.
  all: rewrite (Cursor_startBatch_consecutive file l total size
                  MAX_CONCURRENT_UPLOADS w st Hl).
  all: cbv zeta.
  all: unfold bind at 1.
  all: match goal with
       | |- context [promiseAll ?e ?rc ?res ?f ?ts ?w0] =>
           destruct (Cursor_promiseAll_retrying f ts w0 Hstart)
             as (tasks' & r & w1 & Ep & Hinv1 & Hset)
       end.
  all: rewrite Ep.
  all: destruct r as [[] | e]; [| exists tasks'; exact Hinv1].
  all: assert (Inv [] w1) as Hinv2
    by (destruct Hinv1 as (st1 & new1 & Hl1 & Hlog1 & T1 & _);
        exists st1, new1; split; [exact Hl1 |]; split; [exact Hlog1 |];
        split; [eapply retrying_settled; eauto | constructor]).
  - exists []. exact Hinv2.
  - apply IH, Hinv2.
Qed.
End CursorRetry.

Lemma Cursor_starting_allocates env bucket key filePath size rid
    (resumes : bool) :
  hoare (fun _ => True)
    (if resumes
     then Cursor.resumeMultipartUpload env bucket key filePath size rid
     else Cursor.initiateMultipartUpload env bucket key filePath size)
    (fun l w => exists st, heap w !! l = Some st)
    (fun _ _ => True).
Proof.
  assert (forall st0,
            hoare (fun _ : Cursor.W => True) (alloc st0)
              (fun l w => exists st, heap w !! l = Some st)
              (fun _ _ => True)) as Halloc.
  { intros st0 w _. unfold alloc. exists st0. cbn [heap].
    apply lookup_insert_eq. }
  destruct resumes.
  - unfold Cursor.resumeMultipartUpload.
    apply (hoare_bind (fun _ _ => True)); [apply hoare_any | intros w0].
    cbv zeta. destruct (negb _); [apply hoare_throw; auto |].
    apply (hoare_bind (fun _ _ => True)); [apply hoare_any | intros r].
    apply Halloc.
  - unfold Cursor.initiateMultipartUpload.
    apply (hoare_bind (fun _ _ => True)); [apply hoare_any | intros r].
    destruct r; try (apply hoare_throw; auto).
    destruct (String.eqb _ _); [apply hoare_throw; auto | apply Halloc].
Qed.

Lemma cursorRetrying_logged l lg0 tasks (w w1 : Cursor.W) :
  logged quietRetry w w1 -> heap w1 = heap w ->
  cursorRetrying l lg0 tasks w -> cursorRetrying l lg0 tasks w1.
Proof.
  intros (mid & Hmid & Fmid) Hh (st & new & Hl & Hlog & T & Hlt).
  destruct (Forall_quietRetry noTimer mid (fun e H => H) Fmid) as [Hq Hb].
  exists st, (mid ++ new). split; [rewrite Hh; exact Hl |]. split.
  - rewrite Hmid, Hlog. apply app_assoc.
  - split; [| exact Hlt].
    apply (retrying_other 0 noTimer false false
             (fun n => n < Cursor.nextPartNumber st) _ tasks new _ T); auto.
Qed.

Lemma cursorRetrying_bounded l lg0 tasks (w : Cursor.W) :
  cursorRetrying l lg0 tasks w -> retriesBounded 0 noTimer lg0 w.
Proof.
  intros (st & new & _ & Hlog & [] & _). exists new. auto.
Qed.

Section CursorRetryCall.
Variables (env : Env) (bucket key filePath : string) (size : Z).
Variable lg0 : list Entry.

Local Abbreviation Bounded :=
  (@retriesBounded Cursor.UploadState 0 noTimer lg0).

Lemma Cursor_starting_retrying rid (resumes : bool) :
  hoare (fun w => log w = lg0)
    (if resumes
     then Cursor.resumeMultipartUpload env bucket key filePath size rid
     else Cursor.initiateMultipartUpload env bucket key filePath size)
    (fun l w => cursorRetrying l lg0 [] w)
    (fun _ => Bounded).
Proof.
  intros w Hw.
  pose proof (Cursor_starting_allocates env bucket key filePath size rid
                resumes w I) as Halloc.
  assert (preserves (logged quietRetry)
            (if resumes
             then Cursor.resumeMultipartUpload env bucket key filePath size
                    rid
             else Cursor.initiateMultipartUpload env bucket key filePath size))
    as Hq.
  { apply Cursor_starting_shaped.
    - apply quietRetry_call.
    - intros o r. split; exact I.
    - intros [] H; try contradiction; split; exact I. }
  specialize (Hq w).
  pose proof (retriesBounded_initial 0 noTimer lg0 w _ (fun e H => H) Hw Hq)
    as Hbound.
  destruct Hq as (new & Hlog & Fnew).
  destruct (Forall_quietRetry noTimer new (fun e H => H) Fnew) as [Hq Hb].
  destruct (if resumes then _ else _) as [[l | e] w1]; cbn [snd] in Hlog;
    [| exact Hbound].
  destruct Halloc as (st & Hl).
  exists st, new. split; [exact Hl |]. split; [congruence |].
  split; [apply retrying_initial; assumption | constructor].
Qed.

Lemma Cursor_multipartUpload_retrying rid :
  hoare (fun w => log w = lg0)
    (Cursor.multipartUpload env bucket key filePath size rid)
    (fun _ => Bounded) (fun _ => Bounded).
Proof.
  assert (forall (w w1 : Cursor.W),
            logged quietRetry w w1 -> Bounded w -> Bounded w1) as Hquiet.
  { intros w w1. apply retriesBounded_logged. auto. }
  assert (forall A (m : Cursor.M A),
            preserves (logged quietRetry) m ->
            hoare Bounded m (fun _ => Bounded) (fun _ => Bounded)) as Hhoare.
  { intros A m H w Hw. specialize (H w).
    pose proof (Hquiet w _ H Hw) as Hb.
    destruct (m w) as [[a | e] w1]; exact Hb. }
  unfold Cursor.multipartUpload. cbv zeta.
  apply (hoare_tryCatch (fun _ => Bounded)).
  2: { intros e. apply Hhoare. apply Cursor_multipartCatch_shaped.
       split; exact I. }
  apply (hoare_bind (fun _ w => log w = lg0)).
  { intros w Hw. exact Hw. }
  intros w0.
  apply (hoare_bind (fun l w => cursorRetrying l lg0 [] w));
    [apply Cursor_starting_retrying | intros l].
  assert (forall e tasks (w : Cursor.W),
            quietRetry e -> cursorRetrying l lg0 tasks w ->
            cursorRetrying l lg0 tasks (logEntry e w)) as Hentry.
  { intros e tasks w He. apply cursorRetrying_logged; [| reflexivity].
    exists [e]. split; [reflexivity | repeat constructor; apply He]. }
  apply (hoare_bind (fun _ w => cursorRetrying l lg0 [] w)).
  { intros w Hw. unfold registrySet, update.
    revert Hw. apply cursorRetrying_logged; [| reflexivity].
    exists []. split; [reflexivity | constructor]. }
  intros _.
  apply (hoare_bind (fun _ w => cursorRetrying l lg0 [] w)).
  { apply (hoare_awaitOk env (Cursor.runCall env) (cursorRetrying l lg0 [])).
    - intros w. apply Hentry. split; exact I.
    - intros c w. apply cursorRetrying_call.
    - intros w Hw. cbv zeta.
      assert (cursorRetrying l lg0 []
                (logEntry (Settle (DenoOpen filePath)
                             (reply env (log w) (DenoOpen filePath))) w))
        as Hs by (apply Hentry; [split; exact I | exact Hw]).
      destruct (reply env (log w) (DenoOpen filePath));
        first [exact Hs | eapply cursorRetrying_bounded; exact Hs]. }
  intros _. apply hoare_tryFinally.
  assert (forall w : Cursor.W,
            Bounded w -> Bounded (logEntry (FileClose filePath) w)) as Hclose.
  { intros w. apply Hquiet.
    exists [FileClose filePath].
    split; [reflexivity | repeat constructor]. }
  apply (hoare_bind (fun _ => Bounded)).
  - eapply hoare_weaken;
      [| | | apply (Cursor_transferLoop_retrying env filePath size
                      (totalPartsFor size) l lg0)].
    + intros w Hw. exact Hw.
    + intros a w Hw. eapply cursorRetrying_bounded; exact Hw.
    + intros e w (tasks & Hw). apply Hclose.
      eapply cursorRetrying_bounded; exact Hw.
  - intros _.
    eapply hoare_weaken;
      [| | | apply (Hhoare _ (Cursor.finishUpload env (stateKey bucket key)
                                filePath l (totalPartsFor size) size))].
    + intros w Hw. exact Hw.
    + intros a w Hw. apply Hclose, Hw.
    + intros e w Hw. apply Hclose, Hw.
    + apply Cursor_finishUpload_shaped.
      * apply quietRetry_call.
      * intros o r. split; exact I.
      * intros n tot. split; exact I.
      * intros tot. split; exact I.
      * intros b k id parts. split; exact I.
Qed.
End CursorRetryCall.

(** X17. In the cursor-only manager, whatever the backend answers and
    whoever calls in: until a chunked call returns, the upload of one part
    is issued at most once and no timer is set: a part that fails is never
    tried again. *)
Theorem cursor_uploads_a_part_at_most_once env bucket key filePath size rid
    (v : Cursor.W) :
  exists new,
    log (Cursor.multipartUpload env bucket key filePath size rid v).2
    = new ++ log v /\
    (forall n, attemptsOf n new <= 1) /\
    Forall noTimer new.
Proof.
  pose proof (Cursor_multipartUpload_retrying env bucket key filePath size
                (log v) rid v eq_refl) as H.
  destruct (Cursor.multipartUpload env bucket key filePath size rid v)
    as [[x | e] v1]; exact H.
Qed.

(** * Resuming continues the multipart upload it was given *)

Lemma continues_call ident e : callEntry e -> continues ident e.
Proof. destruct e as [[] | | | |]; cbn; auto; contradiction. Qed.

Section Under.
Context {St : Type} `{Inhabited St}.
Variables (identOf : St -> Identity) (l : nat) (lg0 : list Entry).
Variable ident : Identity.

Local Abbreviation R := (staysUnder identOf l lg0 ident).

#[global] Instance staysUnder_preorder : PreOrder R.
Proof.
  split.
  - intros w Hw. exact Hw.
  - intros w1 w2 w3 H1 H2 Hw. apply H2, H1, Hw.
Qed.

Lemma staysUnder_logged (w w1 : World St) :
  heap w1 = heap w -> logged (continues ident) w w1 -> R w w1.
Proof.
  intros Hh (mid & Hmid & Fmid) (st & new & Hl & Hlog & Hid & Fnew).
  exists st, (mid ++ new). rewrite Hh, Hmid, Hlog.
  split; [exact Hl |]. split; [apply app_assoc |]. split; [exact Hid |].
  apply Forall_app. auto.
Qed.

Lemma staysUnder_same (w w1 : World St) :
  heap w1 = heap w -> log w1 = log w -> R w w1.
Proof.
  intros Hh Hg. apply staysUnder_logged; [exact Hh |].
  exists []. split; [exact Hg | constructor].
Qed.

Lemma staysUnder_entry e (w : World St) :
  continues ident e -> R w (logEntry e w).
Proof.
  intros He. apply staysUnder_logged; [reflexivity |].
  exists [e]. split; [reflexivity | repeat constructor; exact He].
Qed.

Lemma staysUnder_modify l' (f : St -> St) :
  (forall st, identOf (f st) = identOf st) ->
  preserves R (modify l' f).
Proof.
  intros Hf w (st & new & Hl & Hlog & Hid & Fnew).
  unfold modify, update. cbn [snd].
  destruct (decide (l' = l)) as [-> | Hne].
  - exists (f st), new. cbn [heap log]. rewrite lookup_alter_eq, Hl, Hf. auto.
  - exists st, new. cbn [heap log]. rewrite lookup_alter_ne by exact Hne. auto.
Qed.

(** An entry that is made from the state object that was just read. *)
Lemma staysUnder_read_entry (e : St -> Entry) (w : World St) :
  (forall st, identOf st = ident -> continues ident (e st)) ->
  R w (logEntry (e (heap w !!! l)) w).
Proof.
  intros He Hw. pose proof Hw as (st & new & Hl & Hlog & Hid & Fnew).
  revert Hw. apply staysUnder_entry.
  rewrite (lookup_total_correct _ _ _ Hl). apply He, Hid.
Qed.

Lemma under_continued (w : World St) :
  under identOf l lg0 ident w -> continued lg0 ident w.
Proof. intros (st & new & _ & Hlog & _ & Fnew). exists new. auto. Qed.
End Under.

Lemma continued_logged {St} lg0 ident (w w1 : World St) :
  logged (continues ident) w w1 ->
  continued lg0 ident w -> continued lg0 ident w1.
Proof.
  intros (mid & Hmid & Fmid) (new & Hlog & Fnew).
  exists (mid ++ new). rewrite Hmid, Hlog.
  split; [apply app_assoc | apply Forall_app; auto].
Qed.

Ltac stays_under :=
  try (intros ?;
       first [ apply staysUnder_same; reflexivity
             | apply staysUnder_entry; exact I ]).

Section GapUnder.
Variables (env : Env) (l : nat) (lg0 : list Entry) (ident : Identity).

Local Abbreviation R := (staysUnder gapIdentity l lg0 ident).

Lemma Gap_runCall_staysUnder c w : R w (Gap.runCall env c w).
Proof.
  intros (st & new & Hl & Hlog & Hid & Fnew).
  destruct (Gap_runCall_keeps env l c w st Hl) as (st1 & Hl1 & Hcore).
  destruct (Gap_runCall_logged env c w) as (mid & Hmid & Fmid).
  inversion Hcore as [[Hb Hk Hu Hf Hs Hparts Hnext]].
  exists st1, (mid ++ new). rewrite Hmid, Hlog.
  split; [exact Hl1 |]. split; [apply app_assoc |].
  split; [rewrite <- Hid; unfold gapIdentity; congruence |].
  apply Forall_app. split; [| exact Fnew].
  eapply Forall_impl; [exact Fmid | apply continues_call].
Qed.

Lemma Gap_uploadPartResume_staysUnder file size t s o r :
  preserves R (Gap.uploadPartResume file l size t s o r).
Proof.
  unfold Gap.uploadPartResume, Gap.uploadPartCatch, Gap.uploadPart.
  destruct s.
  - destruct r; pres (staysUnder gapIdentity l lg0 ident); stays_under.
  - destruct r; try (pres (staysUnder gapIdentity l lg0 ident); stays_under; fail).
    all: intros w; unfold bind, read, issue, record, ret; cbn [snd].
    all: apply (staysUnder_read_entry gapIdentity l lg0 ident
                  (fun st => Issue (UploadPart (Gap.bucket st) (Gap.key st)
                                      (Gap.uploadId st) (partNumber t)))).
    all: intros st Hid; exact Hid.
  - destruct r; try (pres (staysUnder gapIdentity l lg0 ident); stays_under; fail).
    destruct (String.eqb id ""); [pres (staysUnder gapIdentity l lg0 ident); stays_under; fail |].
    intros w Hw. pose proof Hw as (st & new & Hl & Hlog & Hid & Fnew).
    unfold bind, read, write, modify, update, onProgress, record, ret.
    cbn [snd]. rewrite (lookup_total_correct _ _ _ Hl).
    eexists _, (Emit _ :: new). cbn [heap log logEntry].
    rewrite lookup_alter_eq, Hl, Hlog.
    split; [reflexivity |]. split; [reflexivity |].
    split; [exact Hid |]. constructor; [exact I | exact Fnew].
  - destruct r; pres (staysUnder gapIdentity l lg0 ident); stays_under.
Qed.

Lemma Gap_promiseAll_staysUnder file size fuel tasks :
  preserves R
    (promiseAll env (Gap.runCall env) (Gap.uploadPartResume file l size)
       fuel tasks).
Proof.
  apply (preserves_promiseAll env (Gap.runCall env) R).
  - intros c w. apply Gap_runCall_staysUnder.
  - intros c w. apply staysUnder_entry. exact I.
  - intros t s o r. apply Gap_uploadPartResume_staysUnder.
  - intros o r w. apply staysUnder_entry. exact I.
Qed.

Lemma Gap_startBatch_staysUnder file size parts :
  preserves R (Gap.startBatch file l size parts).
Proof.
  induction parts as [| n parts IH]; cbn [Gap.startBatch].
  - apply (preserves_ret R).
  - unfold Gap.uploadPart. pres (staysUnder gapIdentity l lg0 ident); stays_under.
Qed.

Lemma Gap_transferLoop_staysUnder fuel file total size :
  preserves R (Gap.transferLoop env fuel file l total size).
Proof.
  induction fuel as [| fuel IH]; cbn [Gap.transferLoop];
    pres (staysUnder gapIdentity l lg0 ident); stays_under;
    first [ apply Gap_startBatch_staysUnder
          | apply Gap_promiseAll_staysUnder
          | apply staysUnder_modify; intros st; reflexivity ].
Qed.

Lemma Gap_finishUpload_staysUnder k filePath total size :
  preserves R (Gap.finishUpload env k filePath l total size).
Proof.
  unfold Gap.finishUpload, Gap.completeMultipartUpload.
  apply (preserves_bind R); [stays_under | intros state].
  destruct (Gap.isAborted state); [apply (preserves_ret R) |].
  destruct (Gap.isPaused state); [pres (staysUnder gapIdentity l lg0 ident); stays_under |].
  destruct (negb _); [apply (preserves_throw R) |].
  apply (preserves_bind R); [| intros _; pres (staysUnder gapIdentity l lg0 ident); stays_under].
  intros w Hw. pose proof Hw as (st & new & Hl & Hlog & Hid & Fnew).
  unfold bind at 1, read at 1. cbv iota beta.
  rewrite (lookup_total_correct _ _ _ Hl).
  assert (preserves R
            (exec Gap.awaitOk env
                    (CompleteMultipartUpload (Gap.bucket st) (Gap.key st)
                       (Gap.uploadId st) (Gap.uploadedParts st)) in
             ret tt)) as Hpres.
  { apply (preserves_bind R); [| intros _; apply (preserves_ret R)].
    apply (preserves_awaitOk env (Gap.runCall env) R).
    - intros c w0. apply Gap_runCall_staysUnder.
    - intros c w0. apply staysUnder_entry. exact I.
    - intros w0. apply staysUnder_entry. exact Hid.
    - intros r w0. apply staysUnder_entry. exact I. }
  apply (Hpres w Hw).
Qed.
End GapUnder.

Lemma hoare_stays {St A} (P : World St -> Prop) (m : M St A) :
  preserves (fun w w1 => P w -> P w1) m ->
  hoare P m (fun _ => P) (fun _ => P).
Proof.
  intros H w Hw. specialize (H w Hw).
  destruct (m w) as [[a | e] w1]; exact H.
Qed.

Lemma hoare_continued {St A} lg0 ident (m : M St A) :
  preserves (logged (continues ident)) m ->
  hoare (continued lg0 ident) m
    (fun _ => continued lg0 ident) (fun _ => continued lg0 ident).
Proof.
  intros H. apply hoare_stays. intros w. apply continued_logged, H.
Qed.

Section GapContinued.
Variables (env : Env) (bucket key filePath : string) (size : Z).
Variable rid : option string.
Variable w : Gap.W.

Local Abbreviation fid :=
  (if truthy rid then rid else Gap.uploadId <$> getUploadState bucket key w).
Local Abbreviation ident := (bucket, key, default "" fid).
Local Abbreviation lg0 := (log w).

Lemma Gap_resuming_under :
  hoare (fun w0 => w0 = w)
    (Gap.resumeMultipartUpload env bucket key filePath size rid)
    (fun l w1 => under gapIdentity l lg0 ident w1)
    (fun _ w1 => continued lg0 ident w1).
Proof.
  intros w0 Hw0. hnf in Hw0. subst w0.
  unfold Gap.resumeMultipartUpload. unfold bind at 1, getWorld at 1.
  cbv zeta.
  destruct (negb _).
  { exists []. split; [reflexivity | constructor]. }
  destruct (awaitOk_spec env (Gap.runCall env) (Gap_runCall_logged env)
              (Gap_runCall_noNewKey env)
              (ListParts bucket key (default "" fid)) w)
    as (mid & w1 & r & Fmid & _ & _ & Hlog & _ & E).
  unfold bind at 1, Gap.awaitOk. rewrite E.
  assert (continued lg0 ident w1) as Hc.
  { exists (Settle (ListParts bucket key (default "" fid)) r
            :: mid ++ [Issue (ListParts bucket key (default "" fid))]).
    split; [rewrite Hlog; cbn [app]; rewrite <- app_assoc; reflexivity |].
    constructor; [exact I |]. apply Forall_app. split.
    - eapply Forall_impl; [exact Fmid | apply continues_call].
    - repeat constructor. }
  destruct Hc as (new & Hnew & Fnew).
  destruct r; [exists new; auto | ..];
    unfold alloc; eexists _, new; cbn [heap log];
    rewrite lookup_insert_eq;
    (split; [reflexivity |]); (split; [exact Hnew |]);
    (split; [reflexivity | exact Fnew]).
Qed.

Lemma Gap_multipartUpload_continued :
  truthy rid || bool_decide (is_Some (uploadStates w !! stateKey bucket key))
  = true ->
  continued lg0 ident
    (Gap.multipartUpload env bucket key filePath size rid w).2.
Proof.
  intros Hres.
  assert (forall state e,
            hoare (continued lg0 ident)
              (Gap.multipartCatch state filePath size e)
              (fun _ => continued lg0 ident) (fun _ => continued lg0 ident))
    as Hcatch.
  { intros state e. apply hoare_continued.
    apply Gap_multipartCatch_shaped. exact I. }
  assert (hoare (fun w0 => w0 = w)
            (Gap.multipartUpload env bucket key filePath size rid)
            (fun _ => continued lg0 ident) (fun _ => continued lg0 ident))
    as Hrun.
  { unfold Gap.multipartUpload. cbv zeta.
    apply (hoare_bind
             (outcomeOf (fun l w1 => under gapIdentity l lg0 ident w1)
                (fun _ w1 => continued lg0 ident w1))).
    { apply hoare_attempt.
      apply (hoare_bind (fun w0 w1 => w0 = w /\ w1 = w)).
      { intros w0 Hw0. hnf in Hw0. subst w0. split; reflexivity. }
      intros w0 w1 [Hw0 Hw1]. subst w0 w1. rewrite Hres.
      apply Gap_resuming_under. reflexivity. }
    intros [l | e]; [| apply Hcatch].
    apply (hoare_tryCatch (fun _ => continued lg0 ident));
      [| intros e; apply Hcatch].
    eapply hoare_weaken;
      [ | | | apply (hoare_stays (under gapIdentity l lg0 ident)) ].
    - intros w0 Hw0. exact Hw0.
    - intros a w0. apply under_continued.
    - intros e w0. apply under_continued.
    - apply (preserves_bind (staysUnder gapIdentity l lg0 ident)).
      { intros w0. apply staysUnder_same; reflexivity. }
      intros _.
      apply (preserves_bind (staysUnder gapIdentity l lg0 ident)).
      + apply (preserves_awaitOk env (Gap.runCall env)
                 (staysUnder gapIdentity l lg0 ident)).
        * intros c w0. apply Gap_runCall_staysUnder.
        * intros c w0. apply staysUnder_entry. exact I.
        * intros w0. apply staysUnder_entry. exact I.
        * intros r w0. apply staysUnder_entry. exact I.
      + intros _.
        apply (preserves_tryFinally (staysUnder gapIdentity l lg0 ident)).
        * apply (preserves_bind (staysUnder gapIdentity l lg0 ident)).
          -- apply Gap_transferLoop_staysUnder.
          -- intros _. apply Gap_finishUpload_staysUnder.
        * intros w0. apply staysUnder_entry. exact I. }
  specialize (Hrun w eq_refl).
  destruct (Gap.multipartUpload env bucket key filePath size rid w)
    as [[x | e] w1]; exact Hrun.
Qed.
End GapContinued.

Section CursorUnder.
Variables (env : Env) (l : nat) (lg0 : list Entry) (ident : Identity).

Local Abbreviation R := (staysUnder cursorIdentity l lg0 ident).

Lemma Cursor_runCall_staysUnder c w : R w (Cursor.runCall env c w).
Proof.
  intros (st & new & Hl & Hlog & Hid & Fnew).
  destruct (Cursor_runCall_keeps env l c w st Hl) as (st1 & Hl1 & Hcore).
  destruct (Cursor_runCall_logged env c w) as (mid & Hmid & Fmid).
  inversion Hcore as [[Hb Hk Hu Hf Hs Hparts Hnext]].
  exists st1, (mid ++ new). rewrite Hmid, Hlog.
  split; [exact Hl1 |]. split; [apply app_assoc |].
  split; [rewrite <- Hid; unfold cursorIdentity; congruence |].
  apply Forall_app. split; [| exact Fnew].
  eapply Forall_impl; [exact Fmid | apply continues_call].
Qed.

Lemma Cursor_uploadPartResume_staysUnder file size t s o r :
  preserves R (Cursor.uploadPartResume file l size t s o r).
Proof.
  unfold Cursor.uploadPartResume, Cursor.uploadPart.
  destruct s.
  - destruct r; pres (staysUnder cursorIdentity l lg0 ident); stays_under.
  - destruct r;
      try (pres (staysUnder cursorIdentity l lg0 ident); stays_under; fail).
    all: intros w; unfold bind, read, issue, record, ret; cbn [snd].
    all: apply (staysUnder_read_entry cursorIdentity l lg0 ident
                  (fun st => Issue (UploadPart (Cursor.bucket st)
                                      (Cursor.key st) (Cursor.uploadId st)
                                      (partNumber t)))).
    all: intros st Hid; exact Hid.
  - destruct r;
      try (pres (staysUnder cursorIdentity l lg0 ident); stays_under; fail).
    destruct (String.eqb id "");
      [pres (staysUnder cursorIdentity l lg0 ident); stays_under; fail |].
    intros w Hw. pose proof Hw as (st & new & Hl & Hlog & Hid & Fnew).
    unfold bind, read, write, modify, update, onProgress, record, ret.
    cbn [snd]. rewrite (lookup_total_correct _ _ _ Hl).
    eexists _, (Emit _ :: new). cbn [heap log logEntry].
    rewrite lookup_alter_eq, Hl, Hlog.
    split; [reflexivity |]. split; [reflexivity |].
    split; [exact Hid |]. constructor; [exact I | exact Fnew].
  - destruct r; pres (staysUnder cursorIdentity l lg0 ident); stays_under.
Qed.

Lemma Cursor_promiseAll_staysUnder file size fuel tasks :
  preserves R
    (promiseAll env (Cursor.runCall env) (Cursor.uploadPartResume file l size)
       fuel tasks).
Proof.
  apply (preserves_promiseAll env (Cursor.runCall env) R).
  - intros c w. apply Cursor_runCall_staysUnder.
  - intros c w. apply staysUnder_entry. exact I.
  - intros t s o r. apply Cursor_uploadPartResume_staysUnder.
  - intros o r w. apply staysUnder_entry. exact I.
Qed.

Lemma Cursor_startBatch_staysUnder n file total size :
  preserves R (Cursor.startBatch n file l total size).
Proof.
  induction n as [| n IH]; cbn [Cursor.startBatch].
  - apply (preserves_ret R).
  - unfold Cursor.uploadPart.
    pres (staysUnder cursorIdentity l lg0 ident); stays_under.
    apply staysUnder_modify. intros st. reflexivity.
Qed.

Lemma Cursor_transferLoop_staysUnder fuel file total size :
  preserves R (Cursor.transferLoop env fuel file l total size).
Proof.
  induction fuel as [| fuel IH]; cbn [Cursor.transferLoop];
    pres (staysUnder cursorIdentity l lg0 ident); stays_under;
    first [ apply Cursor_startBatch_staysUnder
          | apply Cursor_promiseAll_staysUnder ].
Qed.

Lemma Cursor_finishUpload_staysUnder k filePath total size :
  preserves R (Cursor.finishUpload env k filePath l total size).
Proof.
  unfold Cursor.finishUpload, Cursor.completeMultipartUpload.
  apply (preserves_bind R); [stays_under | intros state].
  destruct (Cursor.isPaused state);
    [pres (staysUnder cursorIdentity l lg0 ident); stays_under |].
  apply (preserves_bind R);
    [| intros _; pres (staysUnder cursorIdentity l lg0 ident); stays_under].
  intros w Hw. pose proof Hw as (st & new & Hl & Hlog & Hid & Fnew).
  unfold bind at 1, read at 1. cbv iota beta.
  rewrite (lookup_total_correct _ _ _ Hl).
  assert (preserves R
            (exec Cursor.awaitOk env
                    (CompleteMultipartUpload (Cursor.bucket st)
                       (Cursor.key st) (Cursor.uploadId st)
                       (Cursor.uploadedParts st)) in
             ret tt)) as Hpres.
  { apply (preserves_bind R); [| intros _; apply (preserves_ret R)].
    apply (preserves_awaitOk env (Cursor.runCall env) R).
    - intros c w0. apply Cursor_runCall_staysUnder.
    - intros c w0. apply staysUnder_entry. exact I.
    - intros w0. apply staysUnder_entry. exact Hid.
    - intros r w0. apply staysUnder_entry. exact I. }
  apply (Hpres w Hw).
Qed.
End CursorUnder.

Section CursorContinued.
Variables (env : Env) (bucket key filePath : string) (size : Z).
Variable rid : option string.
Variable w : Cursor.W.

Local Abbreviation fid :=
  (if truthy rid
   then rid else Cursor.uploadId <$> getUploadState bucket key w).
Local Abbreviation ident := (bucket, key, default "" fid).
Local Abbreviation lg0 := (log w).

Lemma Cursor_resuming_under :
  hoare (fun w0 => w0 = w)
    (Cursor.resumeMultipartUpload env bucket key filePath size rid)
    (fun l w1 => under cursorIdentity l lg0 ident w1)
    (fun _ w1 => continued lg0 ident w1).
Proof.
  intros w0 Hw0. hnf in Hw0. subst w0.
  unfold Cursor.resumeMultipartUpload. unfold bind at 1, getWorld at 1.
  cbv zeta.
  destruct (negb _).
  { exists []. split; [reflexivity | constructor]. }
  destruct (awaitOk_spec env (Cursor.runCall env) (Cursor_runCall_logged env)
              (Cursor_runCall_noNewKey env)
              (ListParts bucket key (default "" fid)) w)
    as (mid & w1 & r & Fmid & _ & _ & Hlog & _ & E).
  unfold bind at 1, Cursor.awaitOk. rewrite E.
  assert (continued lg0 ident w1) as Hc.
  { exists (Settle (ListParts bucket key (default "" fid)) r
            :: mid ++ [Issue (ListParts bucket key (default "" fid))]).
    split; [rewrite Hlog; cbn [app]; rewrite <- app_assoc; reflexivity |].
    constructor; [exact I |]. apply Forall_app. split.
    - eapply Forall_impl; [exact Fmid | apply continues_call].
    - repeat constructor. }
  destruct Hc as (new & Hnew & Fnew).
  destruct r; [exists new; auto | ..];
    unfold alloc; eexists _, new; cbn [heap log];
    rewrite lookup_insert_eq;
    (split; [reflexivity |]); (split; [exact Hnew |]);
    (split; [reflexivity | exact Fnew]).
Qed.

Lemma Cursor_multipartUpload_continued :
  truthy rid || bool_decide (is_Some (uploadStates w !! stateKey bucket key))
  = true ->
  continued lg0 ident
    (Cursor.multipartUpload env bucket key filePath size rid w).2.
Proof.
  intros Hres.
  assert (hoare (fun w0 => w0 = w)
            (Cursor.multipartUpload env bucket key filePath size rid)
            (fun _ => continued lg0 ident) (fun _ => continued lg0 ident))
    as Hrun.
  { unfold Cursor.multipartUpload. cbv zeta.
    apply (hoare_tryCatch (fun _ => continued lg0 ident)).
    2: { intros e. apply hoare_continued.
         apply Cursor_multipartCatch_shaped. exact I. }
    apply (hoare_bind (fun w0 w1 => w0 = w /\ w1 = w)).
    { intros w0 Hw0. hnf in Hw0. subst w0. split; reflexivity. }
    intros w0.
    apply (hoare_bind (fun l w1 => under cursorIdentity l lg0 ident w1)).
    { intros w1 [Hw0 Hw1]. subst w0 w1. rewrite Hres.
      apply Cursor_resuming_under. reflexivity. }
    intros l.
    eapply hoare_weaken;
      [ | | | apply (hoare_stays (under cursorIdentity l lg0 ident)) ].
    - intros w1 Hw1. exact Hw1.
    - intros a w1. apply under_continued.
    - intros e w1. apply under_continued.
    - apply (preserves_bind (staysUnder cursorIdentity l lg0 ident)).
      { intros w1. apply staysUnder_same; reflexivity. }
      intros _.
      apply (preserves_bind (staysUnder cursorIdentity l lg0 ident)).
      + apply (preserves_awaitOk env (Cursor.runCall env)
                 (staysUnder cursorIdentity l lg0 ident)).
        * intros c w1. apply Cursor_runCall_staysUnder.
        * intros c w1. apply staysUnder_entry. exact I.
        * intros w1. apply staysUnder_entry. exact I.
        * intros r w1. apply staysUnder_entry. exact I.
      + intros _.
        apply (preserves_tryFinally (staysUnder cursorIdentity l lg0 ident)).
        * apply (preserves_bind (staysUnder cursorIdentity l lg0 ident)).
          -- apply Cursor_transferLoop_staysUnder.
          -- intros _. apply Cursor_finishUpload_staysUnder.
        * intros w1. apply staysUnder_entry. exact I. }
  specialize (Hrun w eq_refl).
  destruct (Cursor.multipartUpload env bucket key filePath size rid w)
    as [[x | e] w1]; exact Hrun.
Qed.
End CursorContinued.

Lemma getUploadState_Some {St} bucket key (w : World St) st :
  getUploadState bucket key w = Some st ->
  exists l, uploadStates w !! stateKey bucket key = Some l /\
            heap w !! l = Some st.
Proof.
  unfold getUploadState.
  destruct (uploadStates w !! stateKey bucket key) as [l |];
    [| discriminate].
  intros Hl. exists l. auto.
Qed.

Lemma truthy_nonempty id : id <> "" -> truthy (Some id) = true.
Proof.
  intros Hid. cbn. destruct (String.eqb_spec id ""); [contradiction |].
  reflexivity.
Qed.

Lemma Gap_resumeUpload_continued env bucket key (w : Gap.W) st :
  getUploadState bucket key w = Some st -> Gap.uploadId st <> "" ->
  continued (log w) (Gap.bucket st, Gap.key st, Gap.uploadId st)
    (Gap.resumeUpload env bucket key w).2.
Proof.
  intros Hst Hid.
  destruct (getUploadState_Some bucket key w st Hst) as (l & Hk & Hl).
  unfold Gap.resumeUpload. unfold bind at 1, getWorld at 1. rewrite Hk.
  unfold bind at 1, modify at 1, update at 1. cbv iota beta.
  unfold bind at 1, read at 1. cbn [heap].
  assert (alter (Gap.setPaused false) l (heap w) !! l
          = Some (Gap.setPaused false st)) as Hl'
    by (rewrite lookup_alter_eq, Hl; reflexivity).
  rewrite (lookup_total_correct _ _ _ Hl').
  cbv iota beta.
  cbn [Gap.bucket Gap.key Gap.filePath Gap.fileSize Gap.uploadId
       Gap.setPaused].
  match goal with
  | |- context [Gap.multipartUpload _ ?b ?k ?f ?s ?r ?w0] =>
      pose proof (Gap_multipartUpload_continued env b k f s r w0) as H
  end.
  rewrite (truthy_nonempty _ Hid) in H. cbn [orb default] in H.
  apply H. reflexivity.
Qed.

Lemma Cursor_resumeUpload_continued env bucket key (v : Cursor.W) st :
  getUploadState bucket key v = Some st -> Cursor.uploadId st <> "" ->
  continued (log v) (Cursor.bucket st, Cursor.key st, Cursor.uploadId st)
    (Cursor.resumeUpload env bucket key v).2.
Proof.
  intros Hst Hid.
  destruct (getUploadState_Some bucket key v st Hst) as (l & Hk & Hl).
  unfold Cursor.resumeUpload. unfold bind at 1, getWorld at 1. rewrite Hk.
  unfold bind at 1, modify at 1, update at 1. cbv iota beta.
  unfold bind at 1, read at 1. cbn [heap].
  assert (alter (Cursor.setPaused false) l (heap v) !! l
          = Some (Cursor.setPaused false st)) as Hl'
    by (rewrite lookup_alter_eq, Hl; reflexivity).
  rewrite (lookup_total_correct _ _ _ Hl').
  cbv iota beta.
  cbn [Cursor.bucket Cursor.key Cursor.filePath Cursor.fileSize
       Cursor.uploadId Cursor.setPaused].
  match goal with
  | |- context [Cursor.multipartUpload _ ?b ?k ?f ?s ?r ?w0] =>
      pose proof (Cursor_multipartUpload_continued env b k f s r w0) as H
  end.
  rewrite (truthy_nonempty _ Hid) in H. cbn [orb default] in H.
  apply H. reflexivity.
Qed.

(** X18. In both managers, whatever the backend answers and whoever calls
    in: [resumeUpload] of a registered transfer whose upload id is not
    empty creates no multipart upload; it lists the parts, uploads every
    part and completes under the bucket, key and upload id of the
    registered state. *)
Theorem resume_continues_the_registered_upload env bucket key
    (w : Gap.W) (v : Cursor.W) st sv :
  getUploadState bucket key w = Some st -> Gap.uploadId st <> "" ->
  getUploadState bucket key v = Some sv -> Cursor.uploadId sv <> "" ->
  continued (log w) (Gap.bucket st, Gap.key st, Gap.uploadId st)
    (Gap.resumeUpload env bucket key w).2 /\
  continued (log v) (Cursor.bucket sv, Cursor.key sv, Cursor.uploadId sv)
    (Cursor.resumeUpload env bucket key v).2.
Proof.
  intros Hst Hid Hsv Hiv. split.
  - apply Gap_resumeUpload_continued; assumption.
  - apply Cursor_resumeUpload_continued; assumption.
Qed.

Lemma resume_continues_the_registered_upload_witness :
  let env := calmEnv (25 * MiB) [mkPart 2 "e2"; mkPart 4 "e4"] in
  (getUploadState "b" "k" gapWorld24 = Some gapState24 /\
   Gap.uploadId gapState24 <> "" /\
   getUploadState "b" "k" cursorWorld24 = Some cursorState24 /\
   Cursor.uploadId cursorState24 <> "") /\
  continued [] ("b", "k", "upload-1")
    (Gap.resumeUpload env "b" "k" gapWorld24).2 /\
  continued [] ("b", "k", "upload-1")
    (Cursor.resumeUpload env "b" "k" cursorWorld24).2.
Proof.
  cbv zeta.
  assert (getUploadState "b" "k" gapWorld24 = Some gapState24) as H1
    by (vm_compute; reflexivity).
  assert (Gap.uploadId gapState24 <> "") as H2 by discriminate.
  assert (getUploadState "b" "k" cursorWorld24 = Some cursorState24) as H3
    by (vm_compute; reflexivity).
  assert (Cursor.uploadId cursorState24 <> "") as H4 by discriminate.
  split; [auto |].
  exact (resume_continues_the_registered_upload
           (calmEnv (25 * MiB) [mkPart 2 "e2"; mkPart 4 "e4"]) "b" "k"
           gapWorld24 cursorWorld24 gapState24 cursorState24 H1 H2 H3 H4).
Defined.







(** * A chunked call finalizes at most once *)

Lemma completions_cons e lg :
  completions (e :: lg) = (if isComplete e then 1 else 0) + completions lg.
Proof. unfold completions. cbn [List.filter]. destruct (isComplete e); reflexivity. Qed.

Lemma completions_quiet mid lg :
  Forall noComplete mid -> completions (mid ++ lg) = completions lg.
Proof.
  induction 1 as [| e mid He _ IH]; [reflexivity |].
  cbn [app]. rewrite completions_cons, He. exact IH.
Qed.

Lemma noComplete_call e : callEntry e -> noComplete e.
Proof. destruct e as [[] | | | |]; intros H; try contradiction; reflexivity. Qed.

Lemma completing_logged {St} (P : nat -> Prop) lg0 (w w1 : World St) :
  logged noComplete w w1 -> completing P lg0 w -> completing P lg0 w1.
Proof.
  intros (mid & Hmid & Fmid) (new & Hlog & Hp).
  exists (mid ++ new). split; [rewrite Hmid, Hlog; apply app_assoc |].
  rewrite completions_quiet by exact Fmid. exact Hp.
Qed.

Lemma completing_entry {St} (P : nat -> Prop) lg0 e (w : World St) :
  noComplete e -> completing P lg0 w -> completing P lg0 (logEntry e w).
Proof.
  intros He. apply completing_logged.
  exists [e]. split; [reflexivity | repeat constructor; exact He].
Qed.

Lemma completing_weaken {St} (P Q : nat -> Prop) lg0 (w : World St) :
  (forall n, P n -> Q n) -> completing P lg0 w -> completing Q lg0 w.
Proof. intros H (new & Hlog & Hp). exists new. auto. Qed.

Lemma hoare_completing {St A} (P : nat -> Prop) lg0 (m : M St A) :
  preserves (logged noComplete) m ->
  hoare (completing P lg0) m
    (fun _ => completing P lg0) (fun _ => completing P lg0).
Proof.
  intros H. apply hoare_stays. intros w. apply completing_logged, H.
Qed.

Lemma hoare_keeps {St A} (P : World St -> Prop) (m : M St A)
    (Q : A -> World St -> Prop) (E : Error -> World St -> Prop) :
  preserves (fun w w1 => P w -> P w1) m ->
  (forall a w, P w -> Q a w) -> (forall e w, P w -> E e w) ->
  hoare P m Q E.
Proof.
  intros H HQ HE w Hw. specialize (H w Hw).
  destruct (m w) as [[a | e] w1]; auto.
Qed.

Lemma completing_most {St} lg0 r (w : World St) :
  completing (fun n => n <= 1) lg0 w ->
  completing (completionsFor (Throw r)) lg0 w.
Proof. apply completing_weaken. intros n Hn. split; [exact Hn | exact I]. Qed.

Ltac no_complete :=
  first [ exact noComplete_call
        | intros [] ?; try contradiction; reflexivity
        | intros; reflexivity ].

(** The await of the finalization: one completion more. *)
Lemma hoare_complete {St} env (runCall : Call -> World St -> World St)
    lg0 b k id parts :
  (forall c w, logged callEntry w (runCall c w)) ->
  hoare (completing (fun n => n = 0) lg0)
    (awaitOk env runCall (CompleteMultipartUpload b k id parts))
    (fun _ => completing (fun n => n = 1) lg0)
    (fun _ => completing (fun n => n = 1) lg0).
Proof.
  intros Hcall.
  apply (hoare_awaitOk env runCall (completing (fun n => n = 1) lg0)).
  - intros w (new & Hlog & Hn).
    exists (Issue (CompleteMultipartUpload b k id parts) :: new).
    split; [cbn [log logEntry]; rewrite Hlog; reflexivity |].
    rewrite completions_cons, Hn. reflexivity.
  - intros c w. apply completing_logged.
    destruct (Hcall c (logEntry (Extern c) w)) as (mid & Hmid & Fmid).
    exists (mid ++ [Extern c]). split.
    + rewrite Hmid. cbn [log logEntry]. rewrite <- app_assoc. reflexivity.
    + apply Forall_app. split; [| repeat constructor].
      eapply Forall_impl; [exact Fmid | apply noComplete_call].
  - intros w Hw. cbv zeta.
    assert (completing (fun n => n = 1) lg0
              (logEntry (Settle (CompleteMultipartUpload b k id parts)
                           (reply env (log w)
                              (CompleteMultipartUpload b k id parts))) w))
      as Hs by (apply completing_entry; [reflexivity | exact Hw]).
    destruct (reply env (log w) _); exact Hs.
Qed.

Section GapCompleting.
Variables (env : Env) (bucket key filePath : string) (size : Z).
Variable lg0 : list Entry.

Local Abbreviation None0 :=
  (@completing Gap.UploadState (fun n => n = 0) lg0).
Local Abbreviation Post :=
  (fun (r : Outcome Exit) => @completing Gap.UploadState (completionsFor r) lg0).

Lemma Gap_multipartCatch_completing state e :
  hoare (completing (fun n => n <= 1) lg0)
    (Gap.multipartCatch state filePath size e)
    (fun x => Post (Return x)) (fun e => Post (Throw e)).
Proof.
  unfold Gap.multipartCatch.
  apply (hoare_bind (fun _ => completing (fun n => n <= 1) lg0)).
  { apply hoare_keeps; [| auto | intros e0 w; apply completing_most].
    destruct state; intros w Hw; exact Hw. }
  intros aborted. destruct aborted.
  - apply hoare_ret. intros w. apply completing_weaken.
    intros n Hn. split; [exact Hn | exact I].
  - apply (hoare_bind (fun _ => completing (fun n => n <= 1) lg0)).
    + apply hoare_keeps; [| auto | intros e0 w; apply completing_most].
      intros w. apply completing_entry. reflexivity.
    + intros _. apply hoare_throw. intros w. apply completing_most.
Qed.

Lemma Gap_finishUpload_completing l total :
  hoare None0
    (Gap.finishUpload env (stateKey bucket key) filePath l total size)
    (fun x w => Post (Return x) (logEntry (FileClose filePath) w))
    (fun e w =>
       completing (fun n => n <= 1) lg0 (logEntry (FileClose filePath) w)).
Proof.
  assert (forall (P Q : nat -> Prop) (w : Gap.W),
            (forall n, P n -> Q n) -> completing P lg0 w ->
            completing Q lg0 (logEntry (FileClose filePath) w)) as Hclose.
  { intros P Q w HPQ Hw. apply completing_entry; [reflexivity |].
    revert Hw. apply completing_weaken, HPQ. }
  assert (forall w : Gap.W,
            None0 w ->
            completing (fun n => n <= 1) lg0
              (logEntry (FileClose filePath) w)) as Hzero.
  { intros w. apply Hclose. intros n ->. lia. }
  assert (forall w : Gap.W,
            completing (fun n => n = 1) lg0 w ->
            completing (fun n => n <= 1) lg0
              (logEntry (FileClose filePath) w)) as Hone.
  { intros w. apply Hclose. intros n ->. lia. }
  unfold Gap.finishUpload.
  apply (hoare_bind (fun _ => None0)).
  { apply hoare_keeps; [| auto | intros e w; apply Hzero].
    intros w Hw. exact Hw. }
  intros state.
  destruct (Gap.isAborted state).
  { apply hoare_ret. intros w. apply Hclose.
    intros n ->. split; [lia | exact I]. }
  destruct (Gap.isPaused state).
  { cbv zeta. apply (hoare_bind (fun _ => None0)).
    - apply hoare_keeps; [| auto | intros e w; apply Hzero].
      intros w. apply completing_entry. reflexivity.
    - intros _. apply hoare_ret. intros w. apply Hclose.
      intros n ->. split; [lia | reflexivity]. }
  destruct (negb _).
  { apply hoare_throw. intros w. apply Hzero. }
  apply (hoare_bind (fun _ => completing (fun n => n = 1) lg0)).
  { unfold Gap.completeMultipartUpload.
    apply (hoare_bind (fun _ => None0)).
    { apply hoare_keeps; [| auto | intros e w; apply Hzero].
      intros w Hw. exact Hw. }
    intros st.
    apply (hoare_bind (fun _ => completing (fun n => n = 1) lg0)).
    - eapply hoare_weaken; [| | | apply hoare_complete];
        [ intros w H; exact H | intros a w H; exact H
        | intros e w; apply Hone | apply Gap_runCall_logged ].
    - intros _. apply hoare_ret. auto. }
  intros _.
  apply (hoare_bind (fun _ => completing (fun n => n = 1) lg0)).
  { apply hoare_keeps; [| auto | intros e w; apply Hone].
    intros w. apply completing_entry. reflexivity. }
  intros _.
  apply (hoare_bind (fun _ => completing (fun n => n = 1) lg0)).
  { apply hoare_keeps; [| auto | intros e w; apply Hone].
    intros w (new & Hlog & Hn). exists new. auto. }
  intros _. apply hoare_ret. intros w. apply Hclose.
  intros n ->. split; [lia | reflexivity].
Qed.

Lemma Gap_multipartUpload_completing rid :
  hoare (fun w => log w = lg0)
    (Gap.multipartUpload env bucket key filePath size rid)
    (fun x => Post (Return x)) (fun e => Post (Throw e)).
Proof.
  assert (forall w : Gap.W, None0 w -> completing (fun n => n <= 1) lg0 w)
    as Hle.
  { intros w. apply completing_weaken. intros n ->. lia. }
  assert (forall A (m : Gap.M A),
            preserves (logged noComplete) m ->
            hoare None0 m (fun _ => None0)
              (fun _ => completing (fun n => n <= 1) lg0)) as Hquiet.
  { intros A m Hm. apply hoare_keeps; [| auto | intros e w; apply Hle].
    intros w. apply completing_logged, Hm. }
  unfold Gap.multipartUpload. cbv zeta.
  apply (hoare_bind (fun _ => None0)).
  { apply (hoare_weaken None0 _ _ (fun _ => None0) _ (fun _ => None0) _);
      [ intros w Hw; exists []; split; [exact Hw | reflexivity]
      | intros a w H; exact H
      | intros e w H; apply completing_most, Hle, H |].
    apply hoare_completing.
    apply (preserves_attempt (@logged Gap.UploadState noComplete)).
    apply (preserves_bind (@logged Gap.UploadState noComplete));
      [apply (preserves_getWorld (@logged Gap.UploadState noComplete)) |].
    intros w0. apply Gap_starting_shaped; no_complete. }
  intros [l | e].
  2: { eapply hoare_weaken; [| | | apply Gap_multipartCatch_completing];
         [apply Hle | auto | auto]. }
  apply (hoare_tryCatch (fun _ => completing (fun n => n <= 1) lg0));
    [| intros e; apply Gap_multipartCatch_completing].
  apply (hoare_bind (fun _ => None0)).
  { apply Hquiet. intros w. exists []. split; [reflexivity | constructor]. }
  intros _.
  apply (hoare_bind (fun _ => None0)).
  { apply Hquiet. unfold Gap.awaitOk. apply logged_awaitOk;
      [apply Gap_runCall_logged | apply noComplete_call | reflexivity
      | intros; reflexivity]. }
  intros _. apply hoare_tryFinally.
  apply (hoare_bind (fun _ => None0)).
  - apply (hoare_weaken None0 _ _ (fun _ => None0) _ (fun _ => None0) _);
      [ intros w H; exact H | intros a w H; exact H | |].
    + intros e w Hw. apply completing_entry; [reflexivity | apply Hle, Hw].
    + apply hoare_completing. apply Gap_transferLoop_logged; no_complete.
  - intros _. apply Gap_finishUpload_completing.
Qed.
End GapCompleting.

Section CursorCompleting.
Variables (env : Env) (bucket key filePath : string) (size : Z).
Variable lg0 : list Entry.

Local Abbreviation None0 :=
  (@completing Cursor.UploadState (fun n => n = 0) lg0).
Local Abbreviation Post :=
  (fun (r : Outcome Exit) =>
     @completing Cursor.UploadState (completionsFor r) lg0).

Lemma Cursor_finishUpload_completing l total :
  hoare None0
    (Cursor.finishUpload env (stateKey bucket key) filePath l total size)
    (fun x w => Post (Return x) (logEntry (FileClose filePath) w))
    (fun e w =>
       completing (fun n => n <= 1) lg0 (logEntry (FileClose filePath) w)).
Proof.
  assert (forall (P Q : nat -> Prop) (w : Cursor.W),
            (forall n, P n -> Q n) -> completing P lg0 w ->
            completing Q lg0 (logEntry (FileClose filePath) w)) as Hclose.
  { intros P Q w HPQ Hw. apply completing_entry; [reflexivity |].
    revert Hw. apply completing_weaken, HPQ. }
  assert (forall w : Cursor.W,
            None0 w ->
            completing (fun n => n <= 1) lg0
              (logEntry (FileClose filePath) w)) as Hzero.
  { intros w. apply Hclose. intros n ->. lia. }
  assert (forall w : Cursor.W,
            completing (fun n => n = 1) lg0 w ->
            completing (fun n => n <= 1) lg0
              (logEntry (FileClose filePath) w)) as Hone.
  { intros w. apply Hclose. intros n ->. lia. }
  unfold Cursor.finishUpload.
  apply (hoare_bind (fun _ => None0)).
  { apply hoare_keeps; [| auto | intros e w; apply Hzero].
    intros w Hw. exact Hw. }
  intros state.
  destruct (Cursor.isPaused state).
  { cbv zeta. apply (hoare_bind (fun _ => None0)).
    - apply hoare_keeps; [| auto | intros e w; apply Hzero].
      intros w. apply completing_entry. reflexivity.
    - intros _. apply hoare_ret. intros w. apply Hclose.
      intros n ->. split; [lia | reflexivity]. }
  apply (hoare_bind (fun _ => completing (fun n => n = 1) lg0)).
  { unfold Cursor.completeMultipartUpload.
    apply (hoare_bind (fun _ => None0)).
    { apply hoare_keeps; [| auto | intros e w; apply Hzero].
      intros w Hw. exact Hw. }
    intros st.
    apply (hoare_bind (fun _ => completing (fun n => n = 1) lg0)).
    - eapply hoare_weaken; [| | | apply hoare_complete];
        [ intros w H; exact H | intros a w H; exact H
        | intros e w; apply Hone | apply Cursor_runCall_logged ].
    - intros _. apply hoare_ret. auto. }
  intros _.
  apply (hoare_bind (fun _ => completing (fun n => n = 1) lg0)).
  { apply hoare_keeps; [| auto | intros e w; apply Hone].
    intros w. apply completing_entry. reflexivity. }
  intros _.
  apply (hoare_bind (fun _ => completing (fun n => n = 1) lg0)).
  { apply hoare_keeps; [| auto | intros e w; apply Hone].
    intros w (new & Hlog & Hn). exists new. auto. }
  intros _. apply hoare_ret. intros w. apply Hclose.
  intros n ->. split; [lia | reflexivity].
Qed.

Lemma Cursor_multipartUpload_completing rid :
  hoare (fun w => log w = lg0)
    (Cursor.multipartUpload env bucket key filePath size rid)
    (fun x => Post (Return x)) (fun e => Post (Throw e)).
Proof.
  assert (forall w : Cursor.W, None0 w -> completing (fun n => n <= 1) lg0 w)
    as Hle.
  { intros w. apply completing_weaken. intros n ->. lia. }
  assert (forall A (m : Cursor.M A),
            preserves (logged noComplete) m ->
            hoare None0 m (fun _ => None0)
              (fun _ => completing (fun n => n <= 1) lg0)) as Hquiet.
  { intros A m Hm. apply hoare_keeps; [| auto | intros e w; apply Hle].
    intros w. apply completing_logged, Hm. }
  unfold Cursor.multipartUpload. cbv zeta.
  apply (hoare_tryCatch (fun _ => completing (fun n => n <= 1) lg0)).
  2: { intros e. unfold Cursor.multipartCatch.
       apply (hoare_bind (fun _ => completing (fun n => n <= 1) lg0)).
       - apply hoare_keeps; [| auto | intros e0 w; apply completing_most].
         intros w. apply completing_entry. reflexivity.
       - intros _. apply hoare_throw. intros w. apply completing_most. }
  apply (hoare_bind (fun _ => None0)).
  { intros w Hw. exists []. split; [exact Hw | reflexivity]. }
  intros w0.
  apply (hoare_bind (fun _ => None0)).
  { apply Hquiet. apply Cursor_starting_shaped; no_complete. }
  intros l.
  apply (hoare_bind (fun _ => None0)).
  { apply Hquiet. intros w. exists []. split; [reflexivity | constructor]. }
  intros _.
  apply (hoare_bind (fun _ => None0)).
  { apply Hquiet. unfold Cursor.awaitOk. apply logged_awaitOk;
      [apply Cursor_runCall_logged | apply noComplete_call | reflexivity
      | intros; reflexivity]. }
  intros _. apply hoare_tryFinally.
  apply (hoare_bind (fun _ => None0)).
  - apply (hoare_weaken None0 _ _ (fun _ => None0) _ (fun _ => None0) _);
      [ intros w H; exact H | intros a w H; exact H | |].
    + intros e w Hw. apply completing_entry; [reflexivity | apply Hle, Hw].
    + apply hoare_completing. apply Cursor_transferLoop_logged; no_complete.
  - intros _. apply Cursor_finishUpload_completing.
Qed.
End CursorCompleting.

(** X20. In both managers, whatever the backend answers and whoever calls
    in: one chunked call issues [CompleteMultipartUpload] at most once; a
    call that returns completed has issued it once, and a call that ends
    paused has not issued it. *)
Theorem chunked_call_finalizes_at_most_once env bucket key filePath size rid
    (w : Gap.W) (v : Cursor.W) :
  (exists r w1 new,
     Gap.multipartUpload env bucket key filePath size rid w = (r, w1) /\
     log w1 = new ++ log w /\ completionsFor r (completions new)) /\
  (exists r v1 new,
     Cursor.multipartUpload env bucket key filePath size rid v = (r, v1) /\
     log v1 = new ++ log v /\ completionsFor r (completions new)).
Proof.
  split.
  - pose proof (Gap_multipartUpload_completing env bucket key filePath size
                  (log w) rid w eq_refl) as H.
    destruct (Gap.multipartUpload env bucket key filePath size rid w)
      as [[x | e] w1]; destruct H as (new & Hlog & Hn); eauto 6.
  - pose proof (Cursor_multipartUpload_completing env bucket key filePath size
                  (log v) rid v eq_refl) as H.
    destruct (Cursor.multipartUpload env bucket key filePath size rid v)
      as [[x | e] v1]; destruct H as (new & Hlog & Hn); eauto 6.
Qed.

(** * The progress reports count the parts up one by one *)

Lemma partCounts_app a b : partCounts (a ++ b) = partCounts b ++ partCounts a.
Proof. unfold partCounts. rewrite rev_app_distr, omap_app. reflexivity. Qed.

Lemma partCounts_quiet mid :
  Forall noPartReport mid -> partCounts mid = [].
Proof.
  intros F. unfold partCounts.
  assert (Forall noPartReport (rev mid)) as F' by (apply Forall_rev, F).
  induction F' as [| e l0 He _ IH]; [reflexivity |].
  rewrite omap_cons_option, IH.
  destruct e as [| | p | |]; try reflexivity.
  cbn in He |- *. destruct (status p); try contradiction; reflexivity.
Qed.

Lemma partCounts_more mid lg :
  Forall noPartReport mid -> partCounts (mid ++ lg) = partCounts lg.
Proof.
  intros F. rewrite partCounts_app, (partCounts_quiet mid F).
  apply app_nil_r.
Qed.

Lemma noPartReport_call e : callEntry e -> noPartReport e.
Proof. destruct e as [[] | | | |]; cbn; auto; contradiction. Qed.

Section Counting.
Context {St : Type} `{Inhabited St}.
Variables (partsOf : St -> list Part) (l : nat) (lg0 : list Entry).
Variable k : nat.

Local Abbreviation R := (staysCounting partsOf l lg0 k).

#[global] Instance staysCounting_preorder : PreOrder R.
Proof.
  split.
  - intros w Hw. exact Hw.
  - intros w1 w2 w3 H1 H2 Hw. apply H2, H1, Hw.
Qed.

Lemma staysCounting_logged (w w1 : World St) :
  heap w1 = heap w -> logged noPartReport w w1 -> R w w1.
Proof.
  intros Hh (mid & Hmid & Fmid) (st & new & Hl & Hlog & Hk & Hc).
  exists st, (mid ++ new). rewrite Hh, Hmid, Hlog.
  split; [exact Hl |]. split; [apply app_assoc |]. split; [exact Hk |].
  rewrite partCounts_more by exact Fmid. exact Hc.
Qed.

Lemma staysCounting_same (w w1 : World St) :
  heap w1 = heap w -> log w1 = log w -> R w w1.
Proof.
  intros Hh Hg. apply staysCounting_logged; [exact Hh |].
  exists []. split; [exact Hg | constructor].
Qed.

Lemma staysCounting_entry e (w : World St) :
  noPartReport e -> R w (logEntry e w).
Proof.
  intros He. apply staysCounting_logged; [reflexivity |].
  exists [e]. split; [reflexivity | repeat constructor; exact He].
Qed.

Lemma staysCounting_modify l' (f : St -> St) :
  (forall st, partsOf (f st) = partsOf st) ->
  preserves R (modify l' f).
Proof.
  intros Hf w (st & new & Hl & Hlog & Hk & Hc).
  unfold modify, update. cbn [snd].
  destruct (decide (l' = l)) as [-> | Hne].
  - exists (f st), new. cbn [heap log]. rewrite lookup_alter_eq, Hl, Hf. auto.
  - exists st, new. cbn [heap log]. rewrite lookup_alter_ne by exact Hne. auto.
Qed.

(** A part is stored and reported. *)
Lemma staysCounting_stored (set : list Part -> St -> St) part p
    (w : World St) st :
  heap w !! l = Some st ->
  (forall parts st0, partsOf (set parts st0) = parts) ->
  status p = uploading ->
  currentPart p = Some (List.length (partsOf st) + 1) ->
  R w (mkWorld (alter (fun _ => set (sortParts (partsOf st ++ [part])) st) l
                  (heap w))
         (uploadStates w) (Emit p :: log w)).
Proof.
  intros Hl Hset Hs Hp (st' & new & Hl' & Hlog & Hk & Hc).
  rewrite Hl in Hl'. inversion Hl'; subst st'.
  eexists _, (Emit p :: new). cbn [heap log].
  rewrite lookup_alter_eq, Hl, Hlog. split; [reflexivity |].
  split; [reflexivity |]. rewrite Hset, sortParts_length, length_app.
  cbn [List.length]. split; [lia |].
  change (Emit p :: new) with ([Emit p] ++ new).
  rewrite partCounts_app, Hc. unfold partCounts at 1. cbn. rewrite Hs, Hp.
  cbn [option_list].
  replace (List.length (partsOf st) + 1 - k)
    with (S (List.length (partsOf st) - k)) by lia.
  rewrite seq_S. f_equal. f_equal. lia.
Qed.

Lemma counting_counted (w : World St) :
  counting partsOf l lg0 k w -> counted lg0 k w.
Proof. intros (st & new & _ & Hlog & _ & Hc). exists new. eauto. Qed.
End Counting.

Lemma counted_logged {St} lg0 k (w w1 : World St) :
  logged noPartReport w w1 -> counted lg0 k w -> counted lg0 k w1.
Proof.
  intros (mid & Hmid & Fmid) (new & m & Hlog & Hc).
  exists (mid ++ new), m. rewrite Hmid, Hlog.
  split; [apply app_assoc |]. rewrite partCounts_more by exact Fmid. exact Hc.
Qed.

Ltac stays_counting :=
  try (intros ?;
       first [ apply staysCounting_same; reflexivity
             | apply staysCounting_entry; exact I ]).

Section GapCounting.
Variables (env : Env) (l : nat) (lg0 : list Entry) (k : nat).

Local Abbreviation R := (staysCounting Gap.uploadedParts l lg0 k).

Lemma Gap_runCall_staysCounting c w : R w (Gap.runCall env c w).
Proof.
  intros (st & new & Hl & Hlog & Hk & Hc).
  destruct (Gap_runCall_keeps env l c w st Hl) as (st1 & Hl1 & Hcore).
  destruct (Gap_runCall_logged env c w) as (mid & Hmid & Fmid).
  inversion Hcore as [[Hb Hky Hu Hf Hs Hparts Hnext]].
  exists st1, (mid ++ new). rewrite Hmid, Hlog, Hparts.
  split; [exact Hl1 |]. split; [apply app_assoc |]. split; [exact Hk |].
  rewrite partCounts_more; [exact Hc |].
  eapply Forall_impl; [exact Fmid | apply noPartReport_call].
Qed.

Lemma Gap_uploadPartResume_staysCounting file size t s o r :
  preserves R (Gap.uploadPartResume file l size t s o r).
Proof.
  unfold Gap.uploadPartResume, Gap.uploadPartCatch, Gap.uploadPart.
  destruct s;
    try (destruct r;
         pres (staysCounting Gap.uploadedParts l lg0 k); stays_counting; fail).
  destruct r;
    try (pres (staysCounting Gap.uploadedParts l lg0 k); stays_counting; fail).
  destruct (String.eqb id "");
    [pres (staysCounting Gap.uploadedParts l lg0 k); stays_counting; fail |].
  intros w Hw. pose proof Hw as (st & new & Hl & Hlog & Hk & Hc).
  unfold bind, read, write, modify, update, onProgress, record, ret.
  cbn [snd]. rewrite (lookup_total_correct _ _ _ Hl).
  cbn [heap uploadStates log logEntry].
  revert Hw.
  apply (staysCounting_stored Gap.uploadedParts l lg0 k Gap.setUploadedParts
           (mkPart (partNumber t) id) _ w st Hl).
  - intros parts st0. reflexivity.
  - reflexivity.
  - cbn [currentPart Gap.uploadedParts Gap.setUploadedParts].
    rewrite sortParts_length, length_app. reflexivity.
Qed.

Lemma Gap_promiseAll_staysCounting file size fuel tasks :
  preserves R
    (promiseAll env (Gap.runCall env) (Gap.uploadPartResume file l size)
       fuel tasks).
Proof.
  apply (preserves_promiseAll env (Gap.runCall env) R).
  - intros c w. apply Gap_runCall_staysCounting.
  - intros c w. apply staysCounting_entry. exact I.
  - intros t s o r. apply Gap_uploadPartResume_staysCounting.
  - intros o r w. apply staysCounting_entry. exact I.
Qed.

Lemma Gap_startBatch_staysCounting file size parts :
  preserves R (Gap.startBatch file l size parts).
Proof.
  induction parts as [| n parts IH]; cbn [Gap.startBatch].
  - apply (preserves_ret R).
  - unfold Gap.uploadPart.
    pres (staysCounting Gap.uploadedParts l lg0 k); stays_counting.
Qed.

Lemma Gap_transferLoop_staysCounting fuel file total size :
  preserves R (Gap.transferLoop env fuel file l total size).
Proof.
  induction fuel as [| fuel IH]; cbn [Gap.transferLoop];
    pres (staysCounting Gap.uploadedParts l lg0 k); stays_counting;
    first [ apply Gap_startBatch_staysCounting
          | apply Gap_promiseAll_staysCounting
          | apply staysCounting_modify; intros st; reflexivity ].
Qed.
End GapCounting.

Ltac no_part_report :=
  first [ exact noPartReport_call
        | intros [] ?; try contradiction; exact I
        | intros; exact I ].

Section GapCounted.
Variables (env : Env) (bucket key filePath : string) (size : Z).
Variable lg0 : list Entry.
Variable pin : nat -> Prop.

Local Abbreviation good l :=
  (fun k (w : Gap.W) => pin k /\ counting Gap.uploadedParts l lg0 k w).
Local Abbreviation Post :=
  (fun w : Gap.W => exists k, pin k /\ counted lg0 k w).

Lemma Gap_counted_quiet {A} (m : Gap.M A) :
  preserves (logged noPartReport) m ->
  hoare Post m (fun _ => Post) (fun _ => Post).
Proof.
  intros Hm. apply hoare_stays. intros w (k & Hk & Hw).
  exists k. split; [exact Hk |]. revert Hw. apply counted_logged, Hm.
Qed.

Lemma Gap_counting_stays {A} l (m : Gap.M A) :
  (forall k, preserves (staysCounting Gap.uploadedParts l lg0 k) m) ->
  hoare (fun w => exists k, good l k w) m
    (fun _ w => exists k, good l k w) (fun _ => Post).
Proof.
  intros Hm w (k & Hk & Hw). specialize (Hm k w Hw).
  destruct (m w) as [[a | e] w1]; exists k; split; auto.
  eapply counting_counted; exact Hm.
Qed.

Lemma Gap_body_counted l :
  hoare (fun w => exists k, good l k w)
    (tryCatch
       (exec registrySet (stateKey bucket key) l in
        exec Gap.awaitOk env (DenoOpen filePath) in
        tryFinally
          (exec Gap.transferLoop env (S (totalPartsFor size)) filePath l
                  (totalPartsFor size) size in
           Gap.finishUpload env (stateKey bucket key) filePath l
             (totalPartsFor size) size)
          (logEntry (FileClose filePath)))
       (Gap.multipartCatch (Some l) filePath size))
    (fun _ => Post) (fun _ => Post).
Proof.
  apply (hoare_tryCatch (fun _ => Post)).
  2: { intros e. apply Gap_counted_quiet.
       apply Gap_multipartCatch_shaped. exact I. }
  apply (hoare_bind (fun _ w => exists k, good l k w)).
  { apply Gap_counting_stays. intros k w.
    apply staysCounting_same; reflexivity. }
  intros _.
  apply (hoare_bind (fun _ w => exists k, good l k w)).
  { apply Gap_counting_stays. intros k.
    apply (preserves_awaitOk env (Gap.runCall env)
             (staysCounting Gap.uploadedParts l lg0 k)).
    - intros c w. apply Gap_runCall_staysCounting.
    - intros c w. apply staysCounting_entry. exact I.
    - intros w. apply staysCounting_entry. exact I.
    - intros r w. apply staysCounting_entry. exact I. }
  intros _. apply hoare_tryFinally.
  assert (forall w : Gap.W, Post w -> Post (logEntry (FileClose filePath) w))
    as Hclose.
  { intros w (k & Hk & Hw). exists k. split; [exact Hk |].
    revert Hw. apply counted_logged.
    exists [FileClose filePath]. split; [reflexivity | repeat constructor]. }
  apply (hoare_bind (fun _ => Post)).
  - eapply hoare_weaken; [| | | apply (Gap_counting_stays l)].
    + intros w Hw. exact Hw.
    + intros a w (k & Hk & Hw). exists k. split; [exact Hk |].
      eapply counting_counted; exact Hw.
    + intros e w. apply Hclose.
    + intros k. apply Gap_transferLoop_staysCounting.
  - intros _.
    eapply hoare_weaken; [| | | apply Gap_counted_quiet].
    + intros w Hw. exact Hw.
    + intros a w. apply Hclose.
    + intros e w. apply Hclose.
    + apply Gap_finishUpload_shaped; no_part_report.
Qed.
End GapCounted.

(** The reports of a chunked call count up from the number of parts that
    the call starts from. *)
Lemma Gap_multipartUpload_counted env bucket key filePath size rid (w : Gap.W) :
  let resumes :=
    truthy rid
    || bool_decide (is_Some (uploadStates w !! stateKey bucket key)) in
  exists new m,
    log (Gap.multipartUpload env bucket key filePath size rid w).2
    = new ++ log w /\
    partCounts new = seq (List.length (startsFrom resumes new) + 1) m.
Proof.
  intros resumes.
  unfold Gap.multipartUpload. cbv zeta.
  unfold bind at 1, attempt, bind at 1, getWorld at 1. fold resumes.
  destruct (Gap_starting_transfer env bucket key filePath size rid w)
    as (r0 & w0 & new0 & E0 & Hlog0 & _ & Hr0).
  cbv zeta in E0, Hr0. fold resumes in E0, Hr0.
  assert (Forall noPartReport new0) as Hq0.
  { assert (preserves (logged noPartReport)
              (if resumes
               then Gap.resumeMultipartUpload env bucket key filePath size rid
               else Gap.initiateMultipartUpload env bucket key filePath size))
      as Hq by (apply Gap_starting_shaped; no_part_report).
    specialize (Hq w). rewrite E0 in Hq. destruct Hq as (new & Hlog & Fnew).
    cbn [snd] in Hlog. rewrite Hlog0 in Hlog.
    apply app_inv_tail in Hlog. subst new. exact Fnew. }
  rewrite E0. destruct r0 as [l | e].
  - destruct Hr0 as (id & _ & _ & Hsettled & st0 & Hl0 & Hparts0).
    pose proof (Gap_body_counted env bucket key filePath size (log w)
                  (fun k => k = List.length (startsFrom resumes new0)) l w0)
      as Hbody.
    pose proof (Gap_transfer_extends env bucket key filePath size l w0)
      as (rest & Hrest & _).
    match type of Hbody with
    | _ -> match ?m w0 with _ => _ end => destruct (m w0) as [r1 w1]
    end.
    cbn [snd] in Hrest |- *.
    assert (exists k,
              k = List.length (startsFrom resumes new0) /\
              counted (log w) k w1) as (k & -> & new & m & Hlog & Hc).
    { assert (exists k,
                k = List.length (startsFrom resumes new0) /\
                counting Gap.uploadedParts l (log w) k w0) as Hpre.
      { eexists. split; [reflexivity |].
        exists st0, new0. split; [exact Hl0 |]. split; [exact Hlog0 |].
        rewrite Hparts0. split; [lia |]. rewrite Nat.sub_diag.
        apply partCounts_quiet, Hq0. }
      specialize (Hbody Hpre). destruct r1; exact Hbody. }
    exists new, m. split; [exact Hlog |].
    rewrite Hlog, Hlog0, app_assoc in Hrest.
    apply app_inv_tail in Hrest. subst new.
    rewrite (startsFrom_more resumes rest new0 Hsettled). exact Hc.
  - unfold Gap.multipartCatch, bind, ret, onProgress, record, throw.
    cbn [snd log logEntry].
    eexists (Emit _ :: new0), 0. rewrite Hlog0. split; [reflexivity |].
    change (Emit ?p :: new0) with ([Emit p] ++ new0).
    rewrite partCounts_more by (repeat constructor).
    apply partCounts_quiet, Hq0.
Qed.

Section CursorCounting.
Variables (env : Env) (l : nat) (lg0 : list Entry) (k : nat).

Local Abbreviation R := (staysCounting Cursor.uploadedParts l lg0 k).

Lemma Cursor_runCall_staysCounting c w : R w (Cursor.runCall env c w).
Proof.
  intros (st & new & Hl & Hlog & Hk & Hc).
  destruct (Cursor_runCall_keeps env l c w st Hl) as (st1 & Hl1 & Hcore).
  destruct (Cursor_runCall_logged env c w) as (mid & Hmid & Fmid).
  inversion Hcore as [[Hb Hky Hu Hf Hs Hparts Hnext]].
  exists st1, (mid ++ new). rewrite Hmid, Hlog, Hparts.
  split; [exact Hl1 |]. split; [apply app_assoc |]. split; [exact Hk |].
  rewrite partCounts_more; [exact Hc |].
  eapply Forall_impl; [exact Fmid | apply noPartReport_call].
Qed.

Lemma Cursor_uploadPartResume_staysCounting file size t s o r :
  preserves R (Cursor.uploadPartResume file l size t s o r).
Proof.
  unfold Cursor.uploadPartResume, Cursor.uploadPart.
  destruct s;
    try (destruct r;
         pres (staysCounting Cursor.uploadedParts l lg0 k); stays_counting;
         fail).
  destruct r;
    try (pres (staysCounting Cursor.uploadedParts l lg0 k); stays_counting;
         fail).
  destruct (String.eqb id "");
    [pres (staysCounting Cursor.uploadedParts l lg0 k); stays_counting; fail |].
  intros w Hw. pose proof Hw as (st & new & Hl & Hlog & Hk & Hc).
  unfold bind, read, write, modify, update, onProgress, record, ret.
  cbn [snd]. rewrite (lookup_total_correct _ _ _ Hl).
  cbn [heap uploadStates log logEntry].
  revert Hw.
  apply (staysCounting_stored Cursor.uploadedParts l lg0 k
           Cursor.setUploadedParts (mkPart (partNumber t) id) _ w st Hl).
  - intros parts st0. reflexivity.
  - reflexivity.
  - cbn [currentPart Cursor.uploadedParts Cursor.setUploadedParts].
    rewrite sortParts_length, length_app. reflexivity.
Qed.

Lemma Cursor_promiseAll_staysCounting file size fuel tasks :
  preserves R
    (promiseAll env (Cursor.runCall env) (Cursor.uploadPartResume file l size)
       fuel tasks).
Proof.
  apply (preserves_promiseAll env (Cursor.runCall env) R).
  - intros c w. apply Cursor_runCall_staysCounting.
  - intros c w. apply staysCounting_entry. exact I.
  - intros t s o r. apply Cursor_uploadPartResume_staysCounting.
  - intros o r w. apply staysCounting_entry. exact I.
Qed.

Lemma Cursor_startBatch_staysCounting n file total size :
  preserves R (Cursor.startBatch n file l total size).
Proof.
  induction n as [| n IH]; cbn [Cursor.startBatch].
  - apply (preserves_ret R).
  - unfold Cursor.uploadPart.
    pres (staysCounting Cursor.uploadedParts l lg0 k); stays_counting.
    apply staysCounting_modify. intros st. reflexivity.
Qed.

Lemma Cursor_transferLoop_staysCounting fuel file total size :
  preserves R (Cursor.transferLoop env fuel file l total size).
Proof.
  induction fuel as [| fuel IH]; cbn [Cursor.transferLoop];
    pres (staysCounting Cursor.uploadedParts l lg0 k); stays_counting;
    first [ apply Cursor_startBatch_staysCounting
          | apply Cursor_promiseAll_staysCounting ].
Qed.
End CursorCounting.

Section CursorCounted.
Variables (env : Env) (bucket key filePath : string) (size : Z).
Variable lg0 : list Entry.
Variable pin : nat -> Prop.

Local Abbreviation good l :=
  (fun k (w : Cursor.W) => pin k /\ counting Cursor.uploadedParts l lg0 k w).
Local Abbreviation Post :=
  (fun w : Cursor.W => exists k, pin k /\ counted lg0 k w).

Lemma Cursor_counted_quiet {A} (m : Cursor.M A) :
  preserves (logged noPartReport) m ->
  hoare Post m (fun _ => Post) (fun _ => Post).
Proof.
  intros Hm. apply hoare_stays. intros w (k & Hk & Hw).
  exists k. split; [exact Hk |]. revert Hw. apply counted_logged, Hm.
Qed.

Lemma Cursor_counting_stays {A} l (m : Cursor.M A) :
  (forall k, preserves (staysCounting Cursor.uploadedParts l lg0 k) m) ->
  hoare (fun w => exists k, good l k w) m
    (fun _ w => exists k, good l k w) (fun _ => Post).
Proof.
  intros Hm w (k & Hk & Hw). specialize (Hm k w Hw).
  destruct (m w) as [[a | e] w1]; exists k; split; auto.
  eapply counting_counted; exact Hm.
Qed.

Lemma Cursor_body_counted l :
  hoare (fun w => exists k, good l k w)
    (exec registrySet (stateKey bucket key) l in
     exec Cursor.awaitOk env (DenoOpen filePath) in
     tryFinally
       (exec Cursor.transferLoop env (S (totalPartsFor size)) filePath l
               (totalPartsFor size) size in
        Cursor.finishUpload env (stateKey bucket key) filePath l
          (totalPartsFor size) size)
       (logEntry (FileClose filePath)))
    (fun _ => Post) (fun _ => Post).
Proof.
  apply (hoare_bind (fun _ w => exists k, good l k w)).
  { apply Cursor_counting_stays. intros k w.
    apply staysCounting_same; reflexivity. }
  intros _.
  apply (hoare_bind (fun _ w => exists k, good l k w)).
  { apply Cursor_counting_stays. intros k.
    apply (preserves_awaitOk env (Cursor.runCall env)
             (staysCounting Cursor.uploadedParts l lg0 k)).
    - intros c w. apply Cursor_runCall_staysCounting.
    - intros c w. apply staysCounting_entry. exact I.
    - intros w. apply staysCounting_entry. exact I.
    - intros r w. apply staysCounting_entry. exact I. }
  intros _. apply hoare_tryFinally.
  assert (forall w : Cursor.W,
            Post w -> Post (logEntry (FileClose filePath) w)) as Hclose.
  { intros w (k & Hk & Hw). exists k. split; [exact Hk |].
    revert Hw. apply counted_logged.
    exists [FileClose filePath]. split; [reflexivity | repeat constructor]. }
  apply (hoare_bind (fun _ => Post)).
  - eapply hoare_weaken; [| | | apply (Cursor_counting_stays l)].
    + intros w Hw. exact Hw.
    + intros a w (k & Hk & Hw). exists k. split; [exact Hk |].
      eapply counting_counted; exact Hw.
    + intros e w. apply Hclose.
    + intros k. apply Cursor_transferLoop_staysCounting.
  - intros _.
    eapply hoare_weaken; [| | | apply Cursor_counted_quiet].
    + intros w Hw. exact Hw.
    + intros a w. apply Hclose.
    + intros e w. apply Hclose.
    + apply Cursor_finishUpload_shaped; no_part_report.
Qed.
End CursorCounted.

(** The reports of a chunked call count up from the number of parts that
    the call starts from. *)
Lemma Cursor_multipartUpload_counted env bucket key filePath size rid
    (w : Cursor.W) :
  let resumes :=
    truthy rid
    || bool_decide (is_Some (uploadStates w !! stateKey bucket key)) in
  exists new m,
    log (Cursor.multipartUpload env bucket key filePath size rid w).2
    = new ++ log w /\
    partCounts new = seq (List.length (startsFrom resumes new) + 1) m.
Proof.
  intros resumes.
  unfold Cursor.multipartUpload. cbv zeta.
  unfold tryCatch, bind at 1, getWorld at 1. unfold bind at 1.
  fold resumes.
  destruct (Cursor_starting_transfer env bucket key filePath size rid w)
    as (r0 & w0 & new0 & E0 & Hlog0 & _ & Hr0).
  cbv zeta in E0, Hr0. fold resumes in E0, Hr0.
  assert (Forall noPartReport new0) as Hq0.
  { assert (preserves (logged noPartReport)
              (if resumes
               then Cursor.resumeMultipartUpload env bucket key filePath size
                      rid
               else Cursor.initiateMultipartUpload env bucket key filePath
                      size))
      as Hq by (apply Cursor_starting_shaped; no_part_report).
    specialize (Hq w). rewrite E0 in Hq. destruct Hq as (new & Hlog & Fnew).
    cbn [snd] in Hlog. rewrite Hlog0 in Hlog.
    apply app_inv_tail in Hlog. subst new. exact Fnew. }
  rewrite E0. destruct r0 as [l | e].
  - destruct Hr0 as (id & _ & _ & Hsettled & st0 & Hl0 & Hparts0).
    pose proof (Cursor_body_counted env bucket key filePath size (log w)
                  (fun k => k = List.length (startsFrom resumes new0)) l w0)
      as Hbody.
    pose proof (Cursor_transfer_extends env bucket key filePath size l w0)
      as (rest & Hrest & _).
    match type of Hbody with
    | _ -> match ?m w0 with _ => _ end => destruct (m w0) as [r1 w1]
    end.
    cbn [snd] in Hrest.
    assert (exists k,
              k = List.length (startsFrom resumes new0) /\
              counted (log w) k w1) as (k & -> & new & m & Hlog & Hc).
    { assert (exists k,
                k = List.length (startsFrom resumes new0) /\
                counting Cursor.uploadedParts l (log w) k w0) as Hpre.
      { eexists. split; [reflexivity |].
        exists st0, new0. split; [exact Hl0 |]. split; [exact Hlog0 |].
        rewrite Hparts0. split; [lia |]. rewrite Nat.sub_diag.
        apply partCounts_quiet, Hq0. }
      specialize (Hbody Hpre). destruct r1; exact Hbody. }
    rewrite Hlog, Hlog0, app_assoc in Hrest.
    apply app_inv_tail in Hrest. subst new.
    destruct r1 as [x | e]; cbn [snd].
    + exists (rest ++ new0), m. split; [exact Hlog |].
      rewrite (startsFrom_more resumes rest new0 Hsettled). exact Hc.
    + unfold Cursor.multipartCatch, bind, onProgress, record, throw.
      cbn [snd log logEntry].
      eexists (Emit _ :: rest ++ new0), m. rewrite Hlog.
      split; [reflexivity |].
      rewrite startsFrom_entry by reflexivity.
      rewrite (startsFrom_more resumes rest new0 Hsettled).
      change (Emit ?p :: rest ++ new0) with ([Emit p] ++ rest ++ new0).
      rewrite partCounts_more by (repeat constructor). exact Hc.
  - unfold Cursor.multipartCatch, bind, ret, onProgress, record, throw.
    cbn [snd log logEntry].
    eexists (Emit _ :: new0), 0. rewrite Hlog0. split; [reflexivity |].
    change (Emit ?p :: new0) with ([Emit p] ++ new0).
    rewrite partCounts_more by (repeat constructor).
    apply partCounts_quiet, Hq0.
Qed.

(** X21.  In both managers, whatever the backend answers and whoever calls
    in: the [uploading] progress reports of one chunked call count the
    parts up one by one; their [currentPart] values are, in the order of
    the reports, [k + 1], [k + 2], ... without a gap or a repetition, where
    [k] is the number of parts in the answer to [ListParts] that the call
    got: the call gets one such answer at most, and none, so that [k] is 0,
    when it initiates the transfer. *)
Theorem progress_counts_the_parts_up env bucket key filePath size rid
    (w : Gap.W) (v : Cursor.W) :
  let started (registry : gmap string nat) :=
    truthy rid || bool_decide (is_Some (registry !! stateKey bucket key)) in
  (exists new m,
     log (Gap.multipartUpload env bucket key filePath size rid w).2
     = new ++ log w /\
     answered (started (uploadStates w)) new /\
     partCounts new = seq (List.length (listedIn new) + 1) m) /\
  (exists new m,
     log (Cursor.multipartUpload env bucket key filePath size rid v).2
     = new ++ log v /\
     answered (started (uploadStates v)) new /\
     partCounts new = seq (List.length (listedIn new) + 1) m).
Proof.
  cbv zeta. split.
  - destruct (Gap_multipartUpload_counted env bucket key filePath size rid w)
      as (new & m & Hlog & Hc).
    destruct (Gap_multipartUpload_answers env bucket key filePath size rid w)
      as (new' & Hlog' & Hans).
    rewrite Hlog in Hlog'. apply app_inv_tail in Hlog'. subst new'.
    exists new, m. split; [exact Hlog |]. split; [exact Hans |].
    rewrite <- (answered_listedIn _ new Hans). exact Hc.
  - destruct (Cursor_multipartUpload_counted env bucket key filePath size rid
                v) as (new & m & Hlog & Hc).
    destruct (Cursor_multipartUpload_answers env bucket key filePath size rid
                v) as (new' & Hlog' & Hans).
    rewrite Hlog in Hlog'. apply app_inv_tail in Hlog'. subst new'.
    exists new, m. split; [exact Hlog |]. split; [exact Hans |].
    rewrite <- (answered_listedIn _ new Hans). exact Hc.
Qed.

(** The call that resumes the 25 MiB upload of which the backend lists the
    parts 2 and 4 reports the parts 3, 4 and 5 of 5, in both managers. *)
Example resumed_call_counts_on_from_the_listing :
  let env := calmEnv (25 * MiB) [mkPart 2 "e2"; mkPart 4 "e4"] in
  partCounts
    (log (Gap.multipartUpload env "b" "k" "f" (25 * MiB) (Some "upload-1")
            gapWorld24).2)
  = [3; 4; 5] /\
  partCounts
    (log (Cursor.multipartUpload env "b" "k" "f" (25 * MiB)
            (Some "upload-1") cursorWorld24).2)
  = [3; 4; 5].
Proof. vm_compute. split; reflexivity. Qed.

(** * The helpers around the managers *)

Lemma Download_totalLength_cons chunk chunks :
  Download.totalLength (chunk :: chunks)
  = List.length chunk + Download.totalLength chunks.
Proof.
  unfold Download.totalLength. cbn [foldl].
  generalize (List.length chunk). generalize 0.
  induction chunks as [| c cs IH]; intros a b; cbn [foldl]; [lia |].
  replace (a + b + List.length c) with (a + List.length c + b) by lia.
  apply IH.
Qed.

Lemma Download_totalLength_concat chunks :
  Download.totalLength chunks = List.length (concat chunks).
Proof.
  induction chunks as [| c cs IH]; [reflexivity |].
  rewrite Download_totalLength_cons, IH. cbn [concat].
  rewrite length_app. reflexivity.
Qed.

(** Filling from [offset] leaves what is before it and writes the chunks
    behind one another. *)
Lemma Download_fill_spec : forall chunks before rest,
  List.length rest = List.length (concat chunks) ->
  Download.fill chunks (before ++ rest) (List.length before)
  = Some (before ++ concat chunks).
Proof.
  induction chunks as [| c cs IH]; intros before rest Hlen.
  - cbn in *. destruct rest; [reflexivity | discriminate].
  - cbn [Download.fill concat] in *. rewrite length_app in Hlen.
    unfold Download.set.
    destruct (Nat.leb_spec (List.length before + List.length c)
                (List.length (before ++ rest))) as [Hle | Hgt];
      [| rewrite length_app in Hgt; lia].
    rewrite take_app_length.
    replace (drop (List.length before + List.length c) (before ++ rest))
      with (drop (List.length c) rest)
      by (rewrite drop_app_add'; reflexivity).
    replace (List.length before + List.length c)
      with (List.length (before ++ c)) by (rewrite length_app; reflexivity).
    rewrite (app_assoc before c).
    rewrite (IH (before ++ c) (drop (List.length c) rest))
      by (rewrite length_drop; lia).
    rewrite <- app_assoc. reflexivity.
Qed.

(** X22. [downloadFile] of main.ts hands to [Deno.writeFile] exactly the
    chunks of the response body, one behind the other in the order in
    which they were streamed: no [result.set] is out of range, no byte of
    the zeroed array is left over, and the length is the sum of the chunk
    lengths. *)
Theorem downloaded_chunks_are_concatenated chunks :
  Download.concatenate chunks = Some (concat chunks) /\
  List.length (concat chunks) = Download.totalLength chunks.
Proof.
  split; [| symmetry; apply Download_totalLength_concat].
  unfold Download.concatenate.
  apply (Download_fill_spec chunks []).
  rewrite repeat_length. apply Download_totalLength_concat.
Qed.

Lemma Demo_writeChunks_full : forall n fuel totalSize written,
  n <= fuel ->
  (totalSize - written = Z.of_nat n * Demo.chunkSize)%Z ->
  Demo.writeChunks fuel totalSize written = Some (repeat Demo.chunkSize n).
Proof.
  assert (0 < Demo.chunkSize)%Z as Hpos by reflexivity.
  induction n as [| n IH]; intros fuel totalSize written Hfuel Hrest.
  - assert ((written <? totalSize)%Z = false) as Hlt
      by (apply Z.ltb_ge; lia).
    destruct fuel; cbn [Demo.writeChunks]; rewrite Hlt; reflexivity.
  - destruct fuel as [| fuel]; [lia |].
    assert ((written <? totalSize)%Z = true) as Hlt
      by (apply Z.ltb_lt; nia).
    cbn [Demo.writeChunks]. rewrite Hlt. cbv zeta.
    replace (Z.min Demo.chunkSize (totalSize - written))
      with Demo.chunkSize by (symmetry; apply Z.min_l; nia).
    rewrite (IH fuel totalSize (written + Demo.chunkSize)%Z) by lia.
    reflexivity.
Qed.

Lemma sum_repeat (c : Z) n :
  fold_right Z.add 0%Z (repeat c n) = (Z.of_nat n * c)%Z.
Proof.
  induction n as [| n IH]; [reflexivity |].
  cbn [repeat fold_right]. rewrite IH. lia.
Qed.

(** X23. [createTestFile] of the demo, asked for a whole number of MiB,
    comes to an end after 16 passes for each MiB and writes exactly that
    many chunks of 65536 bytes, the most that [crypto.getRandomValues]
    fills at once: the file has the requested size to the byte. *)
Theorem test_file_is_written_in_full_chunks (sizeMB : Z) (fuel : nat) :
  (0 <= sizeMB)%Z ->
  Z.to_nat (16 * sizeMB) <= fuel ->
  let chunks := repeat 65536%Z (Z.to_nat (16 * sizeMB)) in
  Demo.createTestFile fuel sizeMB = Some chunks /\
  fold_right Z.add 0%Z chunks = (sizeMB * 1024 * 1024)%Z.
Proof.
  intros Hsize Hfuel chunks. split.
  - unfold Demo.createTestFile.
    apply (Demo_writeChunks_full (Z.to_nat (16 * sizeMB)) fuel);
      [exact Hfuel |].
    unfold Demo.chunkSize. lia.
  - unfold chunks. rewrite sum_repeat. lia.
Qed.

Lemma test_file_is_written_in_full_chunks_witness :
  ((0 <= 3)%Z /\ Z.to_nat (16 * 3) <= 48) /\
  Demo.createTestFile 48 3 = Some (repeat 65536%Z 48) /\
  fold_right Z.add 0%Z (repeat 65536%Z 48) = (3 * 1024 * 1024)%Z.
Proof.
  assert ((0 <= 3)%Z) as H1 by lia.
  assert (Z.to_nat (16 * 3) <= 48) as H2 by (vm_compute; lia).
  split; [split; assumption |].
  exact (test_file_is_written_in_full_chunks 3 48 H1 H2).
Defined.
